(** * calcvar: the papers database and its analysis

    A shallow embedding of [build_papers_db.py] (identifier normalisation,
    relevance scoring, merging of duplicate rows) and of [analyze.py]
    (thread assignment, influence, citation graph, layout seeding), with the
    properties of the specification stated and settled over it.

    Conventions of the embedding.
    - Text is a [string] of bytes; [str.lower], [str.strip] and the regular
      expression classes act on the ASCII range, bytes above 127 are kept.
      On ASCII text this is the interpreter's behaviour; a property that
      depends on the case mapping or on word boundaries of other characters
      is stated for ASCII text ([ascii_only]).
    - An operation that can raise is modelled with the error it raises where
      a property is about errors ([outcome]).
    - A paper is a Python dict.  The code reads every list-valued key with
      [get(k) or []], every count with [get(k) or 0] and never tells a
      missing key from [None], an empty list or zero; the record below keeps
      that reading: a list field is [[]] when the key is missing, a count is
      [0].  [year] and the identifier fields are optional, and an empty
      string or a zero year is falsy as in Python.
    - Floats that are only compared and maximised are rationals ([Q]); the
      influence formula, which uses [log1p], is stated over the reals. *)

From Stdlib Require Import ZArith QArith Qreals Reals Lra Lia Permutation Sorted.
From Stdlib Require Import Ascii String.
From Stdlib Require Lqa.
From stdpp Require Import gmap strings list fin_maps pretty sorting.

Local Open Scope string_scope.
Local Open Scope Z_scope.
Local Open Scope list_scope.

(** ** Text *)

Module Text.

Definition chars (s : string) : list ascii := list_ascii_of_string s.
Definition text (l : list ascii) : string := string_of_list_ascii l.

Definition code (c : ascii) : N := N_of_ascii c.

Definition between (lo hi : N) (c : ascii) : bool :=
  ((lo <=? code c) && (code c <=? hi))%N.

Definition is_upper : ascii -> bool := between 65 90.
Definition is_lower : ascii -> bool := between 97 122.
Definition is_digit : ascii -> bool := between 48 57.

(** [[a-z0-9]] *)
Definition is_lower_alnum (c : ascii) : bool := is_lower c || is_digit c.

(** [\w]: letters, digits, the underscore.  On ASCII text this is the
    interpreter's class.  A byte above 127 is read as part of a letter of a
    longer alphabet; the interpreter decodes the character and tells an
    accented letter (a word character) from a dash or a no-break space (none).
    What is stated of word boundaries below is stated for ASCII text. *)
Definition is_word (c : ascii) : bool :=
  is_lower c || is_upper c || is_digit c || (code c =? 95)%N || (128 <=? code c)%N.

(** [str.isspace] and [\s] on the ASCII range. *)
Definition is_space (c : ascii) : bool :=
  between 9 13 c || between 28 32 c.

Definition lower_char (c : ascii) : ascii :=
  if is_upper c then ascii_of_N (code c + 32) else c.

(** [str.lower] on the ASCII range: the letters A to Z are mapped, every
    other byte is kept.  The interpreter also maps the capital letters of
    other alphabets; what depends on that is stated for ASCII text. *)
Definition lower (s : string) : string := text (map lower_char (chars s)).

Fixpoint lstrip_by (f : ascii -> bool) (l : list ascii) : list ascii :=
  match l with
  | c :: l' => if f c then lstrip_by f l' else l
  | [] => []
  end.

Definition strip_by (f : ascii -> bool) (l : list ascii) : list ascii :=
  rev (lstrip_by f (rev (lstrip_by f l))).

(** [str.strip()] *)
Definition strip (s : string) : string := text (strip_by is_space (chars s)).

(** [re.sub(cls+, sep, s)]: every maximal run of characters of the class
    is replaced by one separator. *)
Fixpoint sub_runs_from (cls : ascii -> bool) (sep : ascii) (in_run : bool)
    (l : list ascii) : list ascii :=
  match l with
  | [] => []
  | c :: l' =>
      if cls c then
        if in_run then sub_runs_from cls sep true l'
        else sep :: sub_runs_from cls sep true l'
      else c :: sub_runs_from cls sep false l'
  end.

Definition sub_runs (cls : ascii -> bool) (sep : ascii) (l : list ascii) : list ascii :=
  sub_runs_from cls sep false l.

(** A string is truthy when it is not empty. *)
Definition truthy (s : string) : bool :=
  match s with EmptyString => false | String _ _ => true end.

Definition otruthy (o : option string) : bool :=
  match o with Some s => truthy s | None => false end.

(** [[x for x in (a, b) if x]] *)
Definition both (a b : option string) : list string :=
  omap (fun o : option string => if otruthy o then o else None) [a; b].

(** [sep.join(l)] *)
Fixpoint join (sep : string) (l : list string) : string :=
  match l with
  | [] => ""
  | [s] => s
  | s :: l' => s +:+ sep +:+ join sep l'
  end.

(** [s.startswith(p)] with both sides already lower-cased by the caller. *)
Fixpoint starts_with (p s : list ascii) : bool :=
  match p, s with
  | [], _ => true
  | a :: p', b :: s' => if Ascii.eqb a b then starts_with p' s' else false
  | _ :: _, [] => false
  end.

End Text.

(** ** build_papers_db.py *)

Module Db.

Import Text.

(** A paper row.  [relevance_score] is a float that the merge only compares
    and maximises. *)
Record paper := Paper {
  id : string;
  title : string;
  year : option Z;
  authors : list string;
  venue : option string;
  doi : option string;
  arxiv_id : option string;
  eprint_id : option string;
  url : option string;
  openalex_id : option string;
  cited_by_count : Z;
  ss_cited_by_count : Z;
  referenced_works : list string;
  type_ : option string;
  abstract_text : string;
  concept_terms : list string;
  keyword_terms : list string;
  relevance_score : Q;
  relevance_reasons : list string;
  tags : list string;
  matched_queries : list string;
  source_types : list string;
  source : option string;
  seed : bool;
  aliases : list string
}.

(** [re.sub(r"\\[nrt]", " ", text)]: a backslash followed by n, r or t
    becomes one space. *)
Fixpoint strip_escapes (l : list ascii) : list ascii :=
  match l with
  | [] => []
  | c :: l' =>
      match l' with
      | d :: l'' =>
          if (code c =? 92)%N && ((code d =? 110)%N || (code d =? 114)%N || (code d =? 116)%N)
          then " "%char :: strip_escapes l''
          else c :: strip_escapes l'
      | [] => [c]
      end
  end.

Definition normalize_title_key (title : string) : string :=
  let t := strip_escapes (chars (lower title)) in
  strip (text (sub_runs (fun c => negb (is_lower_alnum c)) " "%char t)).

(** [re.search(r"/([AW]\d+)$", value)] on the reversed characters: the
    digits at the end, then A or W, then the slash. *)
Fixpoint take_while (f : ascii -> bool) (l : list ascii) : list ascii :=
  match l with
  | c :: l' => if f c then c :: take_while f l' else []
  | [] => []
  end.

Definition openalex_suffix (value : list ascii) : option (list ascii) :=
  let r := rev value in
  let ds := take_while is_digit r in
  match ds, lstrip_by is_digit r with
  | _ :: _, k :: sl :: _ =>
      if ((code k =? 65)%N || (code k =? 87)%N) && (code sl =? 47)%N
      then Some (k :: rev ds) else None
  | _, _ => None
  end.

Definition short_openalex_id (openalex_id : option string) : option string :=
  match openalex_id with
  | None => None
  | Some s =>
      if truthy s then
        let value := strip s in
        match openalex_suffix (chars value) with
        | Some g => Some (text g)
        | None => Some value
        end
      else None
  end.

(** [str(x)] of an optional string inside an f-string. *)
Definition fmt_opt (o : option string) : string :=
  match o with Some s => s | None => "None" end.

Definition year_truthy (y : option Z) : bool :=
  match y with Some v => negb (v =? 0)%Z | None => false end.

Definition canonical_paper_id (doi arxiv_id openalex_id : option string)
    (title : string) (year : option Z) : string :=
  if otruthy doi then "doi:" +:+ fmt_opt doi
  else if otruthy arxiv_id then "arxiv:" +:+ fmt_opt arxiv_id
  else if otruthy openalex_id then "openalex:" +:+ fmt_opt (short_openalex_id openalex_id)
  else
    let title_key :=
      text (strip_by (fun c => (code c =? 45)%N)
              (sub_runs (fun c => negb (is_lower_alnum c)) "-"%char (chars (lower title)))) in
    "title:" +:+ title_key +:+ ":" +:+
      (match year with
       | Some y => if (y =? 0)%Z then "na" else pretty y
       | None => "na"
       end).

(** [_is_arxiv_doi]: the DOI starts with 10.48550/arxiv. in any case. *)
Definition _is_arxiv_doi (doi : string) : bool :=
  starts_with (chars "10.48550/arxiv.") (chars (lower doi)).

(** [sorted(set(l))]: the elements in increasing order, each once. *)
Fixpoint set_insert (x : string) (l : list string) : list string :=
  match l with
  | [] => [x]
  | y :: l' =>
      match String.compare x y with
      | Lt => x :: l
      | Eq => l
      | Gt => y :: set_insert x l'
      end
  end.

Definition sorted_set (l : list string) : list string :=
  foldr set_insert [] l.

Definition str_eqb (a b : string) : bool := String.eqb a b.

(** [max(a, b)] on floats: the second argument only when it is greater. *)
Definition Qlt_bool (a b : Q) : bool := negb (Qle_bool b a).
Definition max_score (a b : Q) : Q := if Qlt_bool a b then b else a.

(** [max(ys)] of a non-empty list of years. *)
Definition max_year (ys : list Z) : option Z :=
  match ys with
  | [] => None
  | y :: ys' => Some (fold_left Z.max ys' y)
  end.

Definition first_or (l : list string) (d : option string) : option string :=
  match l with x :: _ => Some x | [] => d end.

(** [if not existing.get(k) and both: existing[k] = both[0]] *)
Definition fill (cur : option string) (bothv : list string) : option string :=
  if otruthy cur then cur else first_or bothv cur.

Definition set_aliases (p : paper) (al : list string) : paper :=
  Paper (id p) (title p) (year p) (authors p) (venue p) (doi p) (arxiv_id p)
    (eprint_id p) (url p) (openalex_id p) (cited_by_count p) (ss_cited_by_count p)
    (referenced_works p) (type_ p) (abstract_text p) (concept_terms p)
    (keyword_terms p) (relevance_score p) (relevance_reasons p) (tags p)
    (matched_queries p) (source_types p) (source p) (seed p) al.

(** The union of a set-valued key: [sorted(v for v in vals if v)]. *)
Definition union_key (a b : list string) : list string :=
  sorted_set (filter (fun v => truthy v = true) (a ++ b)).

(** [merge_paper_rows] updates [existing] in place, one block of assignments
    after the other; each block is a function on the current row. *)

(** The base row: the stronger row, with the aliases of both rows and the
    identifier of the other one. *)
Definition merge_base (existing incoming : paper) : paper :=
  if Qlt_bool (relevance_score existing) (relevance_score incoming) then
    set_aliases incoming
      (sorted_set (filter (fun a => truthy a && negb (str_eqb a (id incoming)) = true)
                     (aliases existing ++ [id existing] ++ aliases incoming)))
  else
    set_aliases existing
      (sorted_set (filter (fun a => truthy a && negb (str_eqb a (id existing)) = true)
                     (aliases existing ++ [id incoming] ++ aliases incoming))).

(** The two citation counts and the score take the greater value. *)
Definition merge_counts (incoming p : paper) : paper :=
  Paper (id p) (title p) (year p) (authors p) (venue p) (doi p) (arxiv_id p)
    (eprint_id p) (url p) (openalex_id p)
    (Z.max (cited_by_count p) (cited_by_count incoming))
    (Z.max (ss_cited_by_count p) (ss_cited_by_count incoming))
    (referenced_works p) (type_ p) (abstract_text p) (concept_terms p)
    (keyword_terms p) (max_score (relevance_score p) (relevance_score incoming))
    (relevance_reasons p) (tags p) (matched_queries p) (source_types p) (source p)
    (seed p) (aliases p).

(** The longer list of references is kept. *)
Definition merge_refs (incoming p : paper) : paper :=
  Paper (id p) (title p) (year p) (authors p) (venue p) (doi p) (arxiv_id p)
    (eprint_id p) (url p) (openalex_id p) (cited_by_count p) (ss_cited_by_count p)
    (if (length (referenced_works p) <? length (referenced_works incoming))%nat
     then referenced_works incoming else referenced_works p)
    (type_ p) (abstract_text p) (concept_terms p) (keyword_terms p)
    (relevance_score p) (relevance_reasons p) (tags p) (matched_queries p)
    (source_types p) (source p) (seed p) (aliases p).

(** The set-valued keys are united. *)
Definition merge_sets (incoming p : paper) : paper :=
  Paper (id p) (title p) (year p) (union_key (authors p) (authors incoming)) (venue p)
    (doi p) (arxiv_id p) (eprint_id p) (url p) (openalex_id p) (cited_by_count p)
    (ss_cited_by_count p) (referenced_works p) (type_ p) (abstract_text p)
    (concept_terms p) (keyword_terms p) (relevance_score p)
    (union_key (relevance_reasons p) (relevance_reasons incoming))
    (union_key (tags p) (tags incoming))
    (union_key (matched_queries p) (matched_queries incoming))
    (union_key (source_types p) (source_types incoming))
    (source p) (seed p) (aliases p).

(** The published DOI is preferred to the arXiv one. *)
Definition merge_doi (both_dois : list string) (p : paper) : paper :=
  Paper (id p) (title p) (year p) (authors p) (venue p)
    (match filter (fun d => _is_arxiv_doi d = false) both_dois with
     | d :: _ => Some d
     | [] => first_or both_dois (doi p)
     end)
    (arxiv_id p) (eprint_id p) (url p) (openalex_id p) (cited_by_count p)
    (ss_cited_by_count p) (referenced_works p) (type_ p) (abstract_text p)
    (concept_terms p) (keyword_terms p) (relevance_score p) (relevance_reasons p)
    (tags p) (matched_queries p) (source_types p) (source p) (seed p) (aliases p).

(** The identifiers, the URL and the venue the base lacks are filled in. *)
Definition merge_fill (both_arxiv both_openalex both_urls both_venues : list string)
    (p : paper) : paper :=
  Paper (id p) (title p) (year p) (authors p) (fill (venue p) both_venues) (doi p)
    (fill (arxiv_id p) both_arxiv) (eprint_id p) (fill (url p) both_urls)
    (fill (openalex_id p) both_openalex) (cited_by_count p) (ss_cited_by_count p)
    (referenced_works p) (type_ p) (abstract_text p) (concept_terms p)
    (keyword_terms p) (relevance_score p) (relevance_reasons p) (tags p)
    (matched_queries p) (source_types p) (source p) (seed p) (aliases p).

(** The later year is kept. *)
Definition merge_year (both_years : list Z) (p : paper) : paper :=
  Paper (id p) (title p)
    (match max_year both_years with Some y => Some y | None => year p end)
    (authors p) (venue p) (doi p) (arxiv_id p) (eprint_id p) (url p) (openalex_id p)
    (cited_by_count p) (ss_cited_by_count p) (referenced_works p) (type_ p)
    (abstract_text p) (concept_terms p) (keyword_terms p) (relevance_score p)
    (relevance_reasons p) (tags p) (matched_queries p) (source_types p) (source p)
    (seed p) (aliases p).

Definition set_id (p : paper) (new_id : string) (al : list string) : paper :=
  Paper new_id (title p) (year p) (authors p) (venue p) (doi p) (arxiv_id p)
    (eprint_id p) (url p) (openalex_id p) (cited_by_count p) (ss_cited_by_count p)
    (referenced_works p) (type_ p) (abstract_text p) (concept_terms p)
    (keyword_terms p) (relevance_score p) (relevance_reasons p) (tags p)
    (matched_queries p) (source_types p) (source p) (seed p) al.

(** The canonical identifier is computed again; when it differs, the old
    identifier becomes an alias. *)
Definition recompute_id (p : paper) : paper :=
  let new_id := canonical_paper_id (doi p) (arxiv_id p) (openalex_id p) (title p) (year p) in
  if str_eqb new_id (id p) then p
  else
    set_id p new_id
      (sorted_set (filter (fun a => truthy a = true)
                     (filter (fun a => str_eqb a new_id = false) (aliases p ++ [id p])))).

Definition both_years (existing incoming : paper) : list Z :=
  filter (fun y => y ≠ 0) (omap (fun y => y) [year existing; year incoming]).

(** The row after all the blocks but the last. *)
Definition merge_fields (existing incoming : paper) : paper :=
  merge_year (both_years existing incoming)
    (merge_fill (both (arxiv_id existing) (arxiv_id incoming))
       (both (openalex_id existing) (openalex_id incoming))
       (both (url existing) (url incoming))
       (both (venue existing) (venue incoming))
       (merge_doi (both (doi existing) (doi incoming))
          (merge_sets incoming
             (merge_refs incoming
                (merge_counts incoming (merge_base existing incoming)))))).

Definition merge_paper_rows (existing incoming : paper) : paper :=
  recompute_id (merge_fields existing incoming).

(** The dict [deduped], in insertion order. *)
Fixpoint upsert (key : string) (p : paper) (d : list (string * paper)) : list (string * paper) :=
  match d with
  | [] => [(key, p)]
  | (k, q) :: d' =>
      if str_eqb k key then (k, merge_paper_rows q p) :: d'
      else (k, q) :: upsert key p d'
  end.

Definition dedupe_step (d : list (string * paper)) (p : paper) : list (string * paper) :=
  upsert (normalize_title_key (title p)) p d.

Definition dedupe_table (papers : list paper) : list (string * paper) :=
  fold_left dedupe_step papers [].

Definition dedupe_accepted_papers (papers : list paper) : list paper :=
  map snd (dedupe_table papers).

(** *** Rows as dicts that are shared

    [merge_paper_rows] writes into the dict [existing], and
    [dedupe_accepted_papers] stores in its table the dicts of the input list
    themselves.  The functions above compute on values; that is what the
    code does as long as the dicts of the list are distinct objects.  Here
    the same code runs on a store of dicts, addressed by reference, so that
    a list may hold one dict twice. *)

(** The row that [merge_paper_rows] leaves in [existing]; when both
    arguments are one dict, a block that reads [incoming] reads the row as
    the blocks before it left it. *)
Definition merge_aliased (same : bool) (existing incoming : paper) : paper :=
  let inc (cur : paper) := if same then cur else incoming in
  let p1 := merge_base existing incoming in
  let p2 := merge_counts (inc p1) p1 in
  let p3 := merge_refs (inc p2) p2 in
  let p4 := merge_sets (inc p3) p3 in
  recompute_id
    (merge_year (both_years existing incoming)
       (merge_fill (both (arxiv_id existing) (arxiv_id incoming))
          (both (openalex_id existing) (openalex_id incoming))
          (both (url existing) (url incoming))
          (both (venue existing) (venue incoming))
          (merge_doi (both (doi existing) (doi incoming)) p4))).

(** [merge_paper_rows] on two references into the store. *)
Definition merge_in_place (h : gmap nat paper) (e i : nat) : gmap nat paper :=
  match h !! e, h !! i with
  | Some ev, Some iv => <[e := merge_aliased (bool_decide (e = i)) ev iv]> h
  | _, _ => h
  end.

(** [deduped[key]], a reference. *)
Fixpoint find_key (key : string) (d : list (string * nat)) : option nat :=
  match d with
  | [] => None
  | (k, e) :: d' => if str_eqb k key then Some e else find_key key d'
  end.

(** One round of the loop of [dedupe_accepted_papers] over references. *)
Definition dedupe_step_in_place (st : gmap nat paper * list (string * nat)) (r : nat)
    : gmap nat paper * list (string * nat) :=
  match st.1 !! r with
  | None => st
  | Some pv =>
      let key := normalize_title_key (title pv) in
      match find_key key st.2 with
      | Some e => (merge_in_place st.1 e r, st.2)
      | None => (st.1, st.2 ++ [(key, r)])
      end
  end.

Definition dedupe_in_place (h : gmap nat paper) (papers : list nat)
    : gmap nat paper * list (string * nat) :=
  fold_left dedupe_step_in_place papers (h, []).

(** The rows that the returned list of dicts holds at the end. *)
Definition rows_of (st : gmap nat paper * list (string * nat)) : list paper :=
  omap (fun ke : string * nat => st.1 !! ke.2) st.2.

(** *** Relevance scoring *)

(** [[\s\-]] *)
Definition is_sep (c : ascii) : bool := is_space c || (code c =? 45)%N.

(** The escaped term as a pattern: every character stands for itself, but a
    space stands for [[\s\-]+].  [match_here pat ok_end t] holds when the
    pattern matches a prefix of [t] and [ok_end] accepts what follows. *)
Fixpoint match_here (pat : list ascii) (ok_end : list ascii -> bool) (t : list ascii) : bool :=
  match pat with
  | [] => ok_end t
  | c :: pat' =>
      if (code c =? 32)%N then
        (fix seps (u : list ascii) : bool :=
           match u with
           | d :: u' => if is_sep d then match_here pat' ok_end u' || seps u' else false
           | [] => false
           end) t
      else
        match t with
        | d :: t' => if Ascii.eqb c d then match_here pat' ok_end t' else false
        | [] => false
        end
  end.

(** [re.search]: the first position, from left to right, where the pattern
    matches and the character before is accepted by [ok_start]. *)
Fixpoint search_from (pat : list ascii) (ok_start : option ascii -> bool)
    (ok_end : list ascii -> bool) (prev : option ascii) (t : list ascii) : bool :=
  (ok_start prev && match_here pat ok_end t) ||
  match t with
  | c :: t' => search_from pat ok_start ok_end (Some c) t'
  | [] => false
  end.

(** [re.fullmatch(r"[a-z0-9]{1,4}", term)] *)
Definition short_token (term : list ascii) : bool :=
  forallb is_lower_alnum term && (1 <=? length term)%nat && (length term <=? 4)%nat.

Definition not_at (cls : ascii -> bool) (prev : option ascii) : bool :=
  match prev with Some c => negb (cls c) | None => true end.

Definition not_next (cls : ascii -> bool) (t : list ascii) : bool :=
  match t with c :: _ => negb (cls c) | [] => true end.

(** A short token is searched between word boundaries, any other term where
    no lower-case letter or digit touches it. *)
Definition term_in_text (term text : string) : bool :=
  let pat := chars (lower term) in
  if short_token pat then
    search_from pat (not_at is_word) (not_next is_word) None (chars text)
  else
    search_from pat (not_at is_lower_alnum) (not_next is_lower_alnum) None (chars text).

Definition DOMAIN_TERMS : list (string * list string) :=
  [ ("classical_calcvar",
      ["euler-lagrange"; "euler lagrange"; "first variation"; "second variation";
       "legendre condition"; "weierstrass"; "calculus of variations";
       "variational problem"; "variational principle"]);
    ("direct_methods",
      ["lower semicontinuity"; "coercivity"; "weak convergence"; "sobolev";
       "reflexive"; "direct method"; "minimizing sequence";
       "weak lower semicontinuity"; "existence theorem"; "compactness";
       "weak topology"; "functional analysis"; "banach space"; "morrey";
       "growth condition"]);
    ("regularity",
      ["partial regularity"; "hölder continuity"; "holder continuity"; "de giorgi";
       "moser"; "nash"; "regularity of minimizers"; "elliptic regularity";
       "schauder"; "hölder"; "lipschitz"; "harnack"; "a priori estimates";
       "bootstrap"; "blow-up"; "singular set"; "hausdorff dimension"; "almgren";
       "regularity elliptic"; "mingione"]);
    ("geometric",
      ["minimal surfaces"; "minimal surface"; "harmonic maps"; "harmonic map";
       "geodesics"; "geodesic"; "curvature flow"; "plateau problem";
       "area functional"; "willmore"; "mean curvature"; "ricci flow"; "varifold";
       "current"; "rectifiable"; "geometric measure"; "area minimizing";
       "stationary varifold"; "constant mean curvature"]);
    ("optimal_control",
      ["pontryagin"; "bellman"; "hamilton-jacobi"; "hamilton jacobi";
       "viscosity solutions"; "viscosity solution"; "optimal control";
       "dynamic programming"]);
    ("convexity",
      ["quasiconvexity"; "quasiconvex"; "polyconvexity"; "polyconvex";
       "rank-one convexity"; "rank one convexity"; "relaxation"; "young measures";
       "young measure"; "convex integration"; "nonlinear elasticity";
       "martensitic"; "shape memory"; "laminates"; "rank-one connection";
       "tartar conjecture"; "morrey conjecture"; "differential inclusion";
       "rigidity estimate"]);
    ("gamma_convergence",
      ["gamma-convergence"; "gamma convergence"; "homogenization";
       "thin structures"; "dimension reduction"; "asymptotic analysis";
       "energy scaling"; "scaling law"; "microstructure"; "thin film";
       "epitaxial"; "mosco convergence"; "epi-convergence"; "variational limit";
       "effective energy"; "continuum limit"; "discrete to continuum";
       "stochastic homogenization"]);
    ("optimal_transport",
      ["wasserstein"; "monge-kantorovich"; "monge kantorovich"; "brenier";
       "displacement convexity"; "optimal transport"; "mass transport";
       "kantorovich"; "gradient flow"; "jko scheme"; "benamou-brenier";
       "entropic regularization"; "sinkhorn"; "wasserstein gradient";
       "otto calculus"]);
    ("free_discontinuity",
      ["mumford-shah"; "free discontinuity"; "sbv";
       "special functions of bounded variation"; "segmentation";
       "crack propagation"; "fracture mechanics variational"; "phase field";
       "ginzburg-landau"; "allen-cahn"; "cahn-hilliard"; "sharp interface limit";
       "diffuse interface"; "modica-mortola"]) ].

(** Rounding of a rational to the nearest integer, halves to the even one. *)
Definition round_half_even (q : Q) : Z :=
  let n := Qnum q in
  let d := Z.pos (Qden q) in
  let f := n / d in
  let r := 2 * (n mod d) in
  if r <? d then f
  else if d <? r then f + 1
  else if Z.even f then f else f + 1.

(** [f"{x:.1f}"] of a non-negative number. *)
Definition fmt1 (x : Q) : string :=
  let t := round_half_even (x * 10) in
  pretty (t / 10) +:+ "." +:+ pretty (t mod 10).

Definition Qmin_py (a b : Q) : Q := if Qlt_bool b a then b else a.

Definition count_distinct (l : list string) : Z := Z.of_nat (length (remove_dups l)).

(** The running state of [score_paper]: score, reasons, tags, number of
    matched domains. *)
Record scoring := Scoring {
  sc_score : Q;
  sc_reasons : list string;
  sc_tags : list string;
  sc_domains : Z
}.

Definition domain_rule (text : string) (st : scoring) (entry : string * list string) : scoring :=
  let '(domain, terms) := entry in
  let matches := filter (fun term => term_in_text term text = true) terms in
  match matches with
  | [] => st
  | _ :: _ =>
      let domain_points := Qmin_py 3 ((8 # 10) * inject_Z (count_distinct matches)) in
      Scoring (sc_score st + domain_points)
        (sc_reasons st ++ ["domain_" +:+ domain +:+ "(+" +:+ fmt1 domain_points +:+ ")"])
        (sc_tags st ++ [domain]) (sc_domains st + 1)
  end.

(** What [score_paper] returns at the year gate. *)
Definition below_min_year : Q * list string * list string * Z :=
  (-999 # 1, ["below_min_year"], [], 0).

(** The rules of [score_paper] after the year gate, for a paper of year [y].
    The text is put together before the gate in the source; nothing in it
    can fail. *)
Definition score_rules (p : paper) (known_researchers : gset string) (y : Z)
    : Q * list string * list string * Z :=
  let title_l := lower (title p) in
  let abstract := lower (abstract_text p) in
  let concepts := join " " (concept_terms p) in
  let keywords := join " " (keyword_terms p) in
  let text := join " " [title_l; abstract; concepts; keywords] in
  let has_calcvar :=
    term_in_text "calculus of variations" text
    || term_in_text "variational method" text
    || term_in_text "variational problem" text
    || term_in_text "euler-lagrange" text
    || term_in_text "euler lagrange" text in
  let s1 :=
    if has_calcvar
    then Scoring 6 ["mentions_calcvar(+6)"] ["classical_calcvar"] 0
    else Scoring 0 [] [] 0 in
  let core_variational :=
    ["variational inequality"; "variational formulation"; "variational principle";
     "minimization problem"; "energy functional"; "functional minimization"] in
  let core_matches :=
    Z.of_nat (length (filter (fun t => term_in_text t text = true) core_variational)) in
  let s2 :=
    if 0 <? core_matches then
      let core_pts := Qmin_py 4 ((15 # 10) * inject_Z core_matches) in
      Scoring (sc_score s1 + core_pts)
        (sc_reasons s1 ++ ["core_variational(+" +:+ fmt1 core_pts +:+ ")"])
        (sc_tags s1 ++ ["classical_calcvar"]) (sc_domains s1)
    else s1 in
  let s3 := fold_left (domain_rule text) DOMAIN_TERMS s2 in
  let matched_authors :=
    filter (fun author => lower author ∈ known_researchers) (authors p) in
  let has_author := match matched_authors with [] => false | _ :: _ => true end in
  let s4 :=
    if has_author then
      let author_points := Qmin_py 6 (2 * inject_Z (count_distinct matched_authors)) in
      Scoring (sc_score s3 + author_points)
        (sc_reasons s3 ++ ["known_researcher(+" +:+ fmt1 author_points +:+ ")"])
        (sc_tags s3 ++ ["known-authors"]) (sc_domains s3)
    else s3 in
  let cited_by := cited_by_count p in
  let s5 :=
    if 200 <=? cited_by then
      Scoring (sc_score s4 + 2) (sc_reasons s4 ++ ["high_citations_200(+2)"])
        (sc_tags s4) (sc_domains s4)
    else if 50 <=? cited_by then
      Scoring (sc_score s4 + 1) (sc_reasons s4 ++ ["citations_50(+1)"])
        (sc_tags s4) (sc_domains s4)
    else s4 in
  let s6 :=
    if negb has_calcvar && (sc_domains s5 <? 2) && negb has_author then
      Scoring (sc_score s5 - 4) (sc_reasons s5 ++ ["weak_calcvar_signal(-4)"])
        (sc_tags s5) (sc_domains s5)
    else s5 in
  let s7 :=
    if negb (y =? 0) && (y <? 1980) && (100 <=? cited_by) then
      Scoring (sc_score s6 + (15 # 10)) (sc_reasons s6 ++ ["landmark_classic(+1.5)"])
        (sc_tags s6) (sc_domains s6)
    else s6 in
  (sc_score s7, sc_reasons s7, sorted_set (sc_tags s7), sc_domains s7).

Definition score_paper (p : paper) (known_researchers : gset string) (min_year : Z)
    : Q * list string * list string * Z :=
  match year p with
  | None => below_min_year
  | Some y =>
      if y <? min_year then below_min_year
      else score_rules p known_researchers y
  end.

End Db.

(** ** analyze.py *)

Module Analyze.

Import Text.

Definition THREAD_ORDER : list string :=
  ["classical_calcvar"; "direct_methods"; "regularity"; "geometric";
   "optimal_control"; "convexity"; "gamma_convergence"; "optimal_transport";
   "free_discontinuity"].

(** [{t: i * step for i, t in enumerate(order)}]; a dict comprehension keeps
    the last value of a repeated key. *)
Definition index_map (step : Z) (order : list string) : gmap string Z :=
  foldl (fun m it => <[it.2 := Z.of_nat it.1 * step]> m) ∅ (imap (fun i t => (i, t)) order).

Definition THREAD_PRIORITY : gmap string Z := index_map 1 THREAD_ORDER.

(** [min(l, key=f)]: the first element whose key is least. *)
Fixpoint min_by (key : string -> Z) (best : string) (l : list string) : string :=
  match l with
  | [] => best
  | t :: l' => min_by key (if key t <? key best then t else best) l'
  end.

(** [THREAD_PRIORITY[t]]; the tags it is applied to are keys of the dict. *)
Definition priority (t : string) : Z := default 0 (THREAD_PRIORITY !! t).

Definition assign_thread (p : Db.paper) : string :=
  let tags := Db.tags p in
  match tags with
  | [] => "classical_calcvar"
  | _ :: _ =>
      let thread_tags := filter (fun t => is_Some (THREAD_PRIORITY !! t)) tags in
      match thread_tags with
      | [] => "classical_calcvar"
      | _ :: _ =>
          let specific := filter (fun t => t ≠ "classical_calcvar") thread_tags in
          match specific with
          | t :: rest => min_by priority t rest
          | [] => "classical_calcvar"
          end
      end
  end.

(** *** Influence *)

Definition log1p (x : R) : R := ln (1 + x).

(** [round(x)] to the nearest integer, halves to the even one. *)
Definition Rround_half_even (x : R) : Z :=
  let f := Int_part x in
  let d := frac_part x in
  if Rlt_dec d (1 / 2) then f
  else if Rlt_dec (1 / 2) d then f + 1
  else if Z.even f then f else f + 1.

(** [round(x, n)] *)
Definition Rround (x : R) (n : nat) : R :=
  (IZR (Rround_half_even (x * 10 ^ n)) / 10 ^ n)%R.

Definition year_or (d : Z) (y : option Z) : Z :=
  match y with
  | Some v => if v =? 0 then d else v
  | None => d
  end.

Definition compute_influence (p : Db.paper) (in_corpus_citations : gmap string Z)
    (max_citations : Z) (max_relevance : Q) : R :=
  let cited := IZR (Db.cited_by_count p) in
  let relevance := Q2R (Db.relevance_score p) in
  let in_corpus := IZR (default 0 (in_corpus_citations !! Db.id p)) in
  let year := IZR (year_or 1950 (Db.year p)) in
  let cite_norm := (log1p cited / log1p (IZR (Z.max max_citations 1)))%R in
  let rel_norm := (relevance / Rmax (Q2R max_relevance) 1)%R in
  let in_corpus_norm := Rmin (log1p in_corpus / log1p 50)%R 1%R in
  let current_year := 2025%R in
  let recency := Rmax 0 (Rmin 1 ((year - (current_year - 30)) / 30))%R in
  let inf := (0.4 * cite_norm + 0.3 * rel_norm + 0.2 * in_corpus_norm + 0.1 * recency)%R in
  Rround inf 4.

(** *** What the formulas raise *)

(** The errors that the arithmetic of the analysis can raise. *)
Inductive error := ValueError | ZeroDivisionError.

(** The outcome of a computation: its value, or the error raised. *)
Inductive outcome (A : Type) := Returns (a : A) | Raises (e : error).

Arguments Returns {A} a.
Arguments Raises {A} e.

#[global] Instance outcome_ret : MRet outcome := fun A a => Returns a.

#[global] Instance outcome_bind : MBind outcome := fun A B f o =>
  match o with Returns a => f a | Raises e => Raises e end.

(** [a / b] on floats. *)
Definition divide (a b : R) : outcome R :=
  if Req_dec_T b 0 then Raises ZeroDivisionError else Returns (a / b)%R.

(** [math.log1p(x)]: a math domain error at and below -1. *)
Definition log1p_run (x : R) : outcome R :=
  if Rle_dec x (-1) then Raises ValueError else Returns (log1p x).

(** [compute_influence] as the interpreter runs it, every operation in the
    order of the source and with the error it can raise. *)
Definition compute_influence_run (p : Db.paper) (in_corpus_citations : gmap string Z)
    (max_citations : Z) (max_relevance : Q) : outcome R :=
  let cited := IZR (Db.cited_by_count p) in
  let relevance := Q2R (Db.relevance_score p) in
  let in_corpus := IZR (default 0 (in_corpus_citations !! Db.id p)) in
  let year := IZR (year_or 1950 (Db.year p)) in
  num ← log1p_run cited;
  den ← log1p_run (IZR (Z.max max_citations 1));
  cite_norm ← divide num den;
  rel_norm ← divide relevance (Rmax (Q2R max_relevance) 1);
  num ← log1p_run in_corpus;
  den ← log1p_run 50;
  in_corpus_norm ← divide num den;
  let in_corpus_norm := Rmin in_corpus_norm 1%R in
  let current_year := 2025%R in
  ratio ← divide (year - (current_year - 30)) 30;
  let recency := Rmax 0 (Rmin 1 ratio)%R in
  let inf := (0.4 * cite_norm + 0.3 * rel_norm + 0.2 * in_corpus_norm + 0.1 * recency)%R in
  mret (Rround inf 4).

(** *** Citation graph *)

Record edge := Edge { source : string; target : string }.

Definition paper_id_set (papers : list Db.paper) : gset string :=
  list_to_set (map Db.id papers).

(** The references of one paper that resolve to another paper of the corpus. *)
Definition resolved_refs (paper_ids : gset string) (oa_id_to_paper_id : gmap string string)
    (p : Db.paper) : list string :=
  omap (fun ref_oa =>
          match oa_id_to_paper_id !! ref_oa with
          | Some target_id =>
              if truthy target_id && bool_decide (target_id ∈ paper_ids)
                 && negb (Db.str_eqb target_id (Db.id p))
              then Some target_id else None
          | None => None
          end) (Db.referenced_works p).

Definition build_citation_graph (papers : list Db.paper)
    (oa_id_to_paper_id : gmap string string) : list edge :=
  let paper_ids := paper_id_set papers in
  concat (map (fun p => map (Edge (Db.id p)) (resolved_refs paper_ids oa_id_to_paper_id p))
            papers).

(** *** Layout *)

(** A paper of the analysis: the row with its [_thread] key, if set. *)
Record entry := Entry { row : Db.paper; _thread : option string }.

(** [min] and [max] of a generator; they raise on an empty one. *)
Definition min_list (l : list Z) : option Z :=
  match l with [] => None | x :: l' => Some (fold_left Z.min l' x) end.
Definition max_list (l : list Z) : option Z :=
  match l with [] => None | x :: l' => Some (fold_left Z.max l' x) end.

(** [round(x, 1)] of the horizontal coordinate, over the rationals. *)
Definition round1 (x : Q) : Q := inject_Z (Db.round_half_even (x * 10)) / 10.

Section Layout.

(** The interpreter's [hash] on strings.  CPython keys it with a secret drawn
    when the process starts, so each process has its own function. *)
Variable hash : string -> Z.

Definition warm_position (thread_y : gmap string Z) (year_min year_range : Z) (e : entry)
    : Q * Z :=
  let year := year_or 2000 (Db.year (row e)) in
  let thread := default "classical_calcvar" (_thread e) in
  let x := (inject_Z (year - year_min) / inject_Z year_range * 800 - 400)%Q in
  let y := default 0 (thread_y !! thread) + (hash (Db.id (row e)) mod 60 - 30) in
  (round1 x, y).

(** [None] is the ValueError of [min] on an empty sequence. *)
Definition compute_warm_positions (papers : list entry) (thread_order : list string)
    : option (gmap string (Q * Z)) :=
  let thread_y := index_map 100 thread_order in
  let years := map (fun e => year_or 2000 (Db.year (row e))) papers in
  match min_list years, max_list years with
  | Some year_min, Some year_max =>
      let year_range := Z.max (year_max - year_min) 1 in
      Some (foldl (fun positions e =>
                     <[Db.id (row e) := warm_position thread_y year_min year_range e]> positions)
              ∅ papers)
  | _, _ => None
  end.

(** [a / b] on integers: true division. *)
Definition divide_int (a b : Z) : outcome Q :=
  if b =? 0 then Raises ZeroDivisionError else Returns (inject_Z a / inject_Z b)%Q.

Definition warm_position_run (thread_y : gmap string Z) (year_min year_range : Z) (e : entry)
    : outcome (Q * Z) :=
  let year := year_or 2000 (Db.year (row e)) in
  let thread := default "classical_calcvar" (_thread e) in
  ratio ← divide_int (year - year_min) year_range;
  let x := (ratio * 800 - 400)%Q in
  let y := default 0 (thread_y !! thread) + (hash (Db.id (row e)) mod 60 - 30) in
  mret (round1 x, y).

(** [compute_warm_positions] as the interpreter runs it: the ValueError of
    [min] on an empty sequence, and the division of every round. *)
Definition compute_warm_positions_run (papers : list entry) (thread_order : list string)
    : outcome (gmap string (Q * Z)) :=
  let thread_y := index_map 100 thread_order in
  let years := map (fun e => year_or 2000 (Db.year (row e))) papers in
  match min_list years, max_list years with
  | Some year_min, Some year_max =>
      let year_range := Z.max (year_max - year_min) 1 in
      foldl (fun positions e =>
               positions ← positions;
               w ← warm_position_run thread_y year_min year_range e;
               mret (<[Db.id (row e) := w]> positions))
        (Returns ∅) papers
  | _, _ => Raises ValueError
  end.

End Layout.

(** *** The pipeline of [main] *)

Definition short_openalex_id (oa_id : option string) : option string :=
  match oa_id with
  | None => None
  | Some s =>
      if truthy s then
        let value := strip s in
        match Db.openalex_suffix (chars value) with
        | Some g => Some (text g)
        | None => Some value
        end
      else None
  end.

(** [s.replace(needle, "")] for a non-empty needle. *)
Fixpoint remove_all_from (needle : list ascii) (skip : nat) (l : list ascii) : list ascii :=
  match l with
  | [] => []
  | c :: l' =>
      match skip with
      | S k => remove_all_from needle k l'
      | O =>
          if starts_with needle l then remove_all_from needle (length needle - 1) l'
          else c :: remove_all_from needle O l'
      end
  end.

Definition remove_all (needle s : string) : string :=
  text (remove_all_from (chars needle) O (chars s)).

Definition put_short (pid : string) (table : gmap string string) (oa : option string)
    : gmap string string :=
  match short_openalex_id oa with
  | Some short => if truthy short then <[short := pid]> table else table
  | None => table
  end.

(** One round of the loop that fills [oa_id_to_paper_id]. *)
Definition add_lookup (table : gmap string string) (p : Db.paper) : gmap string string :=
  let t1 :=
    match Db.openalex_id p with
    | Some oa => if truthy oa then <[oa := Db.id p]> (put_short (Db.id p) table (Some oa)) else table
    | None => table
    end in
  foldl (fun t alias =>
           if starts_with (chars "openalex:") (chars alias)
           then put_short (Db.id p) t (Some (remove_all "openalex:" alias))
           else t) t1 (Db.aliases p).

Definition build_lookup (papers : list Db.paper) : gmap string string :=
  foldl add_lookup ∅ papers.

(** The counter [in_corpus_citations] and the dict [in_corpus_refs]. *)
Definition count_in_corpus (papers : list Db.paper) (table : gmap string string) : gmap string Z :=
  foldl (fun cnt p =>
           foldl (fun c t => <[t := default 0 (c !! t) + 1]> c) cnt
             (resolved_refs (paper_id_set papers) table p)) ∅ papers.

Definition refs_in_corpus (papers : list Db.paper) (table : gmap string string)
    : gmap string (list string) :=
  foldl (fun m p =>
           match resolved_refs (paper_id_set papers) table p with
           | [] => m
           | ts => <[Db.id p := default [] (m !! Db.id p) ++ ts]> m
           end) ∅ papers.

Definition corpus_max_citations (papers : list Db.paper) : Z :=
  match max_list (map Db.cited_by_count papers) with Some m => m | None => 1 end.

Definition corpus_max_relevance (papers : list Db.paper) : Q :=
  match map Db.relevance_score papers with
  | [] => 1
  | x :: l => fold_left Db.max_score l x
  end.

(** The influence that [main] stores under [_influence]. *)
Definition influence_of (papers : list Db.paper) (p : Db.paper) : R :=
  compute_influence p (count_in_corpus papers (build_lookup papers))
    (corpus_max_citations papers) (corpus_max_relevance papers).

(** [list.sort(key=f)] is stable: an element goes before the first one
    whose key is strictly greater. *)
Fixpoint insert_sorted {A} (le : A -> A -> bool) (x : A) (l : list A) : list A :=
  match l with
  | [] => [x]
  | y :: l' => if le x y then x :: l else y :: insert_sorted le x l'
  end.

Definition stable_sort {A} (le : A -> A -> bool) (l : list A) : list A :=
  foldr (insert_sorted le) [] l.

Definition Rle_bool (x y : R) : bool := if Rle_dec x y then true else false.

(** [l[:n]]: the first [n] elements, and all but the last [-n] when [n] is
    negative. *)
Definition slice_to {A} (n : Z) (l : list A) : list A :=
  if 0 <=? n then take (Z.to_nat n) l
  else take (Z.to_nat (Z.of_nat (length l) + n)) l.

Record core_paper := CorePaper {
  cp_title : string; cp_authors : list string; cp_date : string; cp_inf : R;
  cp_thread : string; cp_cited : Z; cp_refs : list string; cp_tags : list string;
  cp_icc : Z
}.

Record index_paper := IndexPaper {
  ip_title : string; ip_authors : list string; ip_year : option Z; ip_cited : Z;
  ip_inf : R; ip_rel : Q; ip_thread : string; ip_tags : list string;
  ip_doi : option string; ip_arxiv_id : option string; ip_url : option string;
  ip_venue : option string
}.

Record graph_node := GraphNode {
  gn_id : string; gn_title : string; gn_inf : R; gn_thread : string;
  gn_x : Q; gn_y : Z
}.

Record author_node := AuthorNode { an_id : string; an_author : string; an_inf : R }.
Record author_edge := AuthorEdge { ae_source : string; ae_target : string; ae_weight : Z }.

(** The pairs of positions i < j of an author list, each pair sorted. *)
Fixpoint author_pairs (authors : list string) : list (string * string) :=
  match authors with
  | [] => []
  | a :: rest =>
      map (fun b => if String.ltb b a then (b, a) else (a, b)) rest ++ author_pairs rest
  end.

Fixpoint bump (pair : string * string) (c : list (string * string * Z)) : list (string * string * Z) :=
  match c with
  | [] => [(pair, 1)]
  | (k, n) :: c' => if bool_decide (k = pair) then (k, n + 1) :: c' else (k, n) :: bump pair c'
  end.

Definition build_coauthor_network (papers : list (entry * R)) (author_influence : gmap string R)
    : list author_node * list author_edge :=
  let author_lists := map (fun e => Db.authors (row e.1)) papers in
  let coauthor_weights := foldl (fun c pair => bump pair c) [] (concat (map author_pairs author_lists)) in
  let author_set := Db.sorted_set (concat author_lists) in
  let nodes :=
    omap (fun author =>
            let inf := default 0%R (author_influence !! author) in
            if Rlt_dec 0 inf
            then Some (AuthorNode
                         (text (map (fun c => if (code c =? 32)%N then "_"%char else c)
                                  (chars (lower author))))
                         author (Rround inf 4))
            else None) author_set in
  let node_ids : gmap string string :=
    foldl (fun m n => <[an_author n := an_id n]> m) ∅ nodes in
  let edges :=
    omap (fun it : string * string * Z =>
            match node_ids !! it.1.1, node_ids !! it.1.2 with
            | Some s, Some t => if 1 <=? it.2 then Some (AuthorEdge s t it.2) else None
            | _, _ => None
            end)
         (stable_sort (fun a b : string * string * Z => b.2 <=? a.2) coauthor_weights) in
  (nodes, edges).

(** The four views that [main] writes.  The per-thread and per-author
    statistics of the core view are tables over the same sorted papers and
    are left out. *)
Record views := Views {
  core_papers : gmap string core_paper;
  core_graph_nodes : gset string;
  core_graph_edges : list edge;
  papers_dict : gmap string index_paper;
  graph_nodes : list graph_node;
  graph_edges : list edge;
  coauthor_nodes : list author_node;
  coauthor_edges : list author_edge
}.

Section Main.

Variable hash : string -> Z.

(** [--top-papers], an int. *)
Variable top_papers : Z.

Definition date_str (y : option Z) : string :=
  match y with
  | Some v => if v =? 0 then "2000-01-01" else pretty v +:+ "-01-01"
  | None => "2000-01-01"
  end.

(** Everything [main] does once it has found the paper list non-empty. *)
Definition analyse (db_papers : list Db.paper) : views :=
  let oa_id_to_paper_id := build_lookup db_papers in
  let in_corpus_citations := count_in_corpus db_papers oa_id_to_paper_id in
  let in_corpus_refs := refs_in_corpus db_papers oa_id_to_paper_id in
  let scored :=
    map (fun p => (Entry p (Some (assign_thread p)), influence_of db_papers p)) db_papers in
  let papers := stable_sort (fun a b : entry * R => Rle_bool (- a.2) (- b.2)) scored in
  let thread_of (e : entry * R) := default "classical_calcvar" (_thread e.1) in
  let author_influence : gmap string R :=
    foldl (fun m e =>
             foldl (fun m' author => <[author := (default 0%R (m' !! author) + e.2)%R]> m')
               m (Db.authors (row e.1))) ∅ papers in
  let citation_edges := build_citation_graph (map (fun e => row e.1) papers) oa_id_to_paper_id in
  let core :=
    foldl (fun m e =>
             let p := row e.1 in
             <[Db.id p :=
                 CorePaper (Db.title p) (take 10 (Db.authors p)) (date_str (Db.year p)) e.2
                   (thread_of e) (Db.cited_by_count p)
                   (default [] (in_corpus_refs !! Db.id p)) (Db.tags p)
                   (default 0 (in_corpus_citations !! Db.id p))]> m)
      ∅ (slice_to top_papers papers) in
  let top_ids : gset string := dom core in
  let index :=
    foldl (fun m e =>
             let p := row e.1 in
             <[Db.id p :=
                 IndexPaper (Db.title p) (take 10 (Db.authors p)) (Db.year p)
                   (Db.cited_by_count p) e.2 (Db.relevance_score p) (thread_of e)
                   (Db.tags p) (Db.doi p) (Db.arxiv_id p) (Db.url p) (Db.venue p)]> m)
      ∅ papers in
  let shown := take 600 papers in
  let warm_positions :=
    default ∅ (compute_warm_positions hash (map fst shown) THREAD_ORDER) in
  let nodes :=
    map (fun e =>
           let p := row e.1 in
           let w := default (0%Q, 0) (warm_positions !! Db.id p) in
           GraphNode (Db.id p) (Db.title p) e.2 (thread_of e) w.1 w.2) shown in
  let graph_node_ids : gset string := list_to_set (map gn_id nodes) in
  let within (ids : gset string) (e : edge) : bool :=
    bool_decide (source e ∈ ids) && bool_decide (target e ∈ ids) in
  let co := build_coauthor_network papers author_influence in
  Views core top_ids (filter (fun e => within top_ids e = true) citation_edges)
    index nodes (filter (fun e => within graph_node_ids e = true) citation_edges)
    co.1 co.2.

(** [main]: nothing is written when the database holds no paper. *)
Definition main (db_papers : list Db.paper) : option views :=
  match db_papers with
  | [] => None
  | _ :: _ => Some (analyse db_papers)
  end.

End Main.

End Analyze.

(** ** Inputs used in the examples *)

Module Samples.

Import Db.

(** A row as [paper_from_openalex] and the scoring loop leave it. *)
Definition row (pid title : string) (year : option Z) (doi arxiv_id openalex_id : option string)
    (cited : Z) (score : Q) (authors refs aliases tags : list string) : paper :=
  Paper pid title year authors None doi arxiv_id None None openalex_id cited 0 refs
    None "" [] [] score [] tags [] [] (Some "openalex") false aliases.

Definition cites_a : paper :=
  row "doi:10.1/a" "Direct methods" (Some 2001) (Some "10.1/a") None
    (Some "https://openalex.org/W1") 3 8 ["A. Author"] ["W2"; "W1"; "W9"] [] ["direct_methods"].

Definition cited_b : paper :=
  row "doi:10.1/b" "Minimal surfaces" (Some 1999) (Some "10.1/b") None
    (Some "https://openalex.org/W2") 40 9 ["B. Author"] [] [] ["geometric"].

Definition two_tags : paper :=
  row "doi:10.1/c" "Existence of minimizers" (Some 2010) (Some "10.1/c") None None 0 7 []
    [] [] ["direct_methods"; "classical_calcvar"].

Definition no_year : paper :=
  row "doi:10.1/d" "Calculus of variations" None (Some "10.1/d") None None 900 0
    ["Luigi Ambrosio"] [] [] [].

Definition old_year : paper :=
  row "doi:10.1/e" "Calculus of variations" (Some 1850) (Some "10.1/e") None None 900 0
    ["Luigi Ambrosio"] [] [] [].

(** Scenario A: the published version and the preprint of one paper. *)
Definition published : paper :=
  row "doi:10.1000/x" "Euler-Lagrange Equations in Elasticity" (Some 2020)
    (Some "10.1000/x") None None 5 0 ["L. Euler"] [] [] [].

Definition preprint : paper :=
  row "arxiv:2001.00001" "Euler-Lagrange equations in elasticity" (Some 2019)
    None (Some "2001.00001") None 50 0 ["L. Euler"] [] [] [].

(** A preprint row that already went through a merge with the published
    row and remembers its identifier. *)
Definition preprint_with_alias : paper :=
  row "arxiv:2001.00001" "Euler-Lagrange equations in elasticity" (Some 2019)
    None (Some "2001.00001") None 50 0 ["L. Euler"] [] ["doi:10.1000/x"] [].

(** A row found once, with its authors in the order of the source. *)
Definition two_authors : paper :=
  row "doi:10.1/z" "Regularity of minimizers" (Some 2015) (Some "10.1/z") None
    (Some "https://openalex.org/W7") 12 9 ["Zed Young"; "Abe Old"] [] [] ["regularity"].

(** Two rows of equal score under one title key, each with its own DOI. *)
Definition plateau_p : paper :=
  row "doi:10.1/p" "The Plateau problem" (Some 1931) (Some "10.1/p") None None 30 9
    ["J. Douglas"] [] [] ["geometric"].

Definition plateau_q : paper :=
  row "doi:10.1/q" "The Plateau Problem" (Some 1931) (Some "10.1/q") None None 30 9
    ["J. Douglas"] [] [] ["geometric"].

(** Scenario A after scoring, the published version with the greater score. *)
Definition published_strong : paper :=
  row "doi:10.1000/x" "Euler-Lagrange Equations in Elasticity" (Some 2020)
    (Some "10.1000/x") None None 5 9 ["L. Euler"] [] [] [].

Definition preprint_weak : paper :=
  row "arxiv:2001.00001" "Euler-Lagrange equations in elasticity" (Some 2019)
    None (Some "2001.00001") None 50 7 ["J. Lagrange"] [] [] [].

End Samples.

(** ** Notions used in the statements *)

Import Text Db Analyze.

(** The order of [sorted] on strings. *)
Definition slt (x y : string) : Prop := String.compare x y = Lt.

(** The rows of scenario A: the published version with its DOI, the preprint
    with its arXiv identifier, neither merged before, whatever their
    scores. *)
Definition scenario_a (a b : paper) : Prop :=
  doi a = Some "10.1000/x" ∧ Db.id a = "doi:10.1000/x" ∧ year a = Some 2020 ∧
  cited_by_count a = 5 ∧ aliases a = [] ∧
  doi b = None ∧ arxiv_id b = Some "2001.00001" ∧ Db.id b = "arxiv:2001.00001" ∧
  year b = Some 2019 ∧ cited_by_count b = 50 ∧ aliases b = [] ∧
  normalize_title_key (title a) = normalize_title_key (title b).

(** A set-valued key as a merge leaves it: increasing, without repetition,
    without empty strings. *)
Definition clean_set (l : list string) : Prop :=
  StronglySorted slt l ∧ Forall (fun s => s ≠ "") l.

(** The form of a row that went through [merge_paper_rows]. *)
Definition merged_form (p : paper) : Prop :=
  Db.id p = canonical_paper_id (doi p) (arxiv_id p) (openalex_id p) (title p) (year p) ∧
  (Db.id p ∉ aliases p) ∧
  clean_set (aliases p) ∧ clean_set (authors p) ∧ clean_set (relevance_reasons p) ∧
  clean_set (tags p) ∧ clean_set (matched_queries p) ∧ clean_set (source_types p).

#[local] Instance slt_dec : RelDecision slt.
Proof. intros x y. unfold slt. apply _. Defined.

#[local] Instance clean_set_dec l : Decision (clean_set l).
Proof. unfold clean_set. apply _. Defined.

#[local] Instance merged_form_dec p : Decision (merged_form p).
Proof. unfold merged_form. apply _. Defined.

(** The keys of the table are distinct, and each row sits under the key of
    its own title. *)
Definition table_ok (T : list (string * paper)) : Prop :=
  NoDup (map fst T) ∧ Forall (fun kr => normalize_title_key (title kr.2) = kr.1) T.

(** An entry of the table after the merge of its row with itself. *)
Definition self_merged (kr : string * paper) : string * paper :=
  (kr.1, merge_paper_rows kr.2 kr.2).

(** The key under which [dedupe_accepted_papers] files a row. *)
Definition title_key (p : paper) : string := normalize_title_key (title p).

(** [year or 0] *)
Definition year_or0 (p : paper) : Z := default 0 (year p).

(** [s] is the greatest score among the rows of [l] under the key [k]. *)
Definition top_score (l : list paper) (k : string) (s : Q) : Prop :=
  (∀ p, p ∈ l → title_key p = k → (relevance_score p <= s)%Q) ∧
  (∃ p, p ∈ l ∧ title_key p = k ∧ (relevance_score p == s)%Q).

(** [v] is the latest non-zero year among the rows of [l] under the key
    [k], or zero when none of them has one. *)
Definition top_year (l : list paper) (k : string) (v : Z) : Prop :=
  (∀ p, p ∈ l → title_key p = k → year_or0 p ≠ 0 → year_or0 p ≤ v) ∧
  ((v ≠ 0 ∧ ∃ p, p ∈ l ∧ title_key p = k ∧ year_or0 p = v) ∨
   (v = 0 ∧ ∀ p, p ∈ l → title_key p = k → year_or0 p = 0)).

(** The entry [kr] of the table sums up the rows of [l] under its key. *)
Definition summed_up (l : list paper) (kr : string * paper) : Prop :=
  title_key kr.2 = kr.1 ∧
  top_score l kr.1 (relevance_score kr.2) ∧ top_year l kr.1 (year_or0 kr.2).

(** The table of references holds, in the store, the rows of the table of
    values. *)
Definition holds (h : gmap nat paper) (ke : string * nat) (kv : string * paper) : Prop :=
  ke.1 = kv.1 ∧ h !! ke.2 = Some kv.2.

(** The entry under which a dict is filed. *)
Definition entry_of (r : nat) (v : paper) : string * nat := (title_key v, r).

(** One paper of the geometric thread, as [main] hands it to the layout. *)
Definition geometric_entry : entry := Entry Samples.cited_b (Some "geometric").

(** The four views with nothing in them. *)
Definition empty_views : views := Views ∅ ∅ [] ∅ [] [] [] [].

(** ** build_papers_db.py: from the sources to the accepted papers *)

Module Ingest.

Import Text Db.

(** [re.sub(r"\s+", " ", text or "").strip()] *)
Definition normalize_space (s : string) : string :=
  strip (text (sub_runs is_space " "%char (chars s))).

(** [re.sub("^" + p, "", value, flags=re.IGNORECASE)] for a pattern [p] that
    stands for the given literal prefixes, no one of which is a prefix of
    another: the prefix that is there, in any case, is removed.  The case
    is folded on the ASCII range, which is the interpreter's reading of
    ASCII text; of other characters the interpreter also takes the dotted
    capital and the dotless small i for an i and the long s for an s. *)
Definition drop_prefix_ci (prefixes : list string) (value : list ascii) : list ascii :=
  match filter (fun p => starts_with (chars p) (map lower_char value) = true) prefixes with
  | p :: _ => drop (length (chars p)) value
  | [] => value
  end.

(** [https?://(dx\.)?doi\.org/] *)
Definition DOI_URL : list string :=
  ["http://doi.org/"; "https://doi.org/"; "http://dx.doi.org/"; "https://dx.doi.org/"].

(** [https?://arxiv\.org/abs/] *)
Definition ARXIV_URL : list string :=
  ["http://arxiv.org/abs/"; "https://arxiv.org/abs/"].

Definition normalize_doi (doi : option string) : option string :=
  match doi with
  | None => None
  | Some d =>
      if truthy d then
        let value := strip_by is_space (chars d) in
        let value := drop_prefix_ci DOI_URL value in
        let value := lower (text (strip_by is_space value)) in
        if truthy value then Some value else None
      else None
  end.

Definition normalize_arxiv (arxiv_id : option string) : option string :=
  match arxiv_id with
  | None => None
  | Some a =>
      if truthy a then
        let value := strip_by is_space (chars a) in
        let value := drop_prefix_ci ARXIV_URL value in
        let value := lower (text value) in
        if truthy value then Some value else None
      else None
  end.

(** *** Identifiers for Semantic Scholar *)

(** [re.sub(r"^10\.48550/arxiv\.", "", doi, flags=re.IGNORECASE)] of a DOI
    that starts so. *)
Definition arxiv_of_doi (doi : string) : string :=
  text (drop (length (chars "10.48550/arxiv.")) (chars doi)).

Definition paper_id_to_ss_id (p : paper) : option string :=
  if otruthy (doi p) && _is_arxiv_doi (default "" (doi p)) then
    Some ("ARXIV:" +:+ arxiv_of_doi (default "" (doi p)))
  else if otruthy (arxiv_id p) then Some ("ARXIV:" +:+ default "" (arxiv_id p))
  else if otruthy (doi p) then Some ("DOI:" +:+ default "" (doi p))
  else None.

(** What one alias adds to the set of [_all_ss_ids_for_paper]. *)
Definition alias_ss_id (alias : string) : option string :=
  if starts_with (chars "doi:") (chars alias) then
    let doi := text (drop 4 (chars alias)) in
    if _is_arxiv_doi doi then Some ("ARXIV:" +:+ arxiv_of_doi doi)
    else Some ("DOI:" +:+ doi)
  else if starts_with (chars "arxiv:") (chars alias) then
    Some ("ARXIV:" +:+ text (drop 6 (chars alias)))
  else None.

Definition _all_ss_ids_for_paper (p : paper) : gset string :=
  (match paper_id_to_ss_id p with
   | Some primary => if truthy primary then {[primary]} else ∅
   | None => ∅
   end) ∪ list_to_set (omap alias_ss_id (aliases p)).

(** *** Citation counts of Semantic Scholar *)

Definition set_counts (p : paper) (cited ss : Z) : paper :=
  Paper (id p) (title p) (year p) (authors p) (venue p) (doi p) (arxiv_id p)
    (eprint_id p) (url p) (openalex_id p) cited ss
    (referenced_works p) (type_ p) (abstract_text p) (concept_terms p)
    (keyword_terms p) (relevance_score p) (relevance_reasons p) (tags p)
    (matched_queries p) (source_types p) (source p) (seed p) (aliases p).

(** One round of the loop of [enrich_with_semantic_scholar]: the row, and
    what it adds to [enriched] and to [not_found].  [ss_results] gives, for
    an identifier that was found, the [citationCount] of the answer. *)
Definition enrich_row (ss_results : gmap string (option Z)) (p : paper) : paper * Z * Z :=
  match ss_results !! id p with
  | None => (set_counts p (cited_by_count p) 0, 0, 1)
  | Some ss_data =>
      let ss_count := default 0 ss_data in
      let oa_count := cited_by_count p in
      if oa_count <? ss_count then (set_counts p ss_count ss_count, 1, 0)
      else (set_counts p oa_count ss_count, 0, 0)
  end.

(** The rows after the loop, [enriched] and [not_found]. *)
Definition enrich_with_semantic_scholar (ss_results : gmap string (option Z))
    (papers : list paper) : list paper * Z * Z :=
  foldl (fun st p =>
           let '(rows, enriched, not_found) := st in
           let '(row, e, n) := enrich_row ss_results p in
           (rows ++ [row], enriched + e, not_found + n))
    ([], 0, 0) papers.

(** *** Candidates *)

(** An entry of [work_candidates]. *)
Record candidate := Candidate {
  c_paper : paper;
  c_source_types : gset string;
  c_source_labels : gset string
}.

(** [for a in new: if a not in seen: cur.append(a); seen.add(a)], where
    [seen] starts as the set of [cur]. *)
Definition append_new (cur new : list string) : list string :=
  foldl (fun acc a => if bool_decide (a ∈ acc) then acc else acc ++ [a]) cur new.

(** [if not cur and new: cur = new] *)
Definition fill_opt (cur new : option string) : option string :=
  if negb (otruthy cur) && otruthy new then new else cur.

Definition fill_str (cur new : string) : string :=
  if negb (truthy cur) && truthy new then new else cur.

(** The metadata that [upsert_candidate] takes over from a paper found
    again. *)
Definition keep_better (existing p : paper) : paper :=
  Paper (id existing) (title existing) (year existing)
    (append_new (authors existing) (authors p))
    (fill_opt (venue existing) (venue p))
    (doi existing) (arxiv_id existing) (eprint_id existing)
    (fill_opt (url existing) (url p))
    (fill_opt (openalex_id existing) (openalex_id p))
    (if cited_by_count existing <? cited_by_count p then cited_by_count p
     else cited_by_count existing)
    (ss_cited_by_count existing)
    (if (length (referenced_works existing) <? length (referenced_works p))%nat
     then referenced_works p else referenced_works existing)
    (type_ existing)
    (fill_str (abstract_text existing) (abstract_text p))
    (append_new (concept_terms existing) (concept_terms p))
    (append_new (keyword_terms existing) (keyword_terms p))
    (relevance_score existing) (relevance_reasons existing) (tags existing)
    (matched_queries existing) (source_types existing) (source existing)
    (seed existing) (aliases existing).

(** The dict [work_candidates], in insertion order. *)
Fixpoint upsert_entry (pid : string) (p : paper) (source_type source_label : string)
    (w : list (string * candidate)) : list (string * candidate) :=
  match w with
  | [] => [(pid, Candidate p {[source_type]} {[source_label]})]
  | (k, c) :: w' =>
      if str_eqb k pid then
        (k, Candidate (keep_better (c_paper c) p)
              ({[source_type]} ∪ c_source_types c)
              ({[source_label]} ∪ c_source_labels c)) :: w'
      else (k, c) :: upsert_entry pid p source_type source_label w'
  end.

(** [None] is what [paper_from_openalex] returns for a work without title. *)
Definition upsert_candidate (w : list (string * candidate)) (p : option paper)
    (source_type source_label : string) : list (string * candidate) :=
  match p with
  | None => w
  | Some p => upsert_entry (id p) p source_type source_label w
  end.

(** *** Scoring and filtering *)

(** [round(x, 3)] *)
Definition round3 (x : Q) : Q := (inject_Z (round_half_even (x * 1000)) / 1000)%Q.

(** [sorted(s)] of a set of strings. *)
Definition sorted_elements (s : gset string) : list string := sorted_set (elements s).

(** The row that the scoring loop leaves in the candidate. *)
Definition scored_row (c : candidate) (r : Q * list string * list string * Z) : paper :=
  let p := c_paper c in
  Paper (id p) (title p) (year p) (authors p) (venue p) (doi p) (arxiv_id p)
    (eprint_id p) (url p) (openalex_id p) (cited_by_count p) (ss_cited_by_count p)
    (referenced_works p) (type_ p) "" [] []
    (round3 r.1.1.1) r.1.1.2 (sorted_set r.1.2)
    (sorted_elements (c_source_labels c)) (sorted_elements (c_source_types c))
    (Some "openalex") (seed p) (aliases p).

(** The two tests of the loop: the threshold, halved for a known author,
    and the demand for evidence. *)
Definition passes (min_score : Q) (r : Q * list string * list string * Z) : bool :=
  let score := r.1.1.1 in
  let reasons := r.1.1.2 in
  let matched_domains := r.2 in
  let is_known_author := bool_decide ("known-authors" ∈ sorted_set r.1.2) in
  let effective_min := if is_known_author then (min_score * (5 # 10))%Q else min_score in
  if Qlt_bool score effective_min then false
  else if negb (bool_decide ("mentions_calcvar(+6)" ∈ reasons))
          && (matched_domains <? 2)
          && negb (is_known_author && (0 <=? matched_domains))
  then false
  else true.

(** The loop over [work_candidates.values()]: the accepted rows and the
    number of rejected ones. *)
Definition score_candidates (known_researchers : gset string) (min_score : Q) (min_year : Z)
    (w : list (string * candidate)) : list paper * Z :=
  foldl (fun st kc =>
           let r := score_paper (c_paper kc.2) known_researchers min_year in
           if passes min_score r then (st.1 ++ [scored_row kc.2 r], st.2)
           else (st.1, st.2 + 1))
    ([], 0) w.

(** *** Seeds *)

(** [x or None] of a string. *)
Definition or_none (s : string) : option string := if truthy s then Some s else None.

(** One row of the seed file as [merge_seed] stores it, with its key.  A
    key that the row lacks is read as [None] by the code; here it is the
    empty string, the empty list or zero. *)
Definition seed_of_row (row : paper) : string * paper :=
  let doi := normalize_doi (doi row) in
  let arxiv_id := normalize_arxiv (arxiv_id row) in
  let pid :=
    if truthy (id row) then id row
    else canonical_paper_id doi arxiv_id (openalex_id row) (title row) (year row) in
  (pid,
   Paper pid (normalize_space (title row)) (year row)
     (filter (fun a => truthy a = true) (map normalize_space (authors row)))
     (or_none (normalize_space (default "" (venue row))))
     doi arxiv_id
     (or_none (normalize_space (default "" (eprint_id row))))
     (url row) (openalex_id row) (cited_by_count row) 0 [] None "" [] [] 0 []
     (sorted_set (map (fun t => lower (strip t))
                    (filter (fun t => truthy (strip t) = true) (tags row))))
     [] [] (Some (if otruthy (source row) then default "" (source row) else "seed"))
     true []).

(** [out[pid] = v]: a key that is there keeps its place. *)
Fixpoint put (pid : string) (v : paper) (out : list (string * paper)) : list (string * paper) :=
  match out with
  | [] => [(pid, v)]
  | (k, x) :: out' =>
      if str_eqb k pid then (k, v) :: out' else (k, x) :: put pid v out'
  end.

(** The dict that [merge_seed] returns for the rows of the seed file, in
    the order of its keys. *)
Definition merge_seed (rows : list paper) : list (string * paper) :=
  foldl (fun out row => put (seed_of_row row).1 (seed_of_row row).2 out) [] rows.

(** The seed found among the accepted rows. *)
Definition seed_found (existing seed_paper : paper) : paper :=
  Paper (id existing) (title existing) (year existing) (authors existing)
    (fill_opt (venue existing) (venue seed_paper))
    (doi existing)
    (fill_opt (arxiv_id existing) (arxiv_id seed_paper))
    (eprint_id existing) (url existing) (openalex_id existing)
    (cited_by_count existing) (ss_cited_by_count existing) (referenced_works existing)
    (type_ existing) (abstract_text existing) (concept_terms existing)
    (keyword_terms existing) (relevance_score existing)
    (sorted_set (relevance_reasons existing ++ ["curated_seed"]))
    (sorted_set (tags existing ++ tags seed_paper))
    (matched_queries existing) (source_types existing) (Some "seed+openalex") true
    (aliases existing).

(** The seed that is not among them. *)
Definition seeded (min_score : Q) (seed_paper : paper) : paper :=
  Paper (id seed_paper) (title seed_paper) (year seed_paper) (authors seed_paper)
    (venue seed_paper) (doi seed_paper) (arxiv_id seed_paper) (eprint_id seed_paper)
    (url seed_paper) (openalex_id seed_paper) (cited_by_count seed_paper)
    (ss_cited_by_count seed_paper) (referenced_works seed_paper) (type_ seed_paper)
    (abstract_text seed_paper) (concept_terms seed_paper) (keyword_terms seed_paper)
    (max_score min_score 10) ["curated_seed"] (tags seed_paper) [] ["seed"]
    (source seed_paper) (seed seed_paper) (aliases seed_paper).

(** [for p in accepted: if p["id"] == seed_pid: existing = p; break], and
    the update of the row found. *)
Fixpoint update_first (seed_pid : string) (seed_paper : paper) (accepted : list paper)
    : option (list paper) :=
  match accepted with
  | [] => None
  | p :: rest =>
      if str_eqb (id p) seed_pid then Some (seed_found p seed_paper :: rest)
      else option_map (cons p) (update_first seed_pid seed_paper rest)
  end.

Definition merge_seed_row (min_score : Q) (accepted : list paper) (s : string * paper)
    : list paper :=
  match update_first s.1 s.2 accepted with
  | Some accepted' => accepted'
  | None => accepted ++ [seeded min_score s.2]
  end.

(** The loop over [seed_rows.items()]. *)
Definition merge_seeds (min_score : Q) (seed_rows : list (string * paper))
    (accepted : list paper) : list paper :=
  foldl (merge_seed_row min_score) accepted seed_rows.

(** *** The order of the output *)

(** The key of the last sort is the tuple of the negated score, the negated
    citation count, the negated year and the title in lower case; tuples
    compare component by component. *)
Definition key_lt (a b : paper) : bool :=
  if negb (Qeq_bool (relevance_score a) (relevance_score b)) then
    Qlt_bool (- relevance_score a)%Q (- relevance_score b)%Q
  else if negb (cited_by_count a =? cited_by_count b) then
    - cited_by_count a <? - cited_by_count b
  else if negb (default 0 (year a) =? default 0 (year b)) then
    - default 0 (year a) <? - default 0 (year b)
  else String.ltb (lower (title a)) (lower (title b)).

(** [accepted.sort(key=...)] *)
Definition sort_accepted (accepted : list paper) : list paper :=
  Analyze.stable_sort (fun a b => negb (key_lt b a)) accepted.

End Ingest.

(** ** analyze.py: the statistics of the threads *)

Module Stats.

Import Text Analyze.

(** The papers of [main] once every paper has its thread and its influence
    and the list is sorted by influence. *)
Definition ranked (db_papers : list Db.paper) : list (entry * R) :=
  stable_sort (fun a b : entry * R => Rle_bool (- a.2) (- b.2))
    (map (fun p => (Entry p (Some (assign_thread p)), influence_of db_papers p)) db_papers).

(** [[p for p in papers if p["_thread"] == tid]] *)
Definition thread_papers (tid : string) (papers : list (entry * R)) : list (entry * R) :=
  filter (fun e => default "classical_calcvar" (_thread e.1) = tid) papers.

(** The years that the counter [yearly] counts, one for each paper that has
    a year. *)
Definition counted_years (papers : list (entry * R)) : list Z :=
  omap (fun e : entry * R =>
          match Db.year (row e.1) with
          | Some y => if y =? 0 then None else Some y
          | None => None
          end) papers.

(** [Counter.get(x, 0)] of a counter that counted the elements of a list. *)
Definition count_of {A} `{EqDecision A} (x : A) (l : list A) : Z :=
  Z.of_nat (length (filter (fun y => y = x) l)).

(** The keys of a counter, in the order in which they were first counted. *)
Definition keys_of {A} `{EqDecision A} (l : list A) : list A :=
  foldl (fun keys x => if bool_decide (x ∈ keys) then keys else keys ++ [x]) [] l.

(** The list [yc]: one entry for every year from the first to the last
    year counted, from 1950 to 2025 when no year was counted. *)
Definition year_counts (years : list Z) : list (Z * Z) :=
  match min_list years, max_list years with
  | Some year_min, Some year_max =>
      map (fun y => (y, count_of y years)) (seqZ year_min (year_max + 1 - year_min))
  | _, _ => map (fun y => (y, count_of y years)) (seqZ 1950 (2025 + 1 - 1950))
  end.

(** [max(keys, key=f)]: the first key whose value is greatest. *)
Fixpoint max_by {A} (key : A -> Z) (best : A) (l : list A) : A :=
  match l with
  | [] => best
  | x :: l' => max_by key (if key best <? key x then x else best) l'
  end.

(** [max(yearly, key=yearly.get) if yearly else None] *)
Definition peak_year (years : list Z) : option Z :=
  match keys_of years with
  | [] => None
  | y :: keys => Some (max_by (fun y => count_of y years) y keys)
  end.

(** [Counter.most_common(n)]: the keys with their counts, the greatest
    count first, keys of equal count in the order in which they were first
    counted. *)
Definition most_common {A} `{EqDecision A} (n : nat) (l : list A) : list (A * Z) :=
  take n (stable_sort (fun a b : A * Z => b.2 <=? a.2)
            (map (fun x => (x, count_of x l)) (keys_of l))).

(** The statistics of one thread; the name and the description of the
    thread, which are constants, are left out. *)
Record thread_stat := ThreadStat {
  ts_tc : nat;
  ts_yc : list (Z * Z);
  ts_py : option Z;
  ts_ac : nat;
  ts_ka : list (string * Z);
  ts_tops : list string
}.

Definition thread_stat_of (tid : string) (papers : list (entry * R)) : thread_stat :=
  let thread_papers := thread_papers tid papers in
  let years := counted_years thread_papers in
  let thread_authors := concat (map (fun e : entry * R => Db.authors (row e.1)) thread_papers) in
  let thread_top_papers :=
    stable_sort (fun a b : entry * R => Rle_bool (- a.2) (- b.2)) thread_papers in
  ThreadStat (length thread_papers) (year_counts years) (peak_year years)
    (length (keys_of thread_authors)) (most_common 15 thread_authors)
    (map (fun e : entry * R => Db.id (row e.1)) (take 15 thread_top_papers)).

(** The dict [thread_stats], in the order of its keys. *)
Definition thread_stats (db_papers : list Db.paper) : list (string * thread_stat) :=
  map (fun tid => (tid, thread_stat_of tid (ranked db_papers))) THREAD_ORDER.

End Stats.

(** ** Further rows for the examples *)

Module Cases.

Import Db.

(** A row as the scoring loop leaves it: found by one query and scored by
    [score_paper], no researcher known, with the default minimum year. *)
Definition as_scored (p : paper) : paper :=
  Ingest.scored_row (Ingest.Candidate p {["query"]} {["calculus of variations"]})
    (score_paper p ∅ 1950).

(** The rows of scenario A after the scoring loop. *)
Definition published_scored : paper := as_scored Samples.published.
Definition preprint_scored : paper := as_scored Samples.preprint.

(** Two rows under one title key, each with its own DOI, the one with the
    lower score cited more often. *)
Definition plateau_weak : paper :=
  Samples.row "doi:10.1/a" "The Plateau problem" (Some 1931) (Some "10.1/a") None None 50 5
    ["J. Douglas"] [] [] ["geometric"].

Definition plateau_strong : paper :=
  Samples.row "doi:10.1/b" "The Plateau Problem" (Some 1931) (Some "10.1/b") None None 30 9
    ["T. Rado"] [] [] ["geometric"].

(** The preprint of scenario A as OpenAlex lists it, under its arXiv DOI. *)
Definition preprint_with_doi : paper :=
  Samples.row "doi:10.48550/arxiv.2001.00001" "Euler-Lagrange equations in elasticity"
    (Some 2019) (Some "10.48550/arxiv.2001.00001") (Some "2001.00001") None 50 0
    ["L. Euler"] [] [] [].

(** A row of the seed file as [merge_seed] returns it. *)
Definition seed_row : paper :=
  Paper "doi:10.1/s" "A curated paper" (Some 1990) ["S. Eed"] None (Some "10.1/s") None None
    None None 0 0 [] None "" [] [] 0 [] ["direct_methods"] [] [] (Some "seed") true [].

End Cases.

(** ** Notions used in the further properties *)

Import Ingest Stats.

(** A text of ASCII characters only.  On such a text the classes and the
    case mapping of [Text] are those of the interpreter. *)
Definition ascii_only (s : string) : Prop :=
  Forall (fun c => (code c < 128)%N) (chars s).

(** [[A-Za-z0-9_]]: the word characters of the ASCII range. *)
Definition is_ascii_word (c : ascii) : bool :=
  is_lower c || is_upper c || is_digit c || (code c =? 95)%N.

(** The characters a [strip] removes at the end. *)
Definition rstrip_by (f : ascii → bool) (l : list ascii) : list ascii :=
  rev (lstrip_by f (rev l)).

(** The characters of a title key: lower-case letters, digits and the
    separator. *)
Definition key_char (sep c : ascii) : Prop := is_lower_alnum c = true ∨ c = sep.

(** A text in which every character outside the class is kept and every run
    of the class is one separator; [in_run] tells whether a separator came
    just before. *)
Fixpoint runs_done (cls : ascii → bool) (sep : ascii) (in_run : bool) (l : list ascii) : Prop :=
  match l with
  | [] => True
  | c :: l' =>
      if cls c then c = sep ∧ in_run = false ∧ runs_done cls sep true l'
      else runs_done cls sep false l'
  end.

(** The texts that a term spells: the characters of the term, with a run of
    white space and hyphens, not empty, in the place of each space. *)
Inductive spells : list ascii → list ascii → Prop :=
  | spells_nil : spells [] []
  | spells_char c pat t :
      (code c =? 32)%N = false → spells pat t → spells (c :: pat) (c :: t)
  | spells_gap c pat run t :
      (code c =? 32)%N = true → run ≠ [] → Forall (fun d => is_sep d = true) run →
      spells pat t → spells (c :: pat) (run ++ t).

(** The character before the place where a match starts. *)
Definition char_before (prev : option ascii) (pre : list ascii) : option ascii :=
  match last pre with Some c => Some c | None => prev end.

(** The number of times a pair was counted. *)
Definition occurrences (pair : string * string) (l : list (string * string)) : Z :=
  Z.of_nat (length (filter (fun q => q = pair) l)).

(** The sum of a list of counts. *)
Definition total (l : list Z) : Z := foldr Z.add 0 l.

(** The count that Semantic Scholar gave for a row, zero when it gave none. *)
Definition ss_count (ss_results : gmap string (option Z)) (p : paper) : Z :=
  default 0 (mjoin (ss_results !! Db.id p)).

(** The table of candidates is keyed by the identifiers of its papers, each
    of them once. *)
Definition candidates_ok (w : list (string * candidate)) : Prop :=
  NoDup (map fst w) ∧ Forall (fun kc => Db.id (c_paper kc.2) = kc.1) w.

(** The text in which [score_paper] looks for terms. *)
Definition paper_text (p : paper) : string :=
  join " " [lower (title p); lower (abstract_text p);
            join " " (concept_terms p); join " " (keyword_terms p)].

(** The terms of the rule for the core vocabulary. *)
Definition CORE_VARIATIONAL : list string :=
  ["variational inequality"; "variational formulation"; "variational principle";
   "minimization problem"; "energy functional"; "functional minimization"].

(** The text names the calculus of variations: it holds one of the five
    terms of the first rule. *)
Definition mentions_calcvar (text : string) : bool :=
  term_in_text "calculus of variations" text
  || term_in_text "variational method" text
  || term_in_text "variational problem" text
  || term_in_text "euler-lagrange" text
  || term_in_text "euler lagrange" text.

(** The terms of a list that the text holds. *)
Definition matched_terms (text : string) (terms : list string) : list string :=
  filter (fun term => term_in_text term text = true) terms.

(** The domains of which the text holds a term. *)
Definition matched_domains_of (text : string) : list (string * list string) :=
  filter (fun entry => matched_terms text entry.2 ≠ []) DOMAIN_TERMS.

(** The authors of the paper who are known researchers. *)
Definition known_authors_of (known_researchers : gset string) (p : paper) : list string :=
  filter (fun author => lower author ∈ known_researchers) (authors p).

(** [bool(l)] of a list. *)
Definition nonempty (l : list string) : bool :=
  match l with [] => false | _ :: _ => true end.

(** The state of the scoring after each rule of [score_paper], in the
    order of the source: the calculus of variations, *)
Definition after_calcvar (text : string) : scoring :=
  if mentions_calcvar text
  then Scoring 6 ["mentions_calcvar(+6)"] ["classical_calcvar"] 0
  else Scoring 0 [] [] 0.

(** the core vocabulary, *)
Definition after_core (text : string) (s1 : scoring) : scoring :=
  let core_matches := Z.of_nat (length (matched_terms text CORE_VARIATIONAL)) in
  if 0 <? core_matches then
    let core_pts := Qmin_py 4 ((15 # 10) * inject_Z core_matches) in
    Scoring (sc_score s1 + core_pts)
      (sc_reasons s1 ++ ["core_variational(+" +:+ fmt1 core_pts +:+ ")"])
      (sc_tags s1 ++ ["classical_calcvar"]) (sc_domains s1)
  else s1.

(** the domains, *)
Definition after_domains (text : string) (s2 : scoring) : scoring :=
  fold_left (domain_rule text) DOMAIN_TERMS s2.

(** the known researchers among the authors, *)
Definition after_authors (matched_authors : list string) (s3 : scoring) : scoring :=
  if nonempty matched_authors then
    let author_points := Qmin_py 6 (2 * inject_Z (count_distinct matched_authors)) in
    Scoring (sc_score s3 + author_points)
      (sc_reasons s3 ++ ["known_researcher(+" +:+ fmt1 author_points +:+ ")"])
      (sc_tags s3 ++ ["known-authors"]) (sc_domains s3)
  else s3.

(** the citation count, *)
Definition after_citations (cited_by : Z) (s4 : scoring) : scoring :=
  if 200 <=? cited_by then
    Scoring (sc_score s4 + 2) (sc_reasons s4 ++ ["high_citations_200(+2)"])
      (sc_tags s4) (sc_domains s4)
  else if 50 <=? cited_by then
    Scoring (sc_score s4 + 1) (sc_reasons s4 ++ ["citations_50(+1)"])
      (sc_tags s4) (sc_domains s4)
  else s4.

(** the penalty for a weak signal, *)
Definition after_weak (has_calcvar has_author : bool) (s5 : scoring) : scoring :=
  if negb has_calcvar && (sc_domains s5 <? 2) && negb has_author then
    Scoring (sc_score s5 - 4) (sc_reasons s5 ++ ["weak_calcvar_signal(-4)"])
      (sc_tags s5) (sc_domains s5)
  else s5.

(** and the bonus for an old and much cited paper. *)
Definition after_landmark (y cited_by : Z) (s6 : scoring) : scoring :=
  if negb (y =? 0) && (y <? 1980) && (100 <=? cited_by) then
    Scoring (sc_score s6 + (15 # 10)) (sc_reasons s6 ++ ["landmark_classic(+1.5)"])
      (sc_tags s6) (sc_domains s6)
  else s6.

(** The state of the scoring after the last rule. *)
Definition scored (p : paper) (known_researchers : gset string) (y : Z) : scoring :=
  let text := paper_text p in
  let matched_authors := known_authors_of known_researchers p in
  after_landmark y (cited_by_count p)
    (after_weak (mentions_calcvar text) (nonempty matched_authors)
       (after_citations (cited_by_count p)
          (after_authors matched_authors
             (after_domains text (after_core text (after_calcvar text)))))).

(** The reasons and tags that tell the filter something. *)
Definition other_reason (r : string) : Prop :=
  r ≠ "mentions_calcvar(+6)" ∧ r ≠ "weak_calcvar_signal(-4)".

(** What a rule does to the state: it adds reasons and tags at the end. *)
Definition adds (s s' : scoring) (reasons tags : list string) : Prop :=
  sc_reasons s' = sc_reasons s ++ reasons ∧ sc_tags s' = sc_tags s ++ tags.

(** A row that is marked as a curated seed. *)
Definition curated (r : paper) : Prop :=
  seed r = true ∧ "curated_seed" ∈ relevance_reasons r.

(** The order of the keys of the last sort, spelt out. *)
Definition before (a b : paper) : Prop :=
  (relevance_score b < relevance_score a)%Q ∨
  (relevance_score a == relevance_score b)%Q ∧
  (cited_by_count b < cited_by_count a ∨
   cited_by_count a = cited_by_count b ∧
   (default 0 (year b) < default 0 (year a) ∨
    default 0 (year a) = default 0 (year b) ∧ slt (lower (title a)) (lower (title b)))).

(** ** Properties *)

(** *** Citation graph *)

Lemma resolved_refs_spec paper_ids table p t :
  t ∈ resolved_refs paper_ids table p →
  t ∈ paper_ids ∧ t ≠ Db.id p.
Proof.
  unfold resolved_refs. intros Ht.
  apply list_elem_of_omap in Ht as (ref_oa & _ & Hr).
  destruct (table !! ref_oa) as [u|]; [|discriminate].
  destruct (truthy u && bool_decide (u ∈ paper_ids) && negb (str_eqb u (Db.id p))) eqn:E;
    [|discriminate].
  injection Hr as ->.
  apply andb_prop in E as [E Hne]. apply andb_prop in E as [_ Hin].
  apply bool_decide_eq_true in Hin. split; [exact Hin|].
  intros ->. unfold str_eqb in Hne. rewrite String.eqb_refl in Hne. discriminate.
Qed.

(** C6.  Every edge that [build_citation_graph] emits joins two different
    papers, and both of them are papers of the corpus. *)
Theorem citation_edges_valid (papers : list Db.paper) (table : gmap string string) (e : edge) :
  e ∈ build_citation_graph papers table →
  source e ≠ target e ∧ source e ∈ paper_id_set papers ∧ target e ∈ paper_id_set papers.
Proof.
  unfold build_citation_graph. intros He.
  apply list_elem_of_In, in_concat in He as (es & Hes & He).
  apply in_map_iff in Hes as (p & <- & Hp).
  apply in_map_iff in He as (t & <- & Ht).
  apply list_elem_of_In, resolved_refs_spec in Ht as [Hin Hne]. simpl.
  split; [congruence|]. split; [|exact Hin].
  unfold paper_id_set. apply elem_of_list_to_set, list_elem_of_In, in_map, Hp.
Qed.

Lemma citation_edges_valid_witness :
  let papers := [Samples.cites_a; Samples.cited_b] in
  let e := Edge "doi:10.1/a" "doi:10.1/b" in
  e ∈ build_citation_graph papers (build_lookup papers) ∧
  source e ≠ target e ∧ source e ∈ paper_id_set papers ∧ target e ∈ paper_id_set papers.
Proof.
  assert (H : Edge "doi:10.1/a" "doi:10.1/b"
              ∈ build_citation_graph [Samples.cites_a; Samples.cited_b]
                  (build_lookup [Samples.cites_a; Samples.cited_b])).
  { vm_compute. left. }
  split; [exact H|].
  exact (citation_edges_valid _ _ _ H).
Defined.

(** *** Relevance scoring *)

(** C10.  A paper without a year is rejected at the gate, whatever the
    minimum year and the other fields are, with the result that a paper
    older than the minimum year gets. *)
Theorem score_paper_missing_year (p : Db.paper) (known : gset string) (min_year : Z) :
  Db.year p = None →
  score_paper p known min_year = ((-999 # 1)%Q, ["below_min_year"], [], 0) ∧
  ∀ (q : Db.paper) (y : Z), Db.year q = Some y → y < min_year →
    score_paper q known min_year = score_paper p known min_year.
Proof.
  intros Hy.
  assert (Hp : score_paper p known min_year = below_min_year).
  { unfold score_paper. rewrite Hy. reflexivity. }
  split; [exact Hp|].
  intros q y Hq Hlt. rewrite Hp. unfold score_paper. rewrite Hq.
  apply Z.ltb_lt in Hlt. cbv iota beta. rewrite Hlt. reflexivity.
Qed.

Lemma score_paper_missing_year_witness :
  Db.year Samples.no_year = None ∧
  score_paper Samples.no_year {["luigi ambrosio"]} 1900
    = ((-999 # 1)%Q, ["below_min_year"], [], 0) ∧
  score_paper Samples.old_year {["luigi ambrosio"]} 1900
    = score_paper Samples.no_year {["luigi ambrosio"]} 1900.
Proof.
  split; [reflexivity|].
  destruct (score_paper_missing_year Samples.no_year {["luigi ambrosio"]} 1900 eq_refl)
    as [H1 H2].
  split; [exact H1|].
  apply (H2 Samples.old_year 1850); [reflexivity|lia].
Defined.

(** *** Thread assignment *)

Lemma priority_of_index (i : nat) (t : string) :
  THREAD_ORDER !! i = Some t → THREAD_PRIORITY !! t = Some (Z.of_nat i).
Proof.
  intros H.
  do 9 (destruct i as [|i]; [injection H as <-; reflexivity|]).
  discriminate.
Qed.

Lemma recognized_in_order (t : string) :
  is_Some (THREAD_PRIORITY !! t) → ∃ i, THREAD_ORDER !! i = Some t.
Proof.
  intros [v Hv].
  destruct (decide (t ∈ THREAD_ORDER)) as [Hin|Hnot].
  - apply list_elem_of_lookup in Hin. exact Hin.
  - exfalso. revert Hv. unfold THREAD_PRIORITY, index_map.
    cbn [THREAD_ORDER imap foldl fst snd].
    rewrite !lookup_insert_ne; [rewrite lookup_empty; discriminate|..];
      intros <-; apply Hnot; unfold THREAD_ORDER; set_solver.
Qed.

Lemma min_by_least key best l :
  let r := min_by key best l in
  (r = best ∨ r ∈ l) ∧ key r ≤ key best ∧ ∀ t, t ∈ l → key r ≤ key t.
Proof.
  revert best. induction l as [|x l IH]; intros best; simpl.
  - split; [left; reflexivity|]. split; [lia|]. intros t Ht. inversion Ht.
  - destruct (IH (if key x <? key best then x else best)) as (Hin & Hle & Hall).
    destruct (Z.ltb_spec (key x) (key best)) as [Hlt|Hge].
    + split; [right; destruct Hin as [->|Hin]; [left|right; exact Hin]|].
      split; [lia|]. intros t Ht. apply elem_of_cons in Ht as [->|Ht]; [exact Hle|auto].
    + split; [destruct Hin as [->|Hin]; [left; reflexivity|right; right; exact Hin]|].
      split; [exact Hle|]. intros t Ht. apply elem_of_cons in Ht as [->|Ht]; [lia|auto].
Qed.

(** The tags among which [assign_thread] chooses. *)
Lemma specific_tags (p : Db.paper) (t : string) :
  t ∈ filter (fun t => t ≠ "classical_calcvar")
        (filter (fun t => is_Some (THREAD_PRIORITY !! t)) (Db.tags p)) ↔
  t ∈ Db.tags p ∧ t ≠ "classical_calcvar" ∧ is_Some (THREAD_PRIORITY !! t).
Proof. rewrite !list_elem_of_filter. tauto. Qed.

Lemma assign_thread_cases (p : Db.paper) :
  let specific :=
    filter (fun t => t ≠ "classical_calcvar")
      (filter (fun t => is_Some (THREAD_PRIORITY !! t)) (Db.tags p)) in
  match specific with
  | [] => assign_thread p = "classical_calcvar"
  | t :: rest => assign_thread p = min_by priority t rest
  end.
Proof.
  unfold assign_thread. destruct (Db.tags p) as [|t0 tags0] eqn:Et; [reflexivity|].
  destruct (filter (fun t => is_Some (THREAD_PRIORITY !! t)) (t0 :: tags0)) as [|u us] eqn:Ef;
    [reflexivity|].
  simpl. destruct (filter (fun t => t ≠ "classical_calcvar") (u :: us)); reflexivity.
Qed.

(** C7.  [assign_thread] returns a member of the domain enumeration: the
    fallback domain when no tag is a recognized domain other than the
    fallback, and otherwise the recognized tag, other than the fallback, of
    least priority index.  A paper whose tags are direct_methods and
    classical_calcvar gets direct_methods. *)
Theorem assign_thread_spec (p : Db.paper) :
  assign_thread p ∈ THREAD_ORDER ∧
  ((∀ t, t ∈ Db.tags p → t ∈ THREAD_ORDER → t = "classical_calcvar") →
     assign_thread p = "classical_calcvar") ∧
  (∀ t j, t ∈ Db.tags p → t ≠ "classical_calcvar" → THREAD_ORDER !! j = Some t →
     assign_thread p ∈ Db.tags p ∧ assign_thread p ≠ "classical_calcvar" ∧
     ∃ i, THREAD_ORDER !! i = Some (assign_thread p) ∧ (i ≤ j)%nat) ∧
  ((∀ t, t ∈ Db.tags p ↔ t = "direct_methods" ∨ t = "classical_calcvar") →
     assign_thread p = "direct_methods").
Proof.
  pose proof (assign_thread_cases p) as Hc. cbv zeta in Hc.
  pose proof (specific_tags p) as Hs.
  destruct (filter (fun t => t ≠ "classical_calcvar")
              (filter (fun t => is_Some (THREAD_PRIORITY !! t)) (Db.tags p)))
    as [|t0 rest] eqn:Espec.
  - (* no specific tag *)
    assert (Hnone : ∀ t j, t ∈ Db.tags p → t ≠ "classical_calcvar" →
                      THREAD_ORDER !! j = Some t → False).
    { intros t j Ht Hne Hj. apply priority_of_index in Hj.
      assert (Hin : t ∈ @nil string) by (apply Hs; eauto). inversion Hin. }
    rewrite Hc. split; [unfold THREAD_ORDER; left|].
    split; [reflexivity|].
    split; [intros t j Ht Hne Hj; destruct (Hnone t j Ht Hne Hj)|].
    intros Htags. exfalso.
    apply (Hnone "direct_methods" 1%nat); [apply Htags; left|discriminate|]; reflexivity.
  - (* the least specific tag *)
    destruct (min_by_least priority t0 rest) as (Hin & _ & Hleast). cbv zeta in *.
    rewrite <- Hc in Hin, Hleast.
    assert (Hr : assign_thread p ∈ t0 :: rest).
    { destruct Hin as [->|Hin]; [left|right; exact Hin]. }
    apply Hs in Hr as (Hrt & Hrne & Hrk).
    destruct (recognized_in_order _ Hrk) as [i Hi].
    assert (Hmin : ∀ t j, t ∈ Db.tags p → t ≠ "classical_calcvar" →
                     THREAD_ORDER !! j = Some t → (i ≤ j)%nat).
    { intros t j Ht Hne Hj.
      pose proof (priority_of_index _ _ Hj) as Hpj.
      pose proof (priority_of_index _ _ Hi) as Hpi.
      assert (Hts : t ∈ t0 :: rest) by (apply Hs; rewrite Hpj; eauto).
      assert (Hle : priority (assign_thread p) ≤ priority t).
      { apply elem_of_cons in Hts as [->|Hts]; [|auto].
        destruct (min_by_least priority t0 rest) as (_ & Hb & _). cbv zeta in Hb.
        rewrite <- Hc in Hb. exact Hb. }
      unfold priority in Hle. rewrite Hpi, Hpj in Hle. simpl in Hle. lia. }
    split; [apply list_elem_of_lookup; eauto|].
    split.
    { intros Hall. destruct Hrne. apply Hall; [exact Hrt|]. apply list_elem_of_lookup; eauto. }
    split.
    { intros t j Ht Hne Hj. split; [exact Hrt|]. split; [exact Hrne|].
      exists i. split; [exact Hi|eauto]. }
    intros Htags. destruct (proj1 (Htags _) Hrt) as [H|H]; [exact H|contradiction].
Qed.

Lemma assign_thread_spec_witness :
  assign_thread Samples.two_tags ∈ THREAD_ORDER ∧
  assign_thread Samples.two_tags = "direct_methods".
Proof.
  destruct (assign_thread_spec Samples.two_tags) as (H1 & _ & _ & H4).
  split; [exact H1|]. apply H4.
  intros t. change (Db.tags Samples.two_tags) with ["direct_methods"; "classical_calcvar"].
  rewrite !elem_of_cons, elem_of_nil. tauto.
Defined.

(** *** Sorted sets of strings *)

Lemma compare_refl (x : string) : String.compare x x = Eq.
Proof.
  pose proof (String.compare_antisym x x) as H.
  destruct (String.compare x x); simpl in H; congruence.
Qed.

Lemma compare_gt_lt (x y : string) : String.compare x y = Gt → slt y x.
Proof.
  unfold slt. intros H. rewrite String.compare_antisym, H. reflexivity.
Qed.

Lemma slt_le (x y : string) : slt x y ↔ String.le x y ∧ x ≠ y.
Proof.
  unfold slt, String.le, String.leb. split.
  - intros H. rewrite H. split; [exact I|].
    intros ->. rewrite compare_refl in H. discriminate.
  - intros [Hle Hne]. destruct (String.compare x y) eqn:E; [|reflexivity|destruct Hle].
    destruct Hne. apply String.compare_eq_iff, E.
Qed.

#[local] Instance slt_trans : Transitive slt.
Proof.
  intros x y z [Hxy Hne]%slt_le [Hyz _]%slt_le. apply slt_le. split.
  - etrans; eassumption.
  - intros ->. apply Hne. apply (anti_symm String.le); assumption.
Qed.

Lemma slt_irrefl (x : string) : ¬ slt x x.
Proof. unfold slt. rewrite compare_refl. discriminate. Qed.

Lemma elem_of_set_insert (a x : string) (l : list string) :
  a ∈ set_insert x l ↔ a = x ∨ a ∈ l.
Proof.
  induction l as [|y l IH]; simpl.
  - rewrite list_elem_of_singleton, elem_of_nil. tauto.
  - destruct (String.compare x y) eqn:E.
    + apply String.compare_eq_iff in E as ->. rewrite elem_of_cons. tauto.
    + rewrite (elem_of_cons (y :: l)). tauto.
    + rewrite (elem_of_cons (set_insert x l)), IH, (elem_of_cons l). tauto.
Qed.

Lemma elem_of_sorted_set (a : string) (l : list string) : a ∈ sorted_set l ↔ a ∈ l.
Proof.
  unfold sorted_set. induction l as [|x l IH]; simpl; [reflexivity|].
  rewrite elem_of_set_insert, IH, elem_of_cons. tauto.
Qed.

Lemma set_insert_sorted (x : string) (l : list string) :
  StronglySorted slt l → StronglySorted slt (set_insert x l).
Proof.
  induction 1 as [|y l Hs IH Hy]; simpl.
  - repeat constructor.
  - destruct (String.compare x y) eqn:E.
    + constructor; assumption.
    + constructor; [constructor; assumption|].
      constructor; [exact E|].
      eapply Forall_impl; [exact Hy|]. intros z Hz. etrans; [exact E|exact Hz].
    + constructor; [exact IH|].
      apply Forall_forall. intros z Hz. apply elem_of_set_insert in Hz as [->|Hz].
      * apply compare_gt_lt, E.
      * rewrite Forall_forall in Hy. auto.
Qed.

Lemma sorted_set_sorted (l : list string) : StronglySorted slt (sorted_set l).
Proof.
  unfold sorted_set. induction l; simpl; [constructor|]. apply set_insert_sorted; assumption.
Qed.

Lemma set_insert_member (x : string) (l : list string) :
  StronglySorted slt l → x ∈ l → set_insert x l = l.
Proof.
  induction 1 as [|y l Hs IH Hy]; intros Hx; [inversion Hx|]. simpl.
  apply elem_of_cons in Hx as [->|Hx].
  - rewrite compare_refl. reflexivity.
  - rewrite Forall_forall in Hy. pose proof (Hy _ Hx) as Hlt. unfold slt in Hlt.
    rewrite String.compare_antisym, Hlt. simpl. rewrite IH; auto.
Qed.

Lemma set_insert_head (x : string) (l : list string) :
  StronglySorted slt (x :: l) → set_insert x l = x :: l.
Proof.
  intros H. apply StronglySorted_inv in H as [_ Hx].
  destruct l as [|y l]; [reflexivity|]. simpl.
  apply Forall_inv in Hx. unfold slt in Hx. rewrite Hx. reflexivity.
Qed.

Lemma sorted_set_fixed (l : list string) : StronglySorted slt l → sorted_set l = l.
Proof.
  unfold sorted_set. induction l as [|x l IH]; intros H; [reflexivity|]. simpl.
  rewrite IH by (apply StronglySorted_inv in H; tauto).
  apply set_insert_head, H.
Qed.

Lemma foldr_insert_members (l acc : list string) :
  StronglySorted slt acc → (∀ x, x ∈ l → x ∈ acc) → foldr set_insert acc l = acc.
Proof.
  intros Hs. induction l as [|x l IH]; intros Hin; [reflexivity|]. simpl.
  rewrite IH by (intros; apply Hin; right; assumption).
  apply set_insert_member; [exact Hs|]. apply Hin. left.
Qed.

Lemma sorted_set_app_self (l : list string) :
  StronglySorted slt l → sorted_set (l ++ l) = l.
Proof.
  intros H. unfold sorted_set. rewrite foldr_app.
  change (foldr set_insert [] l) with (sorted_set l). rewrite (sorted_set_fixed l H).
  apply foldr_insert_members; auto.
Qed.

(** *** Merging two rows *)

Lemma Qlt_bool_irrefl (s : Q) : Qlt_bool s s = false.
Proof.
  unfold Qlt_bool. assert (H : Qle_bool s s = true) by (apply Qle_bool_iff, Qle_refl).
  rewrite H. reflexivity.
Qed.

Lemma str_eqb_eq (a b : string) : str_eqb a b = true ↔ a = b.
Proof. apply String.eqb_eq. Qed.

Lemma str_eqb_neq (a b : string) : str_eqb a b = false ↔ a ≠ b.
Proof. apply String.eqb_neq. Qed.

Lemma truthy_nonempty (a : string) : truthy a = true ↔ a ≠ "".
Proof. destruct a; simpl; split; congruence. Qed.

(** The base row keeps every alias of both rows and the identifier of the
    other row, except empty strings and its own identifier. *)
Lemma merge_base_aliases (existing incoming : paper) (a : string) :
  a ∈ aliases (merge_base existing incoming) ↔
  (a ∈ aliases existing ∨ a ∈ aliases incoming ∨ a = Db.id existing ∨ a = Db.id incoming) ∧
  a ≠ "" ∧ a ≠ Db.id (merge_base existing incoming).
Proof.
  unfold merge_base.
  destruct (Qlt_bool (relevance_score existing) (relevance_score incoming)); simpl;
    rewrite elem_of_sorted_set, list_elem_of_filter, elem_of_app, elem_of_cons,
      andb_true_iff, negb_true_iff, truthy_nonempty, str_eqb_neq; tauto.
Qed.

Lemma recompute_id_aliases (p : paper) (a : string) :
  a ∈ aliases (recompute_id p) ↔
  (a ∈ aliases p ∨ (a = Db.id p ∧ Db.id (recompute_id p) ≠ Db.id p ∧ a ≠ "")) ∧
  (Db.id (recompute_id p) ≠ Db.id p → a ≠ "" ∧ a ≠ Db.id (recompute_id p)).
Proof.
  unfold recompute_id.
  destruct (str_eqb _ (Db.id p)) eqn:E.
  - intuition congruence.
  - apply str_eqb_neq in E. simpl.
    rewrite elem_of_sorted_set, !list_elem_of_filter, elem_of_app, list_elem_of_singleton,
      truthy_nonempty, str_eqb_neq.
    intuition congruence.
Qed.

Lemma merge_fields_aliases (existing incoming : paper) (a : string) :
  a ∈ aliases (merge_fields existing incoming) ↔
  (a ∈ aliases existing ∨ a ∈ aliases incoming ∨ a = Db.id existing ∨ a = Db.id incoming) ∧
  a ≠ "" ∧ a ≠ Db.id (merge_fields existing incoming).
Proof. apply merge_base_aliases. Qed.

Lemma merge_id_not_alias (existing incoming : paper) :
  Db.id (merge_paper_rows existing incoming) ∉ aliases (merge_paper_rows existing incoming).
Proof.
  unfold merge_paper_rows. set (p := merge_fields existing incoming).
  intros Hin. apply recompute_id_aliases in Hin as [[Hin|(_ & Hne & _)] Hch].
  - destruct (decide (Db.id (recompute_id p) = Db.id p)) as [Heq|Hne].
    + rewrite Heq in Hin. apply merge_fields_aliases in Hin. tauto.
    + destruct (Hch Hne) as [_ H]. apply H. reflexivity.
  - destruct (Hch Hne) as [_ H]. apply H. reflexivity.
Qed.

Lemma merge_alias_kept (existing incoming : paper) (a : string) :
  a ∈ aliases existing ∨ a ∈ aliases incoming → a ≠ "" →
  a ∈ aliases (merge_paper_rows existing incoming) ∨
  a = Db.id (merge_paper_rows existing incoming).
Proof.
  unfold merge_paper_rows. set (p := merge_fields existing incoming).
  intros Ha Hne.
  destruct (decide (a = Db.id (recompute_id p))) as [->|Hnid]; [right; reflexivity|].
  left. apply recompute_id_aliases. split; [|tauto].
  destruct (decide (a = Db.id p)) as [->|Hnp].
  - right. split; [reflexivity|]. split; [congruence|exact Hne].
  - left. apply merge_fields_aliases. tauto.
Qed.

(** C4, as the code has it.  After a merge the identifier is never among the
    aliases, and every non-empty alias of either row is an alias of the
    merged row or is its identifier. *)
Theorem merge_keeps_aliases (existing incoming : paper) :
  (Db.id (merge_paper_rows existing incoming) ∉ aliases (merge_paper_rows existing incoming)) ∧
  ∀ a, a ∈ aliases existing ∨ a ∈ aliases incoming → a ≠ "" →
    a ∈ aliases (merge_paper_rows existing incoming) ∨
    a = Db.id (merge_paper_rows existing incoming).
Proof.
  split; [apply merge_id_not_alias|]. intros a. apply merge_alias_kept.
Qed.

(** C4, as stated, fails: both rows satisfy the invariant, and the alias
    doi:10.1000/x of the incoming row is not an alias of the merged row,
    whose identifier it is. *)
Lemma merge_keeps_aliases_counterexample :
  ¬ (Db.id Samples.published ∉ aliases Samples.published →
     Db.id Samples.preprint_with_alias ∉ aliases Samples.preprint_with_alias →
     let merged := merge_paper_rows Samples.published Samples.preprint_with_alias in
     (Db.id merged ∉ aliases merged) ∧
     ∀ a, a ∈ aliases Samples.published ∨ a ∈ aliases Samples.preprint_with_alias →
          a ∈ aliases merged).
Proof.
  intros H.
  assert (H1 : Db.id Samples.published ∉ aliases Samples.published).
  { vm_compute. intros Hin. inversion Hin. }
  assert (H2 : Db.id Samples.preprint_with_alias ∉ aliases Samples.preprint_with_alias).
  { vm_compute. intros Hin. apply list_elem_of_In in Hin. simpl in Hin.
    destruct Hin as [Hin|[]]. discriminate. }
  destruct (H H1 H2) as [_ Hall].
  assert (Hin : "doi:10.1000/x"
                ∈ aliases (merge_paper_rows Samples.published Samples.preprint_with_alias)).
  { apply Hall. right. vm_compute. left. }
  vm_compute in Hin. apply list_elem_of_In in Hin. simpl in Hin.
  destruct Hin as [Hin|[]]. discriminate.
Qed.

(** When the incoming row has the greater score it becomes the base before
    the counts and the set-valued keys are combined, and what the former
    base held in them is not kept; the other way round it is. *)
Lemma base_swap_drops_fields :
  let swapped := merge_paper_rows Samples.preprint_weak Samples.published_strong in
  let kept := merge_paper_rows Samples.published_strong Samples.preprint_weak in
  cited_by_count swapped = 5 ∧ authors swapped = ["L. Euler"] ∧
  cited_by_count kept = 50 ∧ authors kept = ["J. Lagrange"; "L. Euler"].
Proof. vm_compute. repeat split. Qed.

(** *** Deduplication of two rows *)

Lemma dedupe_pair (a b : paper) :
  normalize_title_key (title a) = normalize_title_key (title b) →
  dedupe_accepted_papers [a; b] = [merge_paper_rows a b].
Proof.
  intros H. unfold dedupe_accepted_papers, dedupe_table, dedupe_step.
  cbn [fold_left upsert]. rewrite H. unfold str_eqb. rewrite String.eqb_refl. reflexivity.
Qed.

Lemma Qlt_bool_Qeq (s t : Q) : (s == t)%Q → Qlt_bool s t = false ∧ Qlt_bool t s = false.
Proof.
  intros H. unfold Qlt_bool.
  assert (H1 : Qle_bool t s = true) by (apply Qle_bool_iff; rewrite H; apply Qle_refl).
  assert (H2 : Qle_bool s t = true) by (apply Qle_bool_iff; rewrite H; apply Qle_refl).
  rewrite H1, H2. split; reflexivity.
Qed.

Lemma merge_base_keep (existing incoming : paper) :
  Qlt_bool (relevance_score existing) (relevance_score incoming) = false →
  merge_base existing incoming =
  set_aliases existing
    (sorted_set (filter (fun a => truthy a && negb (str_eqb a (Db.id existing)) = true)
                   (aliases existing ++ [Db.id incoming] ++ aliases incoming))).
Proof. unfold merge_base. intros ->. reflexivity. Qed.

Lemma merge_base_swap (existing incoming : paper) :
  Qlt_bool (relevance_score existing) (relevance_score incoming) = true →
  merge_base existing incoming =
  set_aliases incoming
    (sorted_set (filter (fun a => truthy a && negb (str_eqb a (Db.id incoming)) = true)
                   (aliases existing ++ [Db.id existing] ++ aliases incoming))).
Proof. unfold merge_base. intros ->. reflexivity. Qed.

(** The merge of the two rows of scenario A, the published row first. *)
Lemma scenario_a_merge (a b : paper) :
  scenario_a a b →
  let r := merge_paper_rows a b in
  Db.id r = "doi:10.1000/x" ∧ year r = Some 2020 ∧ aliases r = ["arxiv:2001.00001"] ∧
  cited_by_count r = 50.
Proof.
  intros (Hda & Hia & Hya & Hca & Hala & Hdb & Hxb & Hib & Hyb & Hcb & Halb & _). cbv zeta.
  destruct (Qlt_bool (relevance_score a) (relevance_score b)) eqn:E;
    unfold merge_paper_rows, merge_fields;
    [rewrite merge_base_swap by exact E|rewrite merge_base_keep by exact E];
    destruct a, b; simpl in *; subst; vm_compute; repeat split.
Qed.

(** The same merge, the preprint first: the count of the preprint is lost
    when the published row has the strictly greater score. *)
Lemma scenario_a_merge_rev (a b : paper) :
  scenario_a a b →
  let r := merge_paper_rows b a in
  Db.id r = "doi:10.1000/x" ∧ year r = Some 2020 ∧ aliases r = ["arxiv:2001.00001"] ∧
  cited_by_count r = if Qlt_bool (relevance_score b) (relevance_score a) then 5 else 50.
Proof.
  intros (Hda & Hia & Hya & Hca & Hala & Hdb & Hxb & Hib & Hyb & Hcb & Halb & _). cbv zeta.
  destruct (Qlt_bool (relevance_score b) (relevance_score a)) eqn:E;
    unfold merge_paper_rows, merge_fields;
    [rewrite merge_base_swap by exact E|rewrite merge_base_keep by exact E];
    destruct a, b; simpl in *; subst; vm_compute; repeat split.
Qed.

(** C3, as the code has it.  In scenario A, whichever row comes first and
    whatever the two scores, the canonical row has the DOI identifier and
    year 2020, and its only alias is the identifier of the preprint, the
    other original identifier being the identifier of the row itself.  It has
    50 citations, but for one case: when the preprint comes first and the
    published row has the strictly greater score, the base swap of
    [merge_paper_rows] leaves the 5 citations of the published row. *)
Theorem scenario_a_dedupe (a b : paper) :
  scenario_a a b →
  (∃ r, dedupe_accepted_papers [a; b] = [r] ∧
        Db.id r = "doi:10.1000/x" ∧ year r = Some 2020 ∧
        aliases r = ["arxiv:2001.00001"] ∧ cited_by_count r = 50) ∧
  (∃ r, dedupe_accepted_papers [b; a] = [r] ∧
        Db.id r = "doi:10.1000/x" ∧ year r = Some 2020 ∧
        aliases r = ["arxiv:2001.00001"] ∧
        cited_by_count r
        = if Qlt_bool (relevance_score b) (relevance_score a) then 5 else 50).
Proof.
  intros H.
  pose proof (scenario_a_merge a b H) as Hab.
  pose proof (scenario_a_merge_rev a b H) as Hba.
  destruct H as (_ & _ & _ & _ & _ & _ & _ & _ & _ & _ & _ & Hk).
  split.
  - exists (merge_paper_rows a b). split; [apply dedupe_pair, Hk|exact Hab].
  - exists (merge_paper_rows b a). split; [apply dedupe_pair; symmetry; exact Hk|exact Hba].
Qed.

(** The two rows as the scoring loop leaves them, with the scores 7.6 and
    8.6 of [score_paper]: 50 citations in both orders. *)
Lemma scenario_a_dedupe_witness :
  scenario_a Cases.published_scored Cases.preprint_scored ∧
  (relevance_score Cases.published_scored == 76 # 10)%Q ∧
  (relevance_score Cases.preprint_scored == 86 # 10)%Q ∧
  (∃ r, dedupe_accepted_papers [Cases.published_scored; Cases.preprint_scored] = [r] ∧
        Db.id r = "doi:10.1000/x" ∧ year r = Some 2020 ∧
        aliases r = ["arxiv:2001.00001"] ∧ cited_by_count r = 50) ∧
  (∃ r, dedupe_accepted_papers [Cases.preprint_scored; Cases.published_scored] = [r] ∧
        Db.id r = "doi:10.1000/x" ∧ year r = Some 2020 ∧
        aliases r = ["arxiv:2001.00001"] ∧ cited_by_count r = 50).
Proof.
  assert (H : scenario_a Cases.published_scored Cases.preprint_scored).
  { unfold scenario_a. repeat split; reflexivity. }
  split; [exact H|]. split; [reflexivity|]. split; [reflexivity|].
  exact (scenario_a_dedupe _ _ H).
Defined.

(** C3, as stated, fails: the merged row of scenario A does not have both
    original identifiers among its aliases. *)
Lemma scenario_a_counterexample :
  ¬ ∃ r, dedupe_accepted_papers [Samples.published; Samples.preprint] = [r] ∧
         year r = Some 2020 ∧ cited_by_count r = 50 ∧
         "doi:10.1000/x" ∈ aliases r ∧ "arxiv:2001.00001" ∈ aliases r.
Proof.
  intros (r & Hr & _ & _ & Hin & _).
  vm_compute in Hr. injection Hr as <-. vm_compute in Hin.
  apply list_elem_of_In in Hin. simpl in Hin. destruct Hin as [Hin|[]]. discriminate.
Qed.

(** *** Rows in merged form *)

Lemma clean_sorted_set (l : list string) :
  (∀ x, x ∈ l → x ≠ "") → clean_set (sorted_set l).
Proof.
  intros H. split; [apply sorted_set_sorted|].
  apply Forall_forall. intros x Hx. apply H, elem_of_sorted_set, Hx.
Qed.

Lemma clean_union_key (a b : list string) : clean_set (union_key a b).
Proof.
  apply clean_sorted_set. intros x Hx.
  apply list_elem_of_filter in Hx as [Hx _]. apply truthy_nonempty, Hx.
Qed.

Lemma filter_all {A} (P : A → Prop) `{∀ x, Decision (P x)} (l : list A) :
  Forall P l → filter P l = l.
Proof.
  induction 1 as [|x l Hx Hl IH]; [reflexivity|].
  rewrite filter_cons_True by exact Hx. rewrite IH. reflexivity.
Qed.

Lemma union_key_self (l : list string) : clean_set l → union_key l l = l.
Proof.
  intros [Hs Hne]. unfold union_key. rewrite filter_all.
  - apply sorted_set_app_self, Hs.
  - apply Forall_app. split; (eapply Forall_impl; [exact Hne|]);
      intros x Hx; apply truthy_nonempty, Hx.
Qed.

Lemma both_self (o : option string) :
  both o o = if otruthy o then [default "" o; default "" o] else [].
Proof. unfold both. destruct o as [s|]; [destruct s|]; reflexivity. Qed.

Lemma fill_self (o : option string) : fill o (both o o) = o.
Proof. unfold fill. rewrite both_self. destruct (otruthy o); reflexivity. Qed.

Lemma doi_self (o : option string) :
  match filter (fun d => _is_arxiv_doi d = false) (both o o) with
  | d :: _ => Some d
  | [] => first_or (both o o) o
  end = o.
Proof.
  rewrite both_self. destruct o as [s|]; [|reflexivity].
  destruct s as [|c s]; [reflexivity|]. cbn [otruthy truthy default].
  destruct (decide (_is_arxiv_doi (String c s) = false)) as [E|E].
  - rewrite filter_cons_True by exact E. reflexivity.
  - rewrite !filter_cons_False by exact E. reflexivity.
Qed.

Lemma year_self (p : paper) :
  match max_year (both_years p p) with Some y => Some y | None => year p end = year p.
Proof.
  unfold both_years. destruct (year p) as [y|]; [|reflexivity].
  change (omap (fun y => y) [Some y; Some y]) with [y; y].
  destruct (decide (y = 0)) as [->|Hy]; [reflexivity|].
  rewrite !filter_cons_True by exact Hy. simpl. rewrite Z.max_id. reflexivity.
Qed.

Lemma aliases_self (pid : string) (al : list string) :
  clean_set al → pid ∉ al →
  sorted_set (filter (fun a => truthy a && negb (str_eqb a pid) = true) (al ++ [pid] ++ al)) = al.
Proof.
  intros [Hs Hne] Hid.
  assert (Hal : Forall (fun a => truthy a && negb (str_eqb a pid) = true) al).
  { apply Forall_forall. intros a Ha. rewrite Forall_forall in Hne.
    apply andb_true_iff. split; [apply truthy_nonempty, Hne, Ha|].
    apply negb_true_iff, str_eqb_neq. intros ->. contradiction. }
  rewrite !filter_app, (filter_all _ al Hal).
  rewrite filter_cons_False, filter_nil.
  - apply sorted_set_app_self, Hs.
  - unfold str_eqb. rewrite String.eqb_refl, andb_false_r. discriminate.
Qed.

(** The fields of the row before the identifier is computed again, in
    terms of the base row. *)
Lemma merge_fields_spec (existing incoming : paper) :
  let b := merge_base existing incoming in
  let m := merge_fields existing incoming in
  Db.id m = Db.id b ∧ title m = title b ∧
  year m = match max_year (both_years existing incoming) with
           | Some y => Some y
           | None => year b
           end ∧
  authors m = union_key (authors b) (authors incoming) ∧
  venue m = fill (venue b) (both (venue existing) (venue incoming)) ∧
  doi m = match filter (fun d => _is_arxiv_doi d = false)
                  (both (doi existing) (doi incoming)) with
          | d :: _ => Some d
          | [] => first_or (both (doi existing) (doi incoming)) (doi b)
          end ∧
  arxiv_id m = fill (arxiv_id b) (both (arxiv_id existing) (arxiv_id incoming)) ∧
  eprint_id m = eprint_id b ∧
  url m = fill (url b) (both (url existing) (url incoming)) ∧
  openalex_id m = fill (openalex_id b) (both (openalex_id existing) (openalex_id incoming)) ∧
  cited_by_count m = Z.max (cited_by_count b) (cited_by_count incoming) ∧
  ss_cited_by_count m = Z.max (ss_cited_by_count b) (ss_cited_by_count incoming) ∧
  referenced_works m =
    (if (length (referenced_works b) <? length (referenced_works incoming))%nat
     then referenced_works incoming else referenced_works b) ∧
  type_ m = type_ b ∧ abstract_text m = abstract_text b ∧
  concept_terms m = concept_terms b ∧ keyword_terms m = keyword_terms b ∧
  relevance_score m = max_score (relevance_score b) (relevance_score incoming) ∧
  relevance_reasons m = union_key (relevance_reasons b) (relevance_reasons incoming) ∧
  tags m = union_key (tags b) (tags incoming) ∧
  matched_queries m = union_key (matched_queries b) (matched_queries incoming) ∧
  source_types m = union_key (source_types b) (source_types incoming) ∧
  Db.source m = Db.source b ∧ seed m = seed b ∧ aliases m = aliases b.
Proof. repeat split. Qed.

Lemma paper_eq (p q : paper) :
  Db.id p = Db.id q → title p = title q → year p = year q → authors p = authors q →
  venue p = venue q → doi p = doi q → arxiv_id p = arxiv_id q → eprint_id p = eprint_id q →
  url p = url q → openalex_id p = openalex_id q → cited_by_count p = cited_by_count q →
  ss_cited_by_count p = ss_cited_by_count q → referenced_works p = referenced_works q →
  type_ p = type_ q → abstract_text p = abstract_text q → concept_terms p = concept_terms q →
  keyword_terms p = keyword_terms q → relevance_score p = relevance_score q →
  relevance_reasons p = relevance_reasons q → tags p = tags q →
  matched_queries p = matched_queries q → source_types p = source_types q →
  Db.source p = Db.source q → seed p = seed q → aliases p = aliases q → p = q.
Proof. destruct p, q; simpl; intros; subst; reflexivity. Qed.

Lemma recompute_id_fixed (p : paper) :
  Db.id p = canonical_paper_id (doi p) (arxiv_id p) (openalex_id p) (title p) (year p) →
  recompute_id p = p.
Proof.
  intros H. unfold recompute_id. rewrite <- H. unfold str_eqb.
  rewrite String.eqb_refl. reflexivity.
Qed.

(** A row in merged form is a fixed point of the merge with itself. *)
Lemma merge_self (p : paper) : merged_form p → merge_paper_rows p p = p.
Proof.
  intros (Hid & Hnot & Hal & Hau & Hrr & Htg & Hmq & Hst).
  unfold merge_paper_rows.
  pose proof (merge_fields_spec p p) as Hm. cbv zeta in Hm.
  rewrite merge_base_keep in Hm by apply Qlt_bool_irrefl.
  rewrite (aliases_self _ _ Hal Hnot) in Hm.
  cbn [set_aliases Db.id title year authors venue doi arxiv_id eprint_id url openalex_id
       cited_by_count ss_cited_by_count referenced_works type_ abstract_text concept_terms
       keyword_terms relevance_score relevance_reasons tags matched_queries source_types
       source seed aliases] in Hm.
  rewrite !fill_self, doi_self, year_self, !Z.max_id, Nat.ltb_irrefl in Hm.
  rewrite (union_key_self _ Hau), (union_key_self _ Hrr), (union_key_self _ Htg),
    (union_key_self _ Hmq), (union_key_self _ Hst) in Hm.
  unfold max_score in Hm. rewrite Qlt_bool_irrefl in Hm.
  assert (Heq : merge_fields p p = p).
  { destruct Hm as (?&?&?&?&?&?&?&?&?&?&?&?&?&?&?&?&?&?&?&?&?&?&?&?&?).
    apply paper_eq; assumption. }
  rewrite Heq. apply recompute_id_fixed, Hid.
Qed.

(** Every row that [merge_paper_rows] returns is in merged form. *)
Lemma recompute_id_frame (p : paper) :
  let r := recompute_id p in
  title r = title p ∧ year r = year p ∧ doi r = doi p ∧ arxiv_id r = arxiv_id p ∧
  openalex_id r = openalex_id p ∧ authors r = authors p ∧
  relevance_reasons r = relevance_reasons p ∧ tags r = tags p ∧
  matched_queries r = matched_queries p ∧ source_types r = source_types p ∧
  relevance_score r = relevance_score p ∧ cited_by_count r = cited_by_count p.
Proof. unfold recompute_id. destruct (str_eqb _ (Db.id p)); repeat split. Qed.

Lemma recompute_id_canonical (p : paper) :
  let r := recompute_id p in
  Db.id r = canonical_paper_id (doi r) (arxiv_id r) (openalex_id r) (title r) (year r).
Proof.
  unfold recompute_id. destruct (str_eqb _ (Db.id p)) eqn:E; [|reflexivity].
  apply str_eqb_eq in E. symmetry. exact E.
Qed.

Lemma clean_aliases_base (existing incoming : paper) :
  clean_set (aliases (merge_base existing incoming)).
Proof.
  unfold merge_base.
  destruct (Qlt_bool _ _); simpl; apply clean_sorted_set; intros x Hx;
    apply list_elem_of_filter in Hx as [Hx _]; apply andb_true_iff in Hx as [Hx _];
    apply truthy_nonempty, Hx.
Qed.

Lemma clean_aliases_recompute (p : paper) :
  clean_set (aliases p) → clean_set (aliases (recompute_id p)).
Proof.
  intros H. unfold recompute_id. destruct (str_eqb _ (Db.id p)); [exact H|].
  simpl. apply clean_sorted_set. intros x Hx.
  apply list_elem_of_filter in Hx as [Hx _]. apply truthy_nonempty, Hx.
Qed.

Lemma merge_in_merged_form (existing incoming : paper) :
  merged_form (merge_paper_rows existing incoming).
Proof.
  pose proof (merge_id_not_alias existing incoming) as Hnot.
  unfold merge_paper_rows in *.
  pose proof (merge_fields_spec existing incoming) as Hm. cbv zeta in Hm.
  destruct Hm as (_&_&_&Hau&_&_&_&_&_&_&_&_&_&_&_&_&_&_&Hrr&Htg&Hmq&Hst&_&_&Hal).
  pose proof (recompute_id_frame (merge_fields existing incoming)) as Hf. cbv zeta in Hf.
  destruct Hf as (_&_&_&_&_&Hau'&Hrr'&Htg'&Hmq'&Hst'&_).
  split; [apply recompute_id_canonical|]. split; [exact Hnot|].
  split; [apply clean_aliases_recompute; rewrite Hal; apply clean_aliases_base|].
  rewrite Hau', Hrr', Htg', Hmq', Hst', Hau, Hrr, Htg, Hmq, Hst.
  repeat split; apply clean_union_key.
Qed.

(** *** The table of [dedupe_accepted_papers] *)

Lemma upsert_app_absent (k : string) (p : paper) (T1 T2 : list (string * paper)) :
  k ∉ map fst T1 → upsert k p (T1 ++ T2) = T1 ++ upsert k p T2.
Proof.
  induction T1 as [|[k1 q1] T1 IH]; intros Hk; [reflexivity|]. simpl in *.
  apply not_elem_of_cons in Hk as [Hne Hk].
  destruct (str_eqb k1 k) eqn:E; [apply str_eqb_eq in E; congruence|].
  rewrite IH by exact Hk. reflexivity.
Qed.

Lemma upsert_absent (k : string) (p : paper) (T : list (string * paper)) :
  k ∉ map fst T → upsert k p T = T ++ [(k, p)].
Proof.
  intros Hk. rewrite <- (app_nil_r T) at 1. rewrite upsert_app_absent by exact Hk. reflexivity.
Qed.

Lemma upsert_head (k : string) (p q : paper) (T : list (string * paper)) :
  upsert k p ((k, q) :: T) = (k, merge_paper_rows q p) :: T.
Proof. simpl. unfold str_eqb. rewrite String.eqb_refl. reflexivity. Qed.

Lemma upsert_keys (k : string) (p : paper) (T : list (string * paper)) :
  map fst (upsert k p T) = if decide (k ∈ map fst T) then map fst T else map fst T ++ [k].
Proof.
  induction T as [|[k1 q1] T IH]; [reflexivity|]. simpl.
  destruct (str_eqb k1 k) eqn:E.
  - apply str_eqb_eq in E as ->. rewrite decide_True by left. reflexivity.
  - apply str_eqb_neq in E. simpl. rewrite IH.
    destruct (decide (k ∈ map fst T)) as [Hin|Hnot].
    + rewrite decide_True by (right; exact Hin). reflexivity.
    + rewrite decide_False; [reflexivity|].
      intros Hc. apply elem_of_cons in Hc as [Hc|Hc]; [congruence|contradiction].
Qed.

Lemma title_merge (q p : paper) :
  title (merge_paper_rows q p) = title q ∨ title (merge_paper_rows q p) = title p.
Proof.
  unfold merge_paper_rows.
  destruct (recompute_id_frame (merge_fields q p)) as (-> & _).
  destruct (merge_fields_spec q p) as (_ & -> & _).
  unfold merge_base. destruct (Qlt_bool _ _); [right|left]; reflexivity.
Qed.

Lemma upsert_rows (k : string) (p : paper) (T : list (string * paper)) (P : string * paper → Prop) :
  Forall P T → P (k, p) → (∀ q, P (k, q) → P (k, merge_paper_rows q p)) →
  Forall P (upsert k p T).
Proof.
  intros HT Hp Hm. induction HT as [|[k1 q1] T Hq HT IH]; simpl.
  - constructor; [exact Hp|constructor].
  - destruct (str_eqb k1 k) eqn:E.
    + apply str_eqb_eq in E as ->. constructor; [apply Hm, Hq|exact HT].
    + constructor; [exact Hq|exact IH].
Qed.

Lemma table_ok_step (T : list (string * paper)) (p : paper) :
  table_ok T → table_ok (dedupe_step T p).
Proof.
  intros [Hnd Hk]. unfold dedupe_step. split.
  - rewrite upsert_keys. destruct (decide _) as [Hin|Hnot]; [exact Hnd|].
    apply NoDup_app. split; [exact Hnd|]. split; [|apply NoDup_singleton].
    intros x Hx Hx'. apply list_elem_of_singleton in Hx' as ->. contradiction.
  - apply upsert_rows; [exact Hk|reflexivity|].
    simpl. intros q Hq. destruct (title_merge q p) as [-> | ->]; [exact Hq|reflexivity].
Qed.

Lemma table_ok_fold (papers : list paper) (T : list (string * paper)) :
  table_ok T → table_ok (fold_left dedupe_step papers T).
Proof.
  revert T. induction papers as [|p papers IH]; intros T HT; [exact HT|].
  simpl. apply IH, table_ok_step, HT.
Qed.

Lemma table_ok_dedupe (papers : list paper) : table_ok (dedupe_table papers).
Proof.
  apply table_ok_fold. split; [constructor|constructor].
Qed.

(** The rows of a table, deduplicated on their own, give the table back. *)
Lemma fold_fresh (T2 T1 : list (string * paper)) :
  table_ok (T1 ++ T2) → fold_left dedupe_step (map snd T2) T1 = T1 ++ T2.
Proof.
  revert T1. induction T2 as [|[k r] T2 IH]; intros T1 [Hnd Hk].
  - simpl. rewrite app_nil_r. reflexivity.
  - simpl. unfold dedupe_step at 2.
    assert (Hkr : normalize_title_key (title r) = k).
    { rewrite Forall_app in Hk. destruct Hk as [_ Hk]. apply Forall_inv in Hk. exact Hk. }
    rewrite Hkr. rewrite upsert_absent.
    + rewrite IH; [rewrite <- app_assoc; reflexivity|].
      rewrite <- app_assoc. split; assumption.
    + rewrite map_app in Hnd. apply NoDup_app in Hnd as (_ & Hd & _).
      intros Hin. apply (Hd k Hin). left.
Qed.

(** Deduplicated once more over the table, each row is merged with itself. *)
Lemma fold_again (T2 T1 : list (string * paper)) :
  table_ok (T1 ++ T2) →
  fold_left dedupe_step (map snd T2) (T1 ++ T2) = T1 ++ map self_merged T2.
Proof.
  revert T1. induction T2 as [|[k r] T2 IH]; intros T1 [Hnd Hk]; [reflexivity|].
  simpl. unfold dedupe_step at 2.
  assert (Hkr : normalize_title_key (title r) = k).
  { rewrite Forall_app in Hk. destruct Hk as [_ Hk]. apply Forall_inv in Hk. exact Hk. }
  rewrite Hkr.
  assert (Hfresh : k ∉ map fst T1).
  { rewrite map_app in Hnd. apply NoDup_app in Hnd as (_ & Hd & _).
    intros Hin. apply (Hd k Hin). left. }
  rewrite upsert_app_absent by exact Hfresh. rewrite upsert_head.
  change ((k, merge_paper_rows r r) :: T2) with ([self_merged (k, r)] ++ T2).
  rewrite app_assoc. rewrite IH; [rewrite <- app_assoc; reflexivity|].
  rewrite <- app_assoc. simpl. split.
  - rewrite map_app in *. exact Hnd.
  - rewrite Forall_app in *. destruct Hk as [Hk1 Hk2]. split; [exact Hk1|].
    apply Forall_cons in Hk2 as [Hr Hk2]. constructor; [|exact Hk2].
    simpl in *. destruct (title_merge r r) as [-> | ->]; exact Hr.
Qed.

Lemma dedupe_table_twice (T : list (string * paper)) :
  table_ok T → dedupe_table (map snd T ++ map snd T) = map self_merged T.
Proof.
  intros HT. unfold dedupe_table. rewrite fold_left_app.
  rewrite (fold_fresh T []) by exact HT. apply (fold_again T []), HT.
Qed.

Lemma table_ok_self_merged (T : list (string * paper)) :
  table_ok T → table_ok (map self_merged T).
Proof.
  intros [Hnd Hk]. split.
  - rewrite map_map. simpl. exact Hnd.
  - apply Forall_map. eapply Forall_impl; [exact Hk|].
    intros [k r] Hr. simpl in *. destruct (title_merge r r) as [-> | ->]; exact Hr.
Qed.

Lemma self_merged_fixed (T : list (string * paper)) :
  Forall merged_form (map snd T) → map self_merged T = T.
Proof.
  induction T as [|[k r] T IH]; intros H; [reflexivity|].
  simpl in H. apply Forall_cons in H as [Hr H]. simpl. unfold self_merged at 1. simpl.
  rewrite (merge_self r Hr), IH by exact H. reflexivity.
Qed.

(** C1, as the code has it.  Let D be a paper set that
    [dedupe_accepted_papers] produced.  When every row of D is in merged
    form, deduplicating D joined with itself gives D back, row by row.  In
    any case the result of that second run is in merged form, and a further
    run over it changes nothing. *)
Theorem dedupe_idempotent (raw : list paper) :
  let D := dedupe_accepted_papers raw in
  let D' := dedupe_accepted_papers (D ++ D) in
  (Forall merged_form D → D' = D) ∧
  Forall merged_form D' ∧
  dedupe_accepted_papers (D' ++ D') = D'.
Proof.
  cbv zeta. pose proof (table_ok_dedupe raw) as HT.
  change (dedupe_accepted_papers raw) with (map snd (dedupe_table raw)).
  set (T := dedupe_table raw) in *.
  assert (H2 : dedupe_accepted_papers (map snd T ++ map snd T) = map snd (map self_merged T)).
  { unfold dedupe_accepted_papers. rewrite (dedupe_table_twice T HT). reflexivity. }
  rewrite H2.
  assert (Hform : Forall merged_form (map snd (map self_merged T))).
  { rewrite map_map. apply Forall_map, Forall_forall. intros [k r] _. simpl.
    apply merge_in_merged_form. }
  split; [|split].
  - intros H. rewrite (self_merged_fixed T H). reflexivity.
  - exact Hform.
  - unfold dedupe_accepted_papers.
    rewrite (dedupe_table_twice _ (table_ok_self_merged T HT)).
    rewrite (self_merged_fixed _ Hform). reflexivity.
Qed.

Lemma dedupe_idempotent_witness :
  let D := dedupe_accepted_papers [Samples.published; Samples.preprint] in
  Forall merged_form D ∧ dedupe_accepted_papers (D ++ D) = D.
Proof.
  assert (H : Forall merged_form
                (dedupe_accepted_papers [Samples.published; Samples.preprint])).
  { refine (bool_decide_unpack _ _). vm_compute. exact I. }
  split; [exact H|].
  exact (proj1 (dedupe_idempotent [Samples.published; Samples.preprint]) H).
Defined.

(** C1, as stated, fails: a row that was never merged keeps its authors in
    the order of the source, and the second run sorts them. *)
Lemma dedupe_idempotent_counterexample :
  let D := dedupe_accepted_papers [Samples.two_authors] in
  D = [Samples.two_authors] ∧
  dedupe_accepted_papers (D ++ D) ≠ D ∧
  map authors D = [["Zed Young"; "Abe Old"]] ∧
  map authors (dedupe_accepted_papers (D ++ D)) = [["Abe Old"; "Zed Young"]].
Proof.
  cbv zeta. split; [reflexivity|]. split; [|split; vm_compute; reflexivity].
  intros H. apply (f_equal (map authors)) in H. vm_compute in H. discriminate.
Qed.

(** *** The run over shared dicts *)

Lemma merge_aliased_distinct (existing incoming : paper) :
  merge_aliased false existing incoming = merge_paper_rows existing incoming.
Proof. reflexivity. Qed.

Lemma merge_aliased_same (v : paper) :
  merge_aliased true v v = merge_paper_rows v v.
Proof.
  unfold merge_aliased, merge_paper_rows, merge_fields.
  rewrite merge_base_keep by apply Qlt_bool_irrefl.
  reflexivity.
Qed.

Lemma find_key_none (h : gmap nat paper) d T key :
  Forall2 (holds h) d T → find_key key d = None → key ∉ map fst T.
Proof.
  induction 1 as [|[k e] [k' v] d T [Hk Hv] HdT IH]; simpl; intros Hf.
  - intros Hin. inversion Hin.
  - simpl in Hk. subst k'. destruct (str_eqb k key) eqn:E; [discriminate|].
    apply str_eqb_neq in E. intros Hin.
    apply elem_of_cons in Hin as [Hin|Hin]; [congruence|]. apply IH; assumption.
Qed.

Lemma holds_insert_fresh (h : gmap nat paper) d T e (w : paper) :
  Forall2 (holds h) d T → e ∉ map snd d → Forall2 (holds (<[e := w]> h)) d T.
Proof.
  induction 1 as [|[k e1] [k' v1] d T [Hk Hv] HdT IH]; simpl; intros Hfresh; [constructor|].
  apply not_elem_of_cons in Hfresh as [Hne Hfresh].
  constructor; [|apply IH, Hfresh].
  split; [exact Hk|]. simpl in *. rewrite lookup_insert_ne by exact Hne. exact Hv.
Qed.

Lemma find_key_some (h : gmap nat paper) d T key e (pv : paper) :
  Forall2 (holds h) d T → NoDup (map snd d) → find_key key d = Some e →
  e ∈ map snd d ∧
  ∃ v, h !! e = Some v ∧
       Forall2 (holds (<[e := merge_paper_rows v pv]> h)) d (upsert key pv T).
Proof.
  induction 1 as [|[k e1] [k' v1] d T [Hk Hv] HdT IH]; simpl; intros Hnd Hf; [discriminate|].
  simpl in Hk, Hv. subst k'. apply NoDup_cons in Hnd as [Hfresh Hnd].
  destruct (str_eqb k key) eqn:E.
  - injection Hf as <-. split; [left|]. exists v1. split; [exact Hv|].
    constructor; [|apply holds_insert_fresh; assumption].
    split; [reflexivity|]. simpl. apply lookup_insert_eq.
  - destruct (IH Hnd Hf) as (Hin & v & Hve & Hrest).
    split; [right; exact Hin|]. exists v. split; [exact Hve|].
    constructor; [|exact Hrest].
    split; [reflexivity|]. simpl. rewrite lookup_insert_ne; [exact Hv|].
    intros ->. contradiction.
Qed.

Lemma holds_refs (h : gmap nat paper) d T :
  Forall2 (holds h) d T → rows_of (h, d) = map snd T.
Proof.
  unfold rows_of. simpl.
  induction 1 as [|[k e] [k' v] d T [Hk Hv] HdT IH]; [reflexivity|].
  simpl in *. rewrite Hv. simpl. f_equal. exact IH.
Qed.

(** A run over distinct dicts: the store holds, under the references of the
    table, the rows that the run over the values computes. *)
Lemma dedupe_in_place_fold (h0 : gmap nat paper) (rs : list nat) :
  ∀ (vs : list paper) (h : gmap nat paper) d T,
    Forall2 (fun r v => h0 !! r = Some v) rs vs →
    NoDup rs → NoDup (map snd d) →
    (∀ r, r ∈ rs → (r ∉ map snd d) ∧ h !! r = h0 !! r) →
    Forall2 (holds h) d T →
    let st := fold_left dedupe_step_in_place rs (h, d) in
    Forall2 (holds st.1) st.2 (fold_left dedupe_step vs T).
Proof.
  induction rs as [|r rs IH]; intros vs h d T Hvs Hnd Hd Hun HdT.
  - apply Forall2_nil_inv_l in Hvs as ->. exact HdT.
  - apply Forall2_cons_inv_l in Hvs as (v & vs' & Hv & Hvs & ->).
    apply NoDup_cons in Hnd as [Hr Hnd].
    destruct (Hun r) as [Hrd Hrh]; [left|]. rewrite Hv in Hrh.
    cbn [fold_left].
    assert (Hstep : dedupe_step_in_place (h, d) r =
              match find_key (normalize_title_key (title v)) d with
              | Some e => (merge_in_place h e r, d)
              | None => (h, d ++ [(normalize_title_key (title v), r)])
              end).
    { unfold dedupe_step_in_place. cbn [fst snd]. rewrite Hrh. reflexivity. }
    rewrite Hstep. clear Hstep. unfold dedupe_step at 2.
    destruct (find_key (normalize_title_key (title v)) d) as [e|] eqn:Hf.
    + destruct (find_key_some h d T _ e v HdT Hd Hf) as (He & w & Hw & HdT').
      assert (Hne : e ≠ r) by (intros ->; contradiction).
      assert (Hm : merge_in_place h e r = <[e := merge_paper_rows w v]> h).
      { unfold merge_in_place. rewrite Hw, Hrh. rewrite bool_decide_eq_false_2 by exact Hne.
        reflexivity. }
      rewrite Hm. apply IH; [exact Hvs|exact Hnd|exact Hd| |exact HdT'].
      intros r' Hr'. destruct (Hun r') as [H1 H2]; [right; exact Hr'|].
      split; [exact H1|]. rewrite lookup_insert_ne; [exact H2|].
      intros ->. contradiction.
    + pose proof (find_key_none h d T _ HdT Hf) as Hfresh.
      rewrite (upsert_absent _ _ _ Hfresh).
      apply IH; [exact Hvs|exact Hnd| | |].
      * rewrite map_app. apply NoDup_app. split; [exact Hd|]. split; [|apply NoDup_singleton].
        intros x Hx Hx'. apply list_elem_of_singleton in Hx' as ->. contradiction.
      * intros r' Hr'. destruct (Hun r') as [H1 H2]; [right; exact Hr'|].
        split; [|exact H2]. rewrite map_app. intros Hin.
        apply elem_of_app in Hin as [Hin|Hin]; [contradiction|].
        apply list_elem_of_singleton in Hin as ->. contradiction.
      * apply Forall2_app; [exact HdT|]. constructor; [|constructor].
        split; [reflexivity|exact Hrh].
Qed.

(** A run over distinct dicts leaves, in the dicts of the list it returns,
    the rows that [dedupe_accepted_papers] computes on the values. *)
Theorem dedupe_in_place_distinct (h : gmap nat paper) (rs : list nat) (vs : list paper) :
  NoDup rs → Forall2 (fun r v => h !! r = Some v) rs vs →
  rows_of (dedupe_in_place h rs) = dedupe_accepted_papers vs.
Proof.
  intros Hnd Hvs. unfold dedupe_in_place, dedupe_accepted_papers, dedupe_table.
  pose proof (dedupe_in_place_fold h rs vs h [] [] Hvs Hnd) as H. cbv zeta in H.
  destruct (fold_left dedupe_step_in_place rs (h, [])) as [h' d'].
  apply holds_refs. apply H; [constructor| |constructor].
  intros r Hr. split; [|reflexivity]. intros Hin. inversion Hin.
Qed.

Lemma find_key_fresh (key : string) (d : list (string * nat)) :
  key ∉ map fst d → find_key key d = None.
Proof.
  induction d as [|[k e] d IH]; simpl; intros Hk; [reflexivity|].
  apply not_elem_of_cons in Hk as [Hne Hk].
  destruct (str_eqb k key) eqn:E; [apply str_eqb_eq in E; congruence|]. apply IH, Hk.
Qed.

Lemma find_key_member (key : string) (e : nat) (d : list (string * nat)) :
  NoDup (map fst d) → (key, e) ∈ d → find_key key d = Some e.
Proof.
  induction d as [|[k e1] d IH]; simpl; intros Hnd Hin; [inversion Hin|].
  apply NoDup_cons in Hnd as [Hfresh Hnd].
  apply elem_of_cons in Hin as [Heq|Hin].
  - injection Heq as <- <-. unfold str_eqb. rewrite String.eqb_refl. reflexivity.
  - destruct (str_eqb k key) eqn:E; [|apply IH; assumption].
    apply str_eqb_eq in E as ->. destruct Hfresh.
    apply list_elem_of_fmap. exists (key, e). split; [reflexivity|exact Hin].
Qed.

(** The first run over rows of distinct title keys files each dict under
    its key and changes none. *)
Lemma first_pass (h : gmap nat paper) (rs : list nat) (vs : list paper) :
  Forall2 (fun r v => h !! r = Some v) rs vs →
  ∀ d, NoDup (map fst d ++ map title_key vs) →
    fold_left dedupe_step_in_place rs (h, d) = (h, d ++ zip_with entry_of rs vs).
Proof.
  induction 1 as [|r v rs vs Hv Hvs IH]; intros d Hnd; simpl.
  - rewrite app_nil_r. reflexivity.
  - assert (Hstep : dedupe_step_in_place (h, d) r = (h, d ++ [entry_of r v])).
    { unfold dedupe_step_in_place. cbn [fst snd]. rewrite Hv.
      rewrite find_key_fresh; [reflexivity|].
      apply NoDup_app in Hnd as (_ & Hdis & _). intros Hin. apply (Hdis _ Hin). left. }
    rewrite Hstep, IH.
    + rewrite <- app_assoc. reflexivity.
    + rewrite map_app. simpl. rewrite <- app_assoc. simpl.
      apply NoDup_app in Hnd as (H1 & H2 & H3). apply NoDup_cons in H3 as [H3 H4].
      apply NoDup_app. split; [exact H1|]. split.
      * intros x Hx Hx'. apply (H2 x Hx). exact Hx'.
      * constructor; assumption.
Qed.

Lemma zip_entries (h : gmap nat paper) (rs : list nat) (vs : list paper) :
  Forall2 (fun r v => h !! r = Some v) rs vs →
  map fst (zip_with entry_of rs vs) = map title_key vs ∧
  map snd (zip_with entry_of rs vs) = rs ∧
  Forall2 (holds h) (zip_with entry_of rs vs) (map (fun v => (title_key v, v)) vs) ∧
  Forall2 (fun r v => entry_of r v ∈ zip_with entry_of rs vs ∧ h !! r = Some v) rs vs.
Proof.
  induction 1 as [|r v rs vs Hv Hvs (IH1 & IH2 & IH3 & IH4)]; simpl.
  - repeat split; constructor.
  - rewrite IH1, IH2. repeat split; [constructor; [split; [reflexivity|exact Hv]|exact IH3]|].
    constructor; [split; [left|exact Hv]|].
    eapply Forall2_impl; [exact IH4|]. intros r' v' [Hin Hv']. split; [right; exact Hin|exact Hv'].
Qed.

(** The second run over the same dicts: each is found under its own key and
    merged with itself. *)
Lemma second_pass (D : list (string * nat)) :
  NoDup (map fst D) → NoDup (map snd D) →
  ∀ (rs : list nat) (vs : list paper) (h : gmap nat paper) T,
    NoDup rs → Forall2 (holds h) D T →
    Forall2 (fun r v => entry_of r v ∈ D ∧ h !! r = Some v) rs vs →
    let st := fold_left dedupe_step_in_place rs (h, D) in
    st.2 = D ∧ Forall2 (holds st.1) D (fold_left dedupe_step vs T).
Proof.
  intros HkD HrD. induction rs as [|r rs IH]; intros vs h T Hnd HDT Hvs.
  - apply Forall2_nil_inv_l in Hvs as ->. split; [reflexivity|exact HDT].
  - apply Forall2_cons_inv_l in Hvs as (v & vs' & [Hin Hv] & Hvs & ->).
    apply NoDup_cons in Hnd as [Hr Hnd].
    pose proof (find_key_member _ _ _ HkD Hin) as Hf.
    destruct (find_key_some h D T _ r v HDT HrD Hf) as (_ & w & Hw & HDT').
    assert (w = v) by congruence. subst w.
    assert (Hstep : dedupe_step_in_place (h, D) r = (<[r := merge_paper_rows v v]> h, D)).
    { unfold dedupe_step_in_place. cbn [fst snd]. rewrite Hv.
      fold (title_key v). change (title_key v) with (entry_of r v).1. simpl. rewrite Hf.
      unfold merge_in_place. rewrite Hv. rewrite bool_decide_eq_true_2 by reflexivity.
      rewrite merge_aliased_same. reflexivity. }
    cbn [fold_left]. rewrite Hstep. unfold dedupe_step at 2. fold (title_key v).
    apply IH; [exact Hnd|exact HDT'|].
    assert (Hrest : Forall (fun r' => r' ≠ r) rs).
    { apply Forall_forall. intros r' Hr' ->. contradiction. }
    clear -Hvs Hrest. induction Hvs as [|r' v' rs vs [H1 H2] Hvs IH]; [constructor|].
    apply Forall_cons in Hrest as [Hne Hrest].
    constructor; [|apply IH, Hrest].
    split; [exact H1|]. rewrite lookup_insert_ne by congruence. exact H2.
Qed.

Lemma keyed_table_ok (vs : list paper) :
  NoDup (map title_key vs) → table_ok (map (fun v => (title_key v, v)) vs).
Proof.
  intros H. split.
  - rewrite map_map. exact H.
  - apply Forall_map, Forall_forall. intros v _. reflexivity.
Qed.

(** A run over a list that holds each dict twice, the dicts being of
    distinct title keys, leaves in them the rows that the run over the
    values computes. *)
Theorem dedupe_in_place_doubled (h : gmap nat paper) (rs : list nat) (vs : list paper) :
  NoDup rs → Forall2 (fun r v => h !! r = Some v) rs vs → NoDup (map title_key vs) →
  rows_of (dedupe_in_place h (rs ++ rs)) = dedupe_accepted_papers (vs ++ vs).
Proof.
  intros Hnd Hvs Hkeys. unfold dedupe_in_place, dedupe_accepted_papers, dedupe_table.
  rewrite !fold_left_app.
  rewrite (first_pass h rs vs Hvs []) by exact Hkeys. simpl.
  destruct (zip_entries h rs vs Hvs) as (Hk & Hr & Hholds & Hin).
  set (T := map (fun v => (title_key v, v)) vs) in *.
  assert (HT : fold_left dedupe_step vs [] = T).
  { replace vs with (map snd T) at 1 by (unfold T; rewrite map_map; apply map_id).
    apply (fold_fresh T []). apply keyed_table_ok, Hkeys. }
  rewrite HT.
  destruct (second_pass (zip_with entry_of rs vs)) with (rs := rs) (vs := vs) (h := h) (T := T)
    as [Hd Hfinal]; try assumption.
  - rewrite Hk. exact Hkeys.
  - rewrite Hr. exact Hnd.
  - destruct (fold_left dedupe_step_in_place rs (h, zip_with entry_of rs vs)) as [h' d'].
    simpl in *. subst d'. apply holds_refs, Hfinal.
Qed.

(** *** What does not depend on the order of the rows *)

Lemma merge_score (q p : paper) :
  relevance_score (merge_paper_rows q p) =
  if Qlt_bool (relevance_score q) (relevance_score p)
  then relevance_score p else relevance_score q.
Proof.
  unfold merge_paper_rows.
  destruct (recompute_id_frame (merge_fields q p)) as (_&_&_&_&_&_&_&_&_&_& -> &_).
  destruct (merge_fields_spec q p) as (_&_&_&_&_&_&_&_&_&_&_&_&_&_&_&_&_& -> &_).
  unfold merge_base, max_score.
  destruct (Qlt_bool (relevance_score q) (relevance_score p)) eqn:E; simpl.
  - rewrite Qlt_bool_irrefl. reflexivity.
  - rewrite E. reflexivity.
Qed.

Lemma both_years_cases (q p : paper) :
  both_years q p =
  (if decide (year_or0 q = 0) then [] else [year_or0 q]) ++
  (if decide (year_or0 p = 0) then [] else [year_or0 p]).
Proof.
  unfold both_years, year_or0.
  destruct (year q) as [yq|], (year p) as [yp|]; simpl;
    repeat (match goal with
            | |- context [decide (?a = 0)] => destruct (decide (a = 0))
            end;
            try rewrite filter_cons_True by assumption;
            try rewrite filter_cons_False by (intros Hc; apply Hc; assumption);
            simpl); try reflexivity; try congruence.
Qed.

Lemma merge_year_or0 (q p : paper) :
  year_or0 (merge_paper_rows q p) =
  if decide (year_or0 q = 0) then year_or0 p
  else if decide (year_or0 p = 0) then year_or0 q
  else Z.max (year_or0 q) (year_or0 p).
Proof.
  unfold merge_paper_rows.
  unfold year_or0 at 1.
  destruct (recompute_id_frame (merge_fields q p)) as (_ & -> & _).
  destruct (merge_fields_spec q p) as (_ & _ & -> & _).
  rewrite both_years_cases.
  destruct (decide (year_or0 q = 0)) as [Hq|Hq], (decide (year_or0 p = 0)) as [Hp|Hp];
    simpl; try reflexivity.
  unfold merge_base.
  destruct (Qlt_bool (relevance_score q) (relevance_score p)); cbn [set_aliases year].
  - reflexivity.
  - change (year_or0 q = year_or0 p). congruence.
Qed.

Lemma upsert_Forall (P P' : string * paper → Prop) (k : string) (p : paper)
    (T : list (string * paper)) :
  NoDup (map fst T) → Forall P T →
  (∀ k' r, k' ≠ k → P (k', r) → P' (k', r)) →
  (k ∉ map fst T → P' (k, p)) →
  (∀ q, P (k, q) → P' (k, merge_paper_rows q p)) →
  Forall P' (upsert k p T).
Proof.
  intros Hnd HT Hother Hnew Hmerge.
  induction T as [|[k1 q1] T IH]; simpl.
  - constructor; [|constructor]. apply Hnew. intros Hin. inversion Hin.
  - simpl in Hnd. apply NoDup_cons in Hnd as [Hk1 Hnd].
    apply Forall_cons in HT as [Hq1 HT].
    destruct (str_eqb k1 k) eqn:E.
    + apply str_eqb_eq in E as ->. constructor; [apply Hmerge, Hq1|].
      apply Forall_forall. intros [k' r] Hin. apply Hother.
      * intros ->. apply Hk1. apply list_elem_of_fmap. exists (k, r). split; [reflexivity|exact Hin].
      * rewrite Forall_forall in HT. apply HT, Hin.
    + apply str_eqb_neq in E. constructor; [apply Hother; [exact E|exact Hq1]|].
      apply IH; [exact Hnd|exact HT|].
      intros Hnot. apply Hnew. simpl. intros Hin.
      apply elem_of_cons in Hin as [Hin|Hin]; [congruence|contradiction].
Qed.

Lemma top_score_other (l : list paper) (p : paper) (k : string) (s : Q) :
  title_key p ≠ k → top_score l k s → top_score (l ++ [p]) k s.
Proof.
  intros Hne [Hb (x & Hx & Hk & Hs)]. split.
  - intros y Hy Hky. apply elem_of_app in Hy as [Hy|Hy]; [auto|].
    apply list_elem_of_singleton in Hy as ->. contradiction.
  - exists x. split; [apply elem_of_app; left; exact Hx|auto].
Qed.

Lemma top_year_other (l : list paper) (p : paper) (k : string) (v : Z) :
  title_key p ≠ k → top_year l k v → top_year (l ++ [p]) k v.
Proof.
  intros Hne [Hb Hat]. split.
  - intros y Hy Hky. apply elem_of_app in Hy as [Hy|Hy]; [auto|].
    apply list_elem_of_singleton in Hy as ->. contradiction.
  - destruct Hat as [[Hv (x & Hx & Hk & Hy)]|[Hv Hall]].
    + left. split; [exact Hv|]. exists x. split; [apply elem_of_app; left; exact Hx|auto].
    + right. split; [exact Hv|]. intros y Hy Hky.
      apply elem_of_app in Hy as [Hy|Hy]; [auto|].
      apply list_elem_of_singleton in Hy as ->. contradiction.
Qed.

Lemma summed_up_first (l : list paper) (p : paper) :
  (∀ x, x ∈ l → title_key x ≠ title_key p) → summed_up (l ++ [p]) (title_key p, p).
Proof.
  intros Hfresh.
  assert (Hp : ∀ x, x ∈ l ++ [p] → title_key x = title_key p → x = p).
  { intros x Hx Hk. apply elem_of_app in Hx as [Hx|Hx].
    - destruct (Hfresh x Hx Hk).
    - apply list_elem_of_singleton in Hx. exact Hx. }
  assert (Hin : p ∈ l ++ [p]) by (apply elem_of_app; right; left).
  split; [reflexivity|]. simpl. split; split.
  - intros x Hx Hk. rewrite (Hp x Hx Hk). apply Qle_refl.
  - exists p. split; [exact Hin|]. split; [reflexivity|apply Qeq_refl].
  - intros x Hx Hk _. rewrite (Hp x Hx Hk). lia.
  - destruct (decide (year_or0 p = 0)) as [H0|H0].
    + right. split; [exact H0|]. intros x Hx Hk. rewrite (Hp x Hx Hk). exact H0.
    + left. split; [exact H0|]. exists p. auto.
Qed.

Lemma Qlt_bool_spec (a b : Q) :
  if Qlt_bool a b then (a < b)%Q else (b <= a)%Q.
Proof.
  unfold Qlt_bool. destruct (Qle_bool b a) eqn:E; simpl.
  - apply Qle_bool_iff, E.
  - apply Qnot_le_lt. intros H. apply Qle_bool_iff in H. congruence.
Qed.

Lemma summed_up_merge (l : list paper) (p q : paper) :
  summed_up l (title_key p, q) → summed_up (l ++ [p]) (title_key p, merge_paper_rows q p).
Proof.
  intros (Hkq & [Hsb (xs & Hxs & Hxk & Hxv)] & [Hyb Hyat]). simpl in *.
  assert (Hin : p ∈ l ++ [p]) by (apply elem_of_app; right; left).
  split; [|split]; simpl.
  - unfold title_key in *. destruct (title_merge q p) as [-> | ->]; [exact Hkq|reflexivity].
  - rewrite merge_score. pose proof (Qlt_bool_spec (relevance_score q) (relevance_score p)) as Hc.
    destruct (Qlt_bool _ _); split.
    + intros x Hx Hk. apply elem_of_app in Hx as [Hx|Hx].
      * apply Qle_trans with (relevance_score q); [auto|apply Qlt_le_weak, Hc].
      * apply list_elem_of_singleton in Hx as ->. apply Qle_refl.
    + exists p. split; [exact Hin|]. split; [reflexivity|apply Qeq_refl].
    + intros x Hx Hk. apply elem_of_app in Hx as [Hx|Hx]; [auto|].
      apply list_elem_of_singleton in Hx as ->. exact Hc.
    + exists xs. split; [apply elem_of_app; left; exact Hxs|]. auto.
  - rewrite merge_year_or0.
    destruct (decide (year_or0 q = 0)) as [Hq|Hq].
    + (* no year so far *)
      assert (Hzero : ∀ x, x ∈ l → title_key x = title_key p → year_or0 x = 0).
      { destruct Hyat as [[Hv _]|[_ Hall]]; [contradiction|exact Hall]. }
      split.
      * intros x Hx Hk Hnz. apply elem_of_app in Hx as [Hx|Hx].
        -- destruct Hnz. apply Hzero; assumption.
        -- apply list_elem_of_singleton in Hx as ->. lia.
      * destruct (decide (year_or0 p = 0)) as [Hp|Hp].
        -- right. split; [exact Hp|]. intros x Hx Hk.
           apply elem_of_app in Hx as [Hx|Hx]; [auto|].
           apply list_elem_of_singleton in Hx as ->. exact Hp.
        -- left. split; [exact Hp|]. exists p. auto.
    + assert (Hwit : ∃ x, x ∈ l ∧ title_key x = title_key p ∧ year_or0 x = year_or0 q).
      { destruct Hyat as [[_ Hw]|[Hv _]]; [exact Hw|contradiction]. }
      destruct Hwit as (xq & Hxq & Hxqk & Hxqv).
      destruct (decide (year_or0 p = 0)) as [Hp|Hp]; split.
      * intros x Hx Hk Hnz. apply elem_of_app in Hx as [Hx|Hx]; [auto|].
        apply list_elem_of_singleton in Hx as ->. contradiction.
      * left. split; [exact Hq|]. exists xq. split; [apply elem_of_app; left; exact Hxq|auto].
      * intros x Hx Hk Hnz. apply elem_of_app in Hx as [Hx|Hx].
        -- pose proof (Hyb x Hx Hk Hnz). lia.
        -- apply list_elem_of_singleton in Hx as ->. lia.
      * left. split; [lia|].
        destruct (Z.max_spec (year_or0 q) (year_or0 p)) as [[_ ->]|[_ ->]].
        -- exists p. auto.
        -- exists xq. split; [apply elem_of_app; left; exact Hxq|auto].
Qed.

(** The table after a run over [l]: one key for each title key of [l], and
    under each key a row with the greatest score and the latest year. *)
Lemma dedupe_summary (l : list paper) :
  table_ok (dedupe_table l) ∧
  (∀ k, k ∈ map fst (dedupe_table l) ↔ ∃ x, x ∈ l ∧ title_key x = k) ∧
  Forall (summed_up l) (dedupe_table l).
Proof.
  induction l as [|p l IH] using rev_ind.
  - split; [apply table_ok_dedupe|]. split; [|constructor].
    intros k. simpl. split; [intros H; inversion H|intros (x & Hx & _); inversion Hx].
  - destruct IH as (Hok & Hkeys & Hsum).
    split; [apply table_ok_dedupe|].
    unfold dedupe_table in *. rewrite fold_left_app. simpl.
    set (T := fold_left dedupe_step l []) in *. unfold dedupe_step.
    fold (title_key p). split.
    + intros k. rewrite upsert_keys.
      destruct (decide (title_key p ∈ map fst T)) as [Hin|Hnot].
      * rewrite Hkeys. split.
        -- intros (x & Hx & Hk). exists x. split; [apply elem_of_app; left; exact Hx|exact Hk].
        -- intros (x & Hx & Hk). apply elem_of_app in Hx as [Hx|Hx]; [eauto|].
           apply list_elem_of_singleton in Hx as ->. subst k. apply Hkeys, Hin.
      * rewrite elem_of_app, list_elem_of_singleton, Hkeys. split.
        -- intros [(x & Hx & Hk) | ->].
           ++ exists x. split; [apply elem_of_app; left; exact Hx|exact Hk].
           ++ exists p. split; [apply elem_of_app; right; left|reflexivity].
        -- intros (x & Hx & Hk). apply elem_of_app in Hx as [Hx|Hx]; [left; eauto|].
           apply list_elem_of_singleton in Hx as ->. right. symmetry. exact Hk.
    + apply (upsert_Forall (summed_up l)); [apply Hok|exact Hsum|..].
      * intros k' r Hne (Hk & Hs & Hy). simpl in *. split; [exact Hk|].
        split; [apply top_score_other|apply top_year_other]; auto.
      * intros Hnot. apply summed_up_first. intros x Hx Hk.
        apply Hnot, Hkeys. eauto.
      * intros q. apply summed_up_merge.
Qed.

Lemma top_score_unique (l l' : list paper) (k : string) (s s' : Q) :
  (∀ x, x ∈ l ↔ x ∈ l') → top_score l k s → top_score l' k s' → (s == s')%Q.
Proof.
  intros Hl [Hb (x & Hx & Hk & Hs)] [Hb' (x' & Hx' & Hk' & Hs')].
  apply Qle_antisym.
  - rewrite <- Hs. apply Hb'; [apply Hl, Hx|exact Hk].
  - rewrite <- Hs'. apply Hb; [apply Hl, Hx'|exact Hk'].
Qed.

Lemma top_year_unique (l l' : list paper) (k : string) (v v' : Z) :
  (∀ x, x ∈ l ↔ x ∈ l') → top_year l k v → top_year l' k v' → v = v'.
Proof.
  intros Hl [Hb Hat] [Hb' Hat'].
  destruct Hat as [[Hv (x & Hx & Hk & Hy)]|[Hv Hall]],
           Hat' as [[Hv' (x' & Hx' & Hk' & Hy')]|[Hv' Hall']].
  - assert (v ≤ v') by (rewrite <- Hy; apply Hb'; [apply Hl, Hx|exact Hk|congruence]).
    assert (v' ≤ v) by (rewrite <- Hy'; apply Hb; [apply Hl, Hx'|exact Hk'|congruence]).
    lia.
  - exfalso. apply Hv. rewrite <- Hy. apply Hall'; [apply Hl, Hx|exact Hk].
  - exfalso. apply Hv'. rewrite <- Hy'. apply Hall; [apply Hl, Hx'|exact Hk'].
  - congruence.
Qed.

(** What the order of the rows leaves alone: for two orders of the same raw
    rows, the two results have as many canonical rows, and each canonical
    row of one has a row of the same title key in the other, with the same
    relevance score and the same year. *)
Lemma dedupe_order_invariants (l l' : list paper) :
  Permutation l l' →
  length (dedupe_accepted_papers l) = length (dedupe_accepted_papers l') ∧
  ∀ r, r ∈ dedupe_accepted_papers l →
    ∃ r', r' ∈ dedupe_accepted_papers l' ∧ title_key r' = title_key r ∧
          (relevance_score r' == relevance_score r)%Q ∧ year_or0 r' = year_or0 r.
Proof.
  intros Hperm.
  assert (Hl : ∀ x, x ∈ l ↔ x ∈ l').
  { intros x. split; intros Hx; [rewrite <- Hperm|rewrite Hperm]; exact Hx. }
  destruct (dedupe_summary l) as ([Hnd _] & Hkeys & Hsum).
  destruct (dedupe_summary l') as ([Hnd' _] & Hkeys' & Hsum').
  assert (Hsame : ∀ k, k ∈ map fst (dedupe_table l) ↔ k ∈ map fst (dedupe_table l')).
  { intros k. rewrite Hkeys, Hkeys'. split; intros (x & Hx & Hk); exists x;
      (split; [apply Hl, Hx|exact Hk]). }
  split.
  - unfold dedupe_accepted_papers. rewrite !length_map.
    rewrite <- (length_map fst (dedupe_table l)), <- (length_map fst (dedupe_table l')).
    apply Permutation_length, NoDup_Permutation; assumption.
  - intros r Hr. unfold dedupe_accepted_papers in Hr.
    apply list_elem_of_fmap in Hr as ([k r0] & -> & Hin). simpl.
    assert (Hk : k ∈ map fst (dedupe_table l')).
    { apply Hsame. apply list_elem_of_fmap. exists (k, r0). split; [reflexivity|exact Hin]. }
    apply list_elem_of_fmap in Hk as ([k' r'] & Hkk & Hin'). simpl in Hkk. subst k'.
    rewrite Forall_forall in Hsum, Hsum'.
    destruct (Hsum _ Hin) as (Hk0 & Hs0 & Hy0).
    destruct (Hsum' _ Hin') as (Hk1 & Hs1 & Hy1). simpl in *.
    exists r'. split; [|split; [congruence|split]].
    + unfold dedupe_accepted_papers. apply list_elem_of_fmap. exists (k, r'). split; auto.
    + symmetry. eapply top_score_unique; eassumption.
    + symmetry. eapply top_year_unique; eassumption.
Qed.

(** *** What depends on the order of the rows *)

Lemma Qlt_bool_true (a b : Q) : (a < b)%Q → Qlt_bool a b = true ∧ Qlt_bool b a = false.
Proof.
  intros H. pose proof (Qlt_bool_spec a b) as H1. pose proof (Qlt_bool_spec b a) as H2.
  destruct (Qlt_bool a b), (Qlt_bool b a); split; try reflexivity; exfalso;
    apply (Qlt_irrefl a);
    first [eapply Qlt_le_trans; [exact H|eassumption]
          |eapply Qlt_trans; [exact H|eassumption]].
Qed.

(** What a merge takes from its two rows when one is strictly stronger:
    with the stronger row second, the count, the authors and the tags of the
    first row do not enter the result. *)
Lemma merge_weak_strong (weak strong : paper) :
  (relevance_score weak < relevance_score strong)%Q →
  let lost := merge_paper_rows weak strong in
  let kept := merge_paper_rows strong weak in
  title lost = title strong ∧ title kept = title strong ∧
  cited_by_count lost = cited_by_count strong ∧
  cited_by_count kept = Z.max (cited_by_count strong) (cited_by_count weak) ∧
  authors lost = union_key (authors strong) (authors strong) ∧
  authors kept = union_key (authors strong) (authors weak) ∧
  tags lost = union_key (tags strong) (tags strong) ∧
  tags kept = union_key (tags strong) (tags weak).
Proof.
  intros Hlt. apply Qlt_bool_true in Hlt as [Hws Hsw]. cbv zeta.
  unfold merge_paper_rows.
  destruct (recompute_id_frame (merge_fields weak strong))
    as (-> & _ & _ & _ & _ & -> & _ & -> & _ & _ & _ & ->).
  destruct (recompute_id_frame (merge_fields strong weak))
    as (-> & _ & _ & _ & _ & -> & _ & -> & _ & _ & _ & ->).
  destruct (merge_fields_spec weak strong)
    as (_ & -> & _ & -> & _ & _ & _ & _ & _ & _ & -> & _ & _ & _ & _ & _ & _ & _ & _ & -> & _).
  destruct (merge_fields_spec strong weak)
    as (_ & -> & _ & -> & _ & _ & _ & _ & _ & _ & -> & _ & _ & _ & _ & _ & _ & _ & _ & -> & _).
  unfold merge_base. rewrite Hws, Hsw. simpl. rewrite Z.max_id. repeat split.
Qed.

(** Of two published DOIs the merge keeps that of the first row, whatever
    the scores, and the identifier follows it. *)
Lemma merge_first_doi (first second : paper) (d d' : string) :
  doi first = Some d → doi second = Some d' → d ≠ "" →
  _is_arxiv_doi d = false →
  doi (merge_paper_rows first second) = Some d ∧
  Db.id (merge_paper_rows first second) = "doi:" +:+ d.
Proof.
  intros Hd Hd' Hne Hp. apply truthy_nonempty in Hne.
  assert (Hdoi : doi (merge_fields first second) = Some d).
  { destruct (merge_fields_spec first second) as (_&_&_&_&_& -> &_).
    rewrite Hd, Hd'. unfold both. simpl. rewrite Hne.
    destruct (truthy d'); simpl; rewrite filter_cons_True by exact Hp; reflexivity. }
  unfold merge_paper_rows.
  pose proof (recompute_id_canonical (merge_fields first second)) as Hid.
  destruct (recompute_id_frame (merge_fields first second)) as (_ & _ & Hd'' & _).
  cbv zeta in Hid. rewrite Hd'' in *. rewrite Hdoi in *. split; [reflexivity|].
  rewrite Hid. unfold canonical_paper_id. simpl. rewrite Hne. reflexivity.
Qed.

(** C2: the result of [dedupe_accepted_papers] depends on the order of the
    rows.  Of two rows under one title key, one strictly stronger than the
    other, the run that meets the weaker row first returns the citation
    count, the authors and the tags of the stronger row alone, and the run
    that meets the stronger row first returns the greater count and the
    authors and tags of both; the title is that of the stronger row in both
    runs.  When both rows have a published DOI, each run returns the DOI of
    the row it met first, and the identifier made of it. *)
Theorem dedupe_order_dependent (weak strong : paper) :
  title_key weak = title_key strong →
  (relevance_score weak < relevance_score strong)%Q →
  ∃ lost kept,
    dedupe_accepted_papers [weak; strong] = [lost] ∧
    dedupe_accepted_papers [strong; weak] = [kept] ∧
    title lost = title strong ∧ title kept = title strong ∧
    cited_by_count lost = cited_by_count strong ∧
    cited_by_count kept = Z.max (cited_by_count strong) (cited_by_count weak) ∧
    authors lost = union_key (authors strong) (authors strong) ∧
    authors kept = union_key (authors strong) (authors weak) ∧
    tags lost = union_key (tags strong) (tags strong) ∧
    tags kept = union_key (tags strong) (tags weak) ∧
    ∀ dw ds, doi weak = Some dw → doi strong = Some ds → dw ≠ "" → ds ≠ "" →
             _is_arxiv_doi dw = false → _is_arxiv_doi ds = false →
      doi lost = Some dw ∧ Db.id lost = "doi:" +:+ dw ∧
      doi kept = Some ds ∧ Db.id kept = "doi:" +:+ ds.
Proof.
  intros Hk Hlt.
  exists (merge_paper_rows weak strong), (merge_paper_rows strong weak).
  split; [apply dedupe_pair, Hk|]. split; [apply dedupe_pair; symmetry; exact Hk|].
  destruct (merge_weak_strong weak strong Hlt) as (H1 & H2 & H3 & H4 & H5 & H6 & H7 & H8).
  repeat (split; [assumption|]).
  intros dw ds Hdw Hds Hnw Hns Hpw Hps.
  destruct (merge_first_doi weak strong dw ds Hdw Hds Hnw Hpw) as [Ha Hb].
  destruct (merge_first_doi strong weak ds dw Hds Hdw Hns Hps) as [Hc Hd].
  auto.
Qed.

Lemma dedupe_order_dependent_witness :
  Permutation [Cases.plateau_weak; Cases.plateau_strong]
    [Cases.plateau_strong; Cases.plateau_weak] ∧
  ∃ lost kept,
    dedupe_accepted_papers [Cases.plateau_weak; Cases.plateau_strong] = [lost] ∧
    dedupe_accepted_papers [Cases.plateau_strong; Cases.plateau_weak] = [kept] ∧
    cited_by_count lost = 30 ∧ cited_by_count kept = 50 ∧
    authors lost = ["T. Rado"] ∧ authors kept = ["J. Douglas"; "T. Rado"] ∧
    Db.id lost = "doi:10.1/a" ∧ Db.id kept = "doi:10.1/b".
Proof.
  split; [apply perm_swap|].
  destruct (dedupe_order_dependent Cases.plateau_weak Cases.plateau_strong)
    as (lost & kept & H1 & H2 & _ & _ & H3 & H4 & H5 & H6 & _ & _ & Hd).
  - reflexivity.
  - reflexivity.
  - destruct (Hd "10.1/a" "10.1/b") as (_ & Ha & _ & Hb);
      [reflexivity|reflexivity|discriminate|discriminate|reflexivity|reflexivity|].
    exists lost, kept. repeat split; assumption.
Defined.

(** On a tie the first row is the base as well, and the identifier follows
    its DOI. *)
Lemma dedupe_tie_follows_order :
  map Db.id (dedupe_accepted_papers [Samples.plateau_p; Samples.plateau_q]) = ["doi:10.1/p"] ∧
  map Db.id (dedupe_accepted_papers [Samples.plateau_q; Samples.plateau_p]) = ["doi:10.1/q"].
Proof. split; vm_compute; reflexivity. Qed.

(** *** Influence *)

Lemma ln_le_mono (x y : R) : (0 < x)%R → (x <= y)%R → (ln x <= ln y)%R.
Proof.
  intros Hx [Hlt| ->]; [left; apply ln_increasing; assumption|right; reflexivity].
Qed.

Lemma log1p_nonneg (x : R) : (0 <= x)%R → (0 <= log1p x)%R.
Proof.
  intros Hx. unfold log1p. rewrite <- ln_1. apply ln_le_mono; lra.
Qed.

Lemma log1p_pos (x : R) : (0 < x)%R → (0 < log1p x)%R.
Proof.
  intros Hx. unfold log1p. rewrite <- ln_1. apply ln_increasing; lra.
Qed.

Lemma log1p_mono (x y : R) : (0 <= x)%R → (x <= y)%R → (log1p x <= log1p y)%R.
Proof. intros Hx Hxy. unfold log1p. apply ln_le_mono; lra. Qed.

Lemma ratio_bounds (a b : R) : (0 <= a)%R → (a <= b)%R → (0 < b)%R → (0 <= a / b <= 1)%R.
Proof.
  intros Ha Hab Hb. split.
  - apply Rmult_le_pos; [exact Ha|]. left. apply Rinv_0_lt_compat, Hb.
  - apply (Rmult_le_reg_r b); [exact Hb|]. unfold Rdiv.
    rewrite Rmult_assoc, Rinv_l by lra. lra.
Qed.

Lemma Rround_half_even_bounds (x : R) (n : Z) :
  (0 <= x)%R → (x <= IZR n)%R → (0 <= Rround_half_even x <= n)%Z.
Proof.
  intros H0 Hn. unfold Rround_half_even.
  destruct (base_Int_part x) as [Hf1 Hf2].
  pose proof (base_fp x) as [Hd1 Hd2].
  assert (Hlo : (0 <= Int_part x)%Z).
  { apply Z.lt_succ_r. apply lt_IZR. rewrite succ_IZR. lra. }
  assert (Hhi : (Int_part x <= n)%Z).
  { apply le_IZR. lra. }
  assert (Hfull : Int_part x = n → frac_part x = 0%R).
  { intros E. unfold frac_part. rewrite E. rewrite E in Hf1. lra. }
  destruct (Rlt_dec (frac_part x) (1 / 2)) as [Hlt|Hge]; [lia|].
  assert (Hne : Int_part x ≠ n).
  { intros E. apply Hge. rewrite (Hfull E). lra. }
  destruct (Rlt_dec (1 / 2) (frac_part x)); [lia|].
  destruct (Z.even (Int_part x)); lia.
Qed.

Lemma Rround_unit (x : R) (n : nat) : (0 <= x <= 1)%R → (0 <= Rround x n <= 1)%R.
Proof.
  intros [H0 H1]. unfold Rround.
  assert (Hp : (0 < 10 ^ n)%R) by (apply pow_lt; lra).
  assert (Hz : (10 ^ n = IZR (10 ^ Z.of_nat n))%R).
  { rewrite <- pow_IZR. reflexivity. }
  destruct (Rround_half_even_bounds (x * 10 ^ n) (10 ^ Z.of_nat n)) as [Hlo Hhi].
  - apply Rmult_le_pos; lra.
  - rewrite <- Hz. rewrite <- (Rmult_1_l (10 ^ n)) at 2.
    apply Rmult_le_compat_r; lra.
  - set (r := Rround_half_even (x * 10 ^ n)) in *.
    apply ratio_bounds; [apply (IZR_le 0), Hlo| |exact Hp].
    rewrite Hz. apply IZR_le, Hhi.
Qed.

Lemma fold_max_ge (l : list Z) (x : Z) :
  (x <= fold_left Z.max l x)%Z ∧ ∀ y, y ∈ l → (y <= fold_left Z.max l x)%Z.
Proof.
  revert x. induction l as [|a l IH]; intros x; simpl.
  - split; [lia|]. intros y Hy. inversion Hy.
  - destruct (IH (Z.max x a)) as [H1 H2]. split; [lia|].
    intros y Hy. apply elem_of_cons in Hy as [->|Hy]; [lia|auto].
Qed.

Lemma corpus_max_citations_ge (papers : list paper) (p : paper) :
  p ∈ papers → (cited_by_count p <= corpus_max_citations papers)%Z.
Proof.
  intros Hp. unfold corpus_max_citations.
  assert (Hin : cited_by_count p ∈ map cited_by_count papers).
  { apply list_elem_of_fmap. exists p. auto. }
  destruct (map cited_by_count papers) as [|x l]; [inversion Hin|]. simpl.
  destruct (fold_max_ge l x) as [H1 H2].
  apply elem_of_cons in Hin as [->|Hin]; auto.
Qed.

Lemma max_score_ge (a b : Q) : (a <= max_score a b)%Q ∧ (b <= max_score a b)%Q.
Proof.
  unfold max_score. pose proof (Qlt_bool_spec a b) as H.
  destruct (Qlt_bool a b); split;
    [apply Qlt_le_weak, H|apply Qle_refl|apply Qle_refl|exact H].
Qed.

Lemma fold_max_score_ge (l : list Q) (x : Q) :
  (x <= fold_left max_score l x)%Q ∧ ∀ y, y ∈ l → (y <= fold_left max_score l x)%Q.
Proof.
  revert x. induction l as [|a l IH]; intros x; simpl.
  - split; [apply Qle_refl|]. intros y Hy. inversion Hy.
  - destruct (IH (max_score x a)) as [H1 H2]. destruct (max_score_ge x a) as [Hx Ha].
    split; [eapply Qle_trans; eassumption|].
    intros y Hy. apply elem_of_cons in Hy as [->|Hy]; [eapply Qle_trans; eassumption|auto].
Qed.

Lemma corpus_max_relevance_ge (papers : list paper) (p : paper) :
  p ∈ papers → (relevance_score p <= corpus_max_relevance papers)%Q.
Proof.
  intros Hp. unfold corpus_max_relevance.
  assert (Hin : relevance_score p ∈ map relevance_score papers).
  { apply list_elem_of_fmap. exists p. auto. }
  destruct (map relevance_score papers) as [|x l]; [inversion Hin|].
  destruct (fold_max_score_ge l x) as [H1 H2].
  apply elem_of_cons in Hin as [->|Hin]; auto.
Qed.

(** The counter of in-corpus citations never holds a negative count. *)
Lemma count_in_corpus_nonneg (papers : list paper) (table : gmap string string) (k : string) :
  (0 <= default 0 (count_in_corpus papers table !! k))%Z.
Proof.
  unfold count_in_corpus.
  set (ids := paper_id_set papers). clearbody ids.
  assert (Hgen : ∀ (l : list paper) (cnt : gmap string Z),
            (∀ j, (0 <= default 0 (cnt !! j))%Z) →
            ∀ j, (0 <= default 0 (foldl (fun cnt p =>
                       foldl (fun c t => <[t := (default 0 (c !! t) + 1)%Z]> c) cnt
                         (resolved_refs ids table p)) cnt l !! j))%Z).
  { induction l as [|p l IH]; intros cnt Hc; [exact Hc|]. simpl. apply IH.
    generalize (resolved_refs ids table p). intros ts. revert cnt Hc.
    induction ts as [|t ts IHt]; intros cnt Hc; [exact Hc|]. simpl. apply IHt.
    intros j. destruct (decide (t = j)) as [->|Hne].
    - rewrite lookup_insert_eq. simpl. specialize (Hc j). lia.
    - rewrite lookup_insert_ne by exact Hne. apply Hc. }
  apply Hgen. intros j. rewrite lookup_empty. simpl. lia.
Qed.

(** C5.  For every paper of the corpus with a non-negative citation count
    and relevance score, the influence that [main] computes, with the maxima
    and the in-corpus citation counts of that same corpus, lies between 0
    and 1. *)
Theorem influence_bounds (papers : list paper) (p : paper) :
  p ∈ papers → (0 <= cited_by_count p)%Z → (0 <= relevance_score p)%Q →
  (0 <= influence_of papers p <= 1)%R.
Proof.
  intros Hp Hc Hr. unfold influence_of, compute_influence.
  apply Rround_unit.
  pose proof (corpus_max_citations_ge papers p Hp) as Hmc.
  pose proof (corpus_max_relevance_ge papers p Hp) as Hmr.
  pose proof (count_in_corpus_nonneg papers (build_lookup papers) (Db.id p)) as Hn.
  set (M := corpus_max_citations papers) in *.
  set (Mr := corpus_max_relevance papers) in *.
  set (n := default 0%Z (count_in_corpus papers (build_lookup papers) !! Db.id p)) in *.
  set (y := IZR (year_or 1950 (year p))).
  assert (H1 : (0 <= log1p (IZR (cited_by_count p)) / log1p (IZR (Z.max M 1)) <= 1)%R).
  { apply ratio_bounds.
    - apply log1p_nonneg, (IZR_le 0), Hc.
    - apply log1p_mono; [apply (IZR_le 0), Hc|apply IZR_le; lia].
    - apply log1p_pos, (IZR_lt 0). lia. }
  assert (H2 : (0 <= Q2R (relevance_score p) / Rmax (Q2R Mr) 1 <= 1)%R).
  { apply ratio_bounds.
    - rewrite <- RMicromega.Q2R_0. apply Qle_Rle, Hr.
    - apply Rle_trans with (Q2R Mr); [apply Qle_Rle, Hmr|apply Rmax_l].
    - apply Rlt_le_trans with 1%R; [lra|apply Rmax_r]. }
  assert (H3 : (0 <= Rmin (log1p (IZR n) / log1p 50) 1 <= 1)%R).
  { split; [|apply Rmin_r]. apply Rmin_glb; [|lra].
    apply Rmult_le_pos; [apply log1p_nonneg, (IZR_le 0), Hn|].
    left. apply Rinv_0_lt_compat, log1p_pos. lra. }
  assert (H4 : (0 <= Rmax 0 (Rmin 1 ((y - (2025 - 30)) / 30)) <= 1)%R).
  { split; [apply Rmax_l|]. apply Rmax_lub; [lra|apply Rmin_l]. }
  lra.
Qed.

Lemma influence_bounds_witness :
  let papers := [Samples.cites_a; Samples.cited_b] in
  Samples.cited_b ∈ papers ∧
  (0 <= influence_of papers Samples.cited_b <= 1)%R.
Proof.
  assert (H : Samples.cited_b ∈ [Samples.cites_a; Samples.cited_b]) by (right; left).
  split; [exact H|].
  apply (influence_bounds _ _ H).
  - simpl. lia.
  - unfold Qle. simpl. lia.
Defined.

(** *** Layout *)

Lemma warm_position_same_hash (h1 h2 : string → Z) thread_y year_min year_range (e : entry) :
  h1 (Db.id (row e)) = h2 (Db.id (row e)) →
  warm_position h1 thread_y year_min year_range e
  = warm_position h2 thread_y year_min year_range e.
Proof. intros H. unfold warm_position. rewrite H. reflexivity. Qed.

Lemma warm_positions_same_hash (h1 h2 : string → Z) (papers : list entry)
    (thread_order : list string) :
  (∀ e, e ∈ papers → h1 (Db.id (row e)) = h2 (Db.id (row e))) →
  compute_warm_positions h1 papers thread_order
  = compute_warm_positions h2 papers thread_order.
Proof.
  intros H. unfold compute_warm_positions.
  destruct (min_list _) as [year_min|]; [|reflexivity].
  destruct (max_list _) as [year_max|]; [|reflexivity].
  f_equal. generalize (∅ : gmap string (Q * Z)).
  induction papers as [|e papers IH]; intros acc; [reflexivity|]. simpl.
  rewrite (warm_position_same_hash h1 h2) by (apply H; left).
  apply IH. intros e' He'. apply H. right. exact He'.
Qed.

(** C8.  The vertical coordinate carries the interpreter's hash of the
    identifier: for one paper the layout is the bucket of its thread plus
    [hash(id) % 60 - 30], and two processes whose hash functions differ on
    the identifier lay the same paper out at different places. *)
Theorem warm_positions_follow_hash :
  (∀ hash : string → Z,
     compute_warm_positions hash [geometric_entry] THREAD_ORDER
     = Some {[ "doi:10.1/b" := (round1 (-400), 300 + (hash "doi:10.1/b" mod 60 - 30)) ]}) ∧
  compute_warm_positions (fun _ => 0) [geometric_entry] THREAD_ORDER
  ≠ compute_warm_positions (fun _ => 1) [geometric_entry] THREAD_ORDER.
Proof.
  split.
  - intros hash. vm_compute. reflexivity.
  - intros H.
    apply (f_equal (fun o => o ≫= (fun m : gmap string (Q * Z) => snd <$> m !! "doi:10.1/b"))) in H.
    vm_compute in H. discriminate.
Qed.

(** *** The empty corpus *)

Lemma log1p_run_cases (x : R) :
  log1p_run x = Raises ValueError ∨ ((-1 < x)%R ∧ log1p_run x = Returns (log1p x)).
Proof.
  unfold log1p_run. destruct (Rle_dec x (-1)) as [H|H]; [left; reflexivity|].
  right. split; [lra|reflexivity].
Qed.

Lemma log1p_run_ok (x : R) : (-1 < x)%R → log1p_run x = Returns (log1p x).
Proof. intros H. unfold log1p_run. destruct (Rle_dec x (-1)); [lra|reflexivity]. Qed.

Lemma divide_ok (a b : R) : b ≠ 0%R → divide a b = Returns (a / b)%R.
Proof. intros H. unfold divide. destruct (Req_dec_T b 0); [contradiction|reflexivity]. Qed.

Lemma divide_int_ok (a b : Z) : b ≠ 0 → divide_int a b = Returns (inject_Z a / inject_Z b)%Q.
Proof. intros H. unfold divide_int. destruct (Z.eqb_spec b 0); [contradiction|reflexivity]. Qed.

(** The denominators of [compute_influence] as the source guards them. *)
Lemma influence_denominators (max_citations : Z) (max_relevance : Q) :
  log1p_run (IZR (Z.max max_citations 1)) = Returns (log1p (IZR (Z.max max_citations 1))) ∧
  log1p (IZR (Z.max max_citations 1)) ≠ 0%R ∧
  Rmax (Q2R max_relevance) 1 ≠ 0%R ∧
  log1p_run 50 = Returns (log1p 50) ∧ log1p 50 ≠ 0%R.
Proof.
  assert (H1 : (1 <= IZR (Z.max max_citations 1))%R) by (apply (IZR_le 1); lia).
  split; [apply log1p_run_ok; lra|].
  split; [apply Rgt_not_eq, log1p_pos; lra|].
  split; [apply Rgt_not_eq, Rlt_le_trans with 1%R; [lra|apply Rmax_r]|].
  split; [apply log1p_run_ok; lra|apply Rgt_not_eq, log1p_pos; lra].
Qed.

Lemma compute_influence_run_cases (p : paper) (in_corpus_citations : gmap string Z)
    (max_citations : Z) (max_relevance : Q) :
  compute_influence_run p in_corpus_citations max_citations max_relevance = Raises ValueError ∨
  compute_influence_run p in_corpus_citations max_citations max_relevance
  = Returns (compute_influence p in_corpus_citations max_citations max_relevance).
Proof.
  destruct (influence_denominators max_citations max_relevance) as (Hd1 & Hn1 & Hn2 & Hd3 & Hn3).
  unfold compute_influence_run, compute_influence. cbv zeta.
  destruct (log1p_run_cases (IZR (cited_by_count p))) as [-> | [_ ->]]; [left; reflexivity|].
  cbn [mbind outcome_bind]. rewrite Hd1. cbn [mbind outcome_bind].
  rewrite (divide_ok _ _ Hn1). cbn [mbind outcome_bind].
  rewrite (divide_ok _ _ Hn2). cbn [mbind outcome_bind].
  destruct (log1p_run_cases (IZR (default 0 (in_corpus_citations !! Db.id p))))
    as [-> | [_ ->]]; [left; reflexivity|].
  cbn [mbind outcome_bind]. rewrite Hd3. cbn [mbind outcome_bind].
  rewrite (divide_ok _ _ Hn3). cbn [mbind outcome_bind].
  rewrite divide_ok by lra. right. reflexivity.
Qed.

Lemma warm_positions_run_fold (hash : string → Z) (thread_y : gmap string Z)
    (year_min year_range : Z) (papers : list entry) (acc : gmap string (Q * Z)) :
  year_range ≠ 0 →
  foldl (fun positions e =>
           positions ← positions;
           w ← warm_position_run hash thread_y year_min year_range e;
           mret (<[Db.id (row e) := w]> positions))
    (Returns acc) papers
  = Returns (foldl (fun positions e =>
                      <[Db.id (row e) := warm_position hash thread_y year_min year_range e]>
                        positions)
               acc papers).
Proof.
  intros Hr. revert acc. induction papers as [|e papers IH]; intros acc; [reflexivity|].
  cbn [foldl]. cbn [mbind outcome_bind]. unfold warm_position_run.
  rewrite (divide_int_ok _ _ Hr). cbn [mbind outcome_bind mret outcome_ret]. apply IH.
Qed.

Lemma min_list_none (l : list Z) : min_list l = None ↔ l = [].
Proof. destruct l; simpl; split; congruence. Qed.

(** C9, as the code has it.  On an empty paper list [main] returns at once
    and writes no view at all; on any other list it writes the four views.
    No formula divides by zero, whatever the corpus: [compute_influence]
    never raises a ZeroDivisionError, for any maxima, and returns its value
    whenever the two counts it takes the logarithm of are not negative;
    [compute_warm_positions] never raises one either, and the one error it
    raises, the ValueError of [min] on an empty list, is not reached by
    [main]. *)
Theorem main_empty (hash : string → Z) (top_papers : Z) :
  main hash top_papers [] = None ∧
  (∀ papers, papers ≠ [] → is_Some (main hash top_papers papers)) ∧
  (∀ p in_corpus_citations max_citations max_relevance,
     compute_influence_run p in_corpus_citations max_citations max_relevance
     ≠ Raises ZeroDivisionError) ∧
  (∀ p in_corpus_citations max_citations max_relevance,
     0 ≤ cited_by_count p → 0 ≤ default 0 (in_corpus_citations !! Db.id p) →
     compute_influence_run p in_corpus_citations max_citations max_relevance
     = Returns (compute_influence p in_corpus_citations max_citations max_relevance)) ∧
  (∀ papers thread_order,
     compute_warm_positions_run hash papers thread_order
     = match compute_warm_positions hash papers thread_order with
       | Some positions => Returns positions
       | None => Raises ValueError
       end) ∧
  (∀ papers thread_order,
     compute_warm_positions hash papers thread_order = None ↔ papers = []).
Proof.
  split; [reflexivity|]. split.
  { intros [|p papers] H; [congruence|]. simpl. eauto. }
  split.
  { intros p icc mc mr.
    destruct (compute_influence_run_cases p icc mc mr) as [-> | ->]; discriminate. }
  split.
  { intros p in_corpus_citations mc mr Hc Hn.
    destruct (influence_denominators mc mr) as (Hd1 & Hn1 & Hn2 & Hd3 & Hn3).
    unfold compute_influence_run, compute_influence. cbv zeta.
    rewrite (log1p_run_ok (IZR (cited_by_count p)))
      by (apply Rlt_le_trans with 0%R; [lra|apply (IZR_le 0), Hc]).
    cbn [mbind outcome_bind]. rewrite Hd1. cbn [mbind outcome_bind].
    rewrite (divide_ok _ _ Hn1). cbn [mbind outcome_bind].
    rewrite (divide_ok _ _ Hn2). cbn [mbind outcome_bind].
    rewrite (log1p_run_ok (IZR (default 0 (in_corpus_citations !! Db.id p))))
      by (apply Rlt_le_trans with 0%R; [lra|apply (IZR_le 0), Hn]).
    cbn [mbind outcome_bind]. rewrite Hd3. cbn [mbind outcome_bind].
    rewrite (divide_ok _ _ Hn3). cbn [mbind outcome_bind].
    rewrite divide_ok by lra. reflexivity. }
  split.
  { intros papers thread_order. unfold compute_warm_positions_run, compute_warm_positions.
    cbv zeta. destruct (min_list _) as [year_min|]; [|reflexivity].
    destruct (max_list _) as [year_max|]; [|reflexivity].
    apply warm_positions_run_fold. lia. }
  intros papers thread_order. unfold compute_warm_positions. cbv zeta.
  destruct papers as [|e papers]; [split; reflexivity|].
  split; [discriminate|discriminate].
Qed.

(** C9, as stated, fails: no view with empty contents is produced. *)
Lemma main_empty_counterexample :
  main (fun _ => 0) 800 [] ≠ Some empty_views.
Proof. discriminate. Qed.


(** ** Further properties of the code *)

(** *** Merged rows and their identifiers *)

(** X1.  Whatever the two rows are, the row that [merge_paper_rows] returns
    is in merged form.  Its score is the greater of the two scores; the
    title and the base of the citation count, of the authors and of the tags
    are those of the first row unless the second has the greater score, and
    in that case nothing of the first row enters them. *)
Theorem merge_paper_rows_spec (existing incoming : paper) :
  let m := merge_paper_rows existing incoming in
  let stronger := Qlt_bool (relevance_score existing) (relevance_score incoming) in
  merged_form m ∧
  relevance_score m = (if stronger then relevance_score incoming else relevance_score existing) ∧
  title m = (if stronger then title incoming else title existing) ∧
  cited_by_count m =
    (if stronger then cited_by_count incoming
     else Z.max (cited_by_count existing) (cited_by_count incoming)) ∧
  authors m =
    (if stronger then union_key (authors incoming) (authors incoming)
     else union_key (authors existing) (authors incoming)) ∧
  tags m =
    (if stronger then union_key (tags incoming) (tags incoming)
     else union_key (tags existing) (tags incoming)).
Proof.
  cbv zeta. split; [apply merge_in_merged_form|]. split; [apply merge_score|].
  unfold merge_paper_rows.
  destruct (recompute_id_frame (merge_fields existing incoming))
    as (-> & _ & _ & _ & _ & -> & _ & -> & _ & _ & _ & ->).
  destruct (merge_fields_spec existing incoming)
    as (_ & -> & _ & -> & _ & _ & _ & _ & _ & _ & -> & _ & _ & _ & _ & _ & _ & _ & _ & -> & _).
  unfold merge_base.
  destruct (Qlt_bool (relevance_score existing) (relevance_score incoming)); simpl;
    rewrite ?Z.max_id; repeat split.
Qed.

Lemma arxiv_doi_truthy (d : string) : _is_arxiv_doi d = true → truthy d = true.
Proof. destruct d; [discriminate|reflexivity]. Qed.

(** X2.  Of a published DOI and an arXiv DOI the merge keeps the published
    one, whichever row brings it, and the identifier follows it. *)
Theorem merge_prefers_published_doi (existing incoming : paper) (published arxiv : string) :
  _is_arxiv_doi published = false → published ≠ "" → _is_arxiv_doi arxiv = true →
  (doi existing = Some published ∧ doi incoming = Some arxiv) ∨
  (doi existing = Some arxiv ∧ doi incoming = Some published) →
  doi (merge_paper_rows existing incoming) = Some published ∧
  Db.id (merge_paper_rows existing incoming) = "doi:" +:+ published.
Proof.
  intros Hp Hne Ha Hd.
  apply truthy_nonempty in Hne. pose proof (arxiv_doi_truthy _ Ha) as Hta.
  assert (Hdoi : doi (merge_fields existing incoming) = Some published).
  { destruct (merge_fields_spec existing incoming) as (_&_&_&_&_& -> &_).
    destruct Hd as [[-> ->]|[-> ->]]; unfold both; simpl; rewrite Hne, Hta; simpl.
    - rewrite filter_cons_True by exact Hp. reflexivity.
    - rewrite filter_cons_False by congruence.
      rewrite filter_cons_True by exact Hp. reflexivity. }
  unfold merge_paper_rows.
  pose proof (recompute_id_canonical (merge_fields existing incoming)) as Hid.
  destruct (recompute_id_frame (merge_fields existing incoming)) as (_ & _ & Hd' & _).
  cbv zeta in Hid. rewrite Hd' in *. rewrite Hdoi in *. split; [reflexivity|].
  rewrite Hid. unfold canonical_paper_id. simpl. rewrite Hne. reflexivity.
Qed.

Lemma merge_prefers_published_doi_witness :
  doi (merge_paper_rows Cases.preprint_with_doi Samples.published) = Some "10.1000/x" ∧
  Db.id (merge_paper_rows Cases.preprint_with_doi Samples.published) = "doi:10.1000/x".
Proof.
  apply (merge_prefers_published_doi _ _ "10.1000/x" "10.48550/arxiv.2001.00001");
    [reflexivity|discriminate|reflexivity|].
  right. split; reflexivity.
Defined.

Lemma merge_ids_kept (existing incoming : paper) (a : string) :
  a = Db.id existing ∨ a = Db.id incoming → a ≠ "" →
  a = Db.id (merge_paper_rows existing incoming) ∨
  a ∈ aliases (merge_paper_rows existing incoming).
Proof.
  unfold merge_paper_rows. set (p := merge_fields existing incoming).
  intros Ha Hne.
  destruct (decide (a = Db.id (recompute_id p))) as [->|Hnid]; [left; reflexivity|].
  right. apply recompute_id_aliases. split; [|tauto].
  destruct (decide (a = Db.id p)) as [->|Hnp].
  - right. split; [reflexivity|]. split; [congruence|exact Hne].
  - left. apply merge_fields_aliases. tauto.
Qed.

(** X3.  No identifier is lost in a merge: the identifier of either row, when
    it is not empty, is the identifier of the merged row or one of its
    aliases. *)
Theorem merge_keeps_ids (existing incoming : paper) (a : string) :
  a = Db.id existing ∨ a = Db.id incoming → a ≠ "" →
  a = Db.id (merge_paper_rows existing incoming) ∨
  a ∈ aliases (merge_paper_rows existing incoming).
Proof. apply merge_ids_kept. Qed.

Lemma merge_keeps_ids_witness :
  "arxiv:2001.00001" = Db.id (merge_paper_rows Samples.preprint Samples.published) ∨
  "arxiv:2001.00001" ∈ aliases (merge_paper_rows Samples.preprint Samples.published).
Proof.
  apply (merge_keeps_ids Samples.preprint Samples.published "arxiv:2001.00001");
    [left; reflexivity|discriminate].
Defined.

(** X4.  [dedupe_accepted_papers] returns one row for each title key of its
    input and no other; a list whose title keys are all different comes back
    as it is. *)
Theorem dedupe_one_row_per_key (papers : list paper) :
  NoDup (map title_key (dedupe_accepted_papers papers)) ∧
  (∀ k, k ∈ map title_key (dedupe_accepted_papers papers) ↔ k ∈ map title_key papers) ∧
  (length (dedupe_accepted_papers papers) ≤ length papers)%nat ∧
  (NoDup (map title_key papers) → dedupe_accepted_papers papers = papers).
Proof.
  destruct (dedupe_summary papers) as ([Hnd Hk] & Hkeys & _).
  assert (Hmap : map title_key (dedupe_accepted_papers papers) = map fst (dedupe_table papers)).
  { unfold dedupe_accepted_papers. rewrite map_map.
    apply map_ext_in. intros [k r] Hin. rewrite Forall_forall in Hk.
    apply (Hk (k, r)), list_elem_of_In, Hin. }
  assert (Hin : ∀ k, k ∈ map fst (dedupe_table papers) ↔ k ∈ map title_key papers).
  { intros k. rewrite Hkeys. split.
    - intros (x & Hx & <-). apply list_elem_of_fmap. exists x. auto.
    - intros (x & -> & Hx)%list_elem_of_fmap. exists x. auto. }
  rewrite Hmap. split; [exact Hnd|]. split; [exact Hin|]. split.
  - unfold dedupe_accepted_papers. rewrite length_map.
    rewrite <- (length_map fst), <- (length_map title_key papers).
    apply submseteq_length, NoDup_submseteq; [exact Hnd|].
    intros k Hk'. apply Hin, Hk'.
  - intros Hdis. unfold dedupe_accepted_papers, dedupe_table.
    pose proof (fold_fresh (map (fun v => (title_key v, v)) papers) []) as Hf.
    rewrite map_map in Hf. simpl in Hf. rewrite map_id in Hf.
    rewrite Hf by (apply keyed_table_ok, Hdis).
    rewrite map_map. simpl. apply map_id.
Qed.

Lemma dedupe_one_row_per_key_witness :
  NoDup (map title_key [Samples.published; Samples.two_authors]) ∧
  dedupe_accepted_papers [Samples.published; Samples.two_authors]
  = [Samples.published; Samples.two_authors].
Proof.
  assert (H : NoDup (map title_key [Samples.published; Samples.two_authors])).
  { refine (bool_decide_unpack _ _). vm_compute. exact I. }
  split; [exact H|].
  exact (proj2 (proj2 (proj2 (dedupe_one_row_per_key _))) H).
Defined.

Lemma otruthy_some (o : option string) : otruthy o = true → ∃ s, o = Some s ∧ s ≠ "".
Proof.
  destruct o as [s|]; [|discriminate]. intros H. exists s. split; [reflexivity|].
  apply truthy_nonempty, H.
Qed.

(** X5.  Identifiers of different namespaces never meet: two rows with the
    same canonical identifier took it from the same kind of field, and from
    the same DOI, the same arXiv identifier or the same short OpenAlex
    identifier. *)
Theorem canonical_ids_by_namespace (d a o d' a' o' : option string) (t t' : string)
    (y y' : option Z) :
  canonical_paper_id d a o t y = canonical_paper_id d' a' o' t' y' →
  (otruthy d = true → d' = d) ∧
  (otruthy d = false → otruthy a = true → otruthy d' = false ∧ a' = a) ∧
  (otruthy d = false → otruthy a = false → otruthy o = true →
     otruthy d' = false ∧ otruthy a' = false ∧ otruthy o' = true ∧
     Db.short_openalex_id o' = Db.short_openalex_id o).
Proof.
  unfold canonical_paper_id. intros H.
  destruct (otruthy d) eqn:Hd, (otruthy d') eqn:Hd';
    [|exfalso|exfalso|];
    try (destruct (otruthy a') eqn:Ha'; [|destruct (otruthy o')]; simpl in H; discriminate).
  - split; [|split; discriminate]. intros _.
    apply otruthy_some in Hd as (s & -> & _). apply otruthy_some in Hd' as (s' & -> & _).
    simpl in H. apply (inj (String.app "doi:")) in H. congruence.
  - destruct (otruthy a) eqn:Ha; [|destruct (otruthy o)]; simpl in H; discriminate.
  - split; [discriminate|].
    destruct (otruthy a) eqn:Ha, (otruthy a') eqn:Ha';
      [|exfalso|exfalso|];
      try (destruct (otruthy o'); simpl in H; discriminate).
    + split; [|discriminate]. intros _ _. split; [reflexivity|].
      apply otruthy_some in Ha as (s & -> & _). apply otruthy_some in Ha' as (s' & -> & _).
      simpl in H. apply (inj (String.app "arxiv:")) in H. congruence.
    + destruct (otruthy o); simpl in H; discriminate.
    + split; [discriminate|]. intros _ _ Ho. rewrite Ho in H.
      destruct (otruthy o') eqn:Ho'; [|simpl in H; discriminate].
      repeat split; try reflexivity.
      assert (Hs : ∀ x, otruthy x = true → ∃ s, Db.short_openalex_id x = Some s).
      { intros x Hx. apply otruthy_some in Hx as (s & -> & Hne). unfold Db.short_openalex_id.
        apply truthy_nonempty in Hne. rewrite Hne. destruct (openalex_suffix _); eauto. }
      destruct (Hs o Ho) as (s & Es), (Hs o' Ho') as (s' & Es').
      rewrite Es, Es' in *. simpl in H. apply (inj (String.app "openalex:")) in H.
      simpl in H. congruence.
Qed.

Lemma canonical_ids_by_namespace_witness :
  Db.short_openalex_id (Some "W2") = Db.short_openalex_id (Some "https://openalex.org/W2").
Proof.
  assert (H : canonical_paper_id None None (Some "https://openalex.org/W2") "On minimal surfaces" None
              = canonical_paper_id None None (Some "W2") "Minimal surfaces" (Some 1999))
    by reflexivity.
  destruct (canonical_ids_by_namespace _ _ _ _ _ _ _ _ _ _ H) as (_ & _ & Ho).
  destruct (Ho eq_refl eq_refl eq_refl) as (_ & _ & _ & Hs). exact Hs.
Defined.

(** *** Lists *)

Lemma filter_none {A} (P : A → Prop) `{∀ x, Decision (P x)} (l : list A) :
  (∀ x, x ∈ l → ¬ P x) → filter P l = [].
Proof.
  induction l as [|x l IH]; intros Hl; [reflexivity|].
  rewrite filter_cons_False by (apply Hl; left). apply IH. intros y Hy. apply Hl. right. exact Hy.
Qed.

(** *** Text *)

Lemma chars_text (l : list ascii) : chars (text l) = l.
Proof. apply list_ascii_of_string_of_list_ascii. Qed.

Lemma text_chars (s : string) : text (chars s) = s.
Proof. apply string_of_list_ascii_of_string. Qed.

Lemma lstrip_by_head (f : ascii → bool) (l : list ascii) :
  match lstrip_by f l with c :: _ => f c = false | [] => True end.
Proof.
  induction l as [|c l IH]; simpl; [exact I|].
  destruct (f c) eqn:E; [exact IH|exact E].
Qed.

Lemma lstrip_by_fixed (f : ascii → bool) (l : list ascii) :
  match l with c :: _ => f c = false | [] => True end → lstrip_by f l = l.
Proof. destruct l as [|c l]; simpl; [reflexivity|]. intros ->. reflexivity. Qed.

Lemma lstrip_by_suffix (f : ascii → bool) (l : list ascii) :
  ∃ pre, l = pre ++ lstrip_by f l ∧ Forall (fun c => f c = true) pre.
Proof.
  induction l as [|c l (pre & Hl & Hpre)]; simpl.
  - exists []. split; [reflexivity|constructor].
  - destruct (f c) eqn:E.
    + exists (c :: pre). split; [simpl; congruence|constructor; assumption].
    + exists []. split; [reflexivity|constructor].
Qed.

Lemma strip_by_split (f : ascii → bool) (l : list ascii) :
  strip_by f l = rstrip_by f (lstrip_by f l).
Proof. reflexivity. Qed.

Lemma rstrip_by_snoc (f : ascii → bool) (l : list ascii) (c : ascii) :
  rstrip_by f (l ++ [c]) = if f c then rstrip_by f l else l ++ [c].
Proof.
  unfold rstrip_by. rewrite rev_app_distr. simpl.
  destruct (f c); [reflexivity|]. simpl. rewrite rev_involutive. reflexivity.
Qed.

Lemma rstrip_by_nil (f : ascii → bool) : rstrip_by f [] = [].
Proof. reflexivity. Qed.

(** What is left after [rstrip_by] is a prefix that does not end in [f]. *)
Lemma rstrip_by_prefix (f : ascii → bool) (l : list ascii) :
  ∃ suf, l = rstrip_by f l ++ suf ∧ Forall (fun c => f c = true) suf ∧
         match rev (rstrip_by f l) with c :: _ => f c = false | [] => True end.
Proof.
  unfold rstrip_by. rewrite rev_involutive.
  destruct (lstrip_by_suffix f (rev l)) as (pre & Hl & Hpre).
  exists (rev pre). split; [|split].
  - rewrite <- rev_app_distr, <- Hl, rev_involutive. reflexivity.
  - apply Forall_rev, Hpre.
  - apply lstrip_by_head.
Qed.

Lemma rstrip_by_fixed (f : ascii → bool) (l : list ascii) :
  match rev l with c :: _ => f c = false | [] => True end → rstrip_by f l = l.
Proof.
  intros H. unfold rstrip_by. rewrite lstrip_by_fixed by exact H. apply rev_involutive.
Qed.

Lemma rstrip_by_cons_head (f : ascii → bool) (c : ascii) (l : list ascii) :
  f c = false → ∃ l', rstrip_by f (c :: l) = c :: l'.
Proof.
  intros Hc. induction l as [|d l IH] using rev_ind.
  - exists []. unfold rstrip_by. simpl. rewrite Hc. reflexivity.
  - change (c :: l ++ [d]) with ((c :: l) ++ [d]). rewrite rstrip_by_snoc.
    destruct (f d); [exact IH|]. exists (l ++ [d]). reflexivity.
Qed.

Lemma strip_by_idem (f : ascii → bool) (l : list ascii) :
  strip_by f (strip_by f l) = strip_by f l.
Proof.
  rewrite (strip_by_split f (strip_by f l)).
  assert (Hhead : lstrip_by f (strip_by f l) = strip_by f l).
  { apply lstrip_by_fixed. rewrite strip_by_split.
    pose proof (lstrip_by_head f l) as Hh.
    destruct (lstrip_by f l) as [|c l'] eqn:E; [exact I|].
    destruct (rstrip_by_cons_head f c l' Hh) as (l'' & ->). exact Hh. }
  rewrite Hhead. apply rstrip_by_fixed.
  rewrite strip_by_split.
  destruct (rstrip_by_prefix f (lstrip_by f l)) as (_ & _ & _ & H). exact H.
Qed.

Lemma strip_idem (s : string) : strip (strip s) = strip s.
Proof. unfold strip. rewrite chars_text, strip_by_idem. reflexivity. Qed.

Lemma take_while_all (f : ascii → bool) (l : list ascii) : Forall (fun c => f c = true) (take_while f l).
Proof.
  induction l as [|c l IH]; simpl; [constructor|].
  destruct (f c) eqn:E; constructor; assumption.
Qed.

Lemma take_while_app_stop (f : ascii → bool) (l : list ascii) (c : ascii) (rest : list ascii) :
  Forall (fun c => f c = true) l → f c = false →
  take_while f (l ++ c :: rest) = l ∧ lstrip_by f (l ++ c :: rest) = c :: rest.
Proof.
  intros Hl Hc. induction Hl as [|d l Hd Hl IH]; simpl.
  - rewrite Hc. split; reflexivity.
  - rewrite Hd. destruct IH as [-> ->]. split; reflexivity.
Qed.

Lemma digit_not_space (c : ascii) : is_digit c = true → is_space c = false.
Proof.
  unfold is_digit, is_space, between. intros H.
  apply andb_true_iff in H as [H1 H2]. apply N.leb_le in H1, H2.
  apply orb_false_iff. split; apply andb_false_iff.
  - right. apply N.leb_gt. lia.
  - right. apply N.leb_gt. lia.
Qed.

Lemma letter_AW (k : ascii) :
  ((code k =? 65)%N || (code k =? 87)%N) = true → is_digit k = false ∧ is_space k = false.
Proof.
  intros H. unfold is_digit, is_space, between.
  apply orb_true_iff in H as [H|H]; apply N.eqb_eq in H; rewrite H; split; reflexivity.
Qed.

(** What [openalex_suffix] finds: A or W and the digits after it. *)
Lemma openalex_suffix_shape (value g : list ascii) :
  openalex_suffix value = Some g →
  ∃ k ds, g = k :: ds ∧ ((code k =? 65)%N || (code k =? 87)%N) = true ∧
          ds ≠ [] ∧ Forall (fun c => is_digit c = true) ds.
Proof.
  unfold openalex_suffix. intros H.
  pose proof (take_while_all is_digit (rev value)) as Hds.
  destruct (take_while is_digit (rev value)) as [|d ds] eqn:E; [discriminate|].
  destruct (lstrip_by is_digit (rev value)) as [|k [|sl rest]]; try discriminate.
  destruct (((code k =? 65)%N || (code k =? 87)%N) && (code sl =? 47)%N) eqn:Ek; [|discriminate].
  injection H as <-. apply andb_true_iff in Ek as [Ek _].
  exists k, (rev (d :: ds)). split; [reflexivity|]. split; [exact Ek|]. split.
  - intros Hnil. apply (f_equal (@length ascii)) in Hnil. rewrite length_rev in Hnil. discriminate.
  - apply Forall_rev, Hds.
Qed.

Lemma short_form_fixed (k : ascii) (ds : list ascii) :
  ((code k =? 65)%N || (code k =? 87)%N) = true → ds ≠ [] →
  Forall (fun c => is_digit c = true) ds →
  strip_by is_space (k :: ds) = k :: ds ∧ openalex_suffix (k :: ds) = None.
Proof.
  intros Hk Hne Hds. destruct (letter_AW k Hk) as [Hkd Hks]. split.
  - rewrite strip_by_split. rewrite lstrip_by_fixed by exact Hks.
    apply rstrip_by_fixed. simpl.
    destruct (rev ds) as [|c r] eqn:E.
    + apply (f_equal (@rev ascii)) in E. rewrite rev_involutive in E. contradiction.
    + simpl. apply digit_not_space.
      assert (Hin : c ∈ rev ds) by (rewrite E; left).
      apply list_elem_of_In, in_rev, list_elem_of_In in Hin.
      rewrite Forall_forall in Hds. apply Hds, Hin.
  - unfold openalex_suffix. simpl.
    destruct (take_while_app_stop is_digit (rev ds) k [] (Forall_rev Hds) Hkd) as [-> ->].
    destruct (rev ds); reflexivity.
Qed.

Lemma truthy_text (l : list ascii) : truthy (text l) = true ↔ l ≠ [].
Proof. destruct l; simpl; split; congruence. Qed.

(** X6.  Shortening an OpenAlex identifier twice is shortening it once, and
    the two scripts shorten alike. *)
Theorem short_openalex_id_idempotent (oa : option string) :
  Analyze.short_openalex_id oa = Db.short_openalex_id oa ∧
  ∀ r, Db.short_openalex_id oa = Some r → r ≠ "" →
       Db.short_openalex_id (Some r) = Some r.
Proof.
  split; [reflexivity|]. intros r Hr Hne. apply truthy_nonempty in Hne.
  destruct oa as [s|]; [|discriminate]. unfold Db.short_openalex_id in *.
  destruct (truthy s); [|discriminate]. rewrite Hne.
  destruct (openalex_suffix (chars (strip s))) as [g|] eqn:E.
  - injection Hr as <-.
    destruct (openalex_suffix_shape _ _ E) as (k & ds & -> & Hk & Hds & Hall).
    destruct (short_form_fixed k ds Hk Hds Hall) as [Hstrip Hsuf].
    unfold strip. rewrite !chars_text, Hstrip, Hsuf. reflexivity.
  - injection Hr as <-. rewrite strip_idem, E. reflexivity.
Qed.

Lemma short_openalex_id_idempotent_witness :
  Db.short_openalex_id (Some "https://openalex.org/W2741809807") = Some "W2741809807" ∧
  Db.short_openalex_id (Some "W2741809807") = Some "W2741809807".
Proof.
  assert (H : Db.short_openalex_id (Some "https://openalex.org/W2741809807")
              = Some "W2741809807") by reflexivity.
  split; [exact H|].
  apply (proj2 (short_openalex_id_idempotent (Some "https://openalex.org/W2741809807")) _ H).
  discriminate.
Defined.

(** *** Title keys *)

Lemma lower_char_idem (c : ascii) : lower_char (lower_char c) = lower_char c.
Proof. destruct c as [[] [] [] [] [] [] [] []]; reflexivity. Qed.

Lemma lower_idem (s : string) : lower (lower s) = lower s.
Proof.
  unfold lower. rewrite chars_text, map_map. f_equal.
  apply map_ext. intros c. apply lower_char_idem.
Qed.

Lemma key_char_lower (c : ascii) : key_char " " c → lower_char c = c.
Proof.
  intros [H| ->]; [|reflexivity]. revert H.
  destruct c as [[] [] [] [] [] [] [] []]; (reflexivity || discriminate).
Qed.

Lemma key_char_no_backslash (c : ascii) : key_char " " c → (code c =? 92)%N = false.
Proof.
  intros [H| ->]; [|reflexivity]. revert H.
  destruct c as [[] [] [] [] [] [] [] []]; (reflexivity || discriminate).
Qed.

Lemma strip_escapes_fixed (l : list ascii) :
  Forall (key_char " ") l → strip_escapes l = l.
Proof.
  induction 1 as [|c l Hc Hl IH]; [reflexivity|].
  cbn [strip_escapes]. destruct l as [|d l']; [reflexivity|].
  rewrite (key_char_no_backslash c Hc). cbn [andb]. f_equal. exact IH.
Qed.

Lemma runs_done_fixed cls sep in_run l :
  runs_done cls sep in_run l → sub_runs_from cls sep in_run l = l.
Proof.
  revert in_run. induction l as [|c l IH]; intros in_run; simpl; [reflexivity|].
  destruct (cls c).
  - intros (-> & -> & H). f_equal. apply IH, H.
  - intros H. f_equal. apply IH, H.
Qed.

Lemma sub_runs_from_done cls sep in_run l :
  cls sep = true → runs_done cls sep in_run (sub_runs_from cls sep in_run l).
Proof.
  intros Hsep. revert in_run. induction l as [|c l IH]; intros in_run; simpl; [exact I|].
  destruct (cls c) eqn:Ec.
  - destruct in_run; [apply IH|]. simpl. rewrite Hsep. auto.
  - simpl. rewrite Ec. apply IH.
Qed.

Lemma runs_done_weaken cls sep in_run l :
  runs_done cls sep in_run l → runs_done cls sep false l.
Proof.
  destruct l as [|c l]; simpl; [auto|]. destruct (cls c); [|auto].
  intros (-> & _ & H). auto.
Qed.

Lemma runs_done_suffix cls sep in_run pre l :
  runs_done cls sep in_run (pre ++ l) → runs_done cls sep false l.
Proof.
  revert in_run. induction pre as [|c pre IH]; intros in_run; simpl.
  - apply runs_done_weaken.
  - destruct (cls c); [intros (_ & _ & H)|intros H]; eapply IH, H.
Qed.

Lemma runs_done_prefix cls sep in_run l suf :
  runs_done cls sep in_run (l ++ suf) → runs_done cls sep in_run l.
Proof.
  revert in_run. induction l as [|c l IH]; intros in_run; simpl; [auto|].
  destruct (cls c); [intros (-> & -> & H)|intros H]; eauto.
Qed.

Lemma strip_by_infix (f : ascii → bool) (l : list ascii) :
  ∃ pre suf, l = pre ++ strip_by f l ++ suf.
Proof.
  destruct (lstrip_by_suffix f l) as (pre & Hl & _).
  destruct (rstrip_by_prefix f (lstrip_by f l)) as (suf & Hs & _).
  exists pre, suf. rewrite strip_by_split, <- Hs. exact Hl.
Qed.

Lemma sub_runs_chars cls sep in_run l :
  Forall (fun c => cls c = false ∨ c = sep) (sub_runs_from cls sep in_run l).
Proof.
  revert in_run. induction l as [|c l IH]; intros in_run; simpl; [constructor|].
  destruct (cls c) eqn:Ec; [destruct in_run|]; auto.
Qed.

(** What is left of a text when the runs of a class are replaced and the
    ends are stripped. *)
Lemma runs_shape (cls : ascii → bool) (sep : ascii) (l : list ascii) (f : ascii → bool) :
  cls sep = true →
  let k := strip_by f (sub_runs cls sep l) in
  Forall (fun c => cls c = false ∨ c = sep) k ∧ runs_done cls sep false k.
Proof.
  intros Hsep k. unfold k.
  destruct (strip_by_infix f (sub_runs cls sep l)) as (pre & suf & E).
  split.
  - pose proof (sub_runs_chars cls sep false l) as H. fold (sub_runs cls sep l) in H.
    rewrite E in H. apply Forall_app in H as [_ H]. apply Forall_app in H as [H _]. exact H.
  - pose proof (sub_runs_from_done cls sep false l Hsep) as H. fold (sub_runs cls sep l) in H.
    rewrite E in H. apply runs_done_suffix in H. eapply runs_done_prefix, H.
Qed.

Lemma title_key_shape (sep : ascii) (l : list ascii) (f : ascii → bool) :
  let cls := fun c => negb (is_lower_alnum c) in
  cls sep = true →
  let k := strip_by f (sub_runs cls sep l) in
  Forall (key_char sep) k ∧ runs_done cls sep false k.
Proof.
  intros cls Hsep k. destruct (runs_shape cls sep l f Hsep) as [H1 H2].
  split; [|exact H2].
  eapply Forall_impl; [exact H1|]. intros c [Hc| ->]; [left|right; reflexivity].
  unfold cls in Hc. apply negb_false_iff, Hc.
Qed.

(** X7.  The key under which duplicates are looked up is in normal form:
    it is made of lower-case letters, digits and single spaces, taking the
    key of a key changes nothing, and the case of the title plays no part. *)
Theorem normalize_title_key_normal (title : string) :
  let k := normalize_title_key title in
  normalize_title_key k = k ∧
  normalize_title_key (lower title) = k ∧
  Forall (fun c => is_lower_alnum c = true ∨ c = " "%char) (chars k) ∧
  strip k = k.
Proof.
  cbv zeta. split; [|split; [|split]].
  - unfold normalize_title_key at 1.
    set (k := normalize_title_key title).
    assert (Hk : chars k = strip_by is_space
                   (sub_runs (fun c => negb (is_lower_alnum c)) " "%char
                      (strip_escapes (chars (lower title))))).
    { unfold k, normalize_title_key, strip. rewrite !chars_text. reflexivity. }
    destruct (title_key_shape " "%char (strip_escapes (chars (lower title))) is_space eq_refl)
      as [Hc Hr]. cbv zeta in Hc, Hr. rewrite <- Hk in Hc, Hr.
    assert (Hlow : chars (lower k) = chars k).
    { unfold lower. rewrite chars_text. rewrite <- (map_id (chars k)) at 2.
      apply map_ext_in. intros c Hin. apply key_char_lower.
      rewrite Forall_forall in Hc. apply Hc, list_elem_of_In, Hin. }
    rewrite Hlow, (strip_escapes_fixed _ Hc).
    unfold sub_runs. rewrite (runs_done_fixed _ _ _ _ Hr). rewrite text_chars.
    unfold strip. rewrite Hk, strip_by_idem, <- Hk. apply text_chars.
  - unfold normalize_title_key. rewrite lower_idem. reflexivity.
  - unfold normalize_title_key, strip. rewrite !chars_text.
    apply (title_key_shape " "%char (strip_escapes (chars (lower title))) is_space eq_refl).
  - unfold normalize_title_key. apply strip_idem.
Qed.

(** *** Terms in a text *)

Lemma seps_spec (k : list ascii → bool) (u : list ascii) :
  (fix seps (u : list ascii) : bool :=
     match u with
     | d :: u' => if is_sep d then k u' || seps u' else false
     | [] => false
     end) u = true
  ↔ ∃ run rest, u = run ++ rest ∧ run ≠ [] ∧ Forall (fun d => is_sep d = true) run ∧
                k rest = true.
Proof.
  induction u as [|d u IH].
  - split; [discriminate|]. intros (run & rest & E & Hne & _).
    destruct run; [contradiction|discriminate].
  - destruct (is_sep d) eqn:Ed.
    + rewrite orb_true_iff, IH. split.
      * intros [Hk|(run & rest & -> & Hne & Hrun & Hk)].
        -- exists [d], u. repeat split; auto; discriminate.
        -- exists (d :: run), rest. repeat split; auto; discriminate.
      * intros (run & rest & E & Hne & Hrun & Hk).
        destruct run as [|d' run]; [contradiction|]. injection E as <- ->.
        apply Forall_cons in Hrun as [_ Hrun].
        destruct run as [|d'' run]; [left; exact Hk|].
        right. exists (d'' :: run), rest. repeat split; auto; discriminate.
    + split; [discriminate|]. intros (run & rest & E & Hne & Hrun & _).
      destruct run as [|d' run]; [contradiction|]. injection E as <- ->.
      apply Forall_cons in Hrun as [Hd _]. congruence.
Qed.

Lemma match_here_spec (pat : list ascii) (ok_end : list ascii → bool) (t : list ascii) :
  match_here pat ok_end t = true
  ↔ ∃ mid post, t = mid ++ post ∧ spells pat mid ∧ ok_end post = true.
Proof.
  revert t. induction pat as [|c pat IH]; intros t.
  - cbn [match_here]. split.
    + intros H. exists [], t. repeat split; [constructor|exact H].
    + intros (mid & post & -> & Hs & H). inversion Hs. exact H.
  - cbn [match_here]. destruct (code c =? 32)%N eqn:Ec.
    + rewrite (seps_spec (match_here pat ok_end) t). split.
      * intros (run & rest & -> & Hne & Hrun & Hk).
        apply IH in Hk as (mid & post & -> & Hs & Hok).
        exists (run ++ mid), post. rewrite <- app_assoc. repeat split; auto.
        apply spells_gap; assumption.
      * intros (mid & post & -> & Hs & Hok).
        inversion Hs as [|c' pat' t' Hc Hs' E1 E2|c' pat' run t' Hc Hne Hrun Hs' E1 E2];
          subst; [congruence|].
        exists run, (t' ++ post). rewrite <- app_assoc. repeat split; auto.
        apply IH. eauto.
    + destruct t as [|d t].
      * split; [discriminate|]. intros (mid & post & E & Hs & _).
        inversion Hs as [|c' pat' t' Hc Hs' E1 E2|c' pat' run t' Hc Hne Hrun Hs' E1 E2];
          subst; [discriminate E|congruence].
      * destruct (Ascii.eqb_spec c d) as [->|Hne].
        -- rewrite IH. split.
           ++ intros (mid & post & -> & Hs & Hok). exists (d :: mid), post.
              repeat split; auto. apply spells_char; assumption.
           ++ intros (mid & post & E & Hs & Hok).
              inversion Hs as [|c' pat' t' Hc Hs' E1 E2|c' pat' run t' Hc Hne Hrun Hs' E1 E2];
                subst; [|congruence].
              injection E as ->. eauto.
        -- split; [discriminate|]. intros (mid & post & E & Hs & _).
           inversion Hs as [|c' pat' t' Hc Hs' E1 E2|c' pat' run t' Hc Hne' Hrun Hs' E1 E2];
             subst; [|congruence].
           injection E as -> _. contradiction.
Qed.

Lemma search_from_spec (pat : list ascii) (ok_start : option ascii → bool)
    (ok_end : list ascii → bool) (prev : option ascii) (t : list ascii) :
  search_from pat ok_start ok_end prev t = true
  ↔ ∃ pre rest, t = pre ++ rest ∧ ok_start (char_before prev pre) = true ∧
                match_here pat ok_end rest = true.
Proof.
  revert prev. induction t as [|c t IH]; intros prev; cbn [search_from].
  - rewrite orb_false_r, andb_true_iff. split.
    + intros [H1 H2]. exists [], []. auto.
    + intros (pre & rest & E & H1 & H2). symmetry in E. apply app_eq_nil in E as [-> ->]. auto.
  - rewrite orb_true_iff, andb_true_iff, IH. split.
    + intros [[H1 H2]|(pre & rest & -> & H1 & H2)].
      * exists [], (c :: t). auto.
      * exists (c :: pre), rest. repeat split; [|exact H2].
        unfold char_before in *. rewrite last_cons. destruct (last pre); exact H1.
    + intros (pre & rest & E & H1 & H2). destruct pre as [|c' pre].
      * left. simpl in E. subst rest. auto.
      * right. injection E as <- ->. exists pre, rest. repeat split; [|exact H2].
        unfold char_before in *. rewrite last_cons in H1. destruct (last pre); exact H1.
Qed.

(** The matches of [term_in_text], in the classes of [Text]. *)
Lemma term_in_text_matches (term text : string) :
  let pat := chars (lower term) in
  let cls := if short_token pat then is_word else is_lower_alnum in
  term_in_text term text = true
  ↔ ∃ pre mid post, chars text = pre ++ mid ++ post ∧ spells pat mid ∧
                    not_at cls (last pre) = true ∧ not_next cls post = true.
Proof.
  cbv zeta. unfold term_in_text. cbv zeta.
  destruct (short_token (chars (lower term)));
    rewrite search_from_spec; (split;
      [intros (pre & rest & E & H1 & H2); apply match_here_spec in H2 as (mid & post & -> & Hs & H3);
       exists pre, mid, post; repeat split; auto;
       unfold char_before in H1; destruct (last pre); exact H1
      |intros (pre & mid & post & E & Hs & H1 & H3); exists pre, (mid ++ post);
       split; [exact E|]; split;
       [unfold char_before; destruct (last pre); exact H1
       |apply match_here_spec; eauto]]).
Qed.

Lemma ascii_word (c : ascii) : (code c < 128)%N → is_word c = is_ascii_word c.
Proof.
  intros H. unfold is_word, is_ascii_word.
  destruct (N.leb_spec 128 (code c)) as [H'|_]; [lia|]. apply orb_false_r.
Qed.

Lemma not_at_ascii (l : list ascii) :
  Forall (fun c => (code c < 128)%N) l →
  not_at is_word (last l) = not_at is_ascii_word (last l).
Proof.
  intros H. destruct (last l) as [c|] eqn:E; [|reflexivity]. simpl.
  rewrite ascii_word; [reflexivity|].
  rewrite Forall_forall in H. apply H. apply last_Some in E as (l' & ->).
  apply elem_of_app. right. left.
Qed.

Lemma not_next_ascii (l : list ascii) :
  Forall (fun c => (code c < 128)%N) l →
  not_next is_word l = not_next is_ascii_word l.
Proof.
  intros H. destruct l as [|c l]; [reflexivity|]. simpl.
  rewrite ascii_word; [reflexivity|]. apply Forall_cons in H as [H _]. exact H.
Qed.

(** X8.  For a term and a text of ASCII characters: the term is found in
    the text exactly where the text spells it, a run of white space and
    hyphens standing for each space of the term, and no letter or digit
    touches it: a word character, that is a letter, a digit or the
    underscore, in the case of a term of at most four lower-case letters and
    digits, a lower-case letter or a digit otherwise.  The term is compared
    in lower case, the text as it is. *)
Theorem term_in_text_spec (term text : string) :
  ascii_only term → ascii_only text →
  let pat := chars (lower term) in
  let cls := if short_token pat then is_ascii_word else is_lower_alnum in
  term_in_text term text = true
  ↔ ∃ pre mid post, chars text = pre ++ mid ++ post ∧ spells pat mid ∧
                    not_at cls (last pre) = true ∧ not_next cls post = true.
Proof.
  intros _ Htext. cbv zeta.
  pose proof (term_in_text_matches term text) as H. cbv zeta in H. rewrite H.
  destruct (short_token (chars (lower term))); [|reflexivity].
  split; intros (pre & mid & post & E & Hs & H1 & H2); exists pre, mid, post;
    (split; [exact E|]; split; [exact Hs|]);
    unfold ascii_only in Htext; rewrite E in Htext;
    apply Forall_app in Htext as [Hpre Htext]; apply Forall_app in Htext as [_ Hpost].
  - rewrite <- not_at_ascii, <- not_next_ascii by assumption. auto.
  - rewrite not_at_ascii, not_next_ascii by assumption. auto.
Qed.

Lemma term_in_text_spec_witness :
  ascii_only "nash" ∧ ascii_only "de giorgi-nash-moser theory" ∧
  term_in_text "nash" "de giorgi-nash-moser theory" = true.
Proof.
  assert (H1 : ascii_only "nash") by (refine (bool_decide_unpack _ _); vm_compute; exact I).
  assert (H2 : ascii_only "de giorgi-nash-moser theory")
    by (refine (bool_decide_unpack _ _); vm_compute; exact I).
  split; [exact H1|]. split; [exact H2|].
  apply (proj2 (term_in_text_spec "nash" "de giorgi-nash-moser theory" H1 H2)).
  exists (chars "de giorgi-"), (chars "nash"), (chars "-moser theory").
  split; [reflexivity|]. split; [|split; reflexivity].
  repeat (apply spells_char; [reflexivity|]). apply spells_nil.
Defined.

(** *** The counters of [main] and the citation graph *)

Lemma counter_fold (l : list string) (cnt : gmap string Z) (t : string) :
  default 0 (foldl (fun c u => <[u := default 0 (c !! u) + 1]> c) cnt l !! t)
  = default 0 (cnt !! t) + Z.of_nat (length (filter (fun u => u = t) l)).
Proof.
  revert cnt. induction l as [|u l IH]; intros cnt; simpl; [lia|].
  rewrite IH. destruct (decide (u = t)) as [->|Hne].
  - rewrite lookup_insert_eq, filter_cons_True by reflexivity. simpl. lia.
  - rewrite lookup_insert_ne, filter_cons_False by congruence. reflexivity.
Qed.

Lemma counter_fold_papers (ids : gset string) (table : gmap string string)
    (ps : list paper) (cnt : gmap string Z) (t : string) :
  default 0 (foldl (fun cnt p =>
                      foldl (fun c u => <[u := default 0 (c !! u) + 1]> c) cnt
                        (resolved_refs ids table p)) cnt ps !! t)
  = default 0 (cnt !! t)
    + Z.of_nat (length (filter (fun u => u = t) (concat (map (resolved_refs ids table) ps)))).
Proof.
  revert cnt. induction ps as [|p ps IH]; intros cnt; simpl; [lia|].
  rewrite IH, counter_fold, filter_app, length_app. lia.
Qed.

Lemma edge_targets (papers : list paper) (table : gmap string string) :
  map target (build_citation_graph papers table)
  = concat (map (resolved_refs (paper_id_set papers) table) papers).
Proof.
  unfold build_citation_graph. generalize (paper_id_set papers) as ids. intros ids.
  induction papers as [|p ps IH]; simpl; [reflexivity|].
  rewrite map_app, IH, map_map. simpl. rewrite map_id. reflexivity.
Qed.

Lemma filter_target_length (es : list edge) (t : string) :
  length (filter (fun e => target e = t) es)
  = length (filter (fun u => u = t) (map target es)).
Proof.
  induction es as [|e es IH]; simpl; [reflexivity|].
  destruct (decide (target e = t)) as [H|H].
  - rewrite !filter_cons_True by exact H. simpl. congruence.
  - rewrite !filter_cons_False by exact H. exact IH.
Qed.

Lemma citation_graph_perm (papers papers' : list paper) (table : gmap string string) :
  papers' ≡ₚ papers →
  build_citation_graph papers' table ≡ₚ build_citation_graph papers table.
Proof.
  intros Hp. unfold build_citation_graph.
  assert (Hids : paper_id_set papers' = paper_id_set papers).
  { unfold paper_id_set. apply list_to_set_perm_L. change map with (@fmap list _). 
    apply fmap_Permutation, Hp. }
  rewrite Hids. generalize (paper_id_set papers) as ids. intros ids. clear Hids.
  induction Hp as [|p l l' Hp IH|p q l|l l' l'' H1 IH1 H2 IH2]; simpl.
  - reflexivity.
  - apply Permutation_app; [reflexivity|exact IH].
  - rewrite !app_assoc. apply Permutation_app; [apply Permutation_app_comm|reflexivity].
  - etransitivity; eassumption.
Qed.

(** X9.  The number that [main] stores as the in-corpus citations of a paper
    is the number of edges of the citation graph that point to it, although
    the counter is filled before the papers are sorted and the graph is
    built after. *)
Theorem in_corpus_citations_are_in_degrees (papers papers' : list paper)
    (table : gmap string string) (t : string) :
  papers' ≡ₚ papers →
  default 0 (count_in_corpus papers table !! t)
  = Z.of_nat (length (filter (fun e => target e = t) (build_citation_graph papers' table))).
Proof.
  intros Hp. rewrite (Permutation_length (filter_Permutation _ _ _ (citation_graph_perm _ _ table Hp))).
  unfold count_in_corpus. rewrite counter_fold_papers, lookup_empty.
  rewrite filter_target_length, edge_targets. reflexivity.
Qed.

Lemma in_corpus_citations_are_in_degrees_witness :
  default 0 (count_in_corpus [Samples.cites_a; Samples.cited_b]
               (build_lookup [Samples.cites_a; Samples.cited_b]) !! "doi:10.1/b")
  = Z.of_nat (length (filter (fun e => target e = "doi:10.1/b")
                        (build_citation_graph [Samples.cited_b; Samples.cites_a]
                           (build_lookup [Samples.cites_a; Samples.cited_b])))).
Proof.
  apply (in_corpus_citations_are_in_degrees [Samples.cites_a; Samples.cited_b]
           [Samples.cited_b; Samples.cites_a]).
  apply perm_swap.
Defined.

Lemma refs_fold (ids : gset string) (table : gmap string string) (ps : list paper)
    (m : gmap string (list string)) (s t : string) :
  t ∈ default [] (foldl (fun m p =>
                           match resolved_refs ids table p with
                           | [] => m
                           | ts => <[Db.id p := default [] (m !! Db.id p) ++ ts]> m
                           end) m ps !! s)
  ↔ t ∈ default [] (m !! s) ∨ ∃ p, p ∈ ps ∧ Db.id p = s ∧ t ∈ resolved_refs ids table p.
Proof.
  revert m. induction ps as [|p ps IH]; intros m; simpl.
  - split; [auto|]. intros [H|(p & Hp & _)]; [exact H|inversion Hp].
  - rewrite IH. clear IH.
    assert (Hstep : t ∈ default [] (match resolved_refs ids table p with
                                    | [] => m
                                    | ts => <[Db.id p := default [] (m !! Db.id p) ++ ts]> m
                                    end !! s)
                    ↔ t ∈ default [] (m !! s) ∨ (Db.id p = s ∧ t ∈ resolved_refs ids table p)).
    { destruct (resolved_refs ids table p) as [|u us] eqn:E.
      - rewrite elem_of_nil. tauto.
      - destruct (decide (Db.id p = s)) as [<-|Hne].
        + rewrite lookup_insert_eq. simpl. rewrite elem_of_app. tauto.
        + rewrite lookup_insert_ne by exact Hne. tauto. }
    rewrite Hstep. split.
    + intros [[H|[H1 H2]]|(q & Hq & H1 & H2)]; [left; exact H|right..].
      * exists p. split; [left|auto].
      * exists q. split; [right; exact Hq|auto].
    + intros [H|(q & Hq & H1 & H2)]; [left; left; exact H|].
      apply elem_of_cons in Hq as [->|Hq]; [left; right; auto|].
      right. exists q. auto.
Qed.

(** X10.  The references that [main] lists for a paper are the targets of the
    edges of the citation graph that leave it. *)
Theorem in_corpus_refs_are_edges (papers : list paper) (table : gmap string string)
    (s t : string) :
  t ∈ default [] (refs_in_corpus papers table !! s)
  ↔ Edge s t ∈ build_citation_graph papers table.
Proof.
  unfold refs_in_corpus, build_citation_graph.
  rewrite refs_fold, lookup_empty. simpl. rewrite elem_of_nil.
  split.
  - intros [[]|(p & Hp & <- & Ht)].
    apply list_elem_of_In, in_concat. eexists. split.
    + apply in_map_iff. exists p. split; [reflexivity|apply list_elem_of_In, Hp].
    + apply in_map, list_elem_of_In, Ht.
  - intros He. right.
    apply list_elem_of_In, in_concat in He as (es & Hes & He).
    apply in_map_iff in Hes as (p & <- & Hp).
    apply in_map_iff in He as (u & Hu & Ht). injection Hu as <- <-.
    exists p. split; [apply list_elem_of_In, Hp|]. split; [reflexivity|].
    apply list_elem_of_In, Ht.
Qed.

(** *** The frame of the layout *)

Lemma fold_min_le (l : list Z) (x : Z) :
  fold_left Z.min l x ≤ x ∧ ∀ y, y ∈ l → fold_left Z.min l x ≤ y.
Proof.
  revert x. induction l as [|a l IH]; intros x; simpl.
  - split; [lia|]. intros y Hy. inversion Hy.
  - destruct (IH (Z.min x a)) as [H1 H2]. split; [lia|].
    intros y Hy. apply elem_of_cons in Hy as [->|Hy]; [lia|auto].
Qed.

Lemma min_max_list (l : list Z) :
  l ≠ [] →
  ∃ lo hi, min_list l = Some lo ∧ max_list l = Some hi ∧ ∀ y, y ∈ l → lo ≤ y ≤ hi.
Proof.
  destruct l as [|x l]; [congruence|]. intros _.
  exists (fold_left Z.min l x), (fold_left Z.max l x).
  split; [reflexivity|]. split; [reflexivity|].
  destruct (fold_min_le l x) as [H1 H2]. destruct (fold_max_ge l x) as [H3 H4].
  intros y Hy. apply elem_of_cons in Hy as [->|Hy]; [lia|].
  split; auto.
Qed.

Lemma round_half_even_between (q : Q) (a b : Z) :
  (inject_Z a <= q)%Q → (q <= inject_Z b)%Q → a ≤ round_half_even q ≤ b.
Proof.
  destruct q as [n d]. unfold Qle, round_half_even. simpl. intros Ha Hb.
  rewrite Z.mul_1_r in Ha, Hb.
  pose proof (Z.div_mod n (Z.pos d) ltac:(lia)) as Hdm.
  pose proof (Z.mod_pos_bound n (Z.pos d) ltac:(lia)) as Hm.
  assert (Hf : a ≤ n / Z.pos d) by (apply Z.div_le_lower_bound; lia).
  assert (Hg : n / Z.pos d ≤ b) by (apply Z.div_le_upper_bound; lia).
  assert (Hup : 0 < n mod Z.pos d → n / Z.pos d + 1 ≤ b) by nia.
  destruct (Z.ltb_spec (2 * (n mod Z.pos d)) (Z.pos d)); [lia|].
  destruct (Z.ltb_spec (Z.pos d) (2 * (n mod Z.pos d))); [lia|].
  destruct (Z.even (n / Z.pos d)); lia.
Qed.

Lemma round1_between (x : Q) (a b : Z) :
  (inject_Z a <= x)%Q → (x <= inject_Z b)%Q → (inject_Z a <= round1 x <= inject_Z b)%Q.
Proof.
  intros Ha Hb. unfold round1.
  destruct (round_half_even_between (x * 10) (a * 10) (b * 10)) as [H1 H2].
  - rewrite inject_Z_mult. apply Qmult_le_compat_r; [exact Ha|discriminate].
  - rewrite inject_Z_mult. apply Qmult_le_compat_r; [exact Hb|discriminate].
  - revert H1 H2. generalize (round_half_even (x * 10)). intros r H1 H2.
    unfold Qle, Qdiv, Qmult, Qinv, inject_Z. simpl. lia.
Qed.

Lemma warm_x_between (year year_min year_range : Z) :
  year_min ≤ year → year - year_min ≤ year_range → 1 ≤ year_range →
  (inject_Z (-400) <= inject_Z (year - year_min) / inject_Z year_range * 800 - 400
   <= inject_Z 400)%Q.
Proof.
  intros H1 H2 H3.
  assert (Hpos : (0 < inject_Z year_range)%Q).
  { unfold Qlt, inject_Z. simpl. lia. }
  assert (Hlo : (0 <= inject_Z (year - year_min) / inject_Z year_range)%Q).
  { apply Qle_shift_div_l; [exact Hpos|]. unfold Qle, inject_Z. simpl. lia. }
  assert (Hhi : (inject_Z (year - year_min) / inject_Z year_range <= 1)%Q).
  { apply Qle_shift_div_r; [exact Hpos|]. unfold Qle, inject_Z. simpl. lia. }
  change (inject_Z (-400)) with (-400 # 1)%Q. change (inject_Z 400) with (400 # 1)%Q.
  split; Lqa.lra.
Qed.

Lemma index_map_lookup (step : Z) (order : list string) (i : nat) (t : string) :
  NoDup order → order !! i = Some t → index_map step order !! t = Some (Z.of_nat i * step).
Proof.
  unfold index_map. intros Hnd Hi.
  assert (Hgen : ∀ (l : list (nat * string)) (m : gmap string Z),
             NoDup (map snd l) → (i, t) ∈ l →
             foldl (fun m it => <[it.2 := Z.of_nat it.1 * step]> m) m l !! t
             = Some (Z.of_nat i * step)).
  { induction l as [|[j u] l IH]; intros m Hn Hin; [inversion Hin|].
    simpl in Hn. apply NoDup_cons in Hn as [Hu Hn]. simpl.
    apply elem_of_cons in Hin as [Heq|Hin].
    - injection Heq as <- <-.
      assert (Hkeep : ∀ (l' : list (nat * string)) (m' : gmap string Z),
                 t ∉ map snd l' →
                 foldl (fun m it => <[it.2 := Z.of_nat it.1 * step]> m) m' l' !! t = m' !! t).
      { induction l' as [|[j u] l' IH']; intros m' Hnot; [reflexivity|]. simpl.
        simpl in Hnot. apply not_elem_of_cons in Hnot as [Hne Hnot].
        rewrite IH' by exact Hnot. apply lookup_insert_ne. congruence. }
      rewrite Hkeep by exact Hu. apply lookup_insert_eq.
    - apply IH; assumption. }
  apply Hgen.
  - clear Hi. replace (map snd (imap (fun i t => (i, t)) order)) with order; [exact Hnd|].
    change map with (@fmap list _). rewrite fmap_imap. simpl.
    clear. induction order as [|x l IH] using rev_ind; [reflexivity|].
    rewrite imap_app. simpl. rewrite <- IH. reflexivity.
  - apply elem_of_lookup_imap. exists i, t. auto.
Qed.

Lemma warm_positions_fold (hash : string → Z) (thread_y : gmap string Z) (year_min year_range : Z)
    (papers : list entry) (acc : gmap string (Q * Z)) (k : string) :
  foldl (fun positions e =>
           <[Db.id (row e) := warm_position hash thread_y year_min year_range e]> positions)
    acc papers !! k
  = match last (filter (fun e => Db.id (row e) = k) papers) with
    | Some e => Some (warm_position hash thread_y year_min year_range e)
    | None => acc !! k
    end.
Proof.
  revert acc. induction papers as [|e l IH]; intros acc; simpl; [reflexivity|].
  rewrite IH. destruct (decide (Db.id (row e) = k)) as [He|He].
  - rewrite filter_cons_True by exact He.
    destruct (filter (fun e => Db.id (row e) = k) l) as [|e' l'] eqn:E.
    + simpl. rewrite <- He. apply lookup_insert_eq.
    + change (last (e :: e' :: l')) with (last (e' :: l')).
      destruct (last (e' :: l')) eqn:El; [reflexivity|].
      apply last_None in El. discriminate.
  - rewrite filter_cons_False by exact He.
    destruct (last (filter (fun e => Db.id (row e) = k) l)); [reflexivity|].
    apply lookup_insert_ne, He.
Qed.

(** X11.  For a non-empty list of papers the layout gives every paper a
    position, and every position lies in the frame: the horizontal
    coordinate between -400 and 400, the vertical one at most 30 below and 29
    above the line of the paper's thread.  The lines of the threads are 100
    apart, in the order of the enumeration. *)
Theorem warm_positions_in_frame (hash : string → Z) (papers : list entry)
    (thread_order : list string) :
  papers ≠ [] →
  ∃ pos, compute_warm_positions hash papers thread_order = Some pos ∧
    (∀ e, e ∈ papers → is_Some (pos !! Db.id (row e))) ∧
    (∀ k x y, pos !! k = Some (x, y) →
       (inject_Z (-400) <= x <= inject_Z 400)%Q ∧
       ∃ e, e ∈ papers ∧ Db.id (row e) = k ∧
         let line := default 0 (index_map 100 thread_order
                                  !! default "classical_calcvar" (_thread e)) in
         line - 30 ≤ y ≤ line + 29) ∧
    (∀ i t, NoDup thread_order → thread_order !! i = Some t →
       index_map 100 thread_order !! t = Some (Z.of_nat i * 100)).
Proof.
  intros Hne. unfold compute_warm_positions.
  set (years := map (fun e => year_or 2000 (year (row e))) papers).
  assert (Hy : years ≠ []) by (destruct papers; [congruence|discriminate]).
  destruct (min_max_list years Hy) as (lo & hi & -> & -> & Hb).
  eexists. split; [reflexivity|]. split; [|split].
  - intros e He. rewrite warm_positions_fold.
    destruct (last (filter (fun e0 => Db.id (row e0) = Db.id (row e)) papers)) eqn:El; [eauto|].
    apply last_None in El.
    assert (Hin : e ∈ filter (fun e0 => Db.id (row e0) = Db.id (row e)) papers)
      by (apply list_elem_of_filter; auto).
    rewrite El in Hin. inversion Hin.
  - intros k x y Hk. rewrite warm_positions_fold in Hk.
    destruct (last (filter (fun e => Db.id (row e) = k) papers)) as [e|] eqn:El;
      [|rewrite lookup_empty in Hk; discriminate].
    assert (Hin : e ∈ filter (fun e => Db.id (row e) = k) papers).
    { apply last_Some in El as (l' & ->). apply elem_of_app. right. left. }
    apply list_elem_of_filter in Hin as [Hid Hin].
    injection Hk as <- <-.
    assert (Hye : lo ≤ year_or 2000 (year (row e)) ≤ hi).
    { apply Hb. unfold years. apply list_elem_of_In.
      apply (in_map (fun e => year_or 2000 (year (row e)))), list_elem_of_In, Hin. }
    split.
    + apply round1_between; apply warm_x_between; lia.
    + exists e. split; [exact Hin|]. split; [exact Hid|]. cbv zeta.
      pose proof (Z.mod_pos_bound (hash (Db.id (row e))) 60 ltac:(lia)). lia.
  - intros i t Hnd Hi. apply index_map_lookup; assumption.
Qed.

Lemma warm_positions_in_frame_witness :
  ∃ pos, compute_warm_positions (fun _ => 7) [geometric_entry] THREAD_ORDER = Some pos ∧
    is_Some (pos !! "doi:10.1/b") ∧
    index_map 100 THREAD_ORDER !! "geometric" = Some 300.
Proof.
  destruct (warm_positions_in_frame (fun _ => 7) [geometric_entry] THREAD_ORDER)
    as (pos & Hpos & Hall & _ & Hline); [discriminate|].
  exists pos. split; [exact Hpos|]. split.
  - apply (Hall geometric_entry). left.
  - apply (Hline 3%nat "geometric"); [|reflexivity].
    refine (bool_decide_unpack _ _). vm_compute. exact I.
Defined.

(** *** Sorting *)

Lemma insert_sorted_perm {A} (le : A → A → bool) (x : A) (l : list A) :
  insert_sorted le x l ≡ₚ x :: l.
Proof.
  induction l as [|y l IH]; simpl; [reflexivity|].
  destruct (le x y); [reflexivity|]. rewrite IH. apply perm_swap.
Qed.

Lemma stable_sort_perm {A} (le : A → A → bool) (l : list A) : stable_sort le l ≡ₚ l.
Proof.
  induction l as [|x l IH]; simpl; [reflexivity|].
  unfold stable_sort in *. simpl. rewrite insert_sorted_perm, IH. reflexivity.
Qed.

Lemma insert_sorted_sorted {A} (le : A → A → bool) (x : A) (l : list A) :
  (∀ a b, le a b = false → le b a = true) →
  (∀ a b c, le a b = true → le b c = true → le a c = true) →
  StronglySorted (fun a b => le a b = true) l →
  StronglySorted (fun a b => le a b = true) (insert_sorted le x l).
Proof.
  intros Htot Htrans. induction 1 as [|y l Hl IH Hy]; simpl.
  - repeat constructor.
  - destruct (le x y) eqn:E.
    + constructor; [constructor; assumption|]. constructor; [exact E|].
      eapply Forall_impl; [exact Hy|]. intros z Hz. eapply Htrans; eassumption.
    + constructor; [exact IH|].
      rewrite (insert_sorted_perm le x l). constructor; [apply Htot, E|exact Hy].
Qed.

Lemma stable_sort_sorted {A} (le : A → A → bool) (l : list A) :
  (∀ a b, le a b = false → le b a = true) →
  (∀ a b c, le a b = true → le b c = true → le a c = true) →
  StronglySorted (fun a b => le a b = true) (stable_sort le l).
Proof.
  intros Htot Htrans. induction l as [|x l IH]; [constructor|].
  apply insert_sorted_sorted; assumption.
Qed.

Lemma Rle_bool_true (x y : R) : Rle_bool x y = true ↔ (x <= y)%R.
Proof. unfold Rle_bool. destruct (Rle_dec x y); split; (congruence || tauto). Qed.

Lemma Rle_bool_false (x y : R) : Rle_bool x y = false ↔ (y < x)%R.
Proof.
  unfold Rle_bool. destruct (Rle_dec x y); split; try (congruence || lra).
Qed.

Lemma dom_foldl_insert {A B} (key : A → string) (val : A → B) (l : list A) (m : gmap string B) :
  dom (foldl (fun m e => <[key e := val e]> m) m l) = list_to_set (map key l) ∪ dom m.
Proof.
  revert m. induction l as [|x l IH]; intros m; simpl.
  - rewrite (left_id_L ∅ (∪)). reflexivity.
  - rewrite IH, dom_insert_L, (assoc_L (∪)), (comm_L (∪) _ {[key x]}). reflexivity.
Qed.

Lemma size_list_to_set_le (l : list string) :
  (size (list_to_set l : gset string) ≤ length l)%nat.
Proof.
  induction l as [|x l IH].
  - change (list_to_set [] : gset string) with (∅ : gset string). rewrite size_empty. lia.
  - change (list_to_set (x :: l) : gset string) with ({[x]} ∪ list_to_set l : gset string).
    rewrite size_union_alt, size_singleton.
    pose proof (subseteq_size (list_to_set l ∖ {[x]}) (list_to_set l : gset string)
                  (subseteq_difference_l _ _ _ (reflexivity _))).
    simpl. lia.
Qed.

(** The papers of [main] once they are sorted by influence. *)
Lemma sorted_papers (l : list (entry * R)) :
  let papers := stable_sort (fun a b : entry * R => Rle_bool (- a.2) (- b.2)) l in
  papers ≡ₚ l ∧
  ∀ n a b, a ∈ take n papers → b ∈ drop n papers → (b.2 <= a.2)%R.
Proof.
  intros papers. split; [apply stable_sort_perm|].
  assert (Hs : StronglySorted (fun a b : entry * R => Rle_bool (- a.2) (- b.2) = true) papers).
  { apply stable_sort_sorted.
    - intros a b H. apply Rle_bool_false in H. apply Rle_bool_true. lra.
    - intros a b c H1 H2. apply Rle_bool_true in H1, H2. apply Rle_bool_true. lra. }
  intros n a b Ha Hb. rewrite <- (take_drop n papers) in Hs.
  pose proof (StronglySorted_app_1_elem_of _ _ _ a b Hs Ha Hb) as H.
  apply Rle_bool_true in H. lra.
Qed.

(** X12.  The graph view shows at most 600 papers, and they are the most
    influential ones: no paper left out has more influence than a paper
    shown.  Every node is a paper of the database with its influence and
    its thread, and every edge of the view joins two of its nodes. *)
Theorem graph_view_spec (hash : string → Z) (top_papers : Z) (db_papers : list paper) :
  let v := analyse hash top_papers db_papers in
  length (graph_nodes v) = Nat.min 600 (length db_papers) ∧
  (∀ n, n ∈ graph_nodes v →
     ∃ p, p ∈ db_papers ∧ gn_id n = Db.id p ∧ gn_title n = title p ∧
          gn_inf n = influence_of db_papers p ∧ gn_thread n = assign_thread p) ∧
  (∀ p n, p ∈ db_papers → n ∈ graph_nodes v → Db.id p ∉ map gn_id (graph_nodes v) →
     (influence_of db_papers p <= gn_inf n)%R) ∧
  (∀ e, e ∈ graph_edges v →
     Analyze.source e ∈ map gn_id (graph_nodes v) ∧ target e ∈ map gn_id (graph_nodes v)).
Proof.
  intros v.
  set (scored := map (fun p => (Entry p (Some (assign_thread p)), influence_of db_papers p))
                   db_papers).
  set (papers := stable_sort (fun a b : entry * R => Rle_bool (- a.2) (- b.2)) scored).
  set (node := fun e : entry * R =>
                 let p := row e.1 in
                 let w := default (0%Q, 0)
                            (default ∅ (compute_warm_positions hash (map fst (take 600 papers))
                                          THREAD_ORDER) !! Db.id p) in
                 GraphNode (Db.id p) (title p) e.2 (default "classical_calcvar" (_thread e.1))
                   w.1 w.2).
  assert (Hnodes : graph_nodes v = map node (take 600 papers)) by reflexivity.
  destruct (sorted_papers scored) as [Hperm Hsorted]. fold papers in Hperm, Hsorted.
  assert (Hscored : ∀ e, e ∈ papers →
            ∃ p, p ∈ db_papers ∧ e = (Entry p (Some (assign_thread p)), influence_of db_papers p)).
  { intros e He. rewrite Hperm in He. unfold scored in He.
    apply list_elem_of_fmap in He as (p & -> & Hp). eauto. }
  assert (Hids : map gn_id (graph_nodes v) = map (fun e : entry * R => Db.id (row e.1)) (take 600 papers)).
  { rewrite Hnodes, map_map. reflexivity. }
  split; [|split; [|split]].
  - rewrite Hnodes, length_map, length_take. f_equal.
    rewrite (Permutation_length Hperm). unfold scored. apply length_map.
  - intros n Hn. rewrite Hnodes in Hn. apply list_elem_of_fmap in Hn as (e & -> & He).
    apply elem_of_take in He as (i & Hi & _). apply list_elem_of_lookup_2 in Hi.
    destruct (Hscored e Hi) as (p & Hp & ->). exists p. repeat split; auto.
  - intros p n Hp Hn Hout. rewrite Hnodes in Hn.
    apply list_elem_of_fmap in Hn as (a & -> & Ha).
    set (b := (Entry p (Some (assign_thread p)), influence_of db_papers p)).
    assert (Hb : b ∈ papers).
    { rewrite Hperm. unfold scored. apply list_elem_of_fmap. exists p. auto. }
    rewrite <- (take_drop 600 papers) in Hb. apply elem_of_app in Hb as [Hb|Hb].
    + exfalso. apply Hout. rewrite Hids. apply list_elem_of_fmap. exists b. auto.
    + apply (Hsorted 600%nat a b Ha Hb).
  - intros e He.
    assert (Hf : e ∈ filter (fun e => bool_decide (Analyze.source e ∈ (list_to_set (map gn_id (graph_nodes v)) : gset string))
                                      && bool_decide (target e ∈ (list_to_set (map gn_id (graph_nodes v)) : gset string)) = true)
                   (build_citation_graph (map (fun e : entry * R => row e.1) papers)
                      (build_lookup db_papers))) by exact He.
    apply list_elem_of_filter in Hf as [Hf _].
    apply andb_prop in Hf as [H1 H2].
    apply bool_decide_eq_true, elem_of_list_to_set in H1, H2. auto.
Qed.

Lemma slice_to_length {A} (n : Z) (l : list A) :
  Z.of_nat (length (slice_to n l))
  = if 0 <=? n then Z.min n (Z.of_nat (length l)) else Z.max 0 (Z.of_nat (length l) + n).
Proof.
  unfold slice_to. destruct (Z.leb_spec 0 n); rewrite length_take; lia.
Qed.

Lemma slice_to_sublist {A} (n : Z) (l : list A) : slice_to n l `sublist_of` l.
Proof. unfold slice_to. destruct (0 <=? n); apply sublist_take. Qed.

(** X13.  The core view holds the papers of the slice [papers[:top_papers]]
    of the ranking: the first [top_papers] papers, and all but the last
    [-top_papers] when the option is negative; so many papers when the
    identifiers of the database are distinct, and never more.  All of them
    are rows of the index, which has a row for every paper of the database;
    the nodes of the core graph are the core papers and its edges join two
    of them. *)
Theorem core_view_spec (hash : string → Z) (top_papers : Z) (db_papers : list paper) :
  let v := analyse hash top_papers db_papers in
  let sliced :=
    if 0 <=? top_papers then Z.min top_papers (Z.of_nat (length db_papers))
    else Z.max 0 (Z.of_nat (length db_papers) + top_papers) in
  core_graph_nodes v = dom (core_papers v) ∧
  Z.of_nat (size (core_papers v)) ≤ sliced ∧
  (NoDup (map Db.id db_papers) → Z.of_nat (size (core_papers v)) = sliced) ∧
  dom (core_papers v) ⊆ dom (papers_dict v) ∧
  dom (papers_dict v) = paper_id_set db_papers ∧
  (∀ e, e ∈ core_graph_edges v →
     Analyze.source e ∈ dom (core_papers v) ∧ target e ∈ dom (core_papers v)).
Proof.
  intros v sliced.
  set (scored := map (fun p => (Entry p (Some (assign_thread p)), influence_of db_papers p))
                   db_papers).
  set (papers := stable_sort (fun a b : entry * R => Rle_bool (- a.2) (- b.2)) scored).
  destruct (sorted_papers scored) as [Hperm _]. fold papers in Hperm.
  assert (Hcore : dom (core_papers v)
                  = list_to_set (map (fun e : entry * R => Db.id (row e.1))
                                   (slice_to top_papers papers))).
  { unfold v, analyse. cbn [core_papers].
    rewrite (dom_foldl_insert (fun e : entry * R => Db.id (row e.1))).
    rewrite dom_empty_L, (right_id_L ∅ (∪)). reflexivity. }
  assert (Hindex : dom (papers_dict v)
                   = list_to_set (map (fun e : entry * R => Db.id (row e.1)) papers)).
  { unfold v, analyse. cbn [papers_dict].
    rewrite (dom_foldl_insert (fun e : entry * R => Db.id (row e.1))).
    rewrite dom_empty_L, (right_id_L ∅ (∪)). reflexivity. }
  assert (Hlen : length papers = length db_papers).
  { rewrite (Permutation_length Hperm). unfold scored. apply length_map. }
  assert (Hsl : Z.of_nat (length (map (fun e : entry * R => Db.id (row e.1))
                                    (slice_to top_papers papers))) = sliced).
  { rewrite length_map, slice_to_length, Hlen. reflexivity. }
  assert (Hids : map (fun e : entry * R => Db.id (row e.1)) papers ≡ₚ map Db.id db_papers).
  { change map with (@fmap list _). rewrite Hperm. unfold scored.
    change map with (@fmap list _). rewrite <- list_fmap_compose. reflexivity. }
  split; [reflexivity|]. split; [|split; [|split; [|split]]].
  - rewrite <- size_dom, Hcore, <- Hsl. apply inj_le, size_list_to_set_le.
  - intros Hnd. rewrite <- size_dom, Hcore, <- Hsl. f_equal.
    apply size_list_to_set.
    apply (sublist_NoDup _ (map (fun e : entry * R => Db.id (row e.1)) papers)).
    + rewrite Hids. exact Hnd.
    + apply (fmap_sublist (fun e : entry * R => Db.id (row e.1))), slice_to_sublist.
  - rewrite Hcore, Hindex. intros k Hk.
    apply elem_of_list_to_set, list_elem_of_fmap in Hk as (e & -> & He).
    apply elem_of_list_to_set, list_elem_of_fmap. exists e. split; [reflexivity|].
    eapply elem_of_sublist; [exact He|apply slice_to_sublist].
  - rewrite Hindex. unfold paper_id_set. apply list_to_set_perm_L, Hids.
  - intros e He.
    assert (Hf : e ∈ filter (fun e => bool_decide (Analyze.source e ∈ dom (core_papers v))
                                      && bool_decide (target e ∈ dom (core_papers v)) = true)
                   (build_citation_graph (map (fun e : entry * R => row e.1) papers)
                      (build_lookup db_papers))) by exact He.
    apply list_elem_of_filter in Hf as [Hf _].
    apply andb_prop in Hf as [H1 H2].
    apply bool_decide_eq_true in H1, H2. auto.
Qed.

Lemma core_view_spec_witness :
  let v := analyse (fun _ => 0) (-1) [Samples.cites_a; Samples.cited_b] in
  NoDup (map Db.id [Samples.cites_a; Samples.cited_b]) ∧
  Z.of_nat (size (core_papers v)) = 1.
Proof.
  assert (H : NoDup (map Db.id [Samples.cites_a; Samples.cited_b])).
  { refine (bool_decide_unpack _ _). vm_compute. exact I. }
  split; [exact H|].
  exact (proj1 (proj2 (proj2 (core_view_spec (fun _ => 0) (-1)
                                [Samples.cites_a; Samples.cited_b]))) H).
Defined.

(** *** The co-author network *)

Lemma bump_spec (pair : string * string) (c : list (string * string * Z)) :
  NoDup (map fst c) →
  NoDup (map fst (bump pair c)) ∧
  ∀ k n, (k, n) ∈ bump pair c ↔
    (k ≠ pair ∧ (k, n) ∈ c) ∨
    (k = pair ∧ (((pair ∉ map fst c) ∧ n = 1) ∨ (pair, n - 1) ∈ c)).
Proof.
  induction c as [|[k0 n0] c IH]; simpl; intros Hnd.
  - split; [repeat constructor; apply not_elem_of_nil|].
    intros k n. rewrite list_elem_of_singleton. split.
    + intros [= -> ->]. right. split; [reflexivity|]. left. split; [apply not_elem_of_nil|reflexivity].
    + intros [[_ H]|[-> [[_ ->]|H]]]; try reflexivity; inversion H.
  - apply NoDup_cons in Hnd as [Hk0 Hnd]. destruct (IH Hnd) as [IH1 IH2].
    case_bool_decide as Hk.
    + subst k0. split; [simpl; constructor; assumption|].
      intros k n. rewrite !elem_of_cons. split.
      * intros [[= -> ->]|H].
        -- right. split; [reflexivity|]. right. left. f_equal. lia.
        -- left. split; [|right; exact H]. intros ->. apply Hk0.
           apply list_elem_of_fmap. exists (pair, n). split; [reflexivity|exact H].
      * intros [[Hne [[= ? ?]|H]]|[-> [[Hnot _]|[[= ?]|H]]]].
        -- congruence.
        -- right. exact H.
        -- exfalso. apply Hnot. left. reflexivity.
        -- left. f_equal. lia.
        -- exfalso. apply Hk0. apply list_elem_of_fmap. exists (pair, n - 1). split; [reflexivity|exact H].
    + split.
      * simpl. constructor; [|exact IH1].
        intros Hin. apply list_elem_of_fmap in Hin as ([k n] & Hkn & Hin). simpl in Hkn. subst k.
        apply IH2 in Hin as [[_ Hin]|[-> _]]; [|congruence].
        apply Hk0. apply list_elem_of_fmap. exists (k0, n). split; [reflexivity|exact Hin].
      * intros k n. rewrite !elem_of_cons, IH2. split.
        -- intros [[= -> ->]|[[Hne H]|[-> H]]].
           ++ left. split; [exact Hk|left; reflexivity].
           ++ left. split; [exact Hne|right; exact H].
           ++ right. split; [reflexivity|]. destruct H as [[Hnot ->]|H].
              ** left. split; [|reflexivity]. intros [Heq|Hin']; [simpl in Heq; congruence|exact (Hnot Hin')].
              ** right. right. exact H.
        -- intros [[Hne [[= -> ->]|H]]|[-> [[Hnot ->]|[[= ? ?]|H]]]].
           ++ left. reflexivity.
           ++ right. left. auto.
           ++ right. right. split; [reflexivity|]. left.
              split; [|reflexivity]. intros Hin'. apply Hnot. right. exact Hin'.
           ++ congruence.
           ++ right. right. split; [reflexivity|]. right. exact H.
Qed.

Lemma counted_pairs (l : list (string * string)) :
  let c := foldl (fun c pair => bump pair c) [] l in
  NoDup (map fst c) ∧
  ∀ k n, (k, n) ∈ c ↔ k ∈ l ∧ n = occurrences k l.
Proof.
  induction l as [|q l IH] using rev_ind; simpl.
  - split; [constructor|]. intros k n. split; [intros H; inversion H|intros [H _]; inversion H].
  - rewrite foldl_app. simpl. destruct IH as [IH1 IH2].
    destruct (bump_spec q _ IH1) as [H1 H2]. split; [exact H1|].
    intros k n. rewrite H2, !IH2. unfold occurrences. rewrite filter_app, length_app, elem_of_app.
    rewrite list_elem_of_singleton.
    destruct (decide (k = q)) as [->|Hne].
    + rewrite filter_cons_True by reflexivity. simpl.
      split.
      * intros [[Hne _]|[_ [[Hnot ->]|[Hin Hn]]]]; [congruence| |].
        -- split; [right; reflexivity|].
           assert (Hz : filter (fun q0 => q0 = q) l = []).
           { apply filter_none. intros x Hx ->. apply Hnot.
             apply list_elem_of_fmap. exists (q, occurrences q l).
             split; [reflexivity|]. apply IH2. auto. }
           rewrite Hz. reflexivity.
        -- split; [left; exact Hin|]. lia.
      * intros [_ ->]. right. split; [reflexivity|].
        destruct (decide (q ∈ l)) as [Hin|Hnot].
        -- right. split; [exact Hin|]. lia.
        -- left. split.
           ++ intros Hq. apply list_elem_of_fmap in Hq as ([k n] & Hk & Hq). simpl in Hk. subst k.
              apply IH2 in Hq as [Hq _]. contradiction.
           ++ assert (Hz : filter (fun q0 => q0 = q) l = []).
              { apply filter_none. intros x Hx ->. contradiction. }
              rewrite Hz. reflexivity.
    + rewrite filter_cons_False by congruence. simpl. rewrite Nat.add_0_r.
      split.
      * intros [[_ [Hin ->]]|[-> _]]; [|congruence]. auto.
      * intros [[Hin|Heq] ->]; [|congruence]. left. auto.
Qed.

Lemma node_ids_lookup (nodes : list author_node) (m : gmap string string) (a s : string) :
  foldl (fun m n => <[an_author n := an_id n]> m) m nodes !! a = Some s →
  m !! a = Some s ∨ ∃ n, n ∈ nodes ∧ an_author n = a ∧ an_id n = s.
Proof.
  revert m. induction nodes as [|n nodes IH]; intros m; simpl; [auto|].
  intros H. apply IH in H as [H|(n' & Hn' & H)].
  - destruct (decide (an_author n = a)) as [Ha|Ha].
    + rewrite <- Ha, lookup_insert_eq in H. injection H as <-.
      right. exists n. split; [left|auto].
    + rewrite lookup_insert_ne in H by exact Ha. auto.
  - right. exists n'. split; [right; exact Hn'|exact H].
Qed.

Lemma occurrences_pos (k : string * string) (l : list (string * string)) :
  k ∈ l → 1 ≤ occurrences k l.
Proof.
  intros Hin. unfold occurrences.
  assert (H : k ∈ filter (fun q => q = k) l) by (apply list_elem_of_filter; auto).
  destruct (filter (fun q => q = k) l); [inversion H|simpl; lia].
Qed.

(** X14.  The nodes of the co-author network are the authors of the papers
    whose influence is positive, all of them and each once, in the order of
    their names.  Every edge joins the nodes of two authors who signed a
    paper together, weighs the number of times they did, and the edges are
    listed from the heaviest on. *)
Theorem coauthor_network_spec (papers : list (entry * R)) (author_influence : gmap string R) :
  let net := build_coauthor_network papers author_influence in
  let pairs := concat (map author_pairs (map (fun e => authors (row e.1)) papers)) in
  StronglySorted slt (map an_author net.1) ∧
  (∀ n, n ∈ net.1 →
     (∃ e, e ∈ papers ∧ an_author n ∈ authors (row e.1)) ∧
     (0 < default 0 (author_influence !! an_author n))%R ∧
     an_inf n = Rround (default 0%R (author_influence !! an_author n)) 4) ∧
  (∀ e a, e ∈ papers → a ∈ authors (row e.1) →
     (0 < default 0 (author_influence !! a))%R → a ∈ map an_author net.1) ∧
  (∀ e, e ∈ net.2 →
     ∃ n1 n2, n1 ∈ net.1 ∧ n2 ∈ net.1 ∧
       ae_source e = an_id n1 ∧ ae_target e = an_id n2 ∧
       (an_author n1, an_author n2) ∈ pairs ∧
       ae_weight e = occurrences (an_author n1, an_author n2) pairs ∧ 1 ≤ ae_weight e) ∧
  StronglySorted (fun a b => ae_weight b ≤ ae_weight a) net.2.
Proof.
  intros net pairs.
  set (author_lists := map (fun e : entry * R => authors (row e.1)) papers) in *.
  set (mk := fun author : string =>
               let inf := default 0%R (author_influence !! author) in
               if Rlt_dec 0 inf
               then Some (AuthorNode
                            (text (map (fun c => if (code c =? 32)%N then "_"%char else c)
                                     (chars (lower author))))
                            author (Rround inf 4))
               else None).
  assert (Hnodes : net.1 = omap mk (sorted_set (concat author_lists))) by reflexivity.
  assert (Hmk : ∀ a n, mk a = Some n →
            an_author n = a ∧ (0 < default 0 (author_influence !! a))%R ∧
            an_inf n = Rround (default 0%R (author_influence !! a)) 4).
  { intros a n. unfold mk. cbv zeta.
    destruct (Rlt_dec 0 (default 0%R (author_influence !! a))); [|discriminate].
    intros [= <-]. auto. }
  set (weights := foldl (fun c pair => bump pair c) [] pairs).
  set (node_ids := foldl (fun m n => <[an_author n := an_id n]> m) (∅ : gmap string string) net.1).
  set (mk_edge := fun it : string * string * Z =>
            match node_ids !! it.1.1, node_ids !! it.1.2 with
            | Some s, Some t => if 1 <=? it.2 then Some (AuthorEdge s t it.2) else None
            | _, _ => None
            end).
  assert (Hedges : net.2 = omap mk_edge
                     (stable_sort (fun a b : string * string * Z => b.2 <=? a.2) weights))
    by reflexivity.
  destruct (counted_pairs pairs) as [_ Hw]. fold weights in Hw.
  split; [|split; [|split; [|split]]].
  - rewrite Hnodes. generalize (sorted_set_sorted (concat author_lists)).
    generalize (sorted_set (concat author_lists)). clear -Hmk. intros l Hs.
    induction Hs as [|a l Hl IH Ha]; [constructor|]. simpl.
    destruct (mk a) as [n|] eqn:E; [|exact IH]. simpl.
    constructor; [exact IH|]. apply Hmk in E as (-> & _).
    apply Forall_forall. intros b Hb.
    apply list_elem_of_fmap in Hb as (n' & -> & Hn').
    apply list_elem_of_omap in Hn' as (b & Hb & Eb). apply Hmk in Eb as (-> & _).
    rewrite Forall_forall in Ha. apply Ha, Hb.
  - intros n Hn. rewrite Hnodes in Hn.
    apply list_elem_of_omap in Hn as (a & Ha & E). apply Hmk in E as (<- & Hpos & Hinf).
    split; [|auto].
    apply elem_of_sorted_set, list_elem_of_In, in_concat in Ha as (al & Hal & Ha).
    apply in_map_iff in Hal as (e & <- & He).
    exists e. split; apply list_elem_of_In; assumption.
  - intros e a He Ha Hpos. rewrite Hnodes.
    assert (Hn : ∃ n, mk a = Some n ∧ an_author n = a).
    { unfold mk. cbv zeta.
      destruct (Rlt_dec 0 (default 0%R (author_influence !! a))); [|contradiction]. eauto. }
    destruct Hn as (n & Hn & Han).
    apply list_elem_of_fmap. exists n. split; [symmetry; exact Han|].
    apply list_elem_of_omap. exists a. split; [|exact Hn].
    apply elem_of_sorted_set, list_elem_of_In, in_concat.
    exists (authors (row e.1)). split; [|apply list_elem_of_In, Ha].
    apply in_map_iff. exists e. split; [reflexivity|apply list_elem_of_In, He].
  - intros e He. rewrite Hedges in He.
    apply list_elem_of_omap in He as ([[a1 a2] w] & Hit & E).
    rewrite stable_sort_perm in Hit. apply Hw in Hit as [Hin ->].
    unfold mk_edge in E. cbn [fst snd] in E.
    destruct (node_ids !! a1) as [s|] eqn:E1; [|discriminate].
    destruct (node_ids !! a2) as [t|] eqn:E2; [|discriminate].
    destruct (1 <=? occurrences (a1, a2) pairs) eqn:E3; [|discriminate].
    injection E as <-. simpl.
    apply node_ids_lookup in E1 as [E1|(n1 & Hn1 & <- & <-)]; [rewrite lookup_empty in E1; discriminate|].
    apply node_ids_lookup in E2 as [E2|(n2 & Hn2 & <- & <-)]; [rewrite lookup_empty in E2; discriminate|].
    exists n1, n2. repeat split; auto. apply occurrences_pos, Hin.
  - rewrite Hedges.
    assert (Hs : StronglySorted (fun a b : string * string * Z => (b.2 <=? a.2) = true)
                   (stable_sort (fun a b : string * string * Z => b.2 <=? a.2) weights)).
    { apply stable_sort_sorted.
      - intros a b H. apply Z.leb_gt in H. apply Z.leb_le. lia.
      - intros a b c H1 H2. apply Z.leb_le in H1, H2. apply Z.leb_le. lia. }
    assert (Hwt : ∀ it e, mk_edge it = Some e → ae_weight e = it.2).
    { intros it' e'. unfold mk_edge.
      destruct (node_ids !! it'.1.1); [|discriminate].
      destruct (node_ids !! it'.1.2); [|discriminate].
      destruct (1 <=? it'.2); [|discriminate]. intros [= <-]. reflexivity. }
    revert Hs. generalize (stable_sort (fun a b : string * string * Z => b.2 <=? a.2) weights).
    clear -Hwt. intros l Hs.
    induction Hs as [|it l Hl IH Hit]; [constructor|]. simpl.
    destruct (mk_edge it) as [e|] eqn:E; [|exact IH]. simpl.
    constructor; [exact IH|].
    apply Forall_forall. intros e' He'.
    apply list_elem_of_omap in He' as (it' & Hit' & E').
    rewrite (Hwt _ _ E), (Hwt _ _ E'). rewrite Forall_forall in Hit.
    apply Z.leb_le, Hit, Hit'.
Qed.

(** *** The statistics of the threads *)

Lemma StronglySorted_weaken {A} (R R' : A → A → Prop) (l : list A) :
  (∀ a b, R a b → R' a b) → StronglySorted R l → StronglySorted R' l.
Proof.
  intros HR. induction 1 as [|a l Hl IH Ha]; constructor; [exact IH|].
  eapply Forall_impl; [exact Ha|]. intros b. apply HR.
Qed.

Lemma assign_thread_in_order (p : paper) : assign_thread p ∈ THREAD_ORDER.
Proof.
  pose proof (assign_thread_cases p) as Hc. cbv zeta in Hc.
  pose proof (specific_tags p) as Hs.
  destruct (filter (fun t => t ≠ "classical_calcvar")
              (filter (fun t => is_Some (THREAD_PRIORITY !! t)) (Db.tags p)))
    as [|t0 rest] eqn:E.
  - rewrite Hc. left.
  - destruct (min_by_least priority t0 rest) as (Hin & _). cbv zeta in Hin.
    rewrite <- Hc in Hin.
    assert (Hr : assign_thread p ∈ t0 :: rest)
      by (destruct Hin as [->|Hin]; [left|right; exact Hin]).
    apply Hs in Hr as (_ & _ & Hk). destruct (recognized_in_order _ Hk) as [i Hi].
    eapply list_elem_of_lookup_2, Hi.
Qed.

Lemma count_of_cons {A} `{EqDecision A} (x y : A) (l : list A) :
  count_of x (y :: l) = (if decide (y = x) then 1 else 0) + count_of x l.
Proof.
  unfold count_of. destruct (decide (y = x)) as [H|H].
  - rewrite filter_cons_True by exact H. cbn [length]. lia.
  - rewrite filter_cons_False by exact H. lia.
Qed.

Lemma total_indicator {A} `{EqDecision A} (order : list A) (x : A) :
  NoDup order → x ∈ order →
  total (map (fun t => if decide (x = t) then 1 else 0) order) = 1.
Proof.
  induction 1 as [|t order Ht Hnd IH]; intros Hin; [inversion Hin|].
  cbn [map total foldr]. fold (total (map (fun t => if decide (x = t) then 1 else 0) order)).
  destruct (decide (x = t)) as [->|Hne].
  - assert (Hz : total (map (fun t0 => if decide (t = t0) then 1 else 0) order) = 0).
    { clear -Ht. induction order as [|u order IH]; [reflexivity|].
      cbn [map total foldr]. fold (total (map (fun t0 => if decide (t = t0) then 1 else 0) order)).
      apply not_elem_of_cons in Ht as [Hne Ht]. rewrite decide_False by exact Hne.
      rewrite IH by exact Ht. reflexivity. }
    rewrite Hz. reflexivity.
  - apply elem_of_cons in Hin as [->|Hin]; [contradiction|]. rewrite IH by exact Hin. reflexivity.
Qed.

Lemma total_add {A} (f g : A → Z) (l : list A) :
  total (map (fun t => f t + g t) l) = total (map f l) + total (map g l).
Proof.
  induction l as [|t l IH]; [reflexivity|].
  cbn [map total foldr]. fold (total (map (fun t => f t + g t) l)).
  fold (total (map f l)). fold (total (map g l)). lia.
Qed.

(** Every element is counted once by the counts of the keys. *)
Lemma total_counts {A} `{EqDecision A} (order l : list A) :
  NoDup order → (∀ x, x ∈ l → x ∈ order) →
  total (map (fun t => count_of t l) order) = Z.of_nat (length l).
Proof.
  intros Hnd. induction l as [|x l IH]; intros Hl.
  - clear. induction order as [|t order IH]; [reflexivity|].
    cbn [map total foldr]. fold (total (map (fun t => count_of t (@nil A)) order)).
    rewrite IH. reflexivity.
  - rewrite (map_ext _ (fun t => (if decide (x = t) then 1 else 0) + count_of t l))
      by (intros t; apply count_of_cons).
    rewrite total_add, total_indicator by (auto; apply Hl; left).
    rewrite IH by (intros y Hy; apply Hl; right; exact Hy). cbn [length]. lia.
Qed.

Lemma keys_of_fold {A} `{EqDecision A} (l keys : list A) :
  NoDup keys →
  NoDup (foldl (fun keys x => if bool_decide (x ∈ keys) then keys else keys ++ [x]) keys l) ∧
  ∀ x, x ∈ foldl (fun keys x => if bool_decide (x ∈ keys) then keys else keys ++ [x]) keys l
       ↔ x ∈ keys ∨ x ∈ l.
Proof.
  revert keys. induction l as [|y l IH]; intros keys Hnd; cbn [foldl].
  - split; [exact Hnd|]. intros x. rewrite elem_of_nil. tauto.
  - case_bool_decide as Hy.
    + destruct (IH keys Hnd) as [H1 H2]. split; [exact H1|].
      intros x. rewrite H2, elem_of_cons. split; [tauto|].
      intros [H|[->|H]]; auto.
    + destruct (IH (keys ++ [y])) as [H1 H2].
      { apply NoDup_app. split; [exact Hnd|]. split; [|apply NoDup_singleton].
        intros x Hx Hx'. apply list_elem_of_singleton in Hx' as ->. contradiction. }
      split; [exact H1|]. intros x. rewrite H2, elem_of_app, list_elem_of_singleton, elem_of_cons.
      tauto.
Qed.

Lemma keys_of_spec {A} `{EqDecision A} (l : list A) :
  NoDup (keys_of l) ∧ ∀ x, x ∈ keys_of l ↔ x ∈ l.
Proof.
  destruct (keys_of_fold l [] (NoDup_nil_2)) as [H1 H2]. split; [exact H1|].
  intros x. unfold keys_of. rewrite H2, elem_of_nil. tauto.
Qed.

Lemma max_by_greatest {A} (key : A → Z) (best : A) (l : list A) :
  let r := max_by key best l in
  (r = best ∨ r ∈ l) ∧ key best ≤ key r ∧ ∀ t, t ∈ l → key t ≤ key r.
Proof.
  revert best. induction l as [|x l IH]; intros best; cbn [max_by].
  - split; [left; reflexivity|]. split; [lia|]. intros t Ht. inversion Ht.
  - destruct (IH (if key best <? key x then x else best)) as (Hin & Hle & Hall).
    destruct (Z.ltb_spec (key best) (key x)) as [Hlt|Hge].
    + split; [right; destruct Hin as [->|Hin]; [left|right; exact Hin]|].
      split; [lia|]. intros t Ht. apply elem_of_cons in Ht as [->|Ht]; [exact Hle|auto].
    + split; [destruct Hin as [->|Hin]; [left; reflexivity|right; right; exact Hin]|].
      split; [exact Hle|]. intros t Ht. apply elem_of_cons in Ht as [->|Ht]; [lia|auto].
Qed.

Lemma count_of_absent {A} `{EqDecision A} (x : A) (l : list A) : x ∉ l → count_of x l = 0.
Proof.
  intros H. unfold count_of. rewrite filter_none; [reflexivity|].
  intros y Hy ->. contradiction.
Qed.

Lemma count_of_nonneg {A} `{EqDecision A} (x : A) (l : list A) : 0 ≤ count_of x l.
Proof. unfold count_of. lia. Qed.

Lemma year_counts_spec (years : list Z) :
  ∃ lo n, map fst (year_counts years) = seqZ lo n ∧
          total (map snd (year_counts years)) = Z.of_nat (length years) ∧
          Forall (fun yc => yc.2 = count_of yc.1 years) (year_counts years).
Proof.
  unfold year_counts.
  assert (Hshape : ∀ lo n, map fst (map (fun y => (y, count_of y years)) (seqZ lo n)) = seqZ lo n
                          ∧ Forall (fun yc : Z * Z => yc.2 = count_of yc.1 years)
                              (map (fun y => (y, count_of y years)) (seqZ lo n))).
  { intros lo n. split; [rewrite map_map; apply map_id|].
    apply Forall_forall. intros yc Hyc. apply list_elem_of_fmap in Hyc as (y & -> & _). reflexivity. }
  destruct (decide (years = [])) as [->|Hne].
  - cbn [min_list max_list]. exists 1950, (2025 + 1 - 1950).
    destruct (Hshape 1950 (2025 + 1 - 1950)) as [H1 H2].
    split; [exact H1|]. split; [|exact H2].
    rewrite map_map. cbn [snd length]. generalize (seqZ 1950 (2025 + 1 - 1950)). intros l.
    induction l as [|t l IH]; [reflexivity|]. cbn [map total foldr].
    fold (total (map (fun x => count_of x (@nil Z)) l)). rewrite IH. reflexivity.
  - destruct (min_max_list years Hne) as (lo & hi & -> & -> & Hb).
    exists lo, (hi + 1 - lo). destruct (Hshape lo (hi + 1 - lo)) as [H1 H2].
    split; [exact H1|]. split; [|exact H2].
    rewrite map_map. cbn [snd]. apply total_counts; [apply NoDup_seqZ|].
    intros y Hy. apply elem_of_seqZ. specialize (Hb y Hy). lia.
Qed.

Lemma peak_year_spec (years : list Z) :
  match peak_year years with
  | Some y => y ∈ years ∧ ∀ y', count_of y' years ≤ count_of y years
  | None => years = []
  end.
Proof.
  unfold peak_year. destruct (keys_of_spec years) as [_ Hk].
  destruct (keys_of years) as [|y keys] eqn:E.
  - destruct years as [|y0 l]; [reflexivity|].
    assert (H : y0 ∈ @nil Z) by (apply Hk; left). inversion H.
  - destruct (max_by_greatest (fun y => count_of y years) y keys) as (Hin & Hle & Hall).
    cbv zeta in Hin, Hle, Hall.
    set (r := max_by (fun y => count_of y years) y keys) in *.
    split.
    + apply Hk. destruct Hin as [->|Hin]; [left|right; exact Hin].
    + intros y'. destruct (decide (y' ∈ years)) as [Hy'|Hy'].
      * apply Hk in Hy'. apply elem_of_cons in Hy' as [->|Hy']; [exact Hle|auto].
      * rewrite (count_of_absent y' years Hy'). apply count_of_nonneg.
Qed.

Lemma filter_map_length {A B} `{EqDecision B} (f : A → B) (t : B) (l : list A) :
  length (filter (fun e => f e = t) l) = length (filter (fun y => y = t) (map f l)).
Proof.
  induction l as [|e l IH]; [reflexivity|]. cbn [map].
  destruct (decide (f e = t)) as [H|H].
  - rewrite !filter_cons_True by exact H. cbn [length]. f_equal. exact IH.
  - rewrite !filter_cons_False by exact H. exact IH.
Qed.

Lemma sum_tc (order : list string) (papers : list (entry * R)) :
  Z.of_nat (sum_list (map (fun tid => length (thread_papers tid papers)) order))
  = total (map (fun t => count_of t (map (fun e : entry * R =>
                            default "classical_calcvar" (_thread e.1)) papers)) order).
Proof.
  induction order as [|t order IH]; [reflexivity|].
  cbn [map total foldr].
  fold (total (map (fun t => count_of t (map (fun e : entry * R =>
               default "classical_calcvar" (_thread e.1)) papers)) order)).
  rewrite <- IH. unfold count_of, thread_papers.
  rewrite <- (filter_map_length (fun e : entry * R => default "classical_calcvar" (_thread e.1))).
  change (sum_list (?x :: ?l)) with (x + sum_list l)%nat. lia.
Qed.

Lemma ranked_spec (db_papers : list paper) :
  ranked db_papers
  ≡ₚ map (fun p => (Entry p (Some (assign_thread p)), influence_of db_papers p)) db_papers.
Proof. apply stable_sort_perm. Qed.

(** X15.  The statistics of the threads count every paper once: the numbers
    of papers of the threads add up to the number of papers.  For each
    thread the yearly counts run over consecutive years and add up to the
    number of its papers that have a year, the peak year is a year with the
    greatest count, and the top papers are at most 15 papers of the thread,
    the most influential first. *)
Theorem thread_stats_spec (db_papers : list paper) :
  let stats := thread_stats db_papers in
  map fst stats = THREAD_ORDER ∧
  sum_list (map (fun ks => ts_tc ks.2) stats) = length db_papers ∧
  ∀ tid st, (tid, st) ∈ stats →
    let mine := thread_papers tid (ranked db_papers) in
    let years := counted_years mine in
    (∃ lo n, map fst (ts_yc st) = seqZ lo n) ∧
    total (map snd (ts_yc st)) = Z.of_nat (length years) ∧
    match ts_py st with
    | Some y => y ∈ years ∧ ∀ y', count_of y' years ≤ count_of y years
    | None => years = []
    end ∧
    (length (ts_tops st) ≤ 15)%nat ∧
    (∀ pid, pid ∈ ts_tops st →
       ∃ p, p ∈ db_papers ∧ Db.id p = pid ∧ assign_thread p = tid) ∧
    ∃ tops, map (fun e : entry * R => Db.id (row e.1)) tops = ts_tops st ∧
            StronglySorted (fun a b : entry * R => (b.2 <= a.2)%R) tops.
Proof.
  cbv zeta. unfold thread_stats. split; [|split].
  - rewrite map_map. apply map_id.
  - rewrite map_map. cbn [snd thread_stat_of ts_tc].
    assert (Hnd : NoDup THREAD_ORDER) by (refine (bool_decide_unpack _ _); vm_compute; exact I).
    pose proof (total_counts THREAD_ORDER
                  (map (fun e : entry * R => default "classical_calcvar" (_thread e.1))
                     (ranked db_papers)) Hnd) as Ht.
    assert (Hall : ∀ x, x ∈ map (fun e : entry * R => default "classical_calcvar" (_thread e.1))
                              (ranked db_papers) → x ∈ THREAD_ORDER).
    { intros x Hx. apply list_elem_of_fmap in Hx as (e & -> & He).
      rewrite ranked_spec in He. apply list_elem_of_fmap in He as (p & -> & _).
      apply assign_thread_in_order. }
    specialize (Ht Hall). rewrite length_map, (Permutation_length (ranked_spec db_papers)),
      length_map in Ht.
    apply Nat2Z.inj. rewrite <- Ht. apply sum_tc.
  - intros tid st Hin. apply list_elem_of_fmap in Hin as (tid' & [= -> ->] & _).
    cbn [thread_stat_of ts_yc ts_py ts_tops].
    set (mine := thread_papers tid' (ranked db_papers)).
    destruct (year_counts_spec (counted_years mine)) as (lo & n & H1 & H2 & _).
    split; [eauto|]. split; [exact H2|]. split; [apply peak_year_spec|].
    split; [rewrite length_map, length_take; lia|]. split.
    + intros pid Hpid. apply list_elem_of_fmap in Hpid as (e & -> & He).
      apply elem_of_take in He as (i & Hi & _). apply list_elem_of_lookup_2 in Hi.
      rewrite stable_sort_perm in Hi. apply list_elem_of_filter in Hi as [Ht He].
      rewrite ranked_spec in He. apply list_elem_of_fmap in He as (p & -> & Hp).
      exists p. auto.
    + eexists. split; [reflexivity|].
      destruct (sorted_papers mine) as [_ Hs].
      assert (Hsorted : StronglySorted (fun a b : entry * R => (b.2 <= a.2)%R)
                (stable_sort (fun a b : entry * R => Rle_bool (- a.2) (- b.2)) mine)).
      { eapply StronglySorted_weaken; [|apply stable_sort_sorted].
        - intros a b H. apply Rle_bool_true in H. lra.
        - intros a b H. apply Rle_bool_false in H. apply Rle_bool_true. lra.
        - intros a b c Hab Hbc. apply Rle_bool_true in Hab, Hbc. apply Rle_bool_true. lra. }
      rewrite <- (take_drop 15 (stable_sort _ mine)) in Hsorted.
      apply StronglySorted_app_1_l in Hsorted. exact Hsorted.
Qed.

(** *** Normal forms of the identifiers *)

Lemma chars_app (a b : string) : chars (a +:+ b) = chars a ++ chars b.
Proof. induction a as [|c a IH]; simpl; [reflexivity|]. f_equal. exact IH. Qed.

Lemma is_space_lower (c : ascii) : is_space (lower_char c) = is_space c.
Proof. destruct c as [[] [] [] [] [] [] [] []]; reflexivity. Qed.

Lemma lstrip_lower (l : list ascii) :
  lstrip_by is_space (map lower_char l) = map lower_char (lstrip_by is_space l).
Proof.
  induction l as [|c l IH]; simpl; [reflexivity|].
  rewrite is_space_lower. destruct (is_space c); [exact IH|reflexivity].
Qed.

Lemma strip_lower (l : list ascii) :
  strip_by is_space (map lower_char l) = map lower_char (strip_by is_space l).
Proof.
  unfold strip_by. rewrite lstrip_lower, <- map_rev, lstrip_lower, map_rev. reflexivity.
Qed.

Lemma lower_text (l : list ascii) : lower (text l) = text (map lower_char l).
Proof. unfold lower. rewrite chars_text. reflexivity. Qed.

Lemma chars_lower (s : string) : chars (lower s) = map lower_char (chars s).
Proof. unfold lower. apply chars_text. Qed.

Lemma map_lower_idem (l : list ascii) : map lower_char (map lower_char l) = map lower_char l.
Proof. rewrite map_map. apply map_ext. intros c. apply lower_char_idem. Qed.

Lemma drop_prefix_ci_lower (prefixes : list string) (value : list ascii) :
  drop_prefix_ci prefixes (map lower_char value) = map lower_char (drop_prefix_ci prefixes value).
Proof.
  unfold drop_prefix_ci. rewrite map_lower_idem.
  destruct (filter _ prefixes) as [|p ps]; [reflexivity|].
  change map with (@fmap list _). symmetry. apply fmap_drop.
Qed.

Lemma truthy_lower (s : string) : truthy (lower s) = truthy s.
Proof. destruct s; reflexivity. Qed.

Lemma rstrip_by_cons (f : ascii → bool) (c : ascii) (l : list ascii) :
  rstrip_by f (c :: l) =
  match rstrip_by f l with
  | [] => if f c then [] else [c]
  | r => c :: r
  end.
Proof.
  induction l as [|d l IH] using rev_ind.
  - unfold rstrip_by. simpl. destruct (f c); reflexivity.
  - change (c :: l ++ [d]) with ((c :: l) ++ [d]). rewrite !rstrip_by_snoc.
    destruct (f d); [exact IH|]. destruct l; reflexivity.
Qed.

Lemma strip_comm (f : ascii → bool) (l : list ascii) :
  lstrip_by f (rstrip_by f l) = rstrip_by f (lstrip_by f l).
Proof.
  induction l as [|c l IH]; [reflexivity|].
  rewrite rstrip_by_cons. simpl lstrip_by at 2. destruct (f c) eqn:Ec.
  - rewrite <- IH. destruct (rstrip_by f l) as [|r rs]; [reflexivity|].
    simpl. rewrite Ec. reflexivity.
  - rewrite rstrip_by_cons.
    destruct (rstrip_by f l) as [|r rs]; simpl; rewrite Ec; reflexivity.
Qed.

Lemma rstrip_by_idem (f : ascii → bool) (l : list ascii) :
  rstrip_by f (rstrip_by f l) = rstrip_by f l.
Proof.
  apply rstrip_by_fixed. destruct (rstrip_by_prefix f l) as (_ & _ & _ & H). exact H.
Qed.

Lemma strip_by_rstrip (f : ascii → bool) (l : list ascii) :
  strip_by f (rstrip_by f l) = strip_by f l.
Proof. rewrite !strip_by_split, strip_comm, rstrip_by_idem. reflexivity. Qed.

Lemma rstrip_by_app (f : ascii → bool) (pre l : list ascii) :
  match rev pre with c :: _ => f c = false | [] => False end →
  rstrip_by f (pre ++ l) = pre ++ rstrip_by f l.
Proof.
  intros Hpre. induction l as [|d l IH] using rev_ind.
  - rewrite rstrip_by_nil, app_nil_r. apply rstrip_by_fixed.
    destruct (rev pre); [contradiction|exact Hpre].
  - rewrite app_assoc, !rstrip_by_snoc. destruct (f d); [exact IH|].
    rewrite app_assoc. reflexivity.
Qed.

(** X16.  [normalize_space] returns words that single spaces separate: no
    other white space is left, none at the ends, and normalising again
    changes nothing. *)
Theorem normalize_space_normal (s : string) :
  let k := normalize_space s in
  normalize_space k = k ∧
  Forall (fun c => is_space c = false ∨ c = " "%char) (chars k) ∧
  strip k = k.
Proof.
  cbv zeta. unfold normalize_space, strip. rewrite !chars_text.
  destruct (runs_shape is_space " "%char (chars s) is_space eq_refl) as [Hc Hr].
  cbv zeta in Hc, Hr. split; [|split].
  - unfold sub_runs at 1. rewrite (runs_done_fixed _ _ _ _ Hr), strip_by_idem. reflexivity.
  - exact Hc.
  - rewrite strip_by_idem. reflexivity.
Qed.

Lemma normalized_shape (l : list ascii) :
  let v := lower (text (strip_by is_space l)) in
  lower v = v ∧ strip v = v.
Proof.
  cbv zeta. rewrite lower_text. split.
  - rewrite lower_text, map_lower_idem. reflexivity.
  - unfold strip. rewrite chars_text, strip_lower, strip_by_idem. reflexivity.
Qed.

Lemma normalize_doi_shape (d : string) :
  (∀ r, normalize_doi (Some d) = Some r → r ≠ "" ∧ lower r = r ∧ strip r = r) ∧
  normalize_doi (Some (lower d)) = normalize_doi (Some d).
Proof.
  split.
  - intros r. unfold normalize_doi. destruct (truthy d); [|discriminate]. cbv zeta.
    destruct (truthy (lower (text (strip_by is_space (drop_prefix_ci DOI_URL
                (strip_by is_space (chars d))))))) eqn:E; [|discriminate].
    intros [= <-]. split; [apply truthy_nonempty, E|]. apply normalized_shape.
  - unfold normalize_doi. rewrite truthy_lower. destruct (truthy d); [|reflexivity]. cbv zeta.
    rewrite chars_lower, strip_lower, drop_prefix_ci_lower, strip_lower.
    rewrite !lower_text, map_lower_idem. reflexivity.
Qed.

Lemma normalize_arxiv_shape (a : string) :
  (∀ r, normalize_arxiv (Some a) = Some r → r ≠ "" ∧ lower r = r) ∧
  normalize_arxiv (Some (lower a)) = normalize_arxiv (Some a).
Proof.
  split.
  - intros r. unfold normalize_arxiv. destruct (truthy a); [|discriminate]. cbv zeta.
    destruct (truthy (lower (text (drop_prefix_ci ARXIV_URL (strip_by is_space (chars a))))))
      eqn:E; [|discriminate].
    intros [= <-]. split; [apply truthy_nonempty, E|].
    rewrite !lower_text, map_lower_idem. reflexivity.
  - unfold normalize_arxiv. rewrite truthy_lower. destruct (truthy a); [|reflexivity]. cbv zeta.
    rewrite chars_lower, strip_lower, drop_prefix_ci_lower.
    rewrite !lower_text, map_lower_idem. reflexivity.
Qed.

(** X17.  A DOI that [normalize_doi] returns is not empty, is in lower case
    and has no white space at its ends; an arXiv identifier that
    [normalize_arxiv] returns is not empty and is in lower case.  For an
    input of ASCII characters the case of the input plays no part.  What is
    missing or empty stays missing. *)
Theorem normalize_ids_normal (v : string) :
  (∀ r, normalize_doi (Some v) = Some r → r ≠ "" ∧ lower r = r ∧ strip r = r) ∧
  (∀ r, normalize_arxiv (Some v) = Some r → r ≠ "" ∧ lower r = r) ∧
  (ascii_only v →
   normalize_doi (Some (lower v)) = normalize_doi (Some v) ∧
   normalize_arxiv (Some (lower v)) = normalize_arxiv (Some v)) ∧
  normalize_doi None = None ∧ normalize_doi (Some "") = None ∧
  normalize_arxiv None = None ∧ normalize_arxiv (Some "") = None.
Proof.
  destruct (normalize_doi_shape v) as [Hd1 Hd2], (normalize_arxiv_shape v) as [Ha1 Ha2].
  split; [exact Hd1|]. split; [exact Ha1|]. split; [intros _; split; assumption|].
  repeat split.
Qed.

Lemma normalize_ids_normal_witness :
  ascii_only "HTTPS://DOI.ORG/10.1000/X" ∧
  normalize_doi (Some (lower "HTTPS://DOI.ORG/10.1000/X"))
  = normalize_doi (Some "HTTPS://DOI.ORG/10.1000/X") ∧
  normalize_doi (Some "HTTPS://DOI.ORG/10.1000/X") = Some "10.1000/x".
Proof.
  assert (H : ascii_only "HTTPS://DOI.ORG/10.1000/X")
    by (refine (bool_decide_unpack _ _); vm_compute; exact I).
  split; [exact H|]. split; [|reflexivity].
  exact (proj1 (proj1 (proj2 (proj2 (normalize_ids_normal "HTTPS://DOI.ORG/10.1000/X"))) H)).
Defined.

Lemma no_prefix (prefixes : list string) (value : list ascii) :
  (∀ q, q ∈ prefixes → starts_with (chars q) (map lower_char value) = false) →
  drop_prefix_ci prefixes value = value.
Proof.
  intros H. unfold drop_prefix_ci. rewrite filter_none; [reflexivity|].
  intros q Hq. rewrite (H q Hq). discriminate.
Qed.

Lemma starts_with_self (p rest : list ascii) : starts_with p (p ++ rest) = true.
Proof. induction p as [|c p IH]; simpl; [reflexivity|]. rewrite Ascii.eqb_refl. exact IH. Qed.

Lemma doi_url_hit (pc rest : list ascii) (p : string) :
  p ∈ DOI_URL → map lower_char pc = chars p → drop_prefix_ci DOI_URL (pc ++ rest) = rest.
Proof.
  intros Hp Hpc. unfold drop_prefix_ci. rewrite map_app, Hpc.
  assert (Hlen : length (chars p) = length pc) by (rewrite <- Hpc; apply length_map).
  unfold DOI_URL in *. rewrite !elem_of_cons, elem_of_nil in Hp.
  destruct Hp as [->|[->|[->|[->|[]]]]].
  - rewrite filter_cons_True by apply starts_with_self. apply drop_app_length', Hlen.
  - rewrite filter_cons_False by (simpl; discriminate).
    rewrite filter_cons_True by apply starts_with_self. apply drop_app_length', Hlen.
  - rewrite filter_cons_False by (simpl; discriminate).
    rewrite filter_cons_False by (simpl; discriminate).
    rewrite filter_cons_True by apply starts_with_self. apply drop_app_length', Hlen.
  - rewrite filter_cons_False by (simpl; discriminate).
    rewrite filter_cons_False by (simpl; discriminate).
    rewrite filter_cons_False by (simpl; discriminate).
    rewrite filter_cons_True by apply starts_with_self. apply drop_app_length', Hlen.
Qed.

Lemma doi_url_ends (pc : list ascii) (p : string) :
  p ∈ DOI_URL → map lower_char pc = chars p →
  match pc with c :: _ => is_space c = false | [] => False end ∧
  match rev pc with c :: _ => is_space c = false | [] => False end.
Proof.
  intros Hp Hpc.
  assert (H : match chars p with c :: _ => is_space c = false | [] => False end ∧
              match rev (chars p) with c :: _ => is_space c = false | [] => False end).
  { unfold DOI_URL in Hp. rewrite !elem_of_cons, elem_of_nil in Hp.
    destruct Hp as [->|[->|[->|[->|[]]]]]; split; reflexivity. }
  rewrite <- Hpc, <- map_rev in H. destruct H as [H1 H2]. split.
  - destruct pc as [|c pc]; [exact H1|]. simpl in H1. rewrite is_space_lower in H1. exact H1.
  - destruct (rev pc) as [|c r]; [exact H2|]. simpl in H2. rewrite is_space_lower in H2. exact H2.
Qed.

(** X18.  A DOI given as a link to doi.org or dx.doi.org, with http or https
    and in any case, is normalised to what the bare DOI is normalised to. *)
Theorem normalize_doi_url (p d : string) :
  lower p ∈ DOI_URL →
  (∀ q, q ∈ DOI_URL → starts_with (chars q) (chars (lower (strip d))) = false) →
  normalize_doi (Some (p +:+ d)) = normalize_doi (Some d).
Proof.
  intros Hp Hd.
  assert (Hpc : map lower_char (chars p) = chars (lower p)) by (symmetry; apply chars_lower).
  destruct (doi_url_ends _ _ Hp Hpc) as [Hhead Hlast].
  assert (Hbare : drop_prefix_ci DOI_URL (strip_by is_space (chars d))
                  = strip_by is_space (chars d)).
  { apply no_prefix. intros q Hq. rewrite <- (Hd q Hq).
    unfold strip. rewrite chars_lower, chars_text. reflexivity. }
  assert (Hurl : normalize_doi (Some (p +:+ d))
                 = let v := lower (text (strip_by is_space (chars d))) in
                   if truthy v then Some v else None).
  { unfold normalize_doi.
    assert (Ht : truthy (p +:+ d) = true).
    { destruct p as [|c p]; [|reflexivity]. destruct Hhead. }
    rewrite Ht, chars_app. cbv zeta.
    rewrite (strip_by_split is_space (chars p ++ chars d)).
    rewrite (lstrip_by_fixed is_space (chars p ++ chars d))
      by (destruct (chars p) as [|c pc]; [destruct Hhead|exact Hhead]).
    rewrite rstrip_by_app by exact Hlast.
    rewrite (doi_url_hit _ _ _ Hp Hpc), strip_by_rstrip. reflexivity. }
  rewrite Hurl. unfold normalize_doi. cbv zeta.
  rewrite Hbare, strip_by_idem.
  destruct (truthy d) eqn:Et; [reflexivity|].
  destruct d; [reflexivity|discriminate].
Qed.

Lemma normalize_doi_url_witness :
  normalize_doi (Some ("HTTPS://dx.doi.org/" +:+ "10.1000/X"))
  = normalize_doi (Some "10.1000/X").
Proof.
  apply (normalize_doi_url "HTTPS://dx.doi.org/" "10.1000/X").
  - unfold DOI_URL. rewrite !elem_of_cons. right. right. right. left. reflexivity.
  - intros q Hq. unfold DOI_URL in Hq. rewrite !elem_of_cons, elem_of_nil in Hq.
    destruct Hq as [->|[->|[->|[->|[]]]]]; reflexivity.
Defined.

(** *** Identifiers for Semantic Scholar *)

Lemma is_arxiv_doi_prefix (r : string) : _is_arxiv_doi ("10.48550/arxiv." +:+ r) = true.
Proof.
  unfold _is_arxiv_doi. rewrite chars_lower, chars_app, map_app.
  apply (starts_with_self (chars "10.48550/arxiv.")).
Qed.

Lemma arxiv_of_doi_prefix (r : string) : arxiv_of_doi ("10.48550/arxiv." +:+ r) = r.
Proof.
  unfold arxiv_of_doi. rewrite chars_app, drop_app_length. apply text_chars.
Qed.

Lemma alias_ss_id_arxiv (r : string) :
  alias_ss_id ("arxiv:" +:+ r) = Some ("ARXIV:" +:+ r) ∧
  alias_ss_id ("doi:10.48550/arxiv." +:+ r) = Some ("ARXIV:" +:+ r).
Proof.
  split.
  - unfold alias_ss_id. rewrite chars_app.
    change (starts_with (chars "doi:") (chars "arxiv:" ++ chars r)) with false.
    rewrite (starts_with_self (chars "arxiv:")). cbv iota.
    rewrite (drop_app_length (chars "arxiv:")), text_chars. reflexivity.
  - unfold alias_ss_id.
    change ("doi:10.48550/arxiv." +:+ r) with ("doi:" +:+ "10.48550/arxiv." +:+ r).
    rewrite chars_app, (starts_with_self (chars "doi:")). cbv iota zeta.
    rewrite (drop_app_length (chars "doi:")), text_chars.
    rewrite is_arxiv_doi_prefix, arxiv_of_doi_prefix. reflexivity.
Qed.

Lemma canonical_arxiv_inv (d a o : option string) (t : string) (y : option Z) (r : string) :
  canonical_paper_id d a o t y = "arxiv:" +:+ r →
  otruthy d = false ∧ otruthy a = true ∧ a = Some r.
Proof.
  unfold canonical_paper_id.
  destruct (otruthy d) eqn:Hd; [simpl; discriminate|].
  destruct (otruthy a) eqn:Ha; [|destruct (otruthy o); simpl; discriminate].
  destruct a as [s|]; [|discriminate]. simpl. intros H.
  apply (inj (String.append "arxiv:")) in H. subst s. auto.
Qed.

Lemma canonical_doi_inv (d a o : option string) (t : string) (y : option Z) (x : string) :
  canonical_paper_id d a o t y = "doi:" +:+ x → otruthy d = true ∧ d = Some x.
Proof.
  unfold canonical_paper_id.
  destruct (otruthy d) eqn:Hd;
    [|destruct (otruthy a); [|destruct (otruthy o)]; simpl; discriminate].
  destruct d as [s|]; [|discriminate]. simpl. intros H.
  apply (inj (String.append "doi:")) in H. subst s. auto.
Qed.

Lemma primary_ss_id (p : paper) (s : string) :
  paper_id_to_ss_id p = Some s →
  truthy s = true ∧
  ((∃ r, s = "ARXIV:" +:+ r) ∨ (∃ d, s = "DOI:" +:+ d ∧ _is_arxiv_doi d = false)).
Proof.
  unfold paper_id_to_ss_id.
  destruct (otruthy (doi p)) eqn:Hd; cbn [andb].
  - destruct (_is_arxiv_doi (default "" (doi p))) eqn:Ha.
    + intros [= <-]. split; [reflexivity|]. left. eauto.
    + destruct (otruthy (arxiv_id p)); intros [= <-]; (split; [reflexivity|]); eauto.
  - destruct (otruthy (arxiv_id p)); [|discriminate].
    intros [= <-]. split; [reflexivity|]. left. eauto.
Qed.

Lemma primary_ss_id_asked (p : paper) (s : string) :
  paper_id_to_ss_id p = Some s → s ∈ _all_ss_ids_for_paper p.
Proof.
  intros Hs. unfold _all_ss_ids_for_paper. rewrite Hs.
  destruct (primary_ss_id p s Hs) as [-> _]. apply elem_of_union_l, elem_of_singleton. reflexivity.
Qed.

(** X19.  Every identifier asked of Semantic Scholar is an arXiv identifier
    or a DOI, and a DOI of arXiv is never asked as a DOI.  The identifier
    of the row itself is among those asked. *)
Theorem ss_ids_shape (p : paper) :
  (∀ s, s ∈ _all_ss_ids_for_paper p →
     (∃ r, s = "ARXIV:" +:+ r) ∨ (∃ d, s = "DOI:" +:+ d ∧ _is_arxiv_doi d = false)) ∧
  (∀ s, paper_id_to_ss_id p = Some s → s ∈ _all_ss_ids_for_paper p).
Proof.
  pose proof (primary_ss_id p) as Hprim.
  split.
  - intros s. unfold _all_ss_ids_for_paper. rewrite elem_of_union. intros [Hs|Hs].
    + destruct (paper_id_to_ss_id p) as [q|] eqn:E; [|inversion Hs].
      destruct (Hprim q eq_refl) as [Ht Hq]. rewrite Ht in Hs.
      apply elem_of_singleton in Hs as ->. exact Hq.
    + apply elem_of_list_to_set, list_elem_of_omap in Hs as (alias & _ & Hs).
      unfold alias_ss_id in Hs.
      destruct (starts_with (chars "doi:") (chars alias)).
      * cbv zeta in Hs. destruct (_is_arxiv_doi (text (drop 4 (chars alias)))) eqn:Ha;
          injection Hs as <-; eauto.
      * destruct (starts_with (chars "arxiv:") (chars alias)); [|discriminate].
        injection Hs as <-. eauto.
  - apply primary_ss_id_asked.
Qed.

(** X20.  A row that went through a merge is still asked of Semantic Scholar
    under the arXiv identifier of either row that was merged, whether that
    row was identified by its arXiv identifier or by its arXiv DOI. *)
Theorem merged_row_asks_arxiv (existing incoming : paper) (r : string) :
  (∃ x, (x = existing ∨ x = incoming) ∧
        (Db.id x = "arxiv:" +:+ r ∨ Db.id x = "doi:10.48550/arxiv." +:+ r)) →
  "ARXIV:" +:+ r ∈ _all_ss_ids_for_paper (merge_paper_rows existing incoming).
Proof.
  intros (x & Hx & Hid).
  set (m := merge_paper_rows existing incoming).
  assert (Hkept : Db.id x = Db.id m ∨ Db.id x ∈ aliases m).
  { apply merge_ids_kept; [destruct Hx as [->| ->]; auto|].
    destruct Hid as [-> | ->]; discriminate. }
  destruct (alias_ss_id_arxiv r) as [Ha1 Ha2].
  destruct Hkept as [Hm|Hal].
  - assert (Hc : Db.id m = canonical_paper_id (doi m) (arxiv_id m) (openalex_id m)
                            (title m) (year m))
      by apply (recompute_id_canonical (merge_fields existing incoming)).
    rewrite <- Hm in Hc.
    assert (Hp : paper_id_to_ss_id m = Some ("ARXIV:" +:+ r)).
    { unfold paper_id_to_ss_id. destruct Hid as [Hid|Hid]; rewrite Hid in Hc; symmetry in Hc.
      - apply canonical_arxiv_inv in Hc as (Hd & Ha & Hr). rewrite Hd, Ha, Hr. reflexivity.
      - change ("doi:10.48550/arxiv." +:+ r) with ("doi:" +:+ "10.48550/arxiv." +:+ r) in Hc.
        apply canonical_doi_inv in Hc as (Ht & Hd). rewrite Hd in *. cbv [from_option Datatypes.id].
        rewrite Ht, is_arxiv_doi_prefix, arxiv_of_doi_prefix. reflexivity. }
    apply primary_ss_id_asked, Hp.
  - unfold _all_ss_ids_for_paper. apply elem_of_union_r, elem_of_list_to_set, list_elem_of_omap.
    exists (Db.id x). split; [exact Hal|]. destruct Hid as [-> | ->]; assumption.
Qed.

Lemma merged_row_asks_arxiv_witness :
  "ARXIV:" +:+ "2001.00001"
  ∈ _all_ss_ids_for_paper (merge_paper_rows Samples.published Samples.preprint).
Proof.
  apply (merged_row_asks_arxiv Samples.published Samples.preprint "2001.00001").
  exists Samples.preprint. split; [right; reflexivity|left; reflexivity].
Defined.

(** *** Citation counts of Semantic Scholar *)

Lemma enrich_row_spec (ss_results : gmap string (option Z)) (p : paper) :
  let r := enrich_row ss_results p in
  set_counts r.1.1 0 0 = set_counts p 0 0 ∧
  ss_cited_by_count r.1.1 = ss_count ss_results p ∧
  cited_by_count p ≤ cited_by_count r.1.1 ∧
  (is_Some (ss_results !! Db.id p) →
     cited_by_count r.1.1 = Z.max (cited_by_count p) (ss_count ss_results p)) ∧
  (ss_results !! Db.id p = None → cited_by_count r.1.1 = cited_by_count p) ∧
  r.1.2 = (if decide (is_Some (ss_results !! Db.id p) ∧
                      cited_by_count p < ss_count ss_results p) then 1 else 0) ∧
  r.2 = (if decide (ss_results !! Db.id p = None) then 1 else 0).
Proof.
  unfold enrich_row, ss_count. destruct (ss_results !! Db.id p) as [o|] eqn:E.
  - change (mjoin (Some o)) with o. cbv zeta.
    destruct (Z.ltb_spec (cited_by_count p) (default 0 o)) as [Hlt|Hge]; cbn [fst snd].
    + destruct (decide (is_Some (Some o) ∧ cited_by_count p < default 0 o)) as [_|Hn];
        [|destruct Hn; split; [eauto|exact Hlt]].
      destruct (decide (Some o = None)) as [Hn|_]; [discriminate|].
      repeat split; try reflexivity; simpl; try lia; try discriminate.
    + destruct (decide (is_Some (Some o) ∧ cited_by_count p < default 0 o)) as [[_ Hn]|_];
        [lia|].
      destruct (decide (Some o = None)) as [Hn|_]; [discriminate|].
      repeat split; try reflexivity; simpl; try lia; try discriminate.
  - destruct (decide (is_Some (@None (option Z)) ∧ cited_by_count p < default 0 (mjoin None)))
      as [[[? Hn] _]|_]; [discriminate|].
    destruct (decide (@None (option Z) = None)) as [_|Hn]; [|destruct Hn; reflexivity].
    cbn [fst snd]. repeat split; try reflexivity; simpl; try lia;
      try (intros [? ?]; discriminate).
Qed.

Lemma enrich_fold (ss_results : gmap string (option Z)) (papers : list paper)
    (rows : list paper) (e n : Z) :
  foldl (fun st p =>
           let '(rows, enriched, not_found) := st in
           let '(row, e, n) := enrich_row ss_results p in
           (rows ++ [row], enriched + e, not_found + n))
    (rows, e, n) papers
  = (rows ++ map (fun p => (enrich_row ss_results p).1.1) papers,
     e + Z.of_nat (length (filter (fun p => is_Some (ss_results !! Db.id p) ∧
                                            cited_by_count p < ss_count ss_results p) papers)),
     n + Z.of_nat (length (filter (fun p => ss_results !! Db.id p = None) papers))).
Proof.
  revert rows e n. induction papers as [|p papers IH]; intros rows e n.
  - simpl. rewrite app_nil_r, !Z.add_0_r. reflexivity.
  - cbn [foldl].
    destruct (enrich_row_spec ss_results p) as (_ & _ & _ & _ & _ & He & Hn).
    destruct (enrich_row ss_results p) as [[row e'] n'] eqn:Er. cbn [fst snd] in He, Hn.
    rewrite IH. cbn [map]. rewrite Er. cbn [fst snd]. rewrite <- app_assoc. cbn [app].
    subst e' n'. f_equal; [f_equal|].
    + destruct (decide (is_Some (ss_results !! Db.id p) ∧ cited_by_count p < ss_count ss_results p)).
      * rewrite filter_cons_True by assumption. simpl length. lia.
      * rewrite filter_cons_False by assumption. lia.
    + destruct (decide (ss_results !! Db.id p = None)).
      * rewrite filter_cons_True by assumption. simpl length. lia.
      * rewrite filter_cons_False by assumption. lia.
Qed.

(** X21.  The enrichment changes nothing but the two citation counts of a
    row.  The count never goes down: it is the greater of the count of
    OpenAlex and that of Semantic Scholar when the latter answered, and the
    count of OpenAlex when it did not.  The rows counted as enriched and as
    not found are different rows, so that the number printed as unchanged is
    not negative. *)
Theorem enrich_with_semantic_scholar_spec (ss_results : gmap string (option Z))
    (papers : list paper) :
  let res := enrich_with_semantic_scholar ss_results papers in
  Forall2 (fun p r =>
             set_counts r 0 0 = set_counts p 0 0 ∧
             ss_cited_by_count r = ss_count ss_results p ∧
             cited_by_count p ≤ cited_by_count r ∧
             (is_Some (ss_results !! Db.id p) →
                cited_by_count r = Z.max (cited_by_count p) (ss_count ss_results p)) ∧
             (ss_results !! Db.id p = None → cited_by_count r = cited_by_count p))
    papers res.1.1 ∧
  res.1.2 = Z.of_nat (length (filter (fun p => is_Some (ss_results !! Db.id p) ∧
                                               cited_by_count p < ss_count ss_results p)
                                papers)) ∧
  res.2 = Z.of_nat (length (filter (fun p => ss_results !! Db.id p = None) papers)) ∧
  0 ≤ Z.of_nat (length papers) - res.1.2 - res.2.
Proof.
  cbv zeta. unfold enrich_with_semantic_scholar. rewrite enrich_fold. cbn [fst snd app].
  rewrite !Z.add_0_l. split; [|split; [reflexivity|split; [reflexivity|]]].
  - induction papers as [|p papers IH]; [constructor|]. cbn [map]. constructor; [|exact IH].
    destruct (enrich_row_spec ss_results p) as (H1 & H2 & H3 & H4 & H5 & _). auto.
  - induction papers as [|p papers IH]; [simpl; lia|].
    destruct (ss_results !! Db.id p) as [o|] eqn:E.
    + rewrite (filter_cons_False (fun p => ss_results !! Db.id p = None)) by (rewrite E; discriminate).
      destruct (decide (is_Some (ss_results !! Db.id p) ∧ cited_by_count p < ss_count ss_results p)).
      * rewrite filter_cons_True by assumption. simpl length. lia.
      * rewrite filter_cons_False by assumption. simpl length. lia.
    + rewrite (filter_cons_True (fun p => ss_results !! Db.id p = None)) by exact E.
      rewrite filter_cons_False by (rewrite E; intros [[? ?] _]; discriminate).
      simpl length. lia.
Qed.

(** *** Candidates *)

Lemma append_new_spec (cur new : list string) :
  ∃ added, append_new cur new = cur ++ added ∧
    (∀ a, a ∈ added ↔ a ∈ new ∧ a ∉ cur) ∧ NoDup added.
Proof.
  unfold append_new. revert cur. induction new as [|x new IH]; intros cur; simpl.
  - exists []. rewrite app_nil_r. split; [reflexivity|]. split; [|constructor].
    intros a. rewrite !elem_of_nil. tauto.
  - case_bool_decide as Hx.
    + destruct (IH cur) as (added & -> & Hin & Hnd). exists added.
      split; [reflexivity|]. split; [|exact Hnd].
      intros a. rewrite Hin, elem_of_cons. split; [tauto|].
      intros [[->|H] Hc]; [contradiction|auto].
    + destruct (IH (cur ++ [x])) as (added & -> & Hin & Hnd). exists (x :: added).
      rewrite <- app_assoc. split; [reflexivity|]. split.
      * intros a. rewrite !elem_of_cons, Hin, elem_of_app, list_elem_of_singleton.
        destruct (decide (a = x)) as [->|Hne]; [tauto|]. tauto.
      * constructor; [|exact Hnd]. rewrite Hin, elem_of_app, list_elem_of_singleton. tauto.
Qed.

Lemma append_new_NoDup (cur new : list string) :
  NoDup cur → NoDup (append_new cur new).
Proof.
  intros Hc. destruct (append_new_spec cur new) as (added & -> & Hin & Hnd).
  apply NoDup_app. split; [exact Hc|]. split; [|exact Hnd].
  intros a Ha Hadd. apply Hin in Hadd as [_ Hn]. contradiction.
Qed.

Lemma append_new_elem (cur new : list string) (a : string) :
  a ∈ append_new cur new ↔ a ∈ cur ∨ a ∈ new.
Proof.
  destruct (append_new_spec cur new) as (added & -> & Hin & _).
  rewrite elem_of_app, Hin. destruct (decide (a ∈ cur)); tauto.
Qed.

Lemma append_new_prefix (cur new : list string) : cur `prefix_of` append_new cur new.
Proof.
  destruct (append_new_spec cur new) as (added & -> & _). apply prefix_app_r. reflexivity.
Qed.

(** X22.  When a paper is found again, the candidate keeps what identifies
    it and only gains metadata: the citation count is the greater one, the
    list of references is the longer of the two lists, the one known when
    they are as long, an empty venue, link or OpenAlex identifier is filled
    in, and the authors found now are added after those known, in the order
    found, none of them twice. *)
Theorem keep_better_spec (existing p : paper) :
  let r := keep_better existing p in
  (Db.id r = Db.id existing ∧ title r = title existing ∧ year r = year existing ∧
   doi r = doi existing ∧ arxiv_id r = arxiv_id existing) ∧
  cited_by_count r = Z.max (cited_by_count existing) (cited_by_count p) ∧
  (length (referenced_works r)
   = Nat.max (length (referenced_works existing)) (length (referenced_works p))) ∧
  ((length (referenced_works existing) < length (referenced_works p))%nat →
   referenced_works r = referenced_works p) ∧
  ((length (referenced_works p) ≤ length (referenced_works existing))%nat →
   referenced_works r = referenced_works existing) ∧
  (∀ get, get = venue ∨ get = url ∨ get = openalex_id →
     (otruthy (get existing) = true → get r = get existing) ∧
     (otruthy (get existing) = false → otruthy (get p) = true → get r = get p)) ∧
  (∀ get, get = authors ∨ get = concept_terms ∨ get = keyword_terms →
     get existing `prefix_of` get r ∧
     (∀ a, a ∈ get r ↔ a ∈ get existing ∨ a ∈ get p) ∧
     (NoDup (get existing) → NoDup (get r))).
Proof.
  cbv zeta. split; [repeat split|]. split; [|split; [|split; [|split; [|split]]]].
  - simpl. destruct (Z.ltb_spec (cited_by_count existing) (cited_by_count p)); lia.
  - simpl. destruct (Nat.ltb_spec (length (referenced_works existing))
                       (length (referenced_works p))); lia.
  - simpl. destruct (Nat.ltb_spec (length (referenced_works existing))
                       (length (referenced_works p))); [reflexivity|lia].
  - simpl. destruct (Nat.ltb_spec (length (referenced_works existing))
                       (length (referenced_works p))); [lia|reflexivity].
  - intros get [->|[->| ->]]; simpl; unfold fill_opt;
      (split; [intros ->; reflexivity|intros -> ->; reflexivity]).
  - intros get [->|[->| ->]]; simpl;
      (split; [apply append_new_prefix|split; [apply append_new_elem|apply append_new_NoDup]]).
Qed.

Lemma upsert_entry_keys (pid : string) (p : paper) (st sl : string)
    (w : list (string * candidate)) :
  map fst (upsert_entry pid p st sl w)
  = if decide (pid ∈ map fst w) then map fst w else map fst w ++ [pid].
Proof.
  induction w as [|[k c] w IH].
  - cbn [upsert_entry map app fst]. destruct (decide (pid ∈ [])) as [H|_]; [inversion H|reflexivity].
  - cbn [upsert_entry]. destruct (str_eqb k pid) eqn:E.
    + apply str_eqb_eq in E as ->. cbn [map fst].
      destruct (decide (pid ∈ pid :: map fst w)) as [_|H]; [reflexivity|destruct H; left].
    + apply str_eqb_neq in E. cbn [map fst]. rewrite IH.
      destruct (decide (pid ∈ map fst w)) as [Hin|Hnot];
        destruct (decide (pid ∈ k :: map fst w)) as [Hin'|Hnot']; try reflexivity.
      * destruct Hnot'. right. exact Hin.
      * apply elem_of_cons in Hin' as [->|Hin']; [congruence|contradiction].
Qed.

Lemma upsert_entry_rows (pid : string) (p : paper) (st sl : string)
    (w : list (string * candidate)) (P : string * candidate → Prop) :
  Forall P w → P (pid, Candidate p {[st]} {[sl]}) →
  (∀ c, P (pid, c) →
        P (pid, Candidate (keep_better (c_paper c) p)
                  ({[st]} ∪ c_source_types c) ({[sl]} ∪ c_source_labels c))) →
  Forall P (upsert_entry pid p st sl w).
Proof.
  intros Hw Hnew Hold. induction Hw as [|[k c] w Hkc Hw IH]; simpl.
  - constructor; [exact Hnew|constructor].
  - destruct (str_eqb k pid) eqn:E.
    + apply str_eqb_eq in E as ->. constructor; [apply Hold, Hkc|exact Hw].
    + constructor; assumption.
Qed.

Lemma upsert_entry_found (pid : string) (p : paper) (st sl : string)
    (w : list (string * candidate)) :
  ∃ c, (pid, c) ∈ upsert_entry pid p st sl w ∧
       st ∈ c_source_types c ∧ sl ∈ c_source_labels c ∧
       (pid ∉ map fst w → c_paper c = p).
Proof.
  induction w as [|[k c] w (c' & Hin & Hst & Hsl & Hp)]; simpl.
  - eexists. split; [left|]. simpl. rewrite !elem_of_singleton. auto.
  - destruct (str_eqb k pid) eqn:E.
    + apply str_eqb_eq in E as ->. eexists. split; [left|]. simpl.
      rewrite !elem_of_union, !elem_of_singleton. split; [auto|]. split; [auto|].
      intros Hnot. destruct Hnot. left.
    + exists c'. split; [right; exact Hin|]. split; [exact Hst|]. split; [exact Hsl|].
      intros Hnot. apply Hp. intros H. apply Hnot. right. exact H.
Qed.

(** X23.  The table of candidates stays keyed by the identifiers of its
    papers, each once, in the order in which they were first found; a work
    without title adds nothing, and a paper that is added or found again is
    in the table with the source under which it was found now. *)
Theorem upsert_candidate_spec (w : list (string * candidate)) (found : option paper)
    (source_type source_label : string) :
  candidates_ok w →
  let w' := upsert_candidate w found source_type source_label in
  candidates_ok w' ∧
  map fst w `prefix_of` map fst w' ∧
  (found = None → w' = w) ∧
  (∀ p, found = Some p →
     ∃ c, (Db.id p, c) ∈ w' ∧
          source_type ∈ c_source_types c ∧ source_label ∈ c_source_labels c ∧
          (Db.id p ∉ map fst w → c_paper c = p)).
Proof.
  intros [Hnd Hid]. destruct found as [p|]; cbv zeta; simpl.
  - split; [split|split; [|split]].
    + rewrite upsert_entry_keys. destruct (decide (Db.id p ∈ map fst w)); [exact Hnd|].
      apply NoDup_app. split; [exact Hnd|]. split; [|apply NoDup_singleton].
      intros k Hk Hk'. apply list_elem_of_singleton in Hk' as ->. contradiction.
    + apply upsert_entry_rows; [exact Hid|reflexivity|]. intros c Hc. exact Hc.
    + rewrite upsert_entry_keys. destruct (decide (Db.id p ∈ map fst w)); [reflexivity|].
      apply prefix_app_r. reflexivity.
    + discriminate.
    + intros q [= <-]. apply upsert_entry_found.
  - split; [split; assumption|]. split; [reflexivity|]. split; [reflexivity|]. discriminate.
Qed.

Lemma upsert_candidate_spec_witness :
  let w := [("doi:10.1/a", Candidate Samples.cites_a {["keyword"]} {["direct methods"]})] in
  candidates_ok w ∧
  candidates_ok (upsert_candidate w (Some Samples.cited_b) "author" "B. Author").
Proof.
  assert (H : candidates_ok
                [("doi:10.1/a", Candidate Samples.cites_a {["keyword"]} {["direct methods"]})]).
  { split; [apply NoDup_singleton|]. constructor; [reflexivity|constructor]. }
  split; [exact H|].
  exact (proj1 (upsert_candidate_spec _ (Some Samples.cited_b) "author" "B. Author" H)).
Defined.

(** *** The rules of [score_paper], one after the other *)

(** The rules of [score_rules] with what follows them made explicit. *)
Lemma score_rules_unfold (p : paper) (known_researchers : gset string) (y : Z)
    (K : Q * list string * list string * Z → Prop) :
  (
    let title_l := lower (title p) in
    let abstract := lower (abstract_text p) in
    let concepts := join " " (concept_terms p) in
    let keywords := join " " (keyword_terms p) in
    let text := join " " [title_l; abstract; concepts; keywords] in
    let has_calcvar :=
      term_in_text "calculus of variations" text
      || term_in_text "variational method" text
      || term_in_text "variational problem" text
      || term_in_text "euler-lagrange" text
      || term_in_text "euler lagrange" text in
    let s1 :=
      if has_calcvar
      then Scoring 6 ["mentions_calcvar(+6)"] ["classical_calcvar"] 0
      else Scoring 0 [] [] 0 in
    let core_variational :=
      ["variational inequality"; "variational formulation"; "variational principle";
       "minimization problem"; "energy functional"; "functional minimization"] in
    let core_matches :=
      Z.of_nat (length (filter (fun t => term_in_text t text = true) core_variational)) in
    let s2 :=
      if 0 <? core_matches then
        let core_pts := Qmin_py 4 ((15 # 10) * inject_Z core_matches) in
        Scoring (sc_score s1 + core_pts)
          (sc_reasons s1 ++ ["core_variational(+" +:+ fmt1 core_pts +:+ ")"])
          (sc_tags s1 ++ ["classical_calcvar"]) (sc_domains s1)
      else s1 in
    let s3 := fold_left (domain_rule text) DOMAIN_TERMS s2 in
    let matched_authors :=
      filter (fun author => lower author ∈ known_researchers) (authors p) in
    let has_author := match matched_authors with [] => false | _ :: _ => true end in
    let s4 :=
      if has_author then
        let author_points := Qmin_py 6 (2 * inject_Z (count_distinct matched_authors)) in
        Scoring (sc_score s3 + author_points)
          (sc_reasons s3 ++ ["known_researcher(+" +:+ fmt1 author_points +:+ ")"])
          (sc_tags s3 ++ ["known-authors"]) (sc_domains s3)
      else s3 in
    let cited_by := cited_by_count p in
    let s5 :=
      if 200 <=? cited_by then
        Scoring (sc_score s4 + 2) (sc_reasons s4 ++ ["high_citations_200(+2)"])
          (sc_tags s4) (sc_domains s4)
      else if 50 <=? cited_by then
        Scoring (sc_score s4 + 1) (sc_reasons s4 ++ ["citations_50(+1)"])
          (sc_tags s4) (sc_domains s4)
      else s4 in
    let s6 :=
      if negb has_calcvar && (sc_domains s5 <? 2) && negb has_author then
        Scoring (sc_score s5 - 4) (sc_reasons s5 ++ ["weak_calcvar_signal(-4)"])
          (sc_tags s5) (sc_domains s5)
      else s5 in
    let s7 :=
      if negb (y =? 0) && (y <? 1980) && (100 <=? cited_by) then
        Scoring (sc_score s6 + (15 # 10)) (sc_reasons s6 ++ ["landmark_classic(+1.5)"])
          (sc_tags s6) (sc_domains s6)
      else s6 in
    K (sc_score s7, sc_reasons s7, sorted_set (sc_tags s7), sc_domains s7)
  ) → K (score_rules p known_researchers y).
Proof. intros H. exact H. Qed.

Lemma score_rules_scored (p : paper) (known_researchers : gset string) (y : Z) :
  score_rules p known_researchers y =
  (sc_score (scored p known_researchers y), sc_reasons (scored p known_researchers y),
   sorted_set (sc_tags (scored p known_researchers y)),
   sc_domains (scored p known_researchers y)).
Proof.
  apply (score_rules_unfold p known_researchers y
           (fun r => r = (sc_score (scored p known_researchers y),
                          sc_reasons (scored p known_researchers y),
                          sorted_set (sc_tags (scored p known_researchers y)),
                          sc_domains (scored p known_researchers y)))).
  intros title_l abstract concepts keywords text has_calcvar s1 core_variational
    core_matches s2 s3 matched_authors has_author s4 cited_by s5 s6 s7.
  assert (Et : text = paper_text p) by reflexivity.
  assert (Em : matched_authors = known_authors_of known_researchers p) by reflexivity.
  assert (Ec : has_calcvar = mentions_calcvar text) by reflexivity.
  assert (Ea : has_author = nonempty matched_authors) by reflexivity.
  assert (E1 : s1 = after_calcvar text) by reflexivity.
  assert (E2 : s2 = after_core text s1) by reflexivity.
  assert (E3 : s3 = after_domains text s2) by (unfold s3, after_domains; reflexivity).
  assert (E4 : s4 = after_authors matched_authors s3) by reflexivity.
  assert (E5 : s5 = after_citations (cited_by_count p) s4) by reflexivity.
  assert (E6 : s6 = after_weak has_calcvar has_author s5) by reflexivity.
  assert (E7 : s7 = after_landmark y (cited_by_count p) s6) by reflexivity.
  clearbody s7 s6 s5 s4 s3 s2 s1 has_author has_calcvar matched_authors text.
  assert (E : s7 = scored p known_researchers y).
  { unfold scored. cbv zeta. rewrite E7, E6, E5, E4, E3, E2, E1, Ea, Ec, Em, Et. reflexivity. }
  rewrite E. reflexivity.
Qed.

Lemma adds_nothing (s : scoring) : adds s s [] [].
Proof. split; symmetry; apply app_nil_r. Qed.

Lemma after_core_adds (text : string) (s : scoring) :
  ∃ rs ts, adds s (after_core text s) rs ts ∧
    Forall other_reason rs ∧ Forall (fun t => t ∈ THREAD_ORDER) ts ∧
    sc_domains (after_core text s) = sc_domains s.
Proof.
  unfold after_core. cbv zeta.
  destruct (0 <? Z.of_nat (length (matched_terms text CORE_VARIATIONAL))).
  - eexists _, _. split; [split; reflexivity|]. split; [|split; [|reflexivity]].
    + constructor; [|constructor]. split; intros H; cbn [String.append] in H; discriminate H.
    + constructor; [left|constructor].
  - exists [], []. split; [apply adds_nothing|]. repeat split; constructor.
Qed.

Lemma domain_rule_adds (text : string) (s : scoring) (entry : string * list string) :
  entry ∈ DOMAIN_TERMS →
  ∃ rs ts, adds s (domain_rule text s entry) rs ts ∧
    Forall other_reason rs ∧ Forall (fun t => t ∈ THREAD_ORDER) ts ∧
    sc_domains (domain_rule text s entry)
    = sc_domains s + (if decide (matched_terms text entry.2 ≠ []) then 1 else 0).
Proof.
  intros Hin. unfold domain_rule. destruct entry as [domain terms]. cbn [snd].
  fold (matched_terms text terms). destruct (matched_terms text terms) as [|m ms] eqn:E.
  - exists [], []. split; [apply adds_nothing|].
    rewrite decide_False by congruence. rewrite Z.add_0_r. repeat split; constructor.
  - rewrite decide_True by discriminate.
    eexists _, _. split; [split; reflexivity|]. split; [|split; [|reflexivity]].
    + constructor; [|constructor]. split; intros H; cbn [String.append] in H; discriminate H.
    + constructor; [|constructor].
      assert (H : Forall (fun e : string * list string => e.1 ∈ THREAD_ORDER) DOMAIN_TERMS).
      { refine (bool_decide_unpack _ _). vm_compute. exact I. }
      rewrite Forall_forall in H. exact (H _ Hin).
Qed.

Lemma fold_domains_adds (text : string) (l : list (string * list string)) (s : scoring) :
  (∀ e, e ∈ l → e ∈ DOMAIN_TERMS) →
  ∃ rs ts, adds s (fold_left (domain_rule text) l s) rs ts ∧
    Forall other_reason rs ∧ Forall (fun t => t ∈ THREAD_ORDER) ts ∧
    sc_domains (fold_left (domain_rule text) l s)
    = sc_domains s
      + Z.of_nat (length (filter (fun entry => matched_terms text entry.2 ≠ []) l)).
Proof.
  revert s. induction l as [|e l IH]; intros s Hl.
  - exists [], []. split; [apply adds_nothing|]. simpl. rewrite Z.add_0_r.
    repeat split; constructor.
  - cbn [fold_left].
    destruct (domain_rule_adds text s e (Hl e ltac:(left))) as (rs1 & ts1 & [Hr1 Ht1] & Ho1 & Hk1 & Hd1).
    destruct (IH (domain_rule text s e)) as (rs2 & ts2 & [Hr2 Ht2] & Ho2 & Hk2 & Hd2).
    { intros e' He'. apply Hl. right. exact He'. }
    exists (rs1 ++ rs2), (ts1 ++ ts2). split; [split|].
    + rewrite Hr2, Hr1, app_assoc. reflexivity.
    + rewrite Ht2, Ht1, app_assoc. reflexivity.
    + split; [apply Forall_app; auto|]. split; [apply Forall_app; auto|].
      rewrite Hd2, Hd1. destruct (decide (matched_terms text e.2 ≠ [])) as [Hm|Hm].
      * rewrite filter_cons_True by exact Hm. simpl length. lia.
      * rewrite filter_cons_False by exact Hm. lia.
Qed.

Lemma after_domains_adds (text : string) (s : scoring) :
  ∃ rs ts, adds s (after_domains text s) rs ts ∧
    Forall other_reason rs ∧ Forall (fun t => t ∈ THREAD_ORDER) ts ∧
    sc_domains (after_domains text s)
    = sc_domains s + Z.of_nat (length (matched_domains_of text)).
Proof. apply fold_domains_adds. auto. Qed.

Lemma after_authors_adds (matched_authors : list string) (s : scoring) :
  ∃ rs, adds s (after_authors matched_authors s) rs
          (if nonempty matched_authors then ["known-authors"] else []) ∧
    Forall other_reason rs ∧
    sc_domains (after_authors matched_authors s) = sc_domains s.
Proof.
  unfold after_authors. destruct (nonempty matched_authors).
  - eexists. split; [split; reflexivity|]. split; [|reflexivity].
    constructor; [|constructor]. split; intros H; cbn [String.append] in H; discriminate H.
  - exists []. split; [apply adds_nothing|]. split; [constructor|reflexivity].
Qed.

Lemma after_citations_adds (cited_by : Z) (s : scoring) :
  ∃ rs, adds s (after_citations cited_by s) rs [] ∧ Forall other_reason rs ∧
    sc_domains (after_citations cited_by s) = sc_domains s.
Proof.
  unfold after_citations. destruct (200 <=? cited_by); [|destruct (50 <=? cited_by)].
  - eexists. split; [split; [reflexivity|symmetry; apply app_nil_r]|]. split; [|reflexivity].
    constructor; [|constructor]. split; discriminate.
  - eexists. split; [split; [reflexivity|symmetry; apply app_nil_r]|]. split; [|reflexivity].
    constructor; [|constructor]. split; discriminate.
  - exists []. split; [apply adds_nothing|]. split; [constructor|reflexivity].
Qed.

Lemma after_weak_adds (has_calcvar has_author : bool) (s : scoring) :
  adds s (after_weak has_calcvar has_author s)
    (if negb has_calcvar && (sc_domains s <? 2) && negb has_author
     then ["weak_calcvar_signal(-4)"] else []) [] ∧
  sc_domains (after_weak has_calcvar has_author s) = sc_domains s.
Proof.
  unfold after_weak. destruct (negb has_calcvar && (sc_domains s <? 2) && negb has_author).
  - split; [split; [reflexivity|symmetry; apply app_nil_r]|reflexivity].
  - split; [apply adds_nothing|reflexivity].
Qed.

Lemma after_landmark_adds (y cited_by : Z) (s : scoring) :
  ∃ rs, adds s (after_landmark y cited_by s) rs [] ∧ Forall other_reason rs ∧
    sc_domains (after_landmark y cited_by s) = sc_domains s.
Proof.
  unfold after_landmark. destruct (negb (y =? 0) && (y <? 1980) && (100 <=? cited_by)).
  - eexists. split; [split; [reflexivity|symmetry; apply app_nil_r]|]. split; [|reflexivity].
    constructor; [|constructor]. split; discriminate.
  - exists []. split; [apply adds_nothing|]. split; [constructor|reflexivity].
Qed.

Lemma threads_not_known (ts : list string) :
  Forall (fun t => t ∈ THREAD_ORDER) ts → "known-authors" ∉ ts.
Proof.
  intros H Hin. rewrite Forall_forall in H. specialize (H _ Hin).
  revert H. refine (bool_decide_unpack _ _). vm_compute. exact I.
Qed.

Lemma not_other (x : string) (rs : list string) :
  Forall other_reason rs → x = "mentions_calcvar(+6)" ∨ x = "weak_calcvar_signal(-4)" → x ∉ rs.
Proof.
  intros Hrs Hx Hin. rewrite Forall_forall in Hrs. destruct (Hrs x Hin) as [H1 H2].
  destruct Hx; contradiction.
Qed.

(** What the filter reads off the result of the rules. *)
Lemma scored_signals (p : paper) (known_researchers : gset string) (y : Z) :
  let s := scored p known_researchers y in
  let text := paper_text p in
  let known := nonempty (known_authors_of known_researchers p) in
  sc_domains s = Z.of_nat (length (matched_domains_of text)) ∧
  ("mentions_calcvar(+6)" ∈ sc_reasons s ↔ mentions_calcvar text = true) ∧
  ("known-authors" ∈ sc_tags s ↔ known = true) ∧
  ("weak_calcvar_signal(-4)" ∈ sc_reasons s ↔
     negb (mentions_calcvar text) && (sc_domains s <? 2) && negb known = true).
Proof.
  cbv zeta. unfold scored. cbv zeta.
  set (text := paper_text p). set (ma := known_authors_of known_researchers p).
  set (s1 := after_calcvar text).
  destruct (after_core_adds text s1) as (r2 & t2 & [Hr2 Ht2] & Ho2 & Hk2 & Hd2).
  set (s2 := after_core text s1) in *.
  destruct (after_domains_adds text s2) as (r3 & t3 & [Hr3 Ht3] & Ho3 & Hk3 & Hd3).
  set (s3 := after_domains text s2) in *.
  destruct (after_authors_adds ma s3) as (r4 & [Hr4 Ht4] & Ho4 & Hd4).
  set (s4 := after_authors ma s3) in *.
  destruct (after_citations_adds (cited_by_count p) s4) as (r5 & [Hr5 Ht5] & Ho5 & Hd5).
  set (s5 := after_citations (cited_by_count p) s4) in *.
  destruct (after_weak_adds (mentions_calcvar text) (nonempty ma) s5) as ([Hr6 Ht6] & Hd6).
  set (s6 := after_weak (mentions_calcvar text) (nonempty ma) s5) in *.
  destruct (after_landmark_adds y (cited_by_count p) s6) as (r7 & [Hr7 Ht7] & Ho7 & Hd7).
  set (s7 := after_landmark y (cited_by_count p) s6) in *.
  assert (Hd1 : sc_domains s1 = 0) by (unfold s1, after_calcvar; destruct (mentions_calcvar text); reflexivity).
  assert (Hdom : sc_domains s7 = Z.of_nat (length (matched_domains_of text))).
  { rewrite Hd7, Hd6, Hd5, Hd4, Hd3, Hd2, Hd1. lia. }
  assert (Hd56 : sc_domains s5 = sc_domains s7) by (rewrite Hd7, Hd6; reflexivity).
  split; [exact Hdom|].
  rewrite Hr7, Hr6, Hr5, Hr4, Hr3, Hr2, Ht7, Ht6, Ht5, Ht4, Ht3, Ht2, !app_nil_r, Hd56.
  rewrite !elem_of_app.
  pose proof (not_other "mentions_calcvar(+6)" r2 Ho2 (or_introl eq_refl)).
  pose proof (not_other "mentions_calcvar(+6)" r3 Ho3 (or_introl eq_refl)).
  pose proof (not_other "mentions_calcvar(+6)" r4 Ho4 (or_introl eq_refl)).
  pose proof (not_other "mentions_calcvar(+6)" r5 Ho5 (or_introl eq_refl)).
  pose proof (not_other "mentions_calcvar(+6)" r7 Ho7 (or_introl eq_refl)).
  pose proof (not_other "weak_calcvar_signal(-4)" r2 Ho2 (or_intror eq_refl)).
  pose proof (not_other "weak_calcvar_signal(-4)" r3 Ho3 (or_intror eq_refl)).
  pose proof (not_other "weak_calcvar_signal(-4)" r4 Ho4 (or_intror eq_refl)).
  pose proof (not_other "weak_calcvar_signal(-4)" r5 Ho5 (or_intror eq_refl)).
  pose proof (not_other "weak_calcvar_signal(-4)" r7 Ho7 (or_intror eq_refl)).
  pose proof (threads_not_known t2 Hk2) as Hk2'.
  pose proof (threads_not_known t3 Hk3) as Hk3'.
  assert (Hm1 : "mentions_calcvar(+6)" ∈ sc_reasons s1 ↔ mentions_calcvar text = true).
  { unfold s1, after_calcvar. destruct (mentions_calcvar text); cbn [sc_reasons].
    - split; [reflexivity|intros _; left].
    - split; [intros Hin; inversion Hin|discriminate]. }
  assert (Hw1 : "weak_calcvar_signal(-4)" ∉ sc_reasons s1).
  { unfold s1, after_calcvar. destruct (mentions_calcvar text); cbn [sc_reasons].
    - intros Hin. apply list_elem_of_singleton in Hin. discriminate Hin.
    - apply not_elem_of_nil. }
  assert (Hk1 : "known-authors" ∉ sc_tags s1).
  { unfold s1, after_calcvar. destruct (mentions_calcvar text); cbn [sc_tags].
    - intros Hin. apply list_elem_of_singleton in Hin. discriminate Hin.
    - apply not_elem_of_nil. }
  assert (Hm6 : "mentions_calcvar(+6)"
                ∉ (if negb (mentions_calcvar text) && (sc_domains s7 <? 2) && negb (nonempty ma)
                   then ["weak_calcvar_signal(-4)"] else [])).
  { destruct (negb (mentions_calcvar text) && (sc_domains s7 <? 2) && negb (nonempty ma)).
    - intros Hin. apply list_elem_of_singleton in Hin. discriminate Hin.
    - apply not_elem_of_nil. }
  assert (Hw6 : "weak_calcvar_signal(-4)"
                ∈ (if negb (mentions_calcvar text) && (sc_domains s7 <? 2) && negb (nonempty ma)
                   then ["weak_calcvar_signal(-4)"] else [])
                ↔ negb (mentions_calcvar text) && (sc_domains s7 <? 2) && negb (nonempty ma) = true).
  { destruct (negb (mentions_calcvar text) && (sc_domains s7 <? 2) && negb (nonempty ma)).
    - split; [reflexivity|intros _; left].
    - split; [intros Hin; inversion Hin|discriminate]. }
  assert (Hk4 : "known-authors" ∈ (if nonempty ma then ["known-authors"] else [])
                ↔ nonempty ma = true).
  { destruct (nonempty ma).
    - split; [reflexivity|intros _; left].
    - split; [intros Hin; inversion Hin|discriminate]. }
  split; [|split]; tauto.
Qed.

Lemma passes_gated (min_score : Q) : passes min_score below_min_year = false.
Proof.
  unfold passes, below_min_year. cbn [fst snd].
  destruct (Qlt_bool _ _); reflexivity.
Qed.

Lemma nonempty_true (l : list string) : nonempty l = true ↔ l ≠ [].
Proof. destruct l; simpl; split; congruence. Qed.

(** X24.  A candidate passes the filter exactly when its year is known and
    not before the minimum year, its text or its authors give evidence (a
    term of the calculus of variations, terms of two domains, or a known
    researcher among the authors) and its score reaches the threshold,
    which is halved for a known researcher.  In particular no threshold,
    however low, lets a paper without year pass, and a paper that passes was
    never charged the penalty for a weak signal. *)
Theorem passes_iff_evidence (p : paper) (known_researchers : gset string) (min_year : Z)
    (min_score : Q) :
  let r := score_paper p known_researchers min_year in
  let text := paper_text p in
  let known := known_authors_of known_researchers p in
  (passes min_score r = true ↔
     (∃ y, year p = Some y ∧ min_year ≤ y) ∧
     (mentions_calcvar text = true ∨ (2 ≤ length (matched_domains_of text))%nat ∨ known ≠ []) ∧
     ((if nonempty known then min_score * (5 # 10) else min_score) <= r.1.1.1)%Q) ∧
  (passes min_score r = true → "weak_calcvar_signal(-4)" ∉ r.1.1.2).
Proof.
  cbv zeta. unfold score_paper.
  destruct (year p) as [y|] eqn:Ey.
  2:{ rewrite passes_gated. split; [|discriminate].
      split; [discriminate|]. intros [(y & Hy & _) _]. discriminate. }
  destruct (Z.ltb_spec y min_year) as [Hlt|Hge].
  { rewrite passes_gated. split; [|discriminate].
    split; [discriminate|]. intros [(y' & [= <-] & Hy') _]. lia. }
  rewrite score_rules_scored.
  destruct (scored_signals p known_researchers y) as (Hd & Hm & Hk & Hw). cbv zeta in Hd, Hm, Hk, Hw.
  set (s := scored p known_researchers y) in *.
  set (text := paper_text p) in *.
  set (known := known_authors_of known_researchers p) in *.
  unfold passes. cbn [fst snd].
  assert (Hka : bool_decide ("known-authors" ∈ sorted_set (sorted_set (sc_tags s)))
                = nonempty known).
  { destruct (nonempty known) eqn:E.
    - apply bool_decide_eq_true. rewrite !elem_of_sorted_set. tauto.
    - apply bool_decide_eq_false. rewrite !elem_of_sorted_set. intros H. apply Hk in H. discriminate. }
  rewrite Hka.
  assert (Hmc : bool_decide ("mentions_calcvar(+6)" ∈ sc_reasons s) = mentions_calcvar text).
  { destruct (mentions_calcvar text) eqn:E.
    - apply bool_decide_eq_true. tauto.
    - apply bool_decide_eq_false. intros H. apply Hm in H. discriminate. }
  rewrite Hmc.
  assert (Hz : (0 <=? sc_domains s) = true) by (apply Z.leb_le; lia).
  rewrite Hz, andb_true_r.
  assert (Hn : (sc_domains s <? 2) = negb (bool_decide (2 ≤ length (matched_domains_of text))%nat)).
  { destruct (decide (2 ≤ length (matched_domains_of text))%nat) as [H2|H2];
      [rewrite (bool_decide_eq_true_2 _ H2)|rewrite (bool_decide_eq_false_2 _ H2)];
      cbn [negb]; [apply Z.ltb_ge|apply Z.ltb_lt]; lia. }
  clear Hka Hmc Hz.
  pose proof (Qlt_bool_spec (sc_score s)
                (if nonempty known then (min_score * (5 # 10))%Q else min_score)) as Hq.
  pose proof (nonempty_true known) as Hne.
  split.
  - destruct (Qlt_bool (sc_score s) (if nonempty known then (min_score * (5 # 10))%Q else min_score)).
    + split; [discriminate|]. intros (_ & _ & Hle). exfalso. apply (Qlt_not_le _ _ Hq Hle).
    + rewrite Hn. destruct (mentions_calcvar text); cbn [negb andb].
      * split; [intros _|reflexivity]. split; [eauto|]. split; [left; reflexivity|exact Hq].
      * destruct (decide (2 ≤ length (matched_domains_of text))%nat) as [H2|H2];
          [rewrite (bool_decide_eq_true_2 _ H2)|rewrite (bool_decide_eq_false_2 _ H2)];
          cbn [negb andb].
        -- split; [intros _|reflexivity]. split; [eauto|]. split; [right; left; exact H2|exact Hq].
        -- destruct (nonempty known); cbn [negb].
           ++ split; [intros _|reflexivity]. split; [eauto|]. split; [|exact Hq].
              right. right. apply Hne. reflexivity.
           ++ split; [discriminate|]. intros (_ & [Hc|[Hc|Hc]] & _);
                [discriminate|contradiction|]. apply Hne in Hc. discriminate.
  - intros Hp Hweak. apply Hw in Hweak.
    destruct (Qlt_bool (sc_score s) (if nonempty known then (min_score * (5 # 10))%Q else min_score));
      [discriminate|].
    rewrite Hweak in Hp. discriminate.
Qed.

Lemma passes_iff_evidence_witness :
  passes 8 (score_paper Samples.old_year {["luigi ambrosio"]} 1800) = true ∧
  "weak_calcvar_signal(-4)" ∉ (score_paper Samples.old_year {["luigi ambrosio"]} 1800).1.1.2.
Proof.
  assert (H : passes 8 (score_paper Samples.old_year {["luigi ambrosio"]} 1800) = true)
    by (vm_compute; reflexivity).
  split; [exact H|].
  exact (proj2 (passes_iff_evidence Samples.old_year {["luigi ambrosio"]} 1800 8) H).
Defined.

(** *** The range of the score *)

Lemma Qmin_py_range (a b : Q) : (0 <= a)%Q → (0 <= b)%Q → (0 <= Qmin_py a b <= a)%Q.
Proof.
  intros Ha Hb. unfold Qmin_py. pose proof (Qlt_bool_spec b a) as H.
  destruct (Qlt_bool b a); split; try assumption; try apply Qle_refl.
  apply Qlt_le_weak, H.
Qed.

Lemma inject_Z_nonneg (n : Z) : 0 ≤ n → (0 <= inject_Z n)%Q.
Proof. intros H. unfold Qle, inject_Z. simpl. lia. Qed.

Lemma count_distinct_nonneg (l : list string) : 0 ≤ count_distinct l.
Proof. unfold count_distinct. lia. Qed.

Lemma after_calcvar_score (text : string) :
  (0 <= sc_score (after_calcvar text) <= 6)%Q.
Proof. unfold after_calcvar. destruct (mentions_calcvar text); simpl; split; discriminate. Qed.

Lemma after_core_score (text : string) (s : scoring) :
  (sc_score s <= sc_score (after_core text s) <= sc_score s + 4)%Q.
Proof.
  unfold after_core. cbv zeta.
  destruct (0 <? Z.of_nat (length (matched_terms text CORE_VARIATIONAL))); cbn [sc_score].
  - destruct (Qmin_py_range 4 ((15 # 10) * inject_Z (Z.of_nat (length (matched_terms text CORE_VARIATIONAL)))))
      as [H1 H2]; [discriminate| |split; Lqa.lra].
    apply Qmult_le_0_compat; [discriminate|apply inject_Z_nonneg; lia].
  - split; Lqa.lra.
Qed.

Lemma domain_rule_score (text : string) (s : scoring) (entry : string * list string) :
  (sc_score s <= sc_score (domain_rule text s entry) <= sc_score s + 3)%Q.
Proof.
  unfold domain_rule. destruct entry as [domain terms].
  destruct (filter _ terms) as [|m ms]; cbn [sc_score]; [split; Lqa.lra|].
  destruct (Qmin_py_range 3 ((8 # 10) * inject_Z (count_distinct (m :: ms))))
    as [H1 H2]; [discriminate| |split; Lqa.lra].
  apply Qmult_le_0_compat; [discriminate|apply inject_Z_nonneg, count_distinct_nonneg].
Qed.

Lemma fold_domains_score (text : string) (l : list (string * list string)) (s : scoring) :
  (sc_score s <= sc_score (fold_left (domain_rule text) l s)
   <= sc_score s + 3 * inject_Z (Z.of_nat (length l)))%Q.
Proof.
  revert s. induction l as [|e l IH]; intros s.
  - change (inject_Z (Z.of_nat (length (@nil (string * list string))))) with 0%Q.
    cbn [fold_left]. split; Lqa.lra.
  - cbn [fold_left]. destruct (IH (domain_rule text s e)) as [H1 H2].
    destruct (domain_rule_score text s e) as [H3 H4].
    assert (Hl : (inject_Z (Z.of_nat (length (e :: l))) == inject_Z (Z.of_nat (length l)) + 1)%Q).
    { cbn [length]. rewrite Nat2Z.inj_succ. unfold Z.succ. rewrite inject_Z_plus. reflexivity. }
    rewrite Hl. split; Lqa.lra.
Qed.

Lemma after_domains_score (text : string) (s : scoring) :
  (sc_score s <= sc_score (after_domains text s) <= sc_score s + 27)%Q.
Proof.
  destruct (fold_domains_score text DOMAIN_TERMS s) as [H1 H2]. unfold after_domains.
  change (inject_Z (Z.of_nat (length DOMAIN_TERMS))) with (9 # 1)%Q in H2.
  split; Lqa.lra.
Qed.

Lemma after_authors_score (matched_authors : list string) (s : scoring) :
  (sc_score s <= sc_score (after_authors matched_authors s) <= sc_score s + 6)%Q.
Proof.
  unfold after_authors. destruct (nonempty matched_authors); cbn [sc_score]; [|split; Lqa.lra].
  destruct (Qmin_py_range 6 (2 * inject_Z (count_distinct matched_authors)))
    as [H1 H2]; [discriminate| |split; Lqa.lra].
  apply Qmult_le_0_compat; [discriminate|apply inject_Z_nonneg, count_distinct_nonneg].
Qed.

Lemma after_citations_score (cited_by : Z) (s : scoring) :
  (sc_score s <= sc_score (after_citations cited_by s) <= sc_score s + 2)%Q.
Proof.
  unfold after_citations. destruct (200 <=? cited_by); [|destruct (50 <=? cited_by)];
    cbn [sc_score]; split; Lqa.lra.
Qed.

Lemma after_weak_score (has_calcvar has_author : bool) (s : scoring) :
  (sc_score s - 4 <= sc_score (after_weak has_calcvar has_author s) <= sc_score s)%Q ∧
  (negb has_calcvar && (sc_domains s <? 2) && negb has_author = false →
   sc_score (after_weak has_calcvar has_author s) = sc_score s).
Proof.
  unfold after_weak. destruct (negb has_calcvar && (sc_domains s <? 2) && negb has_author);
    cbn [sc_score]; (split; [split; Lqa.lra|]); [discriminate|reflexivity].
Qed.

Lemma after_landmark_score (y cited_by : Z) (s : scoring) :
  (sc_score s <= sc_score (after_landmark y cited_by s) <= sc_score s + (15 # 10))%Q.
Proof.
  unfold after_landmark. destruct (negb (y =? 0) && (y <? 1980) && (100 <=? cited_by));
    cbn [sc_score]; split; Lqa.lra.
Qed.

(** X25.  The score of a paper that is not turned away at the year gate
    lies between -4 and 46.5, and it is not negative unless the penalty for
    a weak signal was charged; the number of matched domains is at most the
    number of domains. *)
Theorem score_paper_range (p : paper) (known_researchers : gset string) (min_year y : Z) :
  year p = Some y → min_year ≤ y →
  let r := score_paper p known_researchers min_year in
  (-4 <= r.1.1.1 <= 465 # 10)%Q ∧
  ("weak_calcvar_signal(-4)" ∉ r.1.1.2 → (0 <= r.1.1.1)%Q) ∧
  0 ≤ r.2 ≤ Z.of_nat (length DOMAIN_TERMS).
Proof.
  intros Hy Hge. cbv zeta. unfold score_paper. rewrite Hy.
  destruct (Z.ltb_spec y min_year) as [Hlt|_]; [lia|].
  rewrite score_rules_scored. cbn [fst snd].
  destruct (scored_signals p known_researchers y) as (Hd & _ & _ & Hw). cbv zeta in Hd, Hw.
  rewrite Hd. revert Hw. unfold scored. cbv zeta.
  set (text := paper_text p). set (ma := known_authors_of known_researchers p).
  pose proof (after_calcvar_score text) as H1. set (s1 := after_calcvar text) in *.
  pose proof (after_core_score text s1) as H2. set (s2 := after_core text s1) in *.
  pose proof (after_domains_score text s2) as H3. set (s3 := after_domains text s2) in *.
  pose proof (after_authors_score ma s3) as H4. set (s4 := after_authors ma s3) in *.
  pose proof (after_citations_score (cited_by_count p) s4) as H5.
  set (s5 := after_citations (cited_by_count p) s4) in *.
  destruct (after_weak_score (mentions_calcvar text) (nonempty ma) s5) as [H6 H6'].
  destruct (after_weak_adds (mentions_calcvar text) (nonempty ma) s5) as [_ Hd6].
  set (s6 := after_weak (mentions_calcvar text) (nonempty ma) s5) in *.
  pose proof (after_landmark_score y (cited_by_count p) s6) as H7.
  destruct (after_landmark_adds y (cited_by_count p) s6) as (r7 & _ & _ & Hd7).
  set (s7 := after_landmark y (cited_by_count p) s6) in *.
  intros Hw. split; [split; Lqa.lra|]. split.
  - intros Hnot.
    assert (Hc : negb (mentions_calcvar text) && (sc_domains s5 <? 2) && negb (nonempty ma) = false).
    { rewrite <- Hd6, <- Hd7.
      destruct (negb (mentions_calcvar text) && (sc_domains s7 <? 2) && negb (nonempty ma)) eqn:E;
        [|reflexivity].
      exfalso. apply Hnot, Hw. reflexivity. }
    rewrite (H6' Hc) in H7. Lqa.lra.
  - split; [lia|]. apply inj_le, length_filter.
Qed.

Lemma score_paper_range_witness :
  (-4 <= (score_paper Samples.old_year {["luigi ambrosio"]} 1800).1.1.1 <= 465 # 10)%Q.
Proof.
  exact (proj1 (score_paper_range Samples.old_year {["luigi ambrosio"]} 1800 1850
                  eq_refl ltac:(lia))).
Defined.

(** *** The tags of the score and the threads of the analysis *)

Lemma scored_tags (p : paper) (known_researchers : gset string) (y : Z) :
  Forall (fun t => t ∈ THREAD_ORDER ∨ t = "known-authors")
    (sc_tags (scored p known_researchers y)).
Proof.
  unfold scored. cbv zeta.
  set (text := paper_text p). set (ma := known_authors_of known_researchers p).
  set (s1 := after_calcvar text).
  destruct (after_core_adds text s1) as (r2 & t2 & [_ Ht2] & _ & Hk2 & _).
  set (s2 := after_core text s1) in *.
  destruct (after_domains_adds text s2) as (r3 & t3 & [_ Ht3] & _ & Hk3 & _).
  set (s3 := after_domains text s2) in *.
  destruct (after_authors_adds ma s3) as (r4 & [_ Ht4] & _).
  set (s4 := after_authors ma s3) in *.
  destruct (after_citations_adds (cited_by_count p) s4) as (r5 & [_ Ht5] & _).
  set (s5 := after_citations (cited_by_count p) s4) in *.
  destruct (after_weak_adds (mentions_calcvar text) (nonempty ma) s5) as ([_ Ht6] & _).
  set (s6 := after_weak (mentions_calcvar text) (nonempty ma) s5) in *.
  destruct (after_landmark_adds y (cited_by_count p) s6) as (r7 & [_ Ht7] & _).
  set (s7 := after_landmark y (cited_by_count p) s6) in *.
  rewrite Ht7, Ht6, Ht5, Ht4, Ht3, Ht2, !app_nil_r.
  repeat apply Forall_app_2.
  - unfold s1, after_calcvar. destruct (mentions_calcvar text); cbn [sc_tags]; [|constructor].
    constructor; [left; left|constructor].
  - eapply Forall_impl; [exact Hk2|]. auto.
  - eapply Forall_impl; [exact Hk3|]. auto.
  - destruct (nonempty ma); [|constructor]. constructor; [right; reflexivity|constructor].
Qed.

Lemma score_tags_clean (p : paper) (known_researchers : gset string) (min_year : Z) :
  clean_set (score_paper p known_researchers min_year).1.2.
Proof.
  unfold score_paper.
  assert (Hgate : clean_set below_min_year.1.2) by (split; constructor).
  destruct (year p) as [y|]; [|exact Hgate].
  destruct (y <? min_year); [exact Hgate|].
  rewrite score_rules_scored. cbn [fst snd]. apply clean_sorted_set.
  intros x Hx. pose proof (scored_tags p known_researchers y) as H.
  rewrite Forall_forall in H. destruct (H x Hx) as [Hin| ->]; [|discriminate].
  intros ->. revert Hin. refine (bool_decide_unpack _ _). vm_compute. exact I.
Qed.

(** X26.  The tags that [score_paper] gives are in increasing order, each
    once, and each of them is a thread of the analysis or the tag of the
    known authors: the domains of the one script are, name by name and in
    this order, the threads of the other. *)
Theorem score_tags_are_threads (p : paper) (known_researchers : gset string) (min_year : Z) :
  let tags := (score_paper p known_researchers min_year).1.2 in
  clean_set tags ∧
  Forall (fun t => t ∈ THREAD_ORDER ∨ t = "known-authors") tags ∧
  map fst DOMAIN_TERMS = THREAD_ORDER.
Proof.
  cbv zeta. split; [|split; [|reflexivity]].
  - apply score_tags_clean.
  - unfold score_paper.
    assert (Hgate : Forall (fun t => t ∈ THREAD_ORDER ∨ t = "known-authors") below_min_year.1.2)
      by constructor.
    destruct (year p) as [y|]; [|exact Hgate].
    destruct (y <? min_year); [exact Hgate|].
    rewrite score_rules_scored. cbn [fst snd]. apply Forall_forall. intros x Hx.
    rewrite elem_of_sorted_set in Hx. pose proof (scored_tags p known_researchers y) as H.
    rewrite Forall_forall in H. exact (H x Hx).
Qed.

(** *** The accepted candidates *)

Lemma passes_needs_year (p : paper) (known_researchers : gset string) (min_year : Z)
    (min_score : Q) :
  passes min_score (score_paper p known_researchers min_year) = true →
  ∃ y, year p = Some y ∧ min_year ≤ y.
Proof.
  unfold score_paper. destruct (year p) as [y|]; [|rewrite passes_gated; discriminate].
  destruct (Z.ltb_spec y min_year); [rewrite passes_gated; discriminate|]. eauto.
Qed.

Lemma score_candidates_fold (known_researchers : gset string) (min_score : Q) (min_year : Z)
    (w : list (string * candidate)) (acc : list paper) (rej : Z) :
  foldl (fun st kc =>
           let r := score_paper (c_paper kc.2) known_researchers min_year in
           if passes min_score r then (st.1 ++ [scored_row kc.2 r], st.2)
           else (st.1, st.2 + 1))
    (acc, rej) w
  = (acc ++ map (fun kc => scored_row kc.2 (score_paper (c_paper kc.2) known_researchers min_year))
              (filter (fun kc => passes min_score
                                   (score_paper (c_paper kc.2) known_researchers min_year) = true) w),
     rej + Z.of_nat (length (filter (fun kc => passes min_score
                                   (score_paper (c_paper kc.2) known_researchers min_year) ≠ true) w))).
Proof.
  revert acc rej. induction w as [|kc w IH]; intros acc rej.
  - simpl. rewrite app_nil_r, Z.add_0_r. reflexivity.
  - cbn [foldl]. cbv zeta.
    destruct (passes min_score (score_paper (c_paper kc.2) known_researchers min_year)) eqn:E.
    + rewrite IH. cbn [fst snd].
      rewrite (filter_cons_True (fun kc => passes _ _ = true)) by exact E.
      rewrite (filter_cons_False (fun kc => passes _ _ ≠ true)) by (rewrite E; auto).
      cbn [map]. rewrite <- app_assoc. reflexivity.
    + rewrite IH. cbn [fst snd].
      rewrite (filter_cons_False (fun kc => passes _ _ = true)) by (rewrite E; discriminate).
      rewrite (filter_cons_True (fun kc => passes _ _ ≠ true)) by (rewrite E; discriminate).
      cbn [length]. f_equal. lia.
Qed.

(** X27.  Every candidate is either accepted or counted as rejected.  The
    accepted rows come in the order of the candidates; each of them has a
    year, not before the minimum year, keeps the identifier, the title and
    the citation count of its candidate, is marked as found by OpenAlex and
    no longer carries the texts that served for the score. *)
Theorem score_candidates_spec (known_researchers : gset string) (min_score : Q) (min_year : Z)
    (w : list (string * candidate)) :
  let res := score_candidates known_researchers min_score min_year w in
  Z.of_nat (length res.1) + res.2 = Z.of_nat (length w) ∧
  map Db.id res.1 `sublist_of` map (fun kc => Db.id (c_paper kc.2)) w ∧
  Forall (fun r =>
            (∃ y, year r = Some y ∧ min_year ≤ y) ∧
            (∃ kc, kc ∈ w ∧ Db.id r = Db.id (c_paper kc.2) ∧ title r = title (c_paper kc.2) ∧
                   cited_by_count r = cited_by_count (c_paper kc.2) ∧
                   year r = year (c_paper kc.2)) ∧
            Db.source r = Some "openalex" ∧
            abstract_text r = "" ∧ concept_terms r = [] ∧ keyword_terms r = [] ∧
            clean_set (tags r))
    res.1.
Proof.
  cbv zeta. unfold score_candidates. rewrite score_candidates_fold. cbn [fst snd app].
  rewrite Z.add_0_l. split; [|split].
  - rewrite length_map. induction w as [|kc w IH]; [reflexivity|].
    destruct (passes min_score (score_paper (c_paper kc.2) known_researchers min_year)) eqn:E.
    + rewrite (filter_cons_True (fun kc => passes _ _ = true)) by exact E.
      rewrite (filter_cons_False (fun kc => passes _ _ ≠ true)) by (rewrite E; auto).
      cbn [length]. lia.
    + rewrite (filter_cons_False (fun kc => passes _ _ = true)) by (rewrite E; discriminate).
      rewrite (filter_cons_True (fun kc => passes _ _ ≠ true)) by (rewrite E; discriminate).
      cbn [length]. lia.
  - rewrite map_map. cbn [scored_row Db.id].
    induction w as [|kc w IH]; [reflexivity|].
    destruct (passes min_score (score_paper (c_paper kc.2) known_researchers min_year)) eqn:E.
    + rewrite (filter_cons_True (fun kc => passes _ _ = true)) by exact E.
      cbn [map]. apply sublist_skip, IH.
    + rewrite (filter_cons_False (fun kc => passes _ _ = true)) by (rewrite E; discriminate).
      cbn [map]. apply sublist_cons, IH.
  - apply Forall_forall. intros r Hr.
    apply list_elem_of_fmap in Hr as (kc & -> & Hkc).
    apply list_elem_of_filter in Hkc as [Hp Hkc].
    split; [exact (passes_needs_year _ _ _ _ Hp)|].
    split; [exists kc; repeat split; auto|].
    repeat split; try reflexivity.
    + apply sorted_set_sorted.
    + cbn [scored_row tags]. apply Forall_forall. intros t Ht.
      rewrite elem_of_sorted_set in Ht.
      destruct (score_tags_clean (c_paper kc.2) known_researchers min_year) as [_ Hne].
      rewrite Forall_forall in Hne. exact (Hne t Ht).
Qed.

(** *** Seeds *)

Lemma seed_found_curated (existing seed_paper : paper) :
  Db.id (seed_found existing seed_paper) = Db.id existing ∧
  curated (seed_found existing seed_paper).
Proof.
  split; [reflexivity|]. split; [reflexivity|].
  cbn [seed_found relevance_reasons]. apply elem_of_sorted_set, elem_of_app. right. left.
Qed.

Lemma update_first_spec (pid : string) (seed_paper : paper) (accepted : list paper) :
  match update_first pid seed_paper accepted with
  | Some accepted' =>
      Forall2 (fun r r' => Db.id r' = Db.id r ∧ (curated r → curated r')) accepted accepted' ∧
      ∃ r', r' ∈ accepted' ∧ Db.id r' = pid ∧ curated r'
  | None => pid ∉ map Db.id accepted
  end.
Proof.
  induction accepted as [|p rest IH]; cbn [update_first].
  - apply not_elem_of_nil.
  - destruct (str_eqb (Db.id p) pid) eqn:E.
    + apply str_eqb_eq in E. destruct (seed_found_curated p seed_paper) as [Hid Hc].
      split.
      * constructor; [split; [exact Hid|auto]|].
        apply Forall2_same_length_lookup_2; [reflexivity|].
        intros i x y Hx Hy. rewrite Hx in Hy. injection Hy as <-. auto.
      * exists (seed_found p seed_paper). split; [left|]. split; [congruence|exact Hc].
    + apply str_eqb_neq in E.
      destruct (update_first pid seed_paper rest) as [rest'|]; cbn [option_map].
      * destruct IH as (Hall & r' & Hr' & Hid & Hc).
        split; [constructor; [auto|exact Hall]|].
        exists r'. split; [right; exact Hr'|auto].
      * cbn [map]. rewrite not_elem_of_cons. auto.
Qed.

Lemma merge_seed_row_spec (min_score : Q) (accepted : list paper) (s : string * paper) :
  Db.id s.2 = s.1 → seed s.2 = true →
  ∃ kept,
    Forall2 (fun r r' => Db.id r' = Db.id r ∧ (curated r → curated r')) accepted kept ∧
    (merge_seed_row min_score accepted s = kept ∨
     (s.1 ∉ map Db.id accepted) ∧
     merge_seed_row min_score accepted s = kept ++ [seeded min_score s.2]) ∧
    ∃ r', r' ∈ merge_seed_row min_score accepted s ∧ Db.id r' = s.1 ∧ curated r'.
Proof.
  intros Hid Hseed. unfold merge_seed_row.
  pose proof (update_first_spec s.1 s.2 accepted) as H.
  destruct (update_first s.1 s.2 accepted) as [accepted'|].
  - destruct H as (Hall & Hr). exists accepted'. auto.
  - exists accepted. split; [|split].
    + apply Forall2_same_length_lookup_2; [reflexivity|].
      intros i x y Hx Hy. rewrite Hx in Hy. injection Hy as <-. auto.
    + right. auto.
    + exists (seeded min_score s.2). split; [apply elem_of_app; right; left|].
      split; [exact Hid|]. split; [exact Hseed|]. left.
Qed.

Lemma kept_ids (accepted kept : list paper) :
  Forall2 (fun r r' => Db.id r' = Db.id r ∧ (curated r → curated r')) accepted kept →
  map Db.id kept = map Db.id accepted ∧
  ∀ r, r ∈ accepted → curated r → ∃ r', r' ∈ kept ∧ Db.id r' = Db.id r ∧ curated r'.
Proof.
  induction 1 as [|r r' l l' [Hid Hc] _ [IH1 IH2]]; [split; [reflexivity|]|split].
  - intros r Hr. inversion Hr.
  - cbn [map]. congruence.
  - intros x Hx Hcx. apply elem_of_cons in Hx as [->|Hx].
    + exists r'. split; [left|auto].
    + destruct (IH2 x Hx Hcx) as (x' & Hx' & H'). exists x'. split; [right; exact Hx'|exact H'].
Qed.

Lemma curated_persists (min_score : Q) (seed_rows : list (string * paper)) :
  Forall (fun s => Db.id s.2 = s.1 ∧ seed s.2 = true) seed_rows →
  ∀ accepted r, r ∈ accepted → curated r →
    ∃ r', r' ∈ foldl (merge_seed_row min_score) accepted seed_rows ∧
          Db.id r' = Db.id r ∧ curated r'.
Proof.
  induction 1 as [|s seeds [Hid Hseed] Hs IH]; intros accepted r Hr Hc; cbn [foldl]; [eauto|].
  destruct (merge_seed_row_spec min_score accepted s Hid Hseed) as (kept & Hkept & Hres & _).
  destruct (kept_ids _ _ Hkept) as [_ Hk]. destruct (Hk r Hr Hc) as (r1 & Hr1 & Hid1 & Hc1).
  assert (Hin : r1 ∈ merge_seed_row min_score accepted s).
  { destruct Hres as [->|[_ ->]]; [exact Hr1|apply elem_of_app; left; exact Hr1]. }
  destruct (IH _ r1 Hin Hc1) as (r2 & Hr2 & Hid2 & Hc2).
  exists r2. split; [exact Hr2|]. split; [congruence|exact Hc2].
Qed.

Lemma merge_seeds_all_curated (min_score : Q) (seed_rows : list (string * paper))
    (accepted : list paper) :
  Forall (fun s => Db.id s.2 = s.1 ∧ seed s.2 = true) seed_rows →
  ∀ s, s ∈ seed_rows →
    ∃ r, r ∈ merge_seeds min_score seed_rows accepted ∧ Db.id r = s.1 ∧ curated r.
Proof.
  intros Hs. unfold merge_seeds. revert accepted.
  induction Hs as [|s0 seeds [Hid Hseed] Hs IH]; intros accepted s Hin; [inversion Hin|].
  cbn [foldl]. apply elem_of_cons in Hin as [->|Hin]; [|apply IH, Hin].
  destruct (merge_seed_row_spec min_score accepted s0 Hid Hseed) as (_ & _ & _ & r0 & Hr0 & Hid0 & Hc0).
  destruct (curated_persists min_score seeds Hs _ r0 Hr0 Hc0) as (r' & Hr' & Hid' & Hc').
  exists r'. split; [exact Hr'|]. split; [congruence|exact Hc'].
Qed.

(** X28.  The curated seeds are merged whatever their score: after the loop
    every seed is among the accepted rows, under its identifier and marked
    as curated.  The rows accepted before keep their place and their
    identifier, and the rows added after them are seeds that were not yet
    there. *)
Theorem merge_seeds_spec (min_score : Q) (seed_rows : list (string * paper))
    (accepted : list paper) :
  Forall (fun s => Db.id s.2 = s.1 ∧ seed s.2 = true) seed_rows →
  let out := merge_seeds min_score seed_rows accepted in
  (∀ s, s ∈ seed_rows → ∃ r, r ∈ out ∧ Db.id r = s.1 ∧ curated r) ∧
  map Db.id accepted `prefix_of` map Db.id out ∧
  (∀ k, k ∈ drop (length accepted) (map Db.id out) →
        k ∈ map fst seed_rows ∧ k ∉ map Db.id accepted) ∧
  (length out ≤ length accepted + length seed_rows)%nat.
Proof.
  intros Hs. cbv zeta. unfold merge_seeds. revert accepted.
  induction Hs as [|s seeds [Hid Hseed] Hs IH]; intros accepted.
  - cbn [foldl]. split; [intros s Hin; inversion Hin|]. split; [reflexivity|].
    split; [|lia]. intros k Hk. rewrite <- (length_map Db.id), drop_all in Hk. inversion Hk.
  - cbn [foldl].
    destruct (merge_seed_row_spec min_score accepted s Hid Hseed)
      as (kept & Hkept & Hres & r0 & Hr0 & Hid0 & Hc0).
    destruct (kept_ids _ _ Hkept) as [Hids _].
    assert (Hlen : length kept = length accepted)
      by (rewrite <- (length_map Db.id kept), Hids; apply length_map).
    destruct (IH (merge_seed_row min_score accepted s)) as (IH1 & [rest IH2] & IH3 & IH4).
    set (acc' := merge_seed_row min_score accepted s) in *.
    set (out := foldl (merge_seed_row min_score) acc' seeds) in *.
    assert (Hacc : ∃ added, map Db.id acc' = map Db.id accepted ++ added ∧
                     (length added ≤ 1)%nat ∧
                     ∀ k, k ∈ added → k = s.1 ∧ k ∉ map Db.id accepted).
    { destruct Hres as [->|[Hnot ->]].
      - exists []. rewrite app_nil_r. split; [exact Hids|]. split; [simpl; lia|].
        intros k Hk. inversion Hk.
      - exists [s.1]. rewrite map_app, Hids. cbn [map].
        change (Db.id (seeded min_score s.2)) with (Db.id s.2). rewrite Hid.
        split; [reflexivity|]. split; [simpl; lia|].
        intros k Hk. apply list_elem_of_singleton in Hk as ->. auto. }
    destruct Hacc as (added & Hacc & Hadd1 & Hadd2).
    assert (Hlen' : length acc' = (length accepted + length added)%nat).
    { rewrite <- (length_map Db.id acc'), Hacc, length_app, length_map. reflexivity. }
    split; [|split; [|split]].
    + intros s' Hs'. apply elem_of_cons in Hs' as [->|Hs']; [|apply IH1, Hs'].
      destruct (curated_persists min_score seeds Hs acc' r0 Hr0 Hc0) as (r' & Hr' & Hid' & Hc').
      exists r'. split; [exact Hr'|]. split; [congruence|exact Hc'].
    + exists (added ++ rest). rewrite IH2, Hacc, <- app_assoc. reflexivity.
    + intros k Hk. rewrite IH2, Hacc, <- app_assoc in Hk.
      rewrite <- (length_map Db.id accepted), drop_app_length in Hk.
      apply elem_of_app in Hk as [Hk|Hk].
      * destruct (Hadd2 k Hk) as [-> Hnot]. split; [left|exact Hnot].
      * assert (Hk' : k ∈ drop (length acc') (map Db.id out)).
        { rewrite IH2, <- (length_map Db.id acc'), drop_app_length. exact Hk. }
        destruct (IH3 k Hk') as [H1 H2]. split; [right; exact H1|].
        intros Hin. apply H2. rewrite Hacc. apply elem_of_app. left. exact Hin.
    + cbn [length]. lia.
Qed.

Lemma merge_seeds_spec_witness :
  ∃ r, r ∈ merge_seeds 8 [("doi:10.1/s", Cases.seed_row)] [Samples.cites_a] ∧
       Db.id r = "doi:10.1/s" ∧ curated r.
Proof.
  destruct (merge_seeds_spec 8 [("doi:10.1/s", Cases.seed_row)] [Samples.cites_a]) as (H & _).
  - constructor; [split; reflexivity|constructor].
  - apply (H ("doi:10.1/s", Cases.seed_row)). left.
Defined.

(** *** The seed file *)

Lemma canonical_paper_id_nonempty (d a o : option string) (t : string) (y : option Z) :
  canonical_paper_id d a o t y ≠ "".
Proof.
  unfold canonical_paper_id.
  destruct (otruthy d); [discriminate|]. destruct (otruthy a); [discriminate|].
  destruct (otruthy o); discriminate.
Qed.

Lemma put_spec (pid : string) (v : paper) (out : list (string * paper)) :
  (∀ k, k ∈ map fst (put pid v out) ↔ k = pid ∨ k ∈ map fst out) ∧
  (NoDup (map fst out) → NoDup (map fst (put pid v out))) ∧
  (∀ s, s ∈ put pid v out → s = (pid, v) ∨ s ∈ out).
Proof.
  induction out as [|[k x] out (IH1 & IH2 & IH3)]; cbn [put].
  - split; [|split].
    + intros k. cbn [map fst]. rewrite elem_of_cons. tauto.
    + intros _. apply NoDup_singleton.
    + intros s Hs. left. apply list_elem_of_singleton in Hs. exact Hs.
  - destruct (str_eqb k pid) eqn:E.
    + apply str_eqb_eq in E. subst k. split; [|split].
      * intros k. cbn [map fst]. rewrite !elem_of_cons. tauto.
      * cbn [map fst]. auto.
      * intros s Hs. apply elem_of_cons in Hs as [->|Hs]; [left; reflexivity|].
        right. right. exact Hs.
    + apply str_eqb_neq in E. split; [|split].
      * intros k'. cbn [map fst]. rewrite !elem_of_cons, IH1. tauto.
      * cbn [map fst]. rewrite !NoDup_cons, IH1. intros [Hk Hn].
        split; [|apply IH2, Hn]. intros [->|Hin]; [apply E; reflexivity|exact (Hk Hin)].
      * intros s Hs. apply elem_of_cons in Hs as [->|Hs]; [right; left|].
        destruct (IH3 s Hs) as [->|Hin]; [left; reflexivity|right; right; exact Hin].
Qed.

Lemma merge_seed_fold (rows : list paper) (out : list (string * paper)) :
  let seeds := foldl (fun out row => put (seed_of_row row).1 (seed_of_row row).2 out) out rows in
  (NoDup (map fst out) → NoDup (map fst seeds)) ∧
  (∀ k, k ∈ map fst seeds ↔ k ∈ map fst out ∨ ∃ row, row ∈ rows ∧ k = (seed_of_row row).1) ∧
  (∀ s, s ∈ seeds → s ∈ out ∨ ∃ row, row ∈ rows ∧ s = seed_of_row row).
Proof.
  cbv zeta. revert out. induction rows as [|row rows IH]; intros out; cbn [foldl].
  - split; [auto|]. split.
    + intros k. split; [auto|]. intros [H|(row & Hrow & _)]; [exact H|inversion Hrow].
    + auto.
  - destruct (put_spec (seed_of_row row).1 (seed_of_row row).2 out) as (P1 & P2 & P3).
    destruct (IH (put (seed_of_row row).1 (seed_of_row row).2 out)) as (I1 & I2 & I3).
    split; [auto|]. split.
    + intros k. rewrite I2, P1. split.
      * intros [[->|H]|(r & Hr & ->)].
        -- right. exists row. split; [left|reflexivity].
        -- left. exact H.
        -- right. exists r. split; [right; exact Hr|reflexivity].
      * intros [H|(r & Hr & ->)]; [left; right; exact H|].
        apply elem_of_cons in Hr as [->|Hr]; [left; left; reflexivity|].
        right. exists r. split; [exact Hr|reflexivity].
    + intros s Hs. destruct (I3 s Hs) as [Hin|(r & Hr & ->)].
      * destruct (P3 s Hin) as [->|Hout]; [|left; exact Hout].
        right. exists row. split; [left|]. destruct (seed_of_row row); reflexivity.
      * right. exists r. split; [right; exact Hr|reflexivity].
Qed.

Lemma seed_of_row_spec (row : paper) :
  let s := seed_of_row row in
  s.1 ≠ "" ∧ Db.id s.2 = s.1 ∧ seed s.2 = true ∧
  (truthy (Db.id row) = true → s.1 = Db.id row) ∧
  doi s.2 = normalize_doi (doi row) ∧ arxiv_id s.2 = normalize_arxiv (arxiv_id row) ∧
  clean_set (tags s.2) ∧ Forall (fun a => a ≠ "") (authors s.2).
Proof.
  cbv zeta. unfold seed_of_row. cbn [fst snd Db.id seed doi arxiv_id tags authors].
  split; [|split; [reflexivity|split; [reflexivity|split; [|split; [reflexivity|split; [reflexivity|split]]]]]].
  - destruct (truthy (Db.id row)) eqn:E; [apply truthy_nonempty, E|].
    apply canonical_paper_id_nonempty.
  - intros ->. reflexivity.
  - apply clean_sorted_set. intros x Hx.
    apply list_elem_of_fmap in Hx as (t & -> & Ht). apply list_elem_of_filter in Ht as [Ht _].
    apply truthy_nonempty. rewrite truthy_lower. exact Ht.
  - apply Forall_forall. intros a Ha. apply list_elem_of_filter in Ha as [Ha _].
    apply truthy_nonempty, Ha.
Qed.

(** X29.  The dict of seeds has one entry for each identifier of the seed file:
    every row of the file is found under its own identifier or, when it has
    none, under the canonical identifier of its cleaned fields; the
    identifiers are not empty and each entry carries its key as its
    identifier, is marked as a seed and has clean tags and authors.  So every
    row of the seed file is among the accepted rows after the seeds are
    merged, marked as curated. *)
Theorem merge_seed_spec (rows : list paper) :
  let seeds := merge_seed rows in
  NoDup (map fst seeds) ∧
  (∀ row, row ∈ rows → (seed_of_row row).1 ∈ map fst seeds) ∧
  Forall (fun s => s.1 ≠ "" ∧ Db.id s.2 = s.1 ∧ seed s.2 = true ∧
                   clean_set (tags s.2) ∧ Forall (fun a => a ≠ "") (authors s.2) ∧
                   ∃ row, row ∈ rows ∧ s = seed_of_row row) seeds ∧
  ∀ min_score accepted row, row ∈ rows →
    ∃ r, r ∈ merge_seeds min_score seeds accepted ∧
         Db.id r = (if truthy (Db.id row) then Db.id row
                    else canonical_paper_id (normalize_doi (doi row))
                           (normalize_arxiv (arxiv_id row)) (openalex_id row)
                           (title row) (year row)) ∧
         curated r.
Proof.
  cbv zeta. unfold merge_seed.
  destruct (merge_seed_fold rows []) as (F1 & F2 & F3). cbv zeta in F1, F2, F3.
  set (seeds := foldl _ [] rows) in *.
  assert (Hkeys : ∀ row, row ∈ rows → (seed_of_row row).1 ∈ map fst seeds).
  { intros row Hrow. apply F2. right. exists row. split; [exact Hrow|reflexivity]. }
  assert (Hall : Forall (fun s => s.1 ≠ "" ∧ Db.id s.2 = s.1 ∧ seed s.2 = true ∧
                   clean_set (tags s.2) ∧ Forall (fun a => a ≠ "") (authors s.2) ∧
                   ∃ row, row ∈ rows ∧ s = seed_of_row row) seeds).
  { apply Forall_forall. intros s Hs. destruct (F3 s Hs) as [Hin|(row & Hrow & ->)]; [inversion Hin|].
    destruct (seed_of_row_spec row) as (H1 & H2 & H3 & _ & _ & _ & H4 & H5).
    repeat (split; [assumption|]). exists row. split; [exact Hrow|reflexivity]. }
  split; [apply F1; constructor|]. split; [exact Hkeys|]. split; [exact Hall|].
  intros min_score accepted row Hrow.
  assert (Hs : Forall (fun s => Db.id s.2 = s.1 ∧ seed s.2 = true) seeds).
  { eapply Forall_impl; [exact Hall|]. intros s (_ & H2 & H3 & _). auto. }
  specialize (Hkeys row Hrow). apply list_elem_of_fmap in Hkeys as (s & Hk & Hin).
  destruct (merge_seeds_all_curated min_score seeds accepted Hs s Hin) as (r & Hr & Hid & Hc).
  exists r. split; [exact Hr|]. split; [|exact Hc].
  rewrite Hid, <- Hk. reflexivity.
Qed.

(** *** The order of the output *)

Lemma ltb_slt (x y : string) : String.ltb x y = true ↔ slt x y.
Proof. unfold String.ltb, slt. destruct (String.compare x y); split; congruence. Qed.

Lemma key_lt_before (a b : paper) : key_lt a b = true ↔ before a b.
Proof.
  unfold key_lt, before.
  destruct (Qeq_bool (relevance_score a) (relevance_score b)) eqn:Eq; cbn [negb].
  - apply Qeq_bool_iff in Eq.
    destruct (Z.eqb_spec (cited_by_count a) (cited_by_count b)) as [Ec|Ec]; cbn [negb].
    + destruct (Z.eqb_spec (default 0 (year a)) (default 0 (year b))) as [Ey|Ey]; cbn [negb].
      * rewrite ltb_slt.
        split; [intros H; right; split; [exact Eq|]; right; split; [exact Ec|]; right;
                split; [exact Ey|exact H]|].
        intros [H1|[_ [H2|[_ [H3|[_ H4]]]]]]; [Lqa.lra|lia|lia|exact H4].
      * rewrite Z.ltb_lt. split; [intros H; right; split; [exact Eq|]; right; split; [exact Ec|]; left; lia|].
        intros [H1|[_ [H2|[_ [H3|[H4 _]]]]]]; [Lqa.lra|lia|lia|contradiction].
    + rewrite Z.ltb_lt. split; [intros H; right; split; [exact Eq|]; left; lia|].
      intros [H1|[_ [H2|[H3 _]]]]; [Lqa.lra|lia|contradiction].
  - assert (Hne : ¬ (relevance_score a == relevance_score b)%Q).
    { intros H. apply Qeq_bool_iff in H. congruence. }
    pose proof (Qlt_bool_spec (- relevance_score a) (- relevance_score b)) as Hs.
    destruct (Qlt_bool (- relevance_score a) (- relevance_score b)).
    + split; [intros _; left; Lqa.lra|reflexivity].
    + split; [discriminate|]. intros [H1|[H2 _]]; [Lqa.lra|contradiction].
Qed.

Lemma slt_cases (x y : string) : slt x y ∨ x = y ∨ slt y x.
Proof.
  unfold slt. destruct (String.compare x y) eqn:E; [|auto|].
  - right. left. apply String.compare_eq_iff, E.
  - right. right. apply compare_gt_lt, E.
Qed.

Lemma before_asym (a b : paper) : before a b → ¬ before b a.
Proof.
  unfold before. intros H H'.
  destruct H as [H1|[Hq [H2|[Hc [H3|[Hy H4]]]]]];
    destruct H' as [H1'|[Hq' [H2'|[Hc' [H3'|[Hy' H4']]]]]]; try Lqa.lra; try lia.
  apply (slt_irrefl (lower (title a))). eapply slt_trans; eassumption.
Qed.

Lemma before_trans (a b c : paper) : ¬ before b a → ¬ before c b → ¬ before c a.
Proof.
  unfold before. intros H1 H2 H3.
  destruct (Qlt_le_dec (relevance_score a) (relevance_score b)) as [Hab|Hab];
    [apply H1; left; exact Hab|].
  destruct (Qlt_le_dec (relevance_score b) (relevance_score c)) as [Hbc|Hbc];
    [apply H2; left; exact Hbc|].
  destruct H3 as [H3|[Hq H3]]; [Lqa.lra|].
  assert (Hqab : (relevance_score b == relevance_score a)%Q) by Lqa.lra.
  assert (Hqbc : (relevance_score c == relevance_score b)%Q) by Lqa.lra.
  destruct (Z_lt_le_dec (cited_by_count a) (cited_by_count b)) as [Hcab|Hcab];
    [apply H1; right; split; [exact Hqab|left; exact Hcab]|].
  destruct (Z_lt_le_dec (cited_by_count b) (cited_by_count c)) as [Hcbc|Hcbc];
    [apply H2; right; split; [exact Hqbc|left; exact Hcbc]|].
  destruct H3 as [H3|[Hc H3]]; [lia|].
  assert (Hcab' : cited_by_count b = cited_by_count a) by lia.
  assert (Hcbc' : cited_by_count c = cited_by_count b) by lia.
  destruct (Z_lt_le_dec (default 0 (year a)) (default 0 (year b))) as [Hyab|Hyab];
    [apply H1; right; split; [exact Hqab|right; split; [exact Hcab'|left; exact Hyab]]|].
  destruct (Z_lt_le_dec (default 0 (year b)) (default 0 (year c))) as [Hybc|Hybc];
    [apply H2; right; split; [exact Hqbc|right; split; [exact Hcbc'|left; exact Hybc]]|].
  destruct H3 as [H3|[Hy H3]]; [lia|].
  assert (Hyab' : default 0 (year b) = default 0 (year a)) by lia.
  assert (Hybc' : default 0 (year c) = default 0 (year b)) by lia.
  destruct (slt_cases (lower (title b)) (lower (title a))) as [Hs|[Hs|Hs]].
  - apply H1. right. split; [exact Hqab|]. right. split; [exact Hcab'|]. right. auto.
  - rewrite <- Hs in H3. apply H2. right. split; [exact Hqbc|]. right. split; [exact Hcbc'|].
    right. auto.
  - apply H2. right. split; [exact Hqbc|]. right. split; [exact Hcbc'|]. right.
    split; [exact Hybc'|]. eapply slt_trans; eassumption.
Qed.

(** X30.  The papers of the database are those accepted, in the order of
    their keys: no paper comes before one whose key is smaller, so that the
    relevance never goes up along the list, and among papers of equal
    relevance the citation count never does. *)
Theorem sort_accepted_spec (accepted : list paper) :
  let out := sort_accepted accepted in
  out ≡ₚ accepted ∧
  StronglySorted (fun a b => ¬ before b a) out ∧
  StronglySorted (fun a b => (relevance_score b <= relevance_score a)%Q ∧
                             ((relevance_score a == relevance_score b)%Q →
                              cited_by_count b ≤ cited_by_count a)) out.
Proof.
  cbv zeta. unfold sort_accepted. split; [apply stable_sort_perm|].
  assert (Hs : StronglySorted (fun a b => negb (key_lt b a) = true)
                 (stable_sort (fun a b => negb (key_lt b a)) accepted)).
  { apply stable_sort_sorted.
    - intros a b H. apply negb_false_iff, key_lt_before in H.
      apply negb_true_iff. destruct (key_lt a b) eqn:E; [|reflexivity].
      apply key_lt_before in E. destruct (before_asym _ _ H E).
    - intros a b c H1 H2. apply negb_true_iff in H1, H2. apply negb_true_iff.
      destruct (key_lt c a) eqn:E; [|reflexivity]. apply key_lt_before in E.
      exfalso. apply (before_trans a b c); [| |exact E]; intros H; apply key_lt_before in H; congruence. }
  assert (Hs' : StronglySorted (fun a b => ¬ before b a)
                  (stable_sort (fun a b => negb (key_lt b a)) accepted)).
  { eapply StronglySorted_weaken; [|exact Hs]. intros a b H Hb.
    apply key_lt_before in Hb. cbv beta in H. rewrite Hb in H. discriminate. }
  split; [exact Hs'|].
  eapply StronglySorted_weaken; [|exact Hs']. intros a b H. unfold before in H.
  destruct (Qlt_le_dec (relevance_score a) (relevance_score b)) as [Hlt|Hle];
    [destruct H; left; exact Hlt|].
  split; [exact Hle|]. intros Heq.
  destruct (Z_lt_le_dec (cited_by_count a) (cited_by_count b)) as [Hc|Hc]; [|exact Hc].
  destruct H. right. split; [symmetry; exact Heq|left; exact Hc].
Qed.
